(** * Citation-graph engine: a shallow embedding and its properties

    The repository ships two versions of [buildGraph]:
    - the multi-level frontier expansion (module [Engine] below; it owns
      [isTemporallyConsistent], [getTopReferences], [expandSide] and the
      final pruning), and
    - the single-level [graph.js] (module [Legacy]; one level on each side,
      no temporal filter, a year tie-break in [sortByInfluence], and a
      per-side cap of 20).
    Both consume the metadata adapter of [openalex.js], which is embedded
    over an abstract transport [requestOpenAlex].  The handler of [/graph]
    and the origin check of [index.js], and the text helpers of
    [resolveWork], are embedded as well (modules [Route], [Cors] and
    [Resolve]); the scoring of search results and [computeNodeSize] work on
    floating-point numbers and are left to the host, as are the collation
    of [localeCompare], the case mapping of [toLowerCase] on the titles
    that [tokenize] reads, and the matcher behind [RegExp.test]. *)

From Stdlib Require Import String Ascii List ZArith Bool Lia Arith Permutation Sorted.
Import ListNotations.
Local Open Scope string_scope.
Local Open Scope list_scope.
Local Open Scope Z_scope.

(* ===================================================================== *)
(** ** JavaScript primitives used by the code *)
(* ===================================================================== *)

(** A JavaScript number, as far as the code needs it: the integers that the
    provider's JSON carries, plus the three non-finite values. *)
Inductive JsNumber : Type :=
| Finite (z : Z)
| NaN
| PosInfinity
| NegInfinity.

Definition Number_isFinite (n : JsNumber) : bool :=
  match n with Finite _ => true | _ => false end.

(** [n < 0], the test [Array.prototype.sort] applies to a comparator's
    result. *)
Definition isNegative (n : JsNumber) : bool :=
  match n with
  | Finite z => z <? 0
  | NegInfinity => true
  | _ => false
  end.

(** [b - a] on the values above. *)
Definition jsSub (b a : JsNumber) : JsNumber :=
  match b, a with
  | Finite x, Finite y => Finite (x - y)
  | NaN, _ | _, NaN => NaN
  | PosInfinity, PosInfinity => NaN
  | NegInfinity, NegInfinity => NaN
  | PosInfinity, _ => PosInfinity
  | NegInfinity, _ => NegInfinity
  | Finite _, PosInfinity => NegInfinity
  | Finite _, NegInfinity => PosInfinity
  end.

(** [a !== b] on numbers ([NaN] differs from everything). *)
Definition jsNumNeq (a b : JsNumber) : bool :=
  match a, b with
  | Finite x, Finite y => negb (x =? y)
  | PosInfinity, PosInfinity => false
  | NegInfinity, NegInfinity => false
  | _, _ => true
  end.

(** [Number(v)] for a year field, which is [null] or an integer:
    [Number(null)] is [0]. *)
Definition Number_ofYear (y : option Z) : JsNumber :=
  match y with
  | None => Finite 0
  | Some z => Finite z
  end.

(** [Number.isFinite(v) ? v : -Infinity] for a year field:
    [Number.isFinite] does not coerce, so [null] is not finite. *)
Definition yearOrNegInfinity (y : option Z) : JsNumber :=
  match y with
  | None => NegInfinity
  | Some z => Finite z
  end.

(** *** Strings *)

Definition isDigit (c : ascii) : bool :=
  let n := nat_of_ascii c in (48 <=? n)%nat && (n <=? 57)%nat.

Definition isWhiteSpace (c : ascii) : bool :=
  let n := nat_of_ascii c in
  ((9 <=? n)%nat && (n <=? 13)%nat) || (n =? 32)%nat || (n =? 160)%nat.

Definition digitValue (c : ascii) : Z := Z.of_nat (nat_of_ascii c) - 48.

Fixpoint trimStart (s : string) : string :=
  match s with
  | String c r => if isWhiteSpace c then trimStart r else s
  | EmptyString => EmptyString
  end.

Fixpoint trimEnd (s : string) : string :=
  match s with
  | EmptyString => EmptyString
  | String c r =>
      match trimEnd r with
      | EmptyString => if isWhiteSpace c then EmptyString else String c EmptyString
      | r' => String c r'
      end
  end.

Definition trim (s : string) : string := trimEnd (trimStart s).

Fixpoint takeDigits (s : string) : string :=
  match s with
  | String c r => if isDigit c then String c (takeDigits r) else EmptyString
  | EmptyString => EmptyString
  end.

(** Value of a string of decimal digits, most significant first. *)
Fixpoint digitsValue (acc : Z) (s : string) : Z :=
  match s with
  | String c r => digitsValue (10 * acc + digitValue c) r
  | EmptyString => acc
  end.

Definition toUpperChar (c : ascii) : ascii :=
  let n := nat_of_ascii c in
  if (97 <=? n)%nat && (n <=? 122)%nat then ascii_of_nat (n - 32) else c.

Fixpoint toUpperCase (s : string) : string :=
  match s with
  | String c r => String (toUpperChar c) (toUpperCase r)
  | EmptyString => EmptyString
  end.

(** [a < b] on strings compares code units lexicographically. *)
Definition strLt (a b : string) : bool := String.ltb a b.

(** *** [Number.parseInt(value, 10)] *)

(** What reaches [clampInteger]: a query parameter (absent, or a string) or
    a number already clamped by the route handler.  [JsNum] carries an
    integer of magnitude below 10^21, which [ToString] renders in plain
    decimal. *)
Inductive JsValue : Type :=
| JsUndefined
| JsString (s : string)
| JsNum (n : Z).

Definition digitChar (d : Z) : ascii := ascii_of_nat (Z.to_nat (48 + d)).

Fixpoint decimalDigits (fuel : nat) (n : Z) (acc : string) : string :=
  match fuel with
  | O => acc
  | S fuel' =>
      let acc' := String (digitChar (n mod 10)) acc in
      if n / 10 =? 0 then acc' else decimalDigits fuel' (n / 10) acc'
  end.

Definition ToString (v : JsValue) : string :=
  match v with
  | JsUndefined => "undefined"
  | JsString s => s
  | JsNum n =>
      let body := decimalDigits 22 (Z.abs n) EmptyString in
      if n <? 0 then String "-" body else body
  end.

(** The largest magnitude that still rounds to a finite double. *)
Definition doubleOverflow : Z := 2 ^ 1024 - 2 ^ 970.

(** [parseInt] reads an optional sign and the longest prefix of decimal
    digits after leading white space.  The mathematical value is kept
    exact: a double rounds it monotonically and leaves every integer up to
    2^53 alone, so the clamp that follows cannot tell the difference; a
    value too large for a double is an infinity. *)
Definition parseInt10 (v : JsValue) : JsNumber :=
  let s := trimStart (ToString v) in
  let '(negative, body) :=
    match s with
    | String "-" r => (true, r)
    | String "+" r => (false, r)
    | _ => (false, s)
    end in
  match takeDigits body with
  | EmptyString => NaN
  | ds =>
      let n := digitsValue 0 ds in
      if doubleOverflow <=? n
      then (if negative then NegInfinity else PosInfinity)
      else Finite (if negative then - n else n)
  end.

(** *** Arrays *)

(** [Array.prototype.sort(cmp)] is stable; for a consistent comparator its
    result is the one a stable insertion sort gives. [cmp a b < 0] puts [a]
    first. *)
Section Sort.
Variable A : Type.
Variable cmp : A -> A -> JsNumber.

Fixpoint insertSorted (x : A) (l : list A) : list A :=
  match l with
  | [] => [x]
  | y :: l' =>
      if isNegative (cmp y x) then y :: insertSorted x l' else x :: y :: l'
  end.

Fixpoint jsSort (l : list A) : list A :=
  match l with
  | [] => []
  | x :: l' => insertSorted x (jsSort l')
  end.
End Sort.
Arguments insertSorted {A} cmp x l.
Arguments jsSort {A} cmp l.

(** [filter(Boolean)] after a [map] that may give [undefined] or [null]. *)
Fixpoint filterDefined {A : Type} (l : list (option A)) : list A :=
  match l with
  | [] => []
  | Some x :: l' => x :: filterDefined l'
  | None :: l' => filterDefined l'
  end.

(** *** [Map] and [Set] with string keys

    Both iterate in insertion order; [set] on a present key keeps its
    position. *)
Module JsMap.
Definition t (V : Type) : Type := list (string * V).

Definition empty {V : Type} : t V := [].

Fixpoint get {V : Type} (m : t V) (k : string) : option V :=
  match m with
  | [] => None
  | (k', v) :: m' => if String.eqb k' k then Some v else get m' k
  end.

Definition has {V : Type} (m : t V) (k : string) : bool :=
  match get m k with Some _ => true | None => false end.

Fixpoint set {V : Type} (m : t V) (k : string) (v : V) : t V :=
  match m with
  | [] => [(k, v)]
  | (k', v') :: m' =>
      if String.eqb k' k then (k', v) :: m' else (k', v') :: set m' k v
  end.

Definition values {V : Type} (m : t V) : list V := map snd m.

Definition keys {V : Type} (m : t V) : list string := map fst m.

(** [new Map(pairs)] *)
Definition ofPairs {V : Type} (l : list (string * V)) : t V :=
  fold_left (fun m kv => set m (fst kv) (snd kv)) l empty.
End JsMap.

Module JsSet.
Definition t : Type := list string.

Definition empty : t := [].

Definition has (s : t) (k : string) : bool :=
  existsb (String.eqb k) s.

Definition add (s : t) (k : string) : t :=
  if has s k then s else s ++ [k].

(** [new Set(items)] *)
Definition ofList (l : list string) : t := fold_left add l empty.
End JsSet.

(* ===================================================================== *)
(** ** Data model *)
(* ===================================================================== *)

(** A provider record as the JSON carries it.  An absent or empty string
    field is the empty string (both are falsy). *)
Module Raw.
Record t : Type := mk {
  id : string;
  display_name : string;
  publication_year : option Z;
  cited_by_count : option Z;      (* [None]: not a finite number *)
  referenced_works : option (list string); (* [None]: not an array *)
  authorships : list string;      (* author display names; empty = absent *)
  primary_source : string;
  doi : string
}.
End Raw.

Module Work.
Record t : Type := mk {
  id : string;
  title : string;
  year : option Z;                (* [None] is [null] *)
  cited_by_count : Z;
  authors : list string;
  venue : string;
  openalex_url : string;
  referenced_works : list string;
  doi : option string
}.
End Work.

Inductive Side : Type := center | backward | forward | both.

Inductive LinkType : Type := references | cited_by.

Definition Side_eqb (a b : Side) : bool :=
  match a, b with
  | center, center | backward, backward | forward, forward | both, both => true
  | _, _ => false
  end.

Definition LinkType_name (t : LinkType) : string :=
  match t with
  | references => "references"
  | cited_by => "cited_by"
  end.

Module Node.
Record t : Type := mk {
  id : string;
  title : string;
  year : option Z;
  cited_by_count : Z;
  authors : list string;
  venue : string;
  openalex_url : string;
  side : Side;
  depth : Z;
  size : Z                        (* thousandths, see [computeNodeSize] *)
}.
End Node.

Module Link.
Record t : Type := mk {
  source : string;
  target : string;
  type : LinkType;
  direction : Side
}.
End Link.

(** [new Error(message, { cause })]; a transport error carries no cause. *)
Module Error.
Record t : Type := mk {
  message : string;
  cause : option string
}.
End Error.

(* ===================================================================== *)
(** ** The metadata adapter ([openalex.js]) *)
(* ===================================================================== *)

(** The query a request URL carries (the base URL, the field selection and
    the contact parameter are the same on every call). *)
Inductive Request : Type :=
| FilterOpenAlexId (ids : list string) (perPage : nat)
| FilterCites (id : string) (perPage : Z) (page : Z).

Inductive Response : Type :=
| HttpError (status : Z) (body : string)
| Results (results : list Raw.t).

Inductive Outcome (A : Type) : Type :=
| Returned (a : A)
| Thrown (e : Error.t).
Arguments Returned {A} a.
Arguments Thrown {A} e.

(** Computations that may throw and that issue provider requests; the log
    lists the requests issued so far, oldest first. *)
Definition Fetch (A : Type) : Type := list Request -> Outcome A * list Request.

Definition ret {A : Type} (a : A) : Fetch A := fun log => (Returned a, log).

Definition throw {A : Type} (e : Error.t) : Fetch A := fun log => (Thrown e, log).

Definition bind {A B : Type} (c : Fetch A) (k : A -> Fetch B) : Fetch B :=
  fun log =>
    match c log with
    | (Returned a, log') => k a log'
    | (Thrown e, log') => (Thrown e, log')
    end.

Notation "x <- c ;; k" := (bind c (fun x => k))
  (at level 61, c at next level, right associativity).
Notation "' pat <- c ;; k" := (bind c (fun x => match x with pat => k end))
  (at level 61, pat pattern, c at next level, right associativity).

(** [await Promise.all(items.map(f))]: the results keep the order of the
    items whatever order the tasks finish in; the tasks are issued here in
    item order. *)
Fixpoint promiseAll {A B : Type} (f : A -> Fetch B) (items : list A)
  : Fetch (list B) :=
  match items with
  | [] => ret []
  | x :: rest =>
      y <- f x ;;
      ys <- promiseAll f rest ;;
      ret (y :: ys)
  end.

Definition run {A : Type} (c : Fetch A) : Outcome A * list Request := c [].

Definition nonEmpty (s : string) : bool :=
  match s with EmptyString => false | _ => true end.

(** [s || fallback] for a string. *)
Definition orElse (s fallback : string) : string :=
  if nonEmpty s then s else fallback.

Module OpenAlex.

Definition isW (c : ascii) : bool :=
  let n := nat_of_ascii c in (n =? 87)%nat || (n =? 119)%nat.

(** Capture group 1 of the leftmost match of
    [/(?:openalex\.org\/|works\/)?(W\d{4,})/i]: neither optional prefix
    contains a [w] followed by a digit, so the group is the first [W] or
    [w] that four or more digits follow, with all of its digits. *)
Fixpoint matchWorkId (s : string) : option string :=
  match s with
  | EmptyString => None
  | String c r =>
      if isW c && (4 <=? String.length (takeDigits r))%nat
      then Some (String c (takeDigits r))
      else matchWorkId r
  end.

Definition normalizeId (id : string) : option string :=
  if negb (nonEmpty id) then None
  else
    let trimmed := trim id in
    match matchWorkId trimmed with
    | None => None
    | Some m => Some ("https://openalex.org/" ++ toUpperCase m)%string
    end.

Definition toOpenAlexId (value : string) : option string := normalizeId value.

Definition normalizeWork (work : Raw.t) : option Work.t :=
  if negb (nonEmpty (Raw.id work)) then None
  else Some {|
    Work.id := Raw.id work;
    Work.title := orElse (Raw.display_name work) "Untitled";
    Work.year :=
      match Raw.publication_year work with
      | Some 0 => None
      | y => y
      end;
    Work.cited_by_count :=
      match Raw.cited_by_count work with Some n => n | None => 0 end;
    Work.authors := firstn 8 (filter nonEmpty (Raw.authorships work));
    Work.venue := orElse (Raw.primary_source work) "Unknown venue";
    Work.openalex_url := Raw.id work;
    Work.referenced_works :=
      match Raw.referenced_works work with Some l => l | None => [] end;
    Work.doi := if nonEmpty (Raw.doi work) then Some (Raw.doi work) else None
  |}.

Fixpoint chunkArray {A : Type} (fuel : nat) (items : list A) (size : nat)
  : list (list A) :=
  match fuel, items with
  | _, [] => []
  | O, _ => []
  | S fuel', _ => firstn size items :: chunkArray fuel' (skipn size items) size
  end.

(** The error [requestOpenAlex] throws on a response that is not [ok]. *)
Definition requestFailed (status : Z) (body : string) : Error.t :=
  {| Error.message :=
       ("OpenAlex request failed (" ++ ToString (JsNum status)
          ++ "): " ++ substring 0 400 body)%string;
     Error.cause := None |}.

Section WithUpstream.
(** The provider: one response per request. *)
Variable upstream : Request -> Response.

Definition requestOpenAlex (req : Request) : Fetch (list Raw.t) :=
  fun log =>
    match upstream req with
    | HttpError status body => (Thrown (requestFailed status body), log ++ [req])
    | Results results => (Returned results, log ++ [req])
    end.

Definition getWorkById (workId : string) : Fetch (option Work.t) :=
  match normalizeId workId with
  | None => ret None
  | Some normalized =>
      results <- requestOpenAlex (FilterOpenAlexId [normalized] 1) ;;
      match results with
      | work :: _ => ret (normalizeWork work)
      | [] => ret None
      end
  end.

Definition getWorksByIds (ids : list string) : Fetch (list Work.t) :=
  let normalizedIds := JsSet.ofList (filterDefined (map normalizeId ids)) in
  match normalizedIds with
  | [] => ret []
  | _ =>
      let chunks := chunkArray (List.length normalizedIds) normalizedIds 40 in
      responses <-
        promiseAll
          (fun chunk =>
             results <- requestOpenAlex
                          (FilterOpenAlexId chunk (List.length chunk)) ;;
             ret (filterDefined (map normalizeWork results)))
          chunks ;;
      ret (concat responses)
  end.

Definition getCitingWorks (workId : string) (limit : Z) : Fetch (list Work.t) :=
  match normalizeId workId with
  | None => ret []
  | Some normalized =>
      results <- requestOpenAlex (FilterCites normalized limit 1) ;;
      ret (filterDefined (map normalizeWork results))
  end.
End WithUpstream.
End OpenAlex.

(* ===================================================================== *)
(** ** What both graph modules share *)
(* ===================================================================== *)

Definition clampInteger (value : JsValue) (min max fallback : Z) : Z :=
  match parseInt10 value with
  | Finite parsed => Z.min max (Z.max min parsed)
  | _ => fallback
  end.

Module GraphParams.
Record t : Type := mk { depth : Z; limit : Z }.
End GraphParams.

Definition parseGraphParams (depth limit : JsValue) : GraphParams.t :=
  {| GraphParams.depth := clampInteger depth 1 3 2;
     GraphParams.limit := clampInteger limit 1 30 20 |}.

(** The key [`${source}->${target}:${type}`]. *)
Definition linkKey (source target : string) (type : LinkType) : string :=
  (source ++ "->" ++ target ++ ":" ++ LinkType_name type)%string.

Definition addLink (linkMap : JsMap.t Link.t)
    (source target : string) (type : LinkType) (direction : Side)
  : JsMap.t Link.t :=
  let key := linkKey source target type in
  if JsMap.has linkMap key then linkMap
  else JsMap.set linkMap key
         {| Link.source := source; Link.target := target;
            Link.type := type; Link.direction := direction |}.

(** The two classified errors of [buildGraph]. *)
Definition invalidWorkId : Error.t :=
  {| Error.message :=
       "Invalid workId. Use an OpenAlex Work ID (for example W2741809807).";
     Error.cause := Some "BAD_WORK_ID" |}.

Definition centerNotFound : Error.t :=
  {| Error.message := "Center work not found in OpenAlex.";
     Error.cause := Some "NOT_FOUND" |}.

(** The route handler of [index.js] for [/graph]: the status it answers
    with. [workId] is the trimmed query parameter. *)
Definition statusOfOutcome {A : Type} (o : Outcome A) : Z :=
  match o with
  | Returned _ => 200
  | Thrown e =>
      match Error.cause e with
      | Some c =>
          if String.eqb c "BAD_WORK_ID" then 400
          else if String.eqb c "NOT_FOUND" then 404
          else 502
      | None => 502
      end
  end.

(* ===================================================================== *)
(** ** The multi-level engine *)
(* ===================================================================== *)

Module Engine.

Definition REFERENCE_CANDIDATE_CAP : nat := 200.

(** [isTemporallyConsistent(parent, child, side)] reads nothing of its two
    records but [year], so it takes the two years; it is called on works
    during the expansion and on nodes at the end. *)
Definition isTemporallyConsistent (parentYear childYear : option Z)
    (side : LinkType) : bool :=
  let parentYear := Number_ofYear parentYear in
  let childYear := Number_ofYear childYear in
  if negb (Number_isFinite parentYear) || negb (Number_isFinite childYear)
  then true
  else
    match parentYear, childYear with
    | Finite p, Finite c =>
        match side with
        | references => c <=? p
        | cited_by => c >=? p
        end
    | _, _ => true
    end.

Definition isLinkTemporallyConsistent (link : Link.t)
    (nodeMap : JsMap.t Node.t) : bool :=
  match JsMap.get nodeMap (Link.source link),
        JsMap.get nodeMap (Link.target link) with
  | Some source, Some target =>
      isTemporallyConsistent (Node.year source) (Node.year target)
        (Link.type link)
  | _, _ => false
  end.

Module Meta.
Record t : Type := mk { centerWorkId : string; depth : Z; limit : Z }.
End Meta.

Module Graph.
Record t : Type := mk {
  meta : Meta.t;
  nodes : list Node.t;
  links : list Link.t
}.
End Graph.

(** The three maps a request owns. *)
Record Store : Type := mkStore {
  nodeMap : JsMap.t Node.t;
  linkMap : JsMap.t Link.t;
  workCache : JsMap.t Work.t
}.

Definition emptyStore : Store :=
  {| nodeMap := JsMap.empty; linkMap := JsMap.empty; workCache := JsMap.empty |}.

Record Entry : Type := mkEntry { parent : Work.t; child : Work.t }.

Definition sideOf (side : LinkType) : Side :=
  match side with references => backward | cited_by => forward end.

Definition cacheWork (st : Store) (work : Work.t) : Store :=
  if nonEmpty (Work.id work)
  then {| nodeMap := nodeMap st; linkMap := linkMap st;
          workCache := JsMap.set (workCache st) (Work.id work) work |}
  else st.

Definition getCachedWork (st : Store) (id : string) : option Work.t :=
  JsMap.get (workCache st) id.

Definition mergeSide (existing side : Side) : Side :=
  if Side_eqb existing side || Side_eqb existing center then existing
  else if Side_eqb side center then center
  else both.

(** The pair kept when [entry] meets the pair already stored for its
    child. *)
Definition uniqueByChildStep (m : JsMap.t Entry) (entry : Entry) : JsMap.t Entry :=
  match JsMap.get m (Work.id (child entry)) with
  | None => JsMap.set m (Work.id (child entry)) entry
  | Some existing =>
      if strLt (Work.id (parent entry)) (Work.id (parent existing))
      then JsMap.set m (Work.id (child entry)) entry
      else m
  end.

Definition uniqueByChild (flattened : list Entry) : JsMap.t Entry :=
  fold_left uniqueByChildStep flattened JsMap.empty.

Section WithRuntime.
(** [String.prototype.localeCompare] of the host. *)
Variable localeCompare : string -> string -> JsNumber.
(** [computeNodeSize]: [2.6 * log10(count + 1) + 1.2] to three decimals,
    in thousandths. *)
Variable computeNodeSize : Z -> Z.
Variable upstream : Request -> Response.

Definition influenceOrder (a b : Work.t) : JsNumber :=
  if jsNumNeq (Finite (Work.cited_by_count b)) (Finite (Work.cited_by_count a))
  then jsSub (Finite (Work.cited_by_count b)) (Finite (Work.cited_by_count a))
  else localeCompare (Work.id a) (Work.id b).

Definition sortByInfluence (works : list Work.t) : list Work.t :=
  jsSort influenceOrder works.

Definition entryOrder (a b : Entry) : JsNumber :=
  influenceOrder (child a) (child b).

Definition addNode (st : Store) (work : Work.t) (side : Side) (nodeDepth : Z)
  : Store :=
  let st := cacheWork st work in
  let existing := JsMap.get (nodeMap st) (Work.id work) in
  let next := {|
    Node.id := Work.id work;
    Node.title := Work.title work;
    Node.year := Work.year work;
    Node.cited_by_count := Work.cited_by_count work;
    Node.authors := Work.authors work;
    Node.venue := Work.venue work;
    Node.openalex_url := Work.openalex_url work;
    Node.side := side;
    Node.depth := nodeDepth;
    Node.size := computeNodeSize (Work.cited_by_count work) |} in
  match existing with
  | None =>
      {| nodeMap := JsMap.set (nodeMap st) (Work.id work) next;
         linkMap := linkMap st; workCache := workCache st |}
  | Some existing =>
      {| nodeMap :=
           JsMap.set (nodeMap st) (Work.id work) {|
             Node.id := Node.id next;
             Node.title := Node.title next;
             Node.year := Node.year next;
             Node.cited_by_count := Node.cited_by_count next;
             Node.authors := Node.authors next;
             Node.venue := Node.venue next;
             Node.openalex_url := Node.openalex_url next;
             Node.side := mergeSide (Node.side existing) side;
             Node.depth := Z.min (Node.depth existing) nodeDepth;
             Node.size := Node.size next |};
         linkMap := linkMap st; workCache := workCache st |}
  end.

Definition addLinkTo (st : Store) (source target : string)
    (type : LinkType) (direction : Side) : Store :=
  {| nodeMap := nodeMap st;
     linkMap := addLink (linkMap st) source target type direction;
     workCache := workCache st |}.

Definition getTopReferences (parentWork : Work.t) (sideLimit : nat)
  : Fetch (list Work.t) :=
  let refs := Work.referenced_works parentWork in
  match refs with
  | [] => ret []
  | _ =>
      let candidates := firstn REFERENCE_CANDIDATE_CAP refs in
      works <- OpenAlex.getWorksByIds upstream candidates ;;
      let worksById := JsMap.ofPairs (map (fun work => (Work.id work, work)) works) in
      let ordered := filterDefined (map (fun id => JsMap.get worksById id) refs) in
      ret (firstn sideLimit (sortByInfluence ordered))
  end.

Definition getTopCitations (parentId : string) (sideLimit : nat)
  : Fetch (list Work.t) :=
  rows <- OpenAlex.getCitingWorks upstream parentId
            (Z.min 100 (Z.of_nat sideLimit * 3)) ;;
  ret (firstn sideLimit (sortByInfluence rows)).

Definition getWorkOrFetch (st : Store) (id : string)
  : Fetch (Store * option Work.t) :=
  match getCachedWork st id with
  | Some cached => ret (st, Some cached)
  | None =>
      fetched <- OpenAlex.getWorkById upstream id ;;
      match fetched with
      | Some work => ret (cacheWork st work, fetched)
      | None => ret (st, None)
      end
  end.

(** The parents of a frontier, looked up when a level starts. *)
Fixpoint readFrontier (st : Store) (frontier : list string)
  : Fetch (Store * list (option Work.t)) :=
  match frontier with
  | [] => ret (st, [])
  | parentId :: rest =>
      '(st1, parent) <- getWorkOrFetch st parentId ;;
      '(st2, parents) <- readFrontier st1 rest ;;
      ret (st2, parent :: parents)
  end.

(** The body of one [frontier.map] task once its parent is known. *)
Definition expandParent (side : LinkType) (perParentLimit : nat)
    (parent : option Work.t) : Fetch (list Entry) :=
  match parent with
  | None => ret []
  | Some parent =>
      children <-
        match side with
        | references => getTopReferences parent perParentLimit
        | cited_by => getTopCitations (Work.id parent) perParentLimit
        end ;;
      let filtered :=
        filter (fun child =>
                  isTemporallyConsistent (Work.year parent) (Work.year child) side)
               children in
      ret (map (fun child => {| parent := parent; child := child |}) filtered)
  end.

Definition perParentLimitOf (limit : Z) (frontierLength : nat) : nat :=
  Z.to_nat (Z.max 1 (limit / Z.of_nat frontierLength)).

Definition limitedOf (limit : Z) (flattened : list Entry) : list Entry :=
  firstn (Z.to_nat limit)
    (jsSort entryOrder (JsMap.values (uniqueByChild flattened))).

(** The loop over [limited]: the store after it and the next frontier. *)
Fixpoint commitLevel (st : Store) (nextFrontier : JsSet.t)
    (side : LinkType) (level : Z) (limited : list Entry)
  : Store * JsSet.t :=
  match limited with
  | [] => (st, nextFrontier)
  | entry :: rest =>
      let st1 := addNode st (child entry) (sideOf side) level in
      let st2 := addLinkTo st1 (Work.id (parent entry)) (Work.id (child entry))
                   side (sideOf side) in
      commitLevel st2 (JsSet.add nextFrontier (Work.id (child entry)))
        side level rest
  end.

(** Where one call of [expandSide] stands between two of its
    suspensions: the level it is fetching for, and the parents it read
    when that level started. *)
Record SideRun : Type := mkSideRun {
  level : Z;
  parents : list (option Work.t);
  active : bool
}.

(** Entering an iteration of the level loop: the two loop guards, then
    the cache look-ups of [frontier.map]. *)
Definition enterLevel (depth : Z) (st : Store) (level : Z)
    (frontier : list string) : Fetch (Store * SideRun) :=
  if (level <=? depth) && negb (Nat.eqb (List.length frontier) 0)
  then
    '(st1, parents) <- readFrontier st frontier ;;
    ret (st1, {| level := level; parents := parents; active := true |})
  else ret (st, {| level := level; parents := []; active := false |}).

(** One level of one side, from the fetches of its children to the
    moment the next level suspends. *)
Definition expandLevel (depth limit : Z) (side : LinkType)
    (st : Store) (r : SideRun) : Fetch (Store * SideRun) :=
  if negb (active r) then ret (st, r)
  else
    let perParentLimit := perParentLimitOf limit (List.length (parents r)) in
    expansionSets <- promiseAll (expandParent side perParentLimit) (parents r) ;;
    let flattened := concat expansionSets in
    let limited := limitedOf limit flattened in
    let '(st1, nextFrontier) := commitLevel st JsSet.empty side (level r) limited in
    enterLevel depth st1 (level r + 1) nextFrontier.

(** The two concurrent calls of [expandSide]. *)
Record Expansion : Type := mkExpansion {
  store : Store;
  referencesRun : SideRun;
  citedByRun : SideRun
}.

Definition resume (depth limit : Z) (side : LinkType) (x : Expansion)
  : Fetch Expansion :=
  match side with
  | references =>
      '(st, r) <- expandLevel depth limit references (store x) (referencesRun x) ;;
      ret {| store := st; referencesRun := r; citedByRun := citedByRun x |}
  | cited_by =>
      '(st, r) <- expandLevel depth limit cited_by (store x) (citedByRun x) ;;
      ret {| store := st; referencesRun := referencesRun x; citedByRun := r |}
  end.

(** A schedule names, for each level that completes, the side it belongs
    to.  Resuming a side that has finished changes nothing. *)
Fixpoint resumeAll (depth limit : Z) (schedule : list LinkType) (x : Expansion)
  : Fetch Expansion :=
  match schedule with
  | [] => ret x
  | side :: rest =>
      x1 <- resume depth limit side x ;;
      resumeAll depth limit rest x1
  end.

(** [await Promise.all([expandSide("references"), expandSide("cited_by")])]:
    both calls run to their first suspension, the levels then complete
    in the order the schedule gives, and whatever the schedule leaves
    unfinished is run to the end. *)
Definition expandBothSides (depth limit : Z) (schedule : list LinkType)
    (st : Store) (centerId : string) : Fetch Store :=
  '(st1, r) <- enterLevel depth st 1 [centerId] ;;
  '(st2, c) <- enterLevel depth st1 1 [centerId] ;;
  x <- resumeAll depth limit schedule
         {| store := st2; referencesRun := r; citedByRun := c |} ;;
  x1 <- resumeAll depth limit (repeat references (Z.to_nat depth)) x ;;
  x2 <- resumeAll depth limit (repeat cited_by (Z.to_nat depth)) x1 ;;
  ret (store x2).

Definition connectedNodeIdsOf (centerId : string) (links : list Link.t) : JsSet.t :=
  fold_left
    (fun s link => JsSet.add (JsSet.add s (Link.source link)) (Link.target link))
    links (JsSet.ofList [centerId]).

(** From [const nodes = [...nodeMap.values()]] to the returned object. *)
Definition assemble (centerWork : Work.t) (depth limit : Z) (st : Store) : Graph.t :=
  let nodes := JsMap.values (nodeMap st) in
  let linkCandidates := JsMap.values (linkMap st) in
  let stableNodeMap := JsMap.ofPairs (map (fun node => (Node.id node, node)) nodes) in
  let links :=
    filter (fun link => isLinkTemporallyConsistent link stableNodeMap)
           linkCandidates in
  let connectedNodeIds := connectedNodeIdsOf (Work.id centerWork) links in
  let connectedNodes :=
    filter (fun node => JsSet.has connectedNodeIds (Node.id node)) nodes in
  {| Graph.meta := {| Meta.centerWorkId := Work.id centerWork;
                      Meta.depth := depth; Meta.limit := limit |};
     Graph.nodes := connectedNodes;
     Graph.links := links |}.

Definition buildGraph (schedule : list LinkType)
    (workIdInput : string) (requestedDepth requestedLimit : JsValue)
  : Fetch Graph.t :=
  match OpenAlex.toOpenAlexId workIdInput with
  | None =>
      throw invalidWorkId
  | Some workId =>
      let params := parseGraphParams requestedDepth requestedLimit in
      let depth := GraphParams.depth params in
      let limit := GraphParams.limit params in
      found <- OpenAlex.getWorkById upstream workId ;;
      match found with
      | None =>
          throw centerNotFound
      | Some centerWork =>
          let st := addNode emptyStore centerWork center 0 in
          st1 <- expandBothSides depth limit schedule st (Work.id centerWork) ;;
          ret (assemble centerWork depth limit st1)
      end
  end.
End WithRuntime.
End Engine.

(* ===================================================================== *)
(** ** The single-level [graph.js] *)
(* ===================================================================== *)

Module Legacy.

Definition SIDE_LIMIT_CAP : Z := 20.

Module Meta.
Record t : Type := mk {
  centerWorkId : string;
  depth : Z;
  requestedDepth : Z;
  limit : Z
}.
End Meta.

Module Graph.
Record t : Type := mk {
  meta : Meta.t;
  nodes : list Node.t;
  links : list Link.t
}.
End Graph.

Record Store : Type := mkStore {
  nodeMap : JsMap.t Node.t;
  linkMap : JsMap.t Link.t
}.

Definition mergeSide (existing side : Side) : Side :=
  if Side_eqb existing center || Side_eqb side center then center
  else if negb (Side_eqb existing side) then both
  else existing.

Section WithRuntime.
Variable localeCompare : string -> string -> JsNumber.
Variable computeNodeSize : Z -> Z.
Variable upstream : Request -> Response.

Definition influenceOrder (a b : Work.t) : JsNumber :=
  let aCitedBy := Finite (Work.cited_by_count a) in
  let bCitedBy := Finite (Work.cited_by_count b) in
  if jsNumNeq bCitedBy aCitedBy then jsSub bCitedBy aCitedBy
  else
    let aYear := yearOrNegInfinity (Work.year a) in
    let bYear := yearOrNegInfinity (Work.year b) in
    if jsNumNeq bYear aYear then jsSub bYear aYear
    else localeCompare (Work.id a) (Work.id b).

Definition sortByInfluence (works : list Work.t) : list Work.t :=
  jsSort influenceOrder works.

Definition addNode (st : Store) (work : Work.t) (side : Side) (nodeDepth : Z)
  : Store :=
  let existing := JsMap.get (nodeMap st) (Work.id work) in
  let next := {|
    Node.id := Work.id work;
    Node.title := Work.title work;
    Node.year := Work.year work;
    Node.cited_by_count := Work.cited_by_count work;
    Node.authors := Work.authors work;
    Node.venue := Work.venue work;
    Node.openalex_url := Work.openalex_url work;
    Node.side := side;
    Node.depth := nodeDepth;
    Node.size := computeNodeSize (Work.cited_by_count work) |} in
  match existing with
  | None =>
      {| nodeMap := JsMap.set (nodeMap st) (Work.id work) next;
         linkMap := linkMap st |}
  | Some existing =>
      {| nodeMap :=
           JsMap.set (nodeMap st) (Work.id work) {|
             Node.id := Node.id next;
             Node.title := Node.title next;
             Node.year := Node.year next;
             Node.cited_by_count := Node.cited_by_count next;
             Node.authors := Node.authors next;
             Node.venue := Node.venue next;
             Node.openalex_url := Node.openalex_url next;
             Node.side := mergeSide (Node.side existing) side;
             Node.depth := Z.min (Node.depth existing) nodeDepth;
             Node.size := Node.size next |};
         linkMap := linkMap st |}
  end.

Definition addLinkTo (st : Store) (source target : string)
    (type : LinkType) (direction : Side) : Store :=
  {| nodeMap := nodeMap st;
     linkMap := addLink (linkMap st) source target type direction |}.

(** The two [for ... of] loops. *)
Definition addSide (centerId : string) (type : LinkType) (side : Side)
    (st : Store) (works : list Work.t) : Store :=
  fold_left
    (fun st work =>
       addLinkTo (addNode st work side 1) centerId (Work.id work) type side)
    works st.

Definition buildGraph (workIdInput : string)
    (requestedDepth requestedLimit : JsValue) : Fetch Graph.t :=
  match OpenAlex.toOpenAlexId workIdInput with
  | None =>
      throw invalidWorkId
  | Some workId =>
      let params := parseGraphParams requestedDepth requestedLimit in
      let depth := GraphParams.depth params in
      let limit := GraphParams.limit params in
      let sideLimit := Z.min SIDE_LIMIT_CAP limit in
      found <- OpenAlex.getWorkById upstream workId ;;
      match found with
      | None =>
          throw centerNotFound
      | Some centerWork =>
          let st := addNode {| nodeMap := JsMap.empty; linkMap := JsMap.empty |}
                      centerWork center 0 in
          referenceCandidates <-
            OpenAlex.getWorksByIds upstream (Work.referenced_works centerWork) ;;
          citationCandidates <-
            OpenAlex.getCitingWorks upstream (Work.id centerWork) sideLimit ;;
          let topReferences :=
            firstn (Z.to_nat sideLimit) (sortByInfluence referenceCandidates) in
          let topCitations :=
            firstn (Z.to_nat sideLimit) (sortByInfluence citationCandidates) in
          let st1 := addSide (Work.id centerWork) references backward st topReferences in
          let st2 := addSide (Work.id centerWork) cited_by forward st1 topCitations in
          ret {| Graph.meta := {| Meta.centerWorkId := Work.id centerWork;
                                  Meta.depth := 1;
                                  Meta.requestedDepth := depth;
                                  Meta.limit := sideLimit |};
                 Graph.nodes := JsMap.values (nodeMap st2);
                 Graph.links := JsMap.values (linkMap st2) |}
      end
  end.
End WithRuntime.
End Legacy.

(* ===================================================================== *)
(** ** The route handler of [/graph] ([index.js]) *)
(* ===================================================================== *)

Module Route.

(** What [res.json] is given: the graph, or [{ error }]. *)
Inductive Body (G : Type) : Type :=
| GraphBody (graph : G)
| ErrorBody (error : string).
Arguments GraphBody {G} graph.
Arguments ErrorBody {G} error.

Record Reply (G : Type) : Type := mkReply {
  status : Z;
  body : Body G
}.
Arguments mkReply {G} status body.
Arguments status {G} r.
Arguments body {G} r.

(** A query parameter is absent or a string.  This is
    [`${value || ""}`.trim()]. *)
Definition queryText (value : option string) : string :=
  trim (match value with Some s => s | None => EmptyString end).

(** The parameter as [parseGraphParams] receives it. *)
Definition queryValue (value : option string) : JsValue :=
  match value with Some s => JsString s | None => JsUndefined end.

Section Handler.
Variable G : Type.
(** [buildGraph], as the module loader resolved it. *)
Variable buildGraph : string -> JsValue -> JsValue -> Fetch G.

Definition graphHandler (workIdParam depthParam limitParam : option string)
  : list Request -> Reply G * list Request :=
  fun log =>
    let workId := queryText workIdParam in
    if negb (nonEmpty workId)
    then (mkReply 400 (ErrorBody "Missing required query param: workId"), log)
    else
      let params := parseGraphParams (queryValue depthParam) (queryValue limitParam) in
      match buildGraph workId (JsNum (GraphParams.depth params))
              (JsNum (GraphParams.limit params)) log with
      | (Returned graph, log') => (mkReply 200 (GraphBody graph), log')
      | (Thrown error, log') =>
          match Error.cause error with
          | Some cause =>
              if String.eqb cause "BAD_WORK_ID"
              then (mkReply 400 (ErrorBody (Error.message error)), log')
              else if String.eqb cause "NOT_FOUND"
              then (mkReply 404 (ErrorBody (Error.message error)), log')
              else (mkReply 502
                      (ErrorBody (orElse (Error.message error) "Graph request failed")),
                    log')
          | None =>
              (mkReply 502
                 (ErrorBody (orElse (Error.message error) "Graph request failed")),
               log')
          end
      end.
End Handler.
Arguments graphHandler {G} buildGraph workIdParam depthParam limitParam log.
End Route.

(* ===================================================================== *)
(** ** The text helpers of [resolveWork] ([openalex.js]) *)
(* ===================================================================== *)

Module Resolve.

(** [toLowerCase] on the code units a string holds here (below 256): the
    letters [A-Z] and the accented capitals [U+00C0]-[U+00DE], the
    multiplication sign apart. *)
Definition toLowerChar (c : ascii) : ascii :=
  let n := nat_of_ascii c in
  if ((65 <=? n)%nat && (n <=? 90)%nat)
     || ((192 <=? n)%nat && (n <=? 222)%nat && negb (n =? 215)%nat)
  then ascii_of_nat (n + 32)
  else c.

Fixpoint toLowerCase (s : string) : string :=
  match s with
  | String c r => String (toLowerChar c) (toLowerCase r)
  | EmptyString => EmptyString
  end.

(** The rest of [s] after [pattern], matched as the [i] flag matches a
    pattern of lower-case letters and punctuation. *)
Fixpoint afterPrefix (pattern s : string) : option string :=
  match pattern, s with
  | EmptyString, _ => Some s
  | String p pattern', String c r =>
      if Ascii.eqb (toLowerChar c) p then afterPrefix pattern' r else None
  | String _ _, EmptyString => None
  end.

(** The class [[\s?#]], whose complement a DOI is made of. *)
Definition isDoiStop (c : ascii) : bool :=
  isWhiteSpace c || Ascii.eqb c "?" || Ascii.eqb c "#".

(** The longest run of [[^\s?#]] at the start of a text. *)
Fixpoint takeDoiChars (s : string) : string :=
  match s with
  | String c r => if isDoiStop c then EmptyString else String c (takeDoiChars r)
  | EmptyString => EmptyString
  end.

(** [10\.[^\s?#]+] at the start of a text: what it matches. *)
Definition matchDoiBody (s : string) : option string :=
  match s with
  | String "1" (String "0" (String "." r)) =>
      match takeDoiChars r with
      | EmptyString => None
      | suffix => Some ("10." ++ suffix)%string
      end
  | _ => None
  end.

(** Group 1 of the leftmost match of [/doi\.org\/(10\.[^\s?#]+)/i]. *)
Fixpoint matchDoiUrl (s : string) : option string :=
  match s with
  | EmptyString => None
  | String _ r =>
      match match afterPrefix "doi.org/" s with
            | Some rest => matchDoiBody rest
            | None => None
            end with
      | Some m => Some m
      | None => matchDoiUrl r
      end
  end.

(** Group 1 of [/^(10\.[^\s?#]+)$/i]: the whole text, or no match. *)
Definition matchRawDoi (s : string) : option string :=
  match matchDoiBody s with
  | Some m => if String.eqb m s then Some m else None
  | None => None
  end.

Definition normalizeDoi (input : string) : option string :=
  if negb (nonEmpty input) then None
  else
    let trimmed := trim input in
    match matchDoiUrl trimmed with
    | Some m => Some ("https://doi.org/" ++ toLowerCase m)%string
    | None =>
        match matchRawDoi trimmed with
        | Some m => Some ("https://doi.org/" ++ toLowerCase m)%string
        | None => None
        end
    end.

(** *** [tokenize]

    A title may hold any character, and [toLowerCase] follows the Unicode
    case mapping ([U+212A], the Kelvin sign, becomes [k]; [U+0130] becomes
    [i] followed by [U+0307]).  So [tokenize] is embedded on strings of
    UTF-16 code units, with [String.prototype.toLowerCase] left to the
    host; the two regular expressions have no [u] flag and work on one
    code unit at a time. *)

Definition CodeUnits : Type := list N.

(** The class [[a-z0-9]]. *)
Definition isTokenUnit (u : N) : bool :=
  (((48 <=? u) && (u <=? 57)) || ((97 <=? u) && (u <=? 122)))%N.

(** The class [\s]: the white space and the line terminators of the
    language. *)
Definition isSpaceUnit (u : N) : bool :=
  (((9 <=? u) && (u <=? 13)) || (u =? 32) || (u =? 160) || (u =? 5760)
   || ((8192 <=? u) && (u <=? 8202)) || (u =? 8232) || (u =? 8233)
   || (u =? 8239) || (u =? 8287) || (u =? 12288) || (u =? 65279))%N.

(** [replace(/[^a-z0-9\s]/g, " ")]. *)
Definition replaceOthers (s : CodeUnits) : CodeUnits :=
  map (fun u => if isTokenUnit u || isSpaceUnit u then u else 32%N) s.

(** The first piece of a split, extended by one code unit. *)
Definition extendFirst (u : N) (pieces : list CodeUnits) : list CodeUnits :=
  match pieces with
  | piece :: rest => (u :: piece) :: rest
  | [] => [[u]]
  end.

(** [split(/\s+/)]: a run of white space ends a piece, also an empty one
    at either end of the text.  [inGap] tells that the code unit before
    was white space. *)
Fixpoint splitSpaces (inGap : bool) (s : CodeUnits) : list CodeUnits :=
  match s with
  | [] => [[]]
  | u :: r =>
      if isSpaceUnit u
      then (if inGap then splitSpaces true r else [] :: splitSpaces true r)
      else extendFirst u (splitSpaces false r)
  end.

Definition nonEmptyUnits (s : CodeUnits) : bool :=
  match s with [] => false | _ => true end.

(** The chain from [replace] on, applied to the text in lower case. *)
Definition tokensOfLowered (lowered : CodeUnits) : list CodeUnits :=
  filter nonEmptyUnits (splitSpaces false (replaceOthers lowered)).

Section WithHost.
(** [String.prototype.toLowerCase] of the host. *)
Variable toLowerCase : CodeUnits -> CodeUnits.

Definition tokenize (text : CodeUnits) : list CodeUnits :=
  tokensOfLowered (toLowerCase text).
End WithHost.
End Resolve.

(* ===================================================================== *)
(** ** The origins allowed by [index.js] *)
(* ===================================================================== *)

Module Cors.

(** [replace(/\/$/, "")]: one slash at the very end is dropped. *)
Fixpoint dropFinalSlash (s : string) : string :=
  match s with
  | EmptyString => EmptyString
  | String c EmptyString => if Ascii.eqb c "/" then EmptyString else s
  | String c r => String c (dropFinalSlash r)
  end.

(** [`${origin || ""}`.trim().replace(/\/$/, "")] for an origin that is a
    string or absent. *)
Definition normalizeOrigin (origin : option string) : string :=
  dropFinalSlash (trim (match origin with Some s => s | None => EmptyString end)).

Definition backslash : ascii := ascii_of_nat 92.

(** The class [[.*+?^${}()|[\]\\]]. *)
Definition isRegexSpecial (c : ascii) : bool :=
  existsb (Ascii.eqb c)
    (backslash :: list_ascii_of_string ".*+?^${}()|[]").

(** [value.replace(/[.*+?^${}()|[\]\\]/g, "\\$&")] *)
Fixpoint escapeRegex (value : string) : string :=
  match value with
  | EmptyString => EmptyString
  | String c r =>
      if isRegexSpecial c then String backslash (String c (escapeRegex r))
      else String c (escapeRegex r)
  end.

(** [origin.includes("*")] *)
Fixpoint includesStar (s : string) : bool :=
  match s with
  | EmptyString => false
  | String c r => Ascii.eqb c "*" || includesStar r
  end.

(** [origin.split("*")] *)
Fixpoint splitStar (s : string) : list string :=
  match s with
  | EmptyString => [EmptyString]
  | String c r =>
      if Ascii.eqb c "*" then EmptyString :: splitStar r
      else match splitStar r with
           | piece :: rest => String c piece :: rest
           | [] => [String c EmptyString]
           end
  end.

(** The source of the pattern built for an origin with wildcards. *)
Definition wildcardSource (origin : string) : string :=
  ("^" ++ String.concat ".*" (map escapeRegex (splitStar origin)) ++ "$")%string.

Section WithConfig.
(** [new RegExp(source, "i").test(text)], the host's matcher. *)
Variable regexTest : string -> string -> bool.
(** [config.corsOrigins] *)
Variable corsOrigins : list string.

Definition configuredOrigins : list string :=
  filter nonEmpty (map (fun origin => normalizeOrigin (Some origin)) corsOrigins).

Definition exactOrigins : JsSet.t :=
  JsSet.ofList (filter (fun origin => negb (includesStar origin)) configuredOrigins).

Definition wildcardOriginRegexes : list string :=
  map wildcardSource (filter includesStar configuredOrigins).

Definition isAllowedOrigin (origin : option string) : bool :=
  let normalized := normalizeOrigin origin in
  if negb (nonEmpty normalized) then false
  else if JsSet.has exactOrigins normalized then true
  else existsb (fun regex => regexTest regex normalized) wildcardOriginRegexes.

(** The decision handed to [cors]: [callback(null, true)] or
    [callback(null, false)]. *)
Definition originDecision (origin : option string) : bool :=
  match origin with
  | None => true
  | Some s => if negb (nonEmpty s) then true else isAllowedOrigin origin
  end.
End WithConfig.
End Cors.

(** Two ids are connected when a chain of links, followed in either
    direction, leads from one to the other. *)
Inductive Connected (links : list Link.t) (a : string) : string -> Prop :=
| Connected_here : Connected links a a
| Connected_forth b link :
    Connected links a b -> In link links -> Link.source link = b ->
    Connected links a (Link.target link)
| Connected_back b link :
    Connected links a b -> In link links -> Link.target link = b ->
    Connected links a (Link.source link).

(* ===================================================================== *)
(** ** A small provider to run the code on *)
(* ===================================================================== *)

Module Sample.
(** Code-unit order stands in for the host's collation. *)
Definition localeCompare (a b : string) : JsNumber :=
  match String.compare a b with
  | Lt => Finite (-1)
  | Eq => Finite 0
  | Gt => Finite 1
  end.

Definition computeNodeSize (count : Z) : Z := 0.

Definition record (id : string) (year : option Z) (count : Z)
    (refs : list string) : Raw.t :=
  {| Raw.id := id; Raw.display_name := ""; Raw.publication_year := year;
     Raw.cited_by_count := Some count; Raw.referenced_works := Some refs;
     Raw.authorships := []; Raw.primary_source := ""; Raw.doi := "" |}.

Definition idOf (n : string) : string := ("https://openalex.org/" ++ n)%string.

Fixpoint lookup (records : list Raw.t) (id : string) : option Raw.t :=
  match records with
  | [] => None
  | r :: rest => if String.eqb (Raw.id r) id then Some r else lookup rest id
  end.

Fixpoint citersOf (citers : list (string * list string)) (id : string) : list string :=
  match citers with
  | [] => []
  | (k, l) :: rest => if String.eqb k id then l else citersOf rest id
  end.

(** A provider that answers from one table of records and one table of
    citers. *)
Definition provider (records : list Raw.t) (citers : list (string * list string))
    (req : Request) : Response :=
  match req with
  | FilterOpenAlexId ids perPage =>
      Results (firstn perPage (filterDefined (map (lookup records) ids)))
  | FilterCites id perPage page =>
      Results (firstn (Z.to_nat perPage)
                 (filterDefined (map (lookup records) (citersOf citers id))))
  end.

Definition C : string := idOf "W1000".
Definition A : string := idOf "W1001".
Definition B : string := idOf "W1002".
Definition D : string := idOf "W1003".
Definition E : string := idOf "W1004".
Definition F : string := idOf "W1005".
Definition G : string := idOf "W1006".

(** A seed from 2000 with three references and two citers; [F] is both. *)
Definition records : list Raw.t :=
  [ record C (Some 2000) 100 [A; B; F];
    record A (Some 1990) 50 [D];
    record B (Some 1995) 50 [D; C];
    record D (Some 1980) 10 [];
    record E (Some 2005) 70 [C];
    record F (Some 2000) 5 [];
    record G (Some 2010) 1 [E] ].

Definition citers : list (string * list string) := [ (C, [E; F]); (E, [G]) ].

Definition upstream : Request -> Response := provider records citers.

Definition outcome :=
  Eval vm_compute in
    run (Engine.buildGraph localeCompare computeNodeSize upstream
           [cited_by; references] " w1000 " (JsString "2") (JsString "20")).

Definition emptyGraph : Engine.Graph.t :=
  {| Engine.Graph.meta := {| Engine.Meta.centerWorkId := ""; Engine.Meta.depth := 0;
                             Engine.Meta.limit := 0 |};
     Engine.Graph.nodes := []; Engine.Graph.links := [] |}.

Definition graph : Engine.Graph.t :=
  match fst outcome with Returned g => g | Thrown _ => emptyGraph end.

Definition legacyOutcome :=
  Eval vm_compute in
    run (Legacy.buildGraph localeCompare computeNodeSize upstream
           "W1000" (JsString "2") (JsString "30")).

Definition legacyEmptyGraph : Legacy.Graph.t :=
  {| Legacy.Graph.meta := {| Legacy.Meta.centerWorkId := ""; Legacy.Meta.depth := 0;
                             Legacy.Meta.requestedDepth := 0; Legacy.Meta.limit := 0 |};
     Legacy.Graph.nodes := []; Legacy.Graph.links := [] |}.

Definition legacyGraph : Legacy.Graph.t :=
  match fst legacyOutcome with Returned g => g | Thrown _ => legacyEmptyGraph end.

(** A seed from 2000 whose one reference is dated 2020. *)
Definition H : string := idOf "W2000".

Definition anachronism : Request -> Response :=
  provider [ record C (Some 2000) 100 [H]; record H (Some 2020) 7 [] ] [].

(** A provider whose answers disagree about the seed: the lookup of the
    seed dates it 2000, the batch that fetches it as a reference of [B]
    dates it 1900. *)
Definition disagreeing (req : Request) : Response :=
  match req with
  | FilterOpenAlexId ids _ =>
      if list_eq_dec string_dec ids [C] then
        Results [record C (Some 2000) 100 [A; B]]
      else if list_eq_dec string_dec ids [A; B] then
        Results [record A (Some 1990) 10 [D]; record B (Some 1950) 5 [C; G]]
      else if list_eq_dec string_dec ids [D] then
        Results [record D (Some 1980) 3 []]
      else if list_eq_dec string_dec ids [C; G] then
        Results [record C (Some 1900) 100 [A; B]]
      else Results []
  | FilterCites _ _ _ => Results []
  end.

Definition disagreeingOutcome :=
  Eval vm_compute in
    run (Engine.buildGraph localeCompare computeNodeSize disagreeing
           [] "W1000" (JsString "2") (JsString "20")).

Definition disagreeingGraph : Engine.Graph.t :=
  match fst disagreeingOutcome with Returned g => g | Thrown _ => emptyGraph end.

(** The seed's record as [normalizeWork] gives it. *)
Definition seed : Work.t :=
  {| Work.id := C; Work.title := "Untitled"; Work.year := Some 2000;
     Work.cited_by_count := 100; Work.authors := []; Work.venue := "Unknown venue";
     Work.openalex_url := C; Work.referenced_works := [A; B; F]; Work.doi := None |}.

Definition topReferences : list Work.t :=
  Eval vm_compute in
    match fst (run (Engine.getTopReferences localeCompare upstream seed 2)) with
    | Returned children => children
    | Thrown _ => []
    end.

Definition workOf (id : string) (year : Z) (count : Z) : Work.t :=
  {| Work.id := id; Work.title := "Untitled"; Work.year := Some year;
     Work.cited_by_count := count; Work.authors := []; Work.venue := "Unknown venue";
     Work.openalex_url := id; Work.referenced_works := []; Work.doi := None |}.

(** A provider whose answers disagree about [A]: as a reference of the
    seed it has 5 citations, as a citer of the seed it has 6. *)
Definition recounting (req : Request) : Response :=
  match req with
  | FilterOpenAlexId ids _ =>
      if list_eq_dec string_dec ids [C] then
        Results [record C (Some 2000) 100 [A]]
      else if list_eq_dec string_dec ids [A] then
        Results [record A (Some 2000) 5 []]
      else Results []
  | FilterCites id _ _ =>
      if String.eqb id C then Results [record A (Some 2000) 6 []] else Results []
  end.
End Sample.

(* ===================================================================== *)
(** ** Reasoning support *)
(* ===================================================================== *)

(** *** The [Fetch] monad *)

Lemma bind_returned {A B : Type} (c : Fetch A) (k : A -> Fetch B) log b log' :
  bind c k log = (Returned b, log') ->
  exists a log1, c log = (Returned a, log1) /\ k a log1 = (Returned b, log').
Proof.
  unfold bind. destruct (c log) as [[a | e] log1]; intros H.
  - exists a, log1. split; [reflexivity | exact H].
  - discriminate H.
Qed.

Lemma bind_thrown {A B : Type} (c : Fetch A) (k : A -> Fetch B) log e log' :
  bind c k log = (Thrown e, log') ->
  c log = (Thrown e, log') \/
  exists a log1, c log = (Returned a, log1) /\ k a log1 = (Thrown e, log').
Proof.
  unfold bind. destruct (c log) as [[a | e0] log1]; intros H.
  - right. exists a, log1. split; [reflexivity | exact H].
  - left. inversion H. reflexivity.
Qed.

Lemma ret_returned {A : Type} (a b : A) log log' :
  ret a log = (Returned b, log') -> a = b /\ log = log'.
Proof. unfold ret. intros H. inversion H. split; reflexivity. Qed.

(** Takes a hypothesis [c log = (Returned v, log')] apart along the binds
    of [c]. *)
Ltac fetch_inv H :=
  cbv beta iota in H;
  lazymatch type of H with
  | bind _ _ _ = _ =>
      let a := fresh "a" in
      let lg := fresh "log" in
      let H1 := fresh "Hrun" in
      let H2 := fresh "Hrun" in
      apply bind_returned in H; destruct H as (a & lg & H1 & H2)
  | ret _ _ = _ =>
      let E1 := fresh "E" in
      let E2 := fresh "E" in
      apply ret_returned in H; destruct H as [E1 E2]
  | throw _ _ = _ => discriminate H
  end.

Tactic Notation "fetch_bind" hyp(H) "as"
    simple_intropattern(a) ident(lg) ident(H1) ident(H2) :=
  cbv beta iota in H; apply bind_returned in H; destruct H as (a & lg & H1 & H2).

Tactic Notation "fetch_ret" hyp(H) "as" simple_intropattern(E) :=
  cbv beta iota in H; apply ret_returned in H; destruct H as [E ?]; subst.

(** *** Insertion-ordered maps *)

Module JsMapFacts.
Import JsMap.

Section Facts.
Variable V : Type.
Implicit Types (m : t V) (k : string) (v : V).

Lemma get_set_same m k v : get (set m k v) k = Some v.
Proof.
  induction m as [| [k' v'] m IH]; simpl.
  - rewrite String.eqb_refl. reflexivity.
  - destruct (String.eqb k' k) eqn:E; simpl; rewrite E; auto.
Qed.

Lemma get_set_other m k k' v : k <> k' -> get (set m k v) k' = get m k'.
Proof.
  intros Hne. induction m as [| [k0 v0] m IH]; simpl.
  - destruct (String.eqb_spec k k'); [contradiction | reflexivity].
  - destruct (String.eqb_spec k0 k) as [-> | Hk]; simpl.
    + destruct (String.eqb_spec k k'); [contradiction | reflexivity].
    + destruct (String.eqb k0 k'); auto.
Qed.

Lemma get_set m k k' v :
  get (set m k v) k' = if String.eqb k k' then Some v else get m k'.
Proof.
  destruct (String.eqb_spec k k') as [<- | Hne].
  - apply get_set_same.
  - apply get_set_other. exact Hne.
Qed.

Lemma get_In m k v : get m k = Some v -> In (k, v) m.
Proof.
  induction m as [| [k' v'] m IH]; simpl; [discriminate |].
  destruct (String.eqb_spec k' k) as [-> | Hk]; intros H.
  - inversion H. left. reflexivity.
  - right. auto.
Qed.

Lemma get_None_keys m k : get m k = None <-> ~ In k (keys m).
Proof.
  induction m as [| [k' v'] m IH]; simpl.
  - split; auto.
  - destruct (String.eqb_spec k' k) as [-> | Hk].
    + split; [discriminate | intros H; exfalso; apply H; left; reflexivity].
    + rewrite IH. split; intros H; [intros [E | E]; auto | auto].
Qed.

Lemma In_get m k v : NoDup (keys m) -> In (k, v) m -> get m k = Some v.
Proof.
  induction m as [| [k' v'] m IH]; simpl; [contradiction |].
  intros Hnd [E | Hin].
  - inversion E; subst. rewrite String.eqb_refl. reflexivity.
  - inversion Hnd as [| ? ? Hnotin Hnd']; subst.
    destruct (String.eqb_spec k' k) as [-> | Hk].
    + exfalso. apply Hnotin. change (In (fst (k, v)) (map fst m)).
      apply in_map. exact Hin.
    + auto.
Qed.

Lemma keys_set m k v :
  keys (set m k v) = if has m k then keys m else keys m ++ [k].
Proof.
  unfold has. induction m as [| [k' v'] m IH]; simpl; [reflexivity |].
  destruct (String.eqb_spec k' k) as [-> | Hk]; simpl; [reflexivity |].
  rewrite IH. destruct (get m k); reflexivity.
Qed.

Lemma NoDup_keys_set m k v : NoDup (keys m) -> NoDup (keys (set m k v)).
Proof.
  intros Hnd. rewrite keys_set. unfold has.
  destruct (get m k) eqn:E; [exact Hnd |].
  apply get_None_keys in E.
  apply NoDup_app; [exact Hnd | repeat constructor; intros [] |].
  intros a Ha [<- | []]. exact (E Ha).
Qed.

Lemma In_values m v : In v (values m) <-> exists k, In (k, v) m.
Proof.
  unfold values. rewrite in_map_iff. split.
  - intros [[k v'] [E Hin]]. simpl in E. subst. exists k. exact Hin.
  - intros [k Hin]. exists (k, v). split; [reflexivity | exact Hin].
Qed.
End Facts.
End JsMapFacts.

(* ===================================================================== *)
(** ** Request parameters *)
(* ===================================================================== *)

Definition allDigits (s : string) : bool :=
  forallb isDigit (list_ascii_of_string s).

Lemma takeDigits_allDigits s : allDigits s = true -> takeDigits s = s.
Proof.
  unfold allDigits. induction s as [| c r IH]; simpl; [reflexivity |].
  intros H. apply andb_true_iff in H. destruct H as [Hc Hr].
  rewrite Hc, IH by exact Hr. reflexivity.
Qed.

Lemma isDigit_not_space c : isDigit c = true -> isWhiteSpace c = false.
Proof.
  unfold isDigit, isWhiteSpace. intros H.
  apply andb_true_iff in H. destruct H as [H1 H2].
  apply Nat.leb_le in H1. apply Nat.leb_le in H2.
  repeat rewrite orb_false_iff. repeat split.
  - apply andb_false_iff. right. apply Nat.leb_gt. lia.
  - apply Nat.eqb_neq. lia.
  - apply Nat.eqb_neq. lia.
Qed.

(** On a plain string of digits [parseInt] reads the number the digits
    spell. *)
Lemma parseInt10_digits s :
  allDigits s = true -> s <> EmptyString ->
  digitsValue 0 s < doubleOverflow ->
  parseInt10 (JsString s) = Finite (digitsValue 0 s).
Proof.
  intros Hd Hne Hlt. unfold parseInt10, ToString.
  destruct s as [| c r]; [contradiction |].
  assert (Hc : isDigit c = true).
  { unfold allDigits in Hd. simpl in Hd. apply andb_true_iff in Hd. tauto. }
  simpl trimStart. rewrite (isDigit_not_space _ Hc).
  assert (Hsign : match String c r with
                  | String "-" r0 => (true, r0)
                  | String "+" r0 => (false, r0)
                  | _ => (false, String c r)
                  end = (false, String c r)).
  { destruct c as [[] [] [] [] [] [] [] []]; try reflexivity; discriminate Hc. }
  rewrite Hsign, (takeDigits_allDigits _ Hd).
  apply Z.leb_gt in Hlt. rewrite Hlt. reflexivity.
Qed.

Lemma clampInteger_range v lo hi fb :
  lo <= hi -> lo <= fb <= hi -> lo <= clampInteger v lo hi fb <= hi.
Proof. unfold clampInteger. destruct (parseInt10 v); lia. Qed.

(** The numbers the route handler passes on are read back unchanged. *)
Lemma clampInteger_JsNum n lo hi fb :
  1 <= lo -> hi <= 30 -> lo <= n <= hi -> clampInteger (JsNum n) lo hi fb = n.
Proof.
  intros Hlo Hhi Hn.
  assert (Hparse : parseInt10 (JsNum n) = Finite n).
  { assert (Hall : forallb (fun k => match parseInt10 (JsNum k) with
                                      | Finite m => m =? k
                                      | _ => false
                                      end) (map Z.of_nat (seq 1 30)) = true)
      by (vm_compute; reflexivity).
    rewrite forallb_forall in Hall. specialize (Hall n).
    destruct (parseInt10 (JsNum n)) as [m | | |].
    - f_equal. apply Z.eqb_eq. apply Hall.
      apply in_map_iff. exists (Z.to_nat n). split; [lia | apply in_seq; lia].
    - discriminate Hall.
      apply in_map_iff. exists (Z.to_nat n). split; [lia | apply in_seq; lia].
    - discriminate Hall.
      apply in_map_iff. exists (Z.to_nat n). split; [lia | apply in_seq; lia].
    - discriminate Hall.
      apply in_map_iff. exists (Z.to_nat n). split; [lia | apply in_seq; lia]. }
  unfold clampInteger. rewrite Hparse. lia.
Qed.

Lemma parseGraphParams_idempotent depth limit :
  let p := parseGraphParams depth limit in
  parseGraphParams (JsNum (GraphParams.depth p)) (JsNum (GraphParams.limit p)) = p.
Proof.
  simpl. unfold parseGraphParams. simpl.
  pose proof (clampInteger_range depth 1 3 2) as Hd.
  pose proof (clampInteger_range limit 1 30 20) as Hl.
  rewrite !clampInteger_JsNum by lia. reflexivity.
Qed.

(** C6, as the code has it: every input gives a depth in [1,3] and a limit
    in [1,30]; absent parameters give the defaults 2 and 20; an input that
    [parseInt] reads as a number is clamped to the nearest bound (depth
    "99" gives 3, limit "-5" gives 1); an input that [parseInt] cannot read
    gives the default, not a bound. *)
Theorem parseGraphParams_clamps :
  parseGraphParams JsUndefined JsUndefined
    = {| GraphParams.depth := 2; GraphParams.limit := 20 |}
  /\ parseGraphParams (JsString "99") (JsString "-5")
    = {| GraphParams.depth := 3; GraphParams.limit := 1 |}
  /\ forall depth limit : JsValue,
      let p := parseGraphParams depth limit in
      (1 <= GraphParams.depth p <= 3 /\ 1 <= GraphParams.limit p <= 30)
      /\ (forall n, parseInt10 depth = Finite n ->
            GraphParams.depth p = Z.min 3 (Z.max 1 n))
      /\ (forall n, parseInt10 limit = Finite n ->
            GraphParams.limit p = Z.min 30 (Z.max 1 n))
      /\ (Number_isFinite (parseInt10 depth) = false -> GraphParams.depth p = 2)
      /\ (Number_isFinite (parseInt10 limit) = false -> GraphParams.limit p = 20).
Proof.
  split; [reflexivity |]. split; [reflexivity |].
  intros depth limit p. subst p. unfold parseGraphParams. simpl.
  split; [split; apply clampInteger_range; lia |].
  unfold clampInteger.
  repeat split.
  - intros n ->. reflexivity.
  - intros n ->. reflexivity.
  - destruct (parseInt10 depth); simpl; [discriminate | reflexivity ..].
  - destruct (parseInt10 limit); simpl; [discriminate | reflexivity ..].
Qed.

Lemma parseGraphParams_clamps_witness :
  GraphParams.depth (parseGraphParams (JsString " 7th") (JsString "words")) = 3
  /\ GraphParams.limit (parseGraphParams (JsString " 7th") (JsString "words")) = 20.
Proof.
  destruct parseGraphParams_clamps as (_ & _ & H).
  destruct (H (JsString " 7th") (JsString "words")) as (_ & Hd & _ & _ & Hl).
  split.
  - rewrite (Hd 7); reflexivity.
  - apply Hl. reflexivity.
Defined.

(** A parameter that is not a number is answered with the default, which
    is neither bound. *)
Lemma parseGraphParams_non_numeric_not_clamped :
  ~ (forall v : JsValue,
       parseInt10 v = NaN ->
       let p := parseGraphParams v v in
       (GraphParams.depth p = 1 \/ GraphParams.depth p = 3)
       /\ (GraphParams.limit p = 1 \/ GraphParams.limit p = 30)).
Proof.
  intros H. specialize (H (JsString "abc") eq_refl).
  vm_compute in H. destruct H as [[H | H] _]; discriminate H.
Qed.

(* ===================================================================== *)
(** ** The identifier normalizer *)
(* ===================================================================== *)

Module NormalizeFacts.
Import OpenAlex.

Lemma allDigits_takeDigits r : allDigits (takeDigits r) = true.
Proof.
  unfold allDigits. induction r as [| c r IH]; simpl; [reflexivity |].
  destruct (isDigit c) eqn:E; simpl; [rewrite E, IH |]; reflexivity.
Qed.

Lemma toUpperChar_digit c : isDigit c = true -> toUpperChar c = c.
Proof.
  unfold isDigit, toUpperChar. intros H.
  apply andb_true_iff in H. destruct H as [_ H]. apply Nat.leb_le in H.
  replace (97 <=? nat_of_ascii c)%nat with false; [reflexivity |].
  symmetry. apply Nat.leb_gt. lia.
Qed.

Lemma toUpperCase_digits s : allDigits s = true -> toUpperCase s = s.
Proof.
  unfold allDigits. induction s as [| c r IH]; simpl; [reflexivity |].
  intros H. apply andb_true_iff in H. destruct H as [Hc Hr].
  rewrite (toUpperChar_digit _ Hc), IH by exact Hr. reflexivity.
Qed.

Lemma toUpperChar_W c : isW c = true -> toUpperChar c = "W"%char.
Proof.
  destruct c as [[] [] [] [] [] [] [] []]; try discriminate; reflexivity.
Qed.

Lemma trimEnd_digits s : allDigits s = true -> trimEnd s = s.
Proof.
  unfold allDigits. induction s as [| c r IH]; simpl; [reflexivity |].
  intros H. apply andb_true_iff in H. destruct H as [Hc Hr].
  rewrite IH by exact Hr. destruct r; [| reflexivity].
  rewrite (isDigit_not_space _ Hc). reflexivity.
Qed.

Lemma trimEnd_cons c r :
  trimEnd r <> EmptyString -> trimEnd (String c r) = String c (trimEnd r).
Proof. simpl. destruct (trimEnd r); [contradiction | reflexivity]. Qed.

Lemma matchWorkId_cons c r :
  matchWorkId (String c r) =
    if isW c && (4 <=? String.length (takeDigits r))%nat
    then Some (String c (takeDigits r))
    else matchWorkId r.
Proof. reflexivity. Qed.

(** What the pattern captures: a [W] or [w] and at least four digits. *)
Lemma matchWorkId_shape s m :
  matchWorkId s = Some m ->
  exists c ds, m = String c ds /\ isW c = true /\ allDigits ds = true
               /\ (4 <= String.length ds)%nat.
Proof.
  induction s as [| c r IH]; [discriminate |].
  rewrite matchWorkId_cons.
  destruct (isW c && (4 <=? String.length (takeDigits r))%nat) eqn:E.
  - intros H. inversion H. apply andb_true_iff in E. destruct E as [Hc Hl].
    exists c, (takeDigits r). split; [reflexivity |]. split; [exact Hc |].
    split; [apply allDigits_takeDigits | apply Nat.leb_le; exact Hl].
  - exact IH.
Qed.

Definition urlPrefix : string := "https://openalex.org/".

Lemma normalizeId_shape id n :
  normalizeId id = Some n ->
  exists ds, n = (urlPrefix ++ String "W" ds)%string
             /\ allDigits ds = true /\ (4 <= String.length ds)%nat.
Proof.
  unfold normalizeId. destruct (negb (nonEmpty id)); [discriminate |].
  destruct (matchWorkId (trim id)) as [m |] eqn:E; [| discriminate].
  intros H. injection H as <-.
  destruct (matchWorkId_shape _ _ E) as (c & ds & -> & Hc & Hd & Hl).
  exists ds. cbn [toUpperCase]. rewrite (toUpperChar_W _ Hc), (toUpperCase_digits _ Hd).
  split; [reflexivity | split; assumption].
Qed.

Lemma trimEnd_keeps_prefix p s :
  trimEnd s <> EmptyString -> trimEnd (p ++ s) = (p ++ trimEnd s)%string.
Proof.
  intros Hne. induction p as [| c p IH]; [reflexivity |].
  cbn [String.append]. rewrite trimEnd_cons; rewrite IH; [reflexivity |].
  destruct p; [exact Hne | discriminate].
Qed.

Lemma matchWorkId_urlPrefix s :
  matchWorkId (urlPrefix ++ s) = matchWorkId s.
Proof. reflexivity. Qed.

(** A normalized identifier normalizes to itself, so the second
    normalization inside [getWorkById] changes nothing. *)
Lemma normalizeId_idempotent id n :
  normalizeId id = Some n -> normalizeId n = Some n.
Proof.
  intros H. destruct (normalizeId_shape _ _ H) as (ds & -> & Hd & Hl).
  assert (Hte : trimEnd (String "W" ds) = String "W" ds).
  { rewrite trimEnd_cons; rewrite (trimEnd_digits _ Hd); [reflexivity |].
    destruct ds; [simpl in Hl; lia | discriminate]. }
  unfold normalizeId.
  replace (negb (nonEmpty (urlPrefix ++ String "W" ds))) with false by reflexivity.
  replace (trim (urlPrefix ++ String "W" ds))
    with (urlPrefix ++ String "W" ds)%string.
  2:{ unfold trim.
      replace (trimStart (urlPrefix ++ String "W" ds))
        with (urlPrefix ++ String "W" ds)%string by reflexivity.
      rewrite trimEnd_keeps_prefix; rewrite Hte; [reflexivity | discriminate]. }
  rewrite matchWorkId_urlPrefix, matchWorkId_cons, (takeDigits_allDigits _ Hd).
  apply Nat.leb_le in Hl. rewrite Hl. cbn [isW andb].
  replace (isW "W") with true by reflexivity. cbn [andb toUpperCase].
  rewrite (toUpperCase_digits _ Hd). reflexivity.
Qed.

Lemma normalizeWork_id raw w :
  normalizeWork raw = Some w -> Work.id w = Raw.id raw /\ nonEmpty (Work.id w) = true.
Proof.
  unfold normalizeWork. destruct (nonEmpty (Raw.id raw)) eqn:E; simpl; [| discriminate].
  intros H. inversion H. simpl. auto.
Qed.
End NormalizeFacts.

(* ===================================================================== *)
(** ** Where an exception can come from *)
(* ===================================================================== *)

Section Failures.
Variable upstream : Request -> Response.

(** A transport error: no cause, and the request logged last is one the
    provider refused. *)
Definition upstreamFailure (e : Error.t) (log : list Request) : Prop :=
  Error.cause e = None /\
  exists log0 req status body,
    log = log0 ++ [req] /\ upstream req = HttpError status body.

Definition OnlyUpstream {A : Type} (c : Fetch A) : Prop :=
  forall log e log', c log = (Thrown e, log') -> upstreamFailure e log'.

Lemma OnlyUpstream_ret {A : Type} (a : A) : OnlyUpstream (ret a).
Proof. intros log e log' H. discriminate H. Qed.

Lemma OnlyUpstream_bind {A B : Type} (c : Fetch A) (k : A -> Fetch B) :
  OnlyUpstream c -> (forall a, OnlyUpstream (k a)) -> OnlyUpstream (bind c k).
Proof.
  intros Hc Hk log e log' H. apply bind_thrown in H.
  destruct H as [H | (a & log1 & _ & H)]; [exact (Hc _ _ _ H) | exact (Hk _ _ _ _ H)].
Qed.

Lemma OnlyUpstream_request req : OnlyUpstream (OpenAlex.requestOpenAlex upstream req).
Proof.
  intros log e log'. unfold OpenAlex.requestOpenAlex.
  destruct (upstream req) as [status body |] eqn:E; [| discriminate].
  intros H. injection H as <- <-. split; [reflexivity |].
  exists log, req, status, body. auto.
Qed.

Lemma OnlyUpstream_promiseAll {A B : Type} (f : A -> Fetch B) items :
  (forall x, OnlyUpstream (f x)) -> OnlyUpstream (promiseAll f items).
Proof.
  intros Hf. induction items as [| x rest IH]; simpl.
  - apply OnlyUpstream_ret.
  - apply OnlyUpstream_bind; [apply Hf | intros y].
    apply OnlyUpstream_bind; [exact IH | intros ys]. apply OnlyUpstream_ret.
Qed.

Create HintDb fetch.
Hint Resolve OnlyUpstream_ret OnlyUpstream_request : fetch.

Ltac only_upstream :=
  repeat first
    [ apply OnlyUpstream_ret
    | apply OnlyUpstream_request
    | apply OnlyUpstream_bind; [| intros ?]
    | apply OnlyUpstream_promiseAll; intros ?
    | match goal with
      | |- OnlyUpstream (match ?x with _ => _ end) => destruct x
      | |- OnlyUpstream (if ?x then _ else _) => destruct x
      end
    | solve [auto with fetch] ].

Lemma OnlyUpstream_getWorkById id : OnlyUpstream (OpenAlex.getWorkById upstream id).
Proof. unfold OpenAlex.getWorkById. only_upstream. Qed.

Lemma OnlyUpstream_getWorksByIds ids : OnlyUpstream (OpenAlex.getWorksByIds upstream ids).
Proof. unfold OpenAlex.getWorksByIds. only_upstream. Qed.

Lemma OnlyUpstream_getCitingWorks id limit :
  OnlyUpstream (OpenAlex.getCitingWorks upstream id limit).
Proof. unfold OpenAlex.getCitingWorks. only_upstream. Qed.

Hint Resolve OnlyUpstream_getWorkById OnlyUpstream_getWorksByIds
  OnlyUpstream_getCitingWorks : fetch.

Section EngineFailures.
Variable localeCompare : string -> string -> JsNumber.
Variable computeNodeSize : Z -> Z.

Local Abbreviation expandParent := (Engine.expandParent localeCompare upstream).
Local Abbreviation expandLevel :=
  (Engine.expandLevel localeCompare computeNodeSize upstream).

Lemma OnlyUpstream_readFrontier st frontier :
  OnlyUpstream (Engine.readFrontier upstream st frontier).
Proof.
  revert st. induction frontier as [| id rest IH]; intros st; simpl.
  - only_upstream.
  - apply OnlyUpstream_bind.
    + unfold Engine.getWorkOrFetch. only_upstream.
    + intros [st1 p]. apply OnlyUpstream_bind; [apply IH |].
      intros [st2 ps]. only_upstream.
Qed.

Lemma OnlyUpstream_expandParent side perParentLimit p :
  OnlyUpstream (expandParent side perParentLimit p).
Proof.
  unfold Engine.expandParent, Engine.getTopReferences, Engine.getTopCitations.
  only_upstream.
Qed.

Lemma OnlyUpstream_enterLevel depth st level frontier :
  OnlyUpstream (Engine.enterLevel upstream depth st level frontier).
Proof.
  unfold Engine.enterLevel.
  destruct ((level <=? depth) && negb (Nat.eqb (List.length frontier) 0)).
  - apply OnlyUpstream_bind; [apply OnlyUpstream_readFrontier |].
    intros [st1 ps]. only_upstream.
  - only_upstream.
Qed.

Lemma OnlyUpstream_expandLevel depth limit side st r :
  OnlyUpstream (expandLevel depth limit side st r).
Proof.
  unfold Engine.expandLevel.
  destruct (negb (Engine.active r)); [only_upstream |].
  apply OnlyUpstream_bind.
  - apply OnlyUpstream_promiseAll. intros p. apply OnlyUpstream_expandParent.
  - intros sets.
    destruct (Engine.commitLevel _ _ _ _ _ _) as [st1 nextFrontier].
    apply OnlyUpstream_enterLevel.
Qed.

Lemma OnlyUpstream_resumeAll depth limit schedule x :
  OnlyUpstream
    (Engine.resumeAll localeCompare computeNodeSize upstream depth limit schedule x).
Proof.
  revert x. induction schedule as [| side rest IH]; intros x; simpl.
  - only_upstream.
  - apply OnlyUpstream_bind; [| intros x1; apply IH].
    unfold Engine.resume. destruct side;
      (apply OnlyUpstream_bind; [apply OnlyUpstream_expandLevel |]);
      intros [st r]; only_upstream.
Qed.

Lemma OnlyUpstream_expandBothSides depth limit schedule st centerId :
  OnlyUpstream
    (Engine.expandBothSides localeCompare computeNodeSize upstream
       depth limit schedule st centerId).
Proof.
  unfold Engine.expandBothSides.
  apply OnlyUpstream_bind; [apply OnlyUpstream_enterLevel | intros [st1 r]].
  apply OnlyUpstream_bind; [apply OnlyUpstream_enterLevel | intros [st2 c]].
  apply OnlyUpstream_bind; [apply OnlyUpstream_resumeAll | intros x].
  apply OnlyUpstream_bind; [apply OnlyUpstream_resumeAll | intros x1].
  apply OnlyUpstream_bind; [apply OnlyUpstream_resumeAll | intros x2].
  only_upstream.
Qed.
End EngineFailures.
End Failures.

(* ===================================================================== *)
(** ** [buildGraph]: outcomes *)
(* ===================================================================== *)

Section Outcomes.
Variable localeCompare : string -> string -> JsNumber.
Variable computeNodeSize : Z -> Z.
Variable upstream : Request -> Response.

Local Abbreviation engine := (Engine.buildGraph localeCompare computeNodeSize upstream).
Local Abbreviation legacy := (Legacy.buildGraph localeCompare computeNodeSize upstream).

(** The one lookup of the seed. *)
Lemma getWorkById_normalized input workId :
  OpenAlex.toOpenAlexId input = Some workId ->
  OpenAlex.getWorkById upstream workId =
    (results <- OpenAlex.requestOpenAlex upstream (FilterOpenAlexId [workId] 1) ;;
     match results with
     | work :: _ => ret (OpenAlex.normalizeWork work)
     | [] => ret None
     end).
Proof.
  intros H. unfold OpenAlex.getWorkById.
  rewrite (NormalizeFacts.normalizeId_idempotent _ _ H). reflexivity.
Qed.

(** What a returning run of the engine went through. *)
Lemma engine_returned schedule input requestedDepth requestedLimit g log :
  run (engine schedule input requestedDepth requestedLimit) = (Returned g, log) ->
  exists workId centerWork st log1,
    OpenAlex.toOpenAlexId input = Some workId
    /\ OpenAlex.getWorkById upstream workId [] = (Returned (Some centerWork), log1)
    /\ Engine.expandBothSides localeCompare computeNodeSize upstream
         (GraphParams.depth (parseGraphParams requestedDepth requestedLimit))
         (GraphParams.limit (parseGraphParams requestedDepth requestedLimit))
         schedule
         (Engine.addNode computeNodeSize Engine.emptyStore centerWork center 0)
         (Work.id centerWork) log1
       = (Returned st, log)
    /\ g = Engine.assemble centerWork
             (GraphParams.depth (parseGraphParams requestedDepth requestedLimit))
             (GraphParams.limit (parseGraphParams requestedDepth requestedLimit))
             st.
Proof.
  unfold run, Engine.buildGraph.
  destruct (OpenAlex.toOpenAlexId input) as [workId |]; [| discriminate].
  intros H. fetch_inv H. destruct a as [centerWork |]; [| discriminate].
  fetch_inv Hrun0. fetch_inv Hrun2. subst.
  exists workId, centerWork, a, log0. auto.
Qed.

Lemma legacy_returned input requestedDepth requestedLimit g log :
  run (legacy input requestedDepth requestedLimit) = (Returned g, log) ->
  exists workId centerWork,
    OpenAlex.toOpenAlexId input = Some workId
    /\ Legacy.Meta.centerWorkId (Legacy.Graph.meta g) = Work.id centerWork
    /\ Legacy.Meta.depth (Legacy.Graph.meta g) = 1
    /\ Legacy.Meta.requestedDepth (Legacy.Graph.meta g)
       = GraphParams.depth (parseGraphParams requestedDepth requestedLimit)
    /\ Legacy.Meta.limit (Legacy.Graph.meta g)
       = Z.min 20 (GraphParams.limit (parseGraphParams requestedDepth requestedLimit)).
Proof.
  unfold run, Legacy.buildGraph.
  destruct (OpenAlex.toOpenAlexId input) as [workId |]; [| discriminate].
  intros H. fetch_inv H. destruct a as [centerWork |]; [| discriminate].
  fetch_inv Hrun0. fetch_inv Hrun2. fetch_inv Hrun3. subst.
  exists workId, centerWork. simpl. auto.
Qed.

(** C9 for both modules: the engine reports the clamped depth and the
    clamped limit, and every limit from 1 to 30 is reported as it is;
    [graph.js] reports depth 1, the clamped depth as [requestedDepth], and
    the limit capped at 20. *)
Theorem buildGraph_meta :
  (forall schedule input requestedDepth requestedLimit g log,
      run (engine schedule input requestedDepth requestedLimit) = (Returned g, log) ->
      Engine.Meta.depth (Engine.Graph.meta g)
        = GraphParams.depth (parseGraphParams requestedDepth requestedLimit)
      /\ Engine.Meta.limit (Engine.Graph.meta g)
        = GraphParams.limit (parseGraphParams requestedDepth requestedLimit)
      /\ (forall n, 1 <= n <= 30 -> requestedLimit = JsNum n ->
            Engine.Meta.limit (Engine.Graph.meta g) = n)
      /\ exists workId centerWork log1,
           OpenAlex.toOpenAlexId input = Some workId
           /\ OpenAlex.getWorkById upstream workId [] = (Returned (Some centerWork), log1)
           /\ Engine.Meta.centerWorkId (Engine.Graph.meta g) = Work.id centerWork)
  /\ (forall input requestedDepth requestedLimit g log,
      run (legacy input requestedDepth requestedLimit) = (Returned g, log) ->
      Legacy.Meta.depth (Legacy.Graph.meta g) = 1
      /\ Legacy.Meta.requestedDepth (Legacy.Graph.meta g)
         = GraphParams.depth (parseGraphParams requestedDepth requestedLimit)
      /\ Legacy.Meta.limit (Legacy.Graph.meta g)
         = Z.min 20 (GraphParams.limit (parseGraphParams requestedDepth requestedLimit))).
Proof.
  split.
  - intros schedule input rd rl g log H.
    destruct (engine_returned _ _ _ _ _ _ H) as (workId & cw & st & log1 & Hid & Hc & _ & ->).
    simpl. repeat split.
    + intros n Hn ->. apply clampInteger_JsNum; lia.
    + exists workId, cw, log1. auto.
  - intros input rd rl g log H.
    destruct (legacy_returned _ _ _ _ _ H) as (workId & cw & _ & _ & H1 & H2 & H3). auto.
Qed.

(** A provider that answers every request. *)
Definition Answers (up : Request -> Response) : Prop :=
  forall req, exists results, up req = Results results.

Lemma OnlyUpstream_returns {A : Type} (c : Fetch A) log :
  Answers upstream -> OnlyUpstream upstream c ->
  exists a log', c log = (Returned a, log').
Proof.
  intros Hans Hc. destruct (c log) as [[a | e] log'] eqn:E; [eauto |].
  apply Hc in E. destruct E as (_ & log0 & req & status & body & _ & Hup).
  destruct (Hans req) as (rs & Hrs). congruence.
Qed.

(** A seed that normalizes and has a record, with a provider that answers:
    the engine returns a graph, whatever the schedule. *)
Lemma engine_returns schedule input requestedDepth requestedLimit workId raw rest :
  Answers upstream ->
  OpenAlex.toOpenAlexId input = Some workId ->
  upstream (FilterOpenAlexId [workId] 1) = Results (raw :: rest) ->
  OpenAlex.normalizeWork raw <> None ->
  exists g log,
    run (engine schedule input requestedDepth requestedLimit) = (Returned g, log).
Proof.
  intros Hans Hid Hup Hraw. unfold run, Engine.buildGraph. rewrite Hid.
  rewrite (getWorkById_normalized _ _ Hid).
  unfold bind at 1 2. unfold OpenAlex.requestOpenAlex. rewrite Hup.
  destruct (OpenAlex.normalizeWork raw) as [cw |]; [| contradiction].
  unfold ret at 1.
  destruct (OnlyUpstream_returns
              (Engine.expandBothSides localeCompare computeNodeSize upstream
                 (GraphParams.depth (parseGraphParams requestedDepth requestedLimit))
                 (GraphParams.limit (parseGraphParams requestedDepth requestedLimit))
                 schedule
                 (Engine.addNode computeNodeSize Engine.emptyStore cw center 0)
                 (Work.id cw))
              ([] ++ [FilterOpenAlexId [workId] 1]) Hans
              (OnlyUpstream_expandBothSides _ _ _ _ _ _ _ _))
    as (st & log' & Hexp).
  unfold bind. rewrite Hexp. eexists _, _. reflexivity.
Qed.

Lemma legacy_returns input requestedDepth requestedLimit workId raw rest :
  Answers upstream ->
  OpenAlex.toOpenAlexId input = Some workId ->
  upstream (FilterOpenAlexId [workId] 1) = Results (raw :: rest) ->
  OpenAlex.normalizeWork raw <> None ->
  exists g log,
    run (legacy input requestedDepth requestedLimit) = (Returned g, log).
Proof.
  intros Hans Hid Hup Hraw. unfold run, Legacy.buildGraph. rewrite Hid.
  rewrite (getWorkById_normalized _ _ Hid).
  unfold bind at 1 2. unfold OpenAlex.requestOpenAlex. rewrite Hup.
  destruct (OpenAlex.normalizeWork raw) as [cw |]; [| contradiction].
  unfold ret at 1.
  destruct (OnlyUpstream_returns
              (OpenAlex.getWorksByIds upstream (Work.referenced_works cw))
              ([] ++ [FilterOpenAlexId [workId] 1]) Hans
              (OnlyUpstream_getWorksByIds _ _)) as (refs & log1 & Hrefs).
  unfold bind at 1. rewrite Hrefs.
  destruct (OnlyUpstream_returns
              (OpenAlex.getCitingWorks upstream (Work.id cw)
                 (Z.min Legacy.SIDE_LIMIT_CAP
                    (GraphParams.limit (parseGraphParams requestedDepth requestedLimit))))
              log1 Hans (OnlyUpstream_getCitingWorks _ _ _)) as (cites & log2 & Hcites).
  unfold bind. rewrite Hcites. eexists _, _. reflexivity.
Qed.

(** C7: a seed that cannot be normalized is refused with [BAD_WORK_ID]
    before any request is issued; a normalized seed without a provider
    record is refused with [NOT_FOUND] after exactly one request; every
    other exception is a transport error, which carries no cause; and the
    route handler answers the three with 400, 404 and 502. *)
Theorem buildGraph_errors schedule input requestedDepth requestedLimit :
  (OpenAlex.toOpenAlexId input = None ->
     run (engine schedule input requestedDepth requestedLimit)
       = (Thrown invalidWorkId, [])
     /\ run (legacy input requestedDepth requestedLimit)
       = (Thrown invalidWorkId, []))
  /\ (forall workId results,
        OpenAlex.toOpenAlexId input = Some workId ->
        upstream (FilterOpenAlexId [workId] 1) = Results results ->
        match results with
        | work :: _ => OpenAlex.normalizeWork work = None
        | [] => True
        end ->
        run (engine schedule input requestedDepth requestedLimit)
          = (Thrown centerNotFound, [FilterOpenAlexId [workId] 1])
        /\ run (legacy input requestedDepth requestedLimit)
          = (Thrown centerNotFound, [FilterOpenAlexId [workId] 1]))
  /\ (forall e log,
        run (engine schedule input requestedDepth requestedLimit) = (Thrown e, log)
        \/ run (legacy input requestedDepth requestedLimit) = (Thrown e, log) ->
        (e = invalidWorkId /\ log = [] /\ OpenAlex.toOpenAlexId input = None)
        \/ (e = centerNotFound /\
            exists workId, OpenAlex.toOpenAlexId input = Some workId
                           /\ log = [FilterOpenAlexId [workId] 1])
        \/ upstreamFailure upstream e log)
  /\ Error.cause invalidWorkId = Some "BAD_WORK_ID"
  /\ Error.cause centerNotFound = Some "NOT_FOUND"
  /\ statusOfOutcome (@Thrown unit invalidWorkId) = 400
  /\ statusOfOutcome (@Thrown unit centerNotFound) = 404
  /\ (forall e log, upstreamFailure upstream e log ->
        statusOfOutcome (@Thrown unit e) = 502).
Proof.
  split; [| split; [| split]].
  - intros H. unfold run, Engine.buildGraph, Legacy.buildGraph. rewrite H.
    split; reflexivity.
  - intros workId results Hid Hup Hnone.
    unfold run, Engine.buildGraph, Legacy.buildGraph. rewrite Hid.
    assert (Hmiss : OpenAlex.getWorkById upstream workId []
                    = (Returned None, [FilterOpenAlexId [workId] 1])).
    { rewrite (getWorkById_normalized _ _ Hid).
      unfold bind, OpenAlex.requestOpenAlex. rewrite Hup.
      destruct results as [| work rest]; [reflexivity |].
      rewrite Hnone. reflexivity. }
    unfold bind. rewrite Hmiss. split; reflexivity.
  - intros e log H.
    unfold run, Engine.buildGraph, Legacy.buildGraph in H.
    destruct (OpenAlex.toOpenAlexId input) as [workId |] eqn:Hid.
    2:{ left. unfold throw in H.
        destruct H as [H | H]; inversion H; subst; auto. }
    right.
    assert (Hseed : forall (A : Type) (k : Work.t -> Fetch A),
               (forall w, OnlyUpstream upstream (k w)) ->
               (found <- OpenAlex.getWorkById upstream workId ;;
                match found with
                | None => throw centerNotFound
                | Some centerWork => k centerWork
                end) [] = (Thrown e, log) ->
               (e = centerNotFound /\ log = [FilterOpenAlexId [workId] 1])
               \/ upstreamFailure upstream e log).
    { intros A k Hk Hrun. apply bind_thrown in Hrun.
      destruct Hrun as [Hrun | (found & log1 & Hget & Hrun)].
      - right. exact (OnlyUpstream_getWorkById upstream workId _ _ _ Hrun).
      - destruct found as [cw |]; [right; exact (Hk _ _ _ _ Hrun) |].
        left. unfold throw in Hrun. inversion Hrun; subst. split; [reflexivity |].
        rewrite (getWorkById_normalized _ _ Hid) in Hget.
        unfold bind, OpenAlex.requestOpenAlex in Hget.
        destruct (upstream (FilterOpenAlexId [workId] 1)); [discriminate |].
        destruct results; unfold ret in Hget; inversion Hget; reflexivity. }
    destruct H as [H | H]; apply Hseed in H.
    + destruct H as [[-> ->] | H]; [left; split; eauto | right; exact H].
    + intros w. apply OnlyUpstream_bind;
        [apply OnlyUpstream_expandBothSides | intros st; apply OnlyUpstream_ret].
    + destruct H as [[-> ->] | H]; [left; split; eauto | right; exact H].
    + intros w.
      apply OnlyUpstream_bind; [apply OnlyUpstream_getWorksByIds | intros refs].
      apply OnlyUpstream_bind; [apply OnlyUpstream_getCitingWorks | intros cites].
      apply OnlyUpstream_ret.
  - repeat split; try reflexivity.
    intros e log [Hcause _]. unfold statusOfOutcome. rewrite Hcause. reflexivity.
Qed.
End Outcomes.

(* ===================================================================== *)
(** ** How the engine's store evolves *)
(* ===================================================================== *)

Module JsSetFacts.
Import JsSet.

Lemma has_add s k k' : has (add s k) k' = has s k' || String.eqb k' k.
Proof.
  unfold add. destruct (has s k) eqn:E.
  - destruct (String.eqb_spec k' k) as [-> | Hne].
    + rewrite E. reflexivity.
    + rewrite orb_false_r. reflexivity.
  - unfold has. rewrite existsb_app. simpl. rewrite orb_false_r. reflexivity.
Qed.

Lemma has_empty k : has empty k = false.
Proof. reflexivity. Qed.
End JsSetFacts.

Section Evolution.
Variable localeCompare : string -> string -> JsNumber.
Variable computeNodeSize : Z -> Z.
Variable upstream : Request -> Response.

Local Abbreviation addNode := (Engine.addNode computeNodeSize).

(** The stores reachable from [st]: the only writes of the expansion are
    the caching of a fetched parent and the [addNode]/[addLink] pair of the
    loop over [limited]. *)
Inductive Evolves (st : Engine.Store) : Engine.Store -> Prop :=
| Evolves_refl : Evolves st st
| Evolves_cache st' work :
    Evolves st st' -> Evolves st (Engine.cacheWork st' work)
| Evolves_commit st' side level entry :
    Evolves st st' -> 1 <= level ->
    Evolves st
      (Engine.addLinkTo
         (addNode st' (Engine.child entry) (Engine.sideOf side) level)
         (Work.id (Engine.parent entry)) (Work.id (Engine.child entry))
         side (Engine.sideOf side)).

Lemma Evolves_trans st1 st2 st3 :
  Evolves st1 st2 -> Evolves st2 st3 -> Evolves st1 st3.
Proof.
  intros H12 H23. induction H23 as [| st' work _ IH | st' side level entry _ IH Hl].
  - exact H12.
  - apply Evolves_cache. exact IH.
  - apply Evolves_commit; assumption.
Qed.

Lemma getWorkOrFetch_evolves st id log st' p log' :
  Engine.getWorkOrFetch upstream st id log = (Returned (st', p), log') ->
  Evolves st st'.
Proof.
  unfold Engine.getWorkOrFetch. destruct (Engine.getCachedWork st id).
  - intros H. fetch_ret H as E. injection E as <- _. apply Evolves_refl.
  - intros H. fetch_bind H as [work |] log1 Hget Hk.
    + fetch_ret Hk as E. injection E as <- _. apply Evolves_cache, Evolves_refl.
    + fetch_ret Hk as E. injection E as <- _. apply Evolves_refl.
Qed.

Lemma readFrontier_evolves frontier st log st' ps log' :
  Engine.readFrontier upstream st frontier log = (Returned (st', ps), log') ->
  Evolves st st'.
Proof.
  revert st log st' ps log'.
  induction frontier as [| id rest IH]; intros st log st' ps log' H;
    cbn [Engine.readFrontier] in H.
  - fetch_ret H as E. injection E as <- _. apply Evolves_refl.
  - fetch_bind H as [st1 p] log1 Hget Hk.
    fetch_bind Hk as [st2 ps2] log2 Hrest Hk2.
    fetch_ret Hk2 as E. injection E as <- _.
    eapply Evolves_trans; [eapply getWorkOrFetch_evolves | eapply IH]; eassumption.
Qed.

Lemma commitLevel_evolves limited st nextFrontier side level :
  1 <= level ->
  Evolves st (fst (Engine.commitLevel computeNodeSize st nextFrontier side level limited)).
Proof.
  intros Hl. revert st nextFrontier.
  induction limited as [| entry rest IH]; intros st nextFrontier;
    cbn [Engine.commitLevel].
  - apply Evolves_refl.
  - eapply Evolves_trans; [| apply IH].
    apply Evolves_commit; [apply Evolves_refl | exact Hl].
Qed.

Lemma enterLevel_evolves depth st level frontier log st' r log' :
  Engine.enterLevel upstream depth st level frontier log = (Returned (st', r), log') ->
  Evolves st st' /\ Engine.level r = level.
Proof.
  unfold Engine.enterLevel.
  destruct ((level <=? depth) && negb (Nat.eqb (List.length frontier) 0)).
  - intros H. fetch_bind H as [st1 ps] log1 Hread Hk.
    fetch_ret Hk as E. injection E as <- <-. split; [| reflexivity].
    eapply readFrontier_evolves; eassumption.
  - intros H. fetch_ret H as E. injection E as <- <-.
    split; [apply Evolves_refl | reflexivity].
Qed.

Lemma expandLevel_evolves depth limit side st r log st' r' log' :
  1 <= Engine.level r ->
  Engine.expandLevel localeCompare computeNodeSize upstream depth limit side st r log
    = (Returned (st', r'), log') ->
  Evolves st st' /\ 1 <= Engine.level r'.
Proof.
  intros Hl. unfold Engine.expandLevel. destruct (negb (Engine.active r)).
  - intros H. fetch_ret H as E. injection E as <- <-.
    split; [apply Evolves_refl | exact Hl].
  - intros H. fetch_bind H as sets log1 Hsets Hk.
    pose proof (commitLevel_evolves
                  (Engine.limitedOf localeCompare limit (concat sets))
                  st JsSet.empty side (Engine.level r) Hl) as Hc.
    destruct (Engine.commitLevel _ _ _ _ _ _) as [st1 nextFrontier].
    apply enterLevel_evolves in Hk. destruct Hk as [He Hlv].
    split; [eapply Evolves_trans; eassumption | lia].
Qed.

Definition levelsPositive (x : Engine.Expansion) : Prop :=
  1 <= Engine.level (Engine.referencesRun x) /\ 1 <= Engine.level (Engine.citedByRun x).

Lemma resume_evolves depth limit side x log x' log' :
  levelsPositive x ->
  Engine.resume localeCompare computeNodeSize upstream depth limit side x log
    = (Returned x', log') ->
  Evolves (Engine.store x) (Engine.store x') /\ levelsPositive x'.
Proof.
  intros [Hr Hc]. unfold Engine.resume. destruct side; intros H;
    fetch_bind H as [st r] log1 Hlevel Hk; fetch_ret Hk as E; cbn.
  - apply expandLevel_evolves in Hlevel; [| exact Hr]. destruct Hlevel as [He Hl].
    split; [exact He | split; assumption].
  - apply expandLevel_evolves in Hlevel; [| exact Hc]. destruct Hlevel as [He Hl].
    split; [exact He | split; assumption].
Qed.

Lemma resumeAll_evolves depth limit schedule x log x' log' :
  levelsPositive x ->
  Engine.resumeAll localeCompare computeNodeSize upstream depth limit schedule x log
    = (Returned x', log') ->
  Evolves (Engine.store x) (Engine.store x') /\ levelsPositive x'.
Proof.
  revert x log. induction schedule as [| side rest IH]; intros x log Hx H;
    cbn [Engine.resumeAll] in H.
  - fetch_ret H as E. split; [apply Evolves_refl | exact Hx].
  - fetch_bind H as x1 log1 Hstep Hk.
    apply resume_evolves in Hstep; [| exact Hx]. destruct Hstep as [He Hx1].
    destruct (IH _ _ Hx1 Hk) as [He' Hx'].
    split; [eapply Evolves_trans; eassumption | exact Hx'].
Qed.

Lemma expandBothSides_evolves depth limit schedule st centerId log st' log' :
  Engine.expandBothSides localeCompare computeNodeSize upstream
    depth limit schedule st centerId log = (Returned st', log') ->
  Evolves st st'.
Proof.
  unfold Engine.expandBothSides. intros H.
  fetch_bind H as [st1 r] log1 H1 H.
  fetch_bind H as [st2 c] log2 H2 H.
  fetch_bind H as x log3 H3 H.
  fetch_bind H as x1 log4 H4 H.
  fetch_bind H as x2 log5 H5 H.
  fetch_ret H as E.
  apply enterLevel_evolves in H1. destruct H1 as [E1 L1].
  apply enterLevel_evolves in H2. destruct H2 as [E2 L2].
  apply resumeAll_evolves in H3; [| split; cbn; lia]. destruct H3 as [E3 P3].
  apply resumeAll_evolves in H4; [| exact P3]. destruct H4 as [E4 P4].
  apply resumeAll_evolves in H5; [| exact P4]. destruct H5 as [E5 _].
  cbn in E3.
  eapply Evolves_trans; [exact E1 |]. eapply Evolves_trans; [exact E2 |].
  eapply Evolves_trans; [exact E3 |]. eapply Evolves_trans; [exact E4 | exact E5].
Qed.
End Evolution.

(* ===================================================================== *)
(** ** Invariants of the node and link maps *)
(* ===================================================================== *)

Lemma JsMap_set_fresh {V : Type} (m : JsMap.t V) k v :
  JsMap.get m k = None -> JsMap.set m k v = m ++ [(k, v)].
Proof.
  induction m as [| [k' v'] m IH]; simpl; [reflexivity |].
  destruct (String.eqb k' k); [discriminate |].
  intros H. rewrite IH by exact H. reflexivity.
Qed.

Lemma filter_comm {A : Type} (f g : A -> bool) l :
  filter f (filter g l) = filter g (filter f l).
Proof.
  induction l as [| x l IH]; simpl; [reflexivity |].
  destruct (f x) eqn:Ef, (g x) eqn:Eg; simpl; rewrite ?Ef, ?Eg, IH; reflexivity.
Qed.

(** A link whose direction is the one its type fixes. *)
Definition coupled (link : Link.t) : Prop :=
  Link.direction link = Engine.sideOf (Link.type link).

Lemma coupled_iff link :
  coupled link ->
  (Link.direction link = backward <-> Link.type link = references)
  /\ (Link.direction link = forward <-> Link.type link = cited_by).
Proof.
  unfold coupled. destruct link as [s t ty d]; simpl. intros ->.
  destruct ty; simpl; split; split; intros H; try reflexivity; discriminate H.
Qed.

Lemma addLink_coupled m source target type :
  Forall coupled (JsMap.values m) ->
  Forall coupled (JsMap.values (addLink m source target type (Engine.sideOf type))).
Proof.
  intros H. unfold addLink, JsMap.has.
  destruct (JsMap.get m (linkKey source target type)) eqn:E; [exact H |].
  rewrite (JsMap_set_fresh _ _ _ E). unfold JsMap.values. rewrite map_app.
  apply Forall_app. split; [exact H |]. repeat constructor.
Qed.

(** The shape of the node map around the centre [cid]: distinct keys, every
    node filed under its own id, the centre present with side [center] and
    depth 0, and no other node with side [center]. *)
Record NodesOk (cid : string) (m : JsMap.t Node.t) : Prop := {
  nodes_nodup : NoDup (JsMap.keys m);
  nodes_keyed : forall k n, JsMap.get m k = Some n -> Node.id n = k;
  nodes_center : exists c, JsMap.get m cid = Some c
                           /\ Node.side c = center /\ Node.depth c = 0;
  nodes_others : forall k n, JsMap.get m k = Some n -> k <> cid ->
                             Node.side n <> center
}.

Lemma NodesOk_set cid m k n :
  NodesOk cid m ->
  Node.id n = k ->
  (k = cid -> Node.side n = center /\ Node.depth n = 0) ->
  (k <> cid -> Node.side n <> center) ->
  NodesOk cid (JsMap.set m k n).
Proof.
  intros [Hnd Hkey Hc Ho] Hid Hcase1 Hcase2. constructor.
  - apply JsMapFacts.NoDup_keys_set. exact Hnd.
  - intros k' n'. rewrite JsMapFacts.get_set.
    destruct (String.eqb_spec k k') as [<- | Hne].
    + intros H. injection H as <-. exact Hid.
    + apply Hkey.
  - rewrite JsMapFacts.get_set. destruct (String.eqb_spec k cid) as [-> | Hne].
    + exists n. split; [reflexivity | apply Hcase1; reflexivity].
    + exact Hc.
  - intros k' n'. rewrite JsMapFacts.get_set.
    destruct (String.eqb_spec k k') as [<- | Hne].
    + intros H Hk. injection H as <-. apply Hcase2. exact Hk.
    + apply Ho.
Qed.

Lemma filter_values_none {V : Type} (P : V -> bool) (m : JsMap.t V) :
  (forall k v, In (k, v) m -> P v = false) -> filter P (JsMap.values m) = [].
Proof.
  induction m as [| [k0 v0] m IH]; intros H; simpl; [reflexivity |].
  rewrite (H k0 v0 (or_introl eq_refl)). apply IH.
  intros k v Hin. apply (H k v). right. exact Hin.
Qed.

Lemma filter_values_unique {V : Type} (P : V -> bool) (m : JsMap.t V) k c :
  NoDup (JsMap.keys m) ->
  JsMap.get m k = Some c -> P c = true ->
  (forall k' v, JsMap.get m k' = Some v -> k' <> k -> P v = false) ->
  filter P (JsMap.values m) = [c].
Proof.
  induction m as [| [k0 v0] m IH]; simpl; [discriminate |].
  intros Hnd Hget Hc Hothers.
  inversion Hnd as [| ? ? Hnotin Hnd']; subst.
  assert (Hrest : forall k' v, In (k', v) m -> JsMap.get ((k0, v0) :: m) k' = Some v
                                               /\ k' <> k0).
  { intros k' v Hin.
    assert (Hne : k' <> k0).
    { intros ->. apply Hnotin. change (In (fst (k0, v)) (map fst m)).
      apply in_map. exact Hin. }
    split; [| exact Hne]. simpl.
    destruct (String.eqb_spec k0 k'); [congruence |].
    apply JsMapFacts.In_get; assumption. }
  destruct (String.eqb_spec k0 k) as [-> | Hne].
  - injection Hget as ->. rewrite Hc. f_equal.
    apply filter_values_none. intros k' v Hin.
    destruct (Hrest k' v Hin) as [Hg Hk']. exact (Hothers k' v Hg Hk').
  - rewrite (Hothers k0 v0); [| simpl; rewrite String.eqb_refl; reflexivity | exact Hne].
    apply IH; try assumption.
    intros k' v Hg Hk'. apply (Hothers k' v); [| exact Hk'].
    simpl. destruct (String.eqb_spec k0 k') as [<- | _]; [| exact Hg].
    exfalso. apply Hnotin. apply JsMapFacts.get_In in Hg.
    change (In (fst (k0, v)) (map fst m)). apply in_map. exact Hg.
Qed.

Definition isCenterSide (n : Node.t) : bool := Side_eqb (Node.side n) center.

Lemma isCenterSide_false n : Node.side n <> center -> isCenterSide n = false.
Proof. unfold isCenterSide. destruct (Node.side n); simpl; congruence. Qed.

Lemma NodesOk_filter cid m :
  NodesOk cid m ->
  exists c, filter isCenterSide (JsMap.values m) = [c]
            /\ Node.id c = cid /\ Node.depth c = 0 /\ Node.side c = center.
Proof.
  intros [Hnd Hkey (c & Hget & Hside & Hdepth) Ho].
  exists c. split; [| split; [apply Hkey; exact Hget | split; assumption]].
  apply (filter_values_unique isCenterSide m cid c Hnd Hget).
  - unfold isCenterSide. rewrite Hside. reflexivity.
  - intros k' v Hg Hk. apply isCenterSide_false. exact (Ho k' v Hg Hk).
Qed.

(* ===================================================================== *)
(** ** The engine: what every returned graph satisfies *)
(* ===================================================================== *)

Lemma ofPairs_get_from {V : Type} (l : list (string * V)) (m0 : JsMap.t V) k v :
  JsMap.get (fold_left (fun m kv => JsMap.set m (fst kv) (snd kv)) l m0) k = Some v ->
  In (k, v) l \/ JsMap.get m0 k = Some v.
Proof.
  revert m0. induction l as [| [k0 v0] l IH]; intros m0 H; simpl in H.
  - right. exact H.
  - apply IH in H. destruct H as [H | H]; [left; right; exact H |].
    simpl in H. rewrite JsMapFacts.get_set in H.
    destruct (String.eqb_spec k0 k) as [-> | Hne].
    + injection H as ->. left. left. reflexivity.
    + right. exact H.
Qed.

Lemma ofPairs_get {V : Type} (l : list (string * V)) k v :
  JsMap.get (JsMap.ofPairs l) k = Some v -> In (k, v) l.
Proof.
  unfold JsMap.ofPairs. intros H. apply ofPairs_get_from in H.
  destruct H as [H | H]; [exact H | discriminate H].
Qed.

Lemma stableNodeMap_get (nodes : list Node.t) k n :
  JsMap.get (JsMap.ofPairs (map (fun node => (Node.id node, node)) nodes)) k = Some n ->
  In n nodes /\ Node.id n = k.
Proof.
  intros H. apply ofPairs_get in H. apply in_map_iff in H.
  destruct H as (n' & E & Hin). injection E as <- <-. auto.
Qed.

Lemma connectedNodeIds_from links s k :
  JsSet.has
    (fold_left
       (fun s link => JsSet.add (JsSet.add s (Link.source link)) (Link.target link))
       links s) k = true <->
  JsSet.has s k = true
  \/ exists link, In link links /\ (Link.source link = k \/ Link.target link = k).
Proof.
  revert s. induction links as [| link rest IH]; intros s; simpl.
  - split; [auto | intros [H | (l & [] & _)]; exact H].
  - rewrite IH, !JsSetFacts.has_add, !orb_true_iff, !String.eqb_eq. split.
    + intros [[[H | H] | H] | (l & Hin & Hl)]; eauto 6.
    + intros [H | (l & [<- | Hin] & [Hl | Hl])]; eauto 6.
Qed.

Lemma connectedNodeIds_spec centerId links k :
  JsSet.has (Engine.connectedNodeIdsOf centerId links) k = true <->
  k = centerId
  \/ exists link, In link links /\ (Link.source link = k \/ Link.target link = k).
Proof.
  unfold Engine.connectedNodeIdsOf. rewrite connectedNodeIds_from.
  unfold JsSet.ofList. simpl. unfold JsSet.add, JsSet.has. simpl.
  rewrite orb_false_r, String.eqb_eq. reflexivity.
Qed.

Section EngineInvariants.
Variable localeCompare : string -> string -> JsNumber.
Variable computeNodeSize : Z -> Z.
Variable upstream : Request -> Response.

Local Abbreviation engine := (Engine.buildGraph localeCompare computeNodeSize upstream).
Local Abbreviation addNode := (Engine.addNode computeNodeSize).

Lemma nodeMap_cacheWork st w :
  Engine.nodeMap (Engine.cacheWork st w) = Engine.nodeMap st.
Proof. unfold Engine.cacheWork. destruct (nonEmpty (Work.id w)); reflexivity. Qed.

Lemma linkMap_cacheWork st w :
  Engine.linkMap (Engine.cacheWork st w) = Engine.linkMap st.
Proof. unfold Engine.cacheWork. destruct (nonEmpty (Work.id w)); reflexivity. Qed.

Lemma linkMap_addNode st w side depth :
  Engine.linkMap (addNode st w side depth) = Engine.linkMap st.
Proof.
  unfold Engine.addNode. cbv zeta.
  destruct (JsMap.get _ _); cbn [Engine.linkMap]; apply linkMap_cacheWork.
Qed.

(** What [addNode] files under the work's id. *)
Lemma nodeMap_addNode st w side depth :
  exists n,
    Engine.nodeMap (addNode st w side depth)
      = JsMap.set (Engine.nodeMap st) (Work.id w) n
    /\ Node.id n = Work.id w
    /\ Node.year n = Work.year w
    /\ match JsMap.get (Engine.nodeMap st) (Work.id w) with
       | None => Node.side n = side /\ Node.depth n = depth
       | Some existing =>
           Node.side n = Engine.mergeSide (Node.side existing) side
           /\ Node.depth n = Z.min (Node.depth existing) depth
       end.
Proof.
  unfold Engine.addNode. cbv zeta. rewrite nodeMap_cacheWork.
  destruct (JsMap.get (Engine.nodeMap st) (Work.id w)) as [existing |];
    cbn [Engine.nodeMap]; rewrite ?nodeMap_cacheWork;
    eexists; (split; [reflexivity |]); cbn; auto.
Qed.

Lemma addNode_NodesOk cid st w side depth :
  NodesOk cid (Engine.nodeMap st) ->
  side <> center -> 0 <= depth ->
  NodesOk cid (Engine.nodeMap (addNode st w side depth)).
Proof.
  intros Hok Hside Hdepth.
  destruct (nodeMap_addNode st w side depth) as (n & -> & Hid & _ & Hn).
  apply NodesOk_set; [exact Hok | exact Hid | |].
  - intros Hk. destruct Hok as [_ _ (c & Hget & Hs & Hd) _].
    rewrite Hk, Hget in Hn. destruct Hn as [-> ->]. rewrite Hs, Hd.
    split; [destruct side; reflexivity | lia].
  - intros Hk. destruct (JsMap.get (Engine.nodeMap st) (Work.id w)) as [ex |] eqn:E.
    + destruct Hn as [-> _].
      pose proof (nodes_others _ _ Hok _ _ E Hk) as Hex.
      unfold Engine.mergeSide.
      destruct (Node.side ex), side; simpl; congruence.
    + destruct Hn as [-> _]. exact Hside.
Qed.

Lemma sideOf_not_center side : Engine.sideOf side <> center.
Proof. destruct side; discriminate. Qed.

Lemma Evolves_invariant cid st st' :
  Evolves computeNodeSize st st' ->
  NodesOk cid (Engine.nodeMap st) ->
  Forall coupled (JsMap.values (Engine.linkMap st)) ->
  NodesOk cid (Engine.nodeMap st')
  /\ Forall coupled (JsMap.values (Engine.linkMap st')).
Proof.
  intros Hev Hn Hl.
  induction Hev as [| st' work _ [IHn IHl] | st' side level entry _ [IHn IHl] Hlevel].
  - split; assumption.
  - rewrite nodeMap_cacheWork, linkMap_cacheWork. split; assumption.
  - cbn [Engine.addLinkTo Engine.nodeMap Engine.linkMap]. split.
    + apply addNode_NodesOk; [exact IHn | apply sideOf_not_center | lia].
    + rewrite linkMap_addNode. apply addLink_coupled. exact IHl.
Qed.

Lemma initial_NodesOk centerWork :
  NodesOk (Work.id centerWork)
    (Engine.nodeMap (addNode Engine.emptyStore centerWork center 0)).
Proof.
  destruct (nodeMap_addNode Engine.emptyStore centerWork center 0)
    as (n & -> & Hid & _ & Hn).
  cbn in Hn. destruct Hn as [Hs Hd]. cbn. constructor; cbn.
  - repeat constructor. intros [].
  - intros k n'. destruct (String.eqb_spec (Work.id centerWork) k) as [<- | _];
      [| discriminate]. intros H. injection H as <-. exact Hid.
  - rewrite String.eqb_refl. exists n. auto.
  - intros k n'. destruct (String.eqb_spec (Work.id centerWork) k) as [<- | _];
      [| discriminate]. intros _ Hk. contradiction.
Qed.

(** The store a returning run assembles its graph from. *)
Lemma engine_store schedule input requestedDepth requestedLimit g log :
  run (engine schedule input requestedDepth requestedLimit) = (Returned g, log) ->
  exists centerWork st,
    g = Engine.assemble centerWork
          (GraphParams.depth (parseGraphParams requestedDepth requestedLimit))
          (GraphParams.limit (parseGraphParams requestedDepth requestedLimit)) st
    /\ NodesOk (Work.id centerWork) (Engine.nodeMap st)
    /\ Forall coupled (JsMap.values (Engine.linkMap st)).
Proof.
  intros H. apply engine_returned in H.
  destruct H as (workId & cw & st & log1 & _ & _ & Hexp & ->).
  exists cw, st. split; [reflexivity |].
  apply expandBothSides_evolves in Hexp.
  apply (Evolves_invariant (Work.id cw) _ _ Hexp).
  - apply initial_NodesOk.
  - cbn. rewrite linkMap_addNode. constructor.
Qed.
End EngineInvariants.

(* ===================================================================== *)
(** ** [graph.js]: the same invariants *)
(* ===================================================================== *)

Section LegacyInvariants.
Variable localeCompare : string -> string -> JsNumber.
Variable computeNodeSize : Z -> Z.
Variable upstream : Request -> Response.

Local Abbreviation legacy := (Legacy.buildGraph localeCompare computeNodeSize upstream).
Local Abbreviation addNode := (Legacy.addNode computeNodeSize).

Lemma legacy_nodeMap_addNode st w side depth :
  exists n,
    Legacy.nodeMap (addNode st w side depth)
      = JsMap.set (Legacy.nodeMap st) (Work.id w) n
    /\ Node.id n = Work.id w
    /\ Node.year n = Work.year w
    /\ match JsMap.get (Legacy.nodeMap st) (Work.id w) with
       | None => Node.side n = side /\ Node.depth n = depth
       | Some existing =>
           Node.side n = Legacy.mergeSide (Node.side existing) side
           /\ Node.depth n = Z.min (Node.depth existing) depth
       end.
Proof.
  unfold Legacy.addNode. cbv zeta.
  destruct (JsMap.get (Legacy.nodeMap st) (Work.id w)) as [existing |];
    cbn [Legacy.nodeMap]; eexists; (split; [reflexivity |]); cbn; auto.
Qed.

Lemma legacy_addNode_NodesOk cid st w side depth :
  NodesOk cid (Legacy.nodeMap st) ->
  side <> center -> 0 <= depth ->
  NodesOk cid (Legacy.nodeMap (addNode st w side depth)).
Proof.
  intros Hok Hside Hdepth.
  destruct (legacy_nodeMap_addNode st w side depth) as (n & -> & Hid & _ & Hn).
  apply NodesOk_set; [exact Hok | exact Hid | |].
  - intros Hk. destruct Hok as [_ _ (c & Hget & Hs & Hd) _].
    rewrite Hk, Hget in Hn. destruct Hn as [-> ->]. rewrite Hs, Hd.
    split; [destruct side; reflexivity | lia].
  - intros Hk. destruct (JsMap.get (Legacy.nodeMap st) (Work.id w)) as [ex |] eqn:E.
    + destruct Hn as [-> _].
      pose proof (nodes_others _ _ Hok _ _ E Hk) as Hex.
      unfold Legacy.mergeSide.
      destruct (Node.side ex), side; simpl; congruence.
    + destruct Hn as [-> _]. exact Hside.
Qed.

Lemma addSide_invariant cid centerId type works st :
  NodesOk cid (Legacy.nodeMap st) ->
  Forall coupled (JsMap.values (Legacy.linkMap st)) ->
  let st' := Legacy.addSide computeNodeSize centerId type (Engine.sideOf type) st works in
  NodesOk cid (Legacy.nodeMap st')
  /\ Forall coupled (JsMap.values (Legacy.linkMap st')).
Proof.
  revert st. unfold Legacy.addSide.
  induction works as [| w rest IH]; intros st Hn Hl; cbn [fold_left].
  - split; assumption.
  - apply IH; cbn [Legacy.addLinkTo Legacy.nodeMap Legacy.linkMap].
    + apply legacy_addNode_NodesOk;
        [exact Hn | apply sideOf_not_center | lia].
    + apply addLink_coupled.
      unfold Legacy.addNode. cbv zeta. destruct (JsMap.get _ _); exact Hl.
Qed.

Lemma legacy_initial centerWork :
  let st := addNode {| Legacy.nodeMap := JsMap.empty; Legacy.linkMap := JsMap.empty |}
              centerWork center 0 in
  NodesOk (Work.id centerWork) (Legacy.nodeMap st)
  /\ Forall coupled (JsMap.values (Legacy.linkMap st)).
Proof.
  cbv zeta. split; [| constructor].
  destruct (legacy_nodeMap_addNode
              {| Legacy.nodeMap := JsMap.empty; Legacy.linkMap := JsMap.empty |}
              centerWork center 0) as (n & -> & Hid & _ & Hn).
  cbn in Hn. destruct Hn as [Hs Hd]. cbn. constructor; cbn.
  - repeat constructor. intros [].
  - intros k n'. destruct (String.eqb_spec (Work.id centerWork) k) as [<- | _];
      [| discriminate]. intros H. injection H as <-. exact Hid.
  - rewrite String.eqb_refl. exists n. auto.
  - intros k n'. destruct (String.eqb_spec (Work.id centerWork) k) as [<- | _];
      [| discriminate]. intros _ Hk. contradiction.
Qed.

Lemma legacy_store input requestedDepth requestedLimit g log :
  run (legacy input requestedDepth requestedLimit) = (Returned g, log) ->
  exists centerWork st,
    Legacy.Graph.nodes g = JsMap.values (Legacy.nodeMap st)
    /\ Legacy.Graph.links g = JsMap.values (Legacy.linkMap st)
    /\ Legacy.Meta.centerWorkId (Legacy.Graph.meta g) = Work.id centerWork
    /\ NodesOk (Work.id centerWork) (Legacy.nodeMap st)
    /\ Forall coupled (JsMap.values (Legacy.linkMap st)).
Proof.
  unfold run, Legacy.buildGraph.
  destruct (OpenAlex.toOpenAlexId input) as [workId |]; [| discriminate].
  intros H. fetch_bind H as [cw |] log1 Hget H; [| discriminate].
  fetch_bind H as refs log2 Hrefs H. fetch_bind H as cites log3 Hcites H.
  fetch_ret H as E.
  eexists cw, _. split; [reflexivity |]. split; [reflexivity |].
  split; [reflexivity |].
  destruct (legacy_initial cw) as [Hn0 Hl0].
  destruct (addSide_invariant (Work.id cw) (Work.id cw) references
              (firstn (Z.to_nat (Z.min Legacy.SIDE_LIMIT_CAP
                 (GraphParams.limit (parseGraphParams requestedDepth requestedLimit))))
                 (Legacy.sortByInfluence localeCompare refs))
              _ Hn0 Hl0) as [Hn1 Hl1].
  exact (addSide_invariant (Work.id cw) (Work.id cw) cited_by _ _ Hn1 Hl1).
Qed.
End LegacyInvariants.

(* ===================================================================== *)
(** ** The centre node and the direction of links *)
(* ===================================================================== *)

Section CentreAndLinks.
Variable localeCompare : string -> string -> JsNumber.
Variable computeNodeSize : Z -> Z.
Variable upstream : Request -> Response.

Local Abbreviation engine := (Engine.buildGraph localeCompare computeNodeSize upstream).
Local Abbreviation legacy := (Legacy.buildGraph localeCompare computeNodeSize upstream).

Lemma engine_center_node schedule input requestedDepth requestedLimit g log :
  run (engine schedule input requestedDepth requestedLimit) = (Returned g, log) ->
  exists c,
    filter isCenterSide (Engine.Graph.nodes g) = [c]
    /\ Node.id c = Engine.Meta.centerWorkId (Engine.Graph.meta g)
    /\ Node.side c = center /\ Node.depth c = 0.
Proof.
  intros H. apply engine_store in H. destruct H as (cw & st & -> & Hn & _).
  destruct (NodesOk_filter _ _ Hn) as (c & Hf & Hid & Hd & Hs).
  exists c. cbn. rewrite filter_comm, Hf. cbn.
  replace (JsSet.has _ (Node.id c)) with true; [auto |].
  symmetry. apply connectedNodeIds_spec. left. exact Hid.
Qed.

(** C3: for a seed that normalizes and has a record, answered by a
    provider that does not fail, [buildGraph] returns; and whenever it
    returns, exactly one node of the graph has side [center]: it is the
    seed's record and its depth is 0.  Merging keeps it so: [center]
    absorbs every side, in both modules, and the minimum with a depth of 0
    is 0. *)
Theorem buildGraph_one_center :
  (forall schedule input requestedDepth requestedLimit workId raw rest,
      Answers upstream ->
      OpenAlex.toOpenAlexId input = Some workId ->
      upstream (FilterOpenAlexId [workId] 1) = Results (raw :: rest) ->
      OpenAlex.normalizeWork raw <> None ->
      (exists g log,
          run (engine schedule input requestedDepth requestedLimit) = (Returned g, log))
      /\ (exists g log,
          run (legacy input requestedDepth requestedLimit) = (Returned g, log)))
  /\ (forall schedule input requestedDepth requestedLimit g log,
      run (engine schedule input requestedDepth requestedLimit) = (Returned g, log) ->
      exists c,
        filter isCenterSide (Engine.Graph.nodes g) = [c]
        /\ Node.id c = Engine.Meta.centerWorkId (Engine.Graph.meta g)
        /\ Node.side c = center /\ Node.depth c = 0)
  /\ (forall input requestedDepth requestedLimit g log,
      run (legacy input requestedDepth requestedLimit) = (Returned g, log) ->
      exists c,
        filter isCenterSide (Legacy.Graph.nodes g) = [c]
        /\ Node.id c = Legacy.Meta.centerWorkId (Legacy.Graph.meta g)
        /\ Node.side c = center /\ Node.depth c = 0)
  /\ (forall side, Engine.mergeSide center side = center
                   /\ Engine.mergeSide side center = center
                   /\ Legacy.mergeSide center side = center
                   /\ Legacy.mergeSide side center = center)
  /\ (forall level, 0 <= level -> Z.min 0 level = 0).
Proof.
  split; [| split; [| split; [| split]]].
  - intros schedule input rd rl workId raw rest Hans Hid Hup Hraw. split.
    + eapply engine_returns; eassumption.
    + eapply legacy_returns; eassumption.
  - apply engine_center_node.
  - intros input rd rl g log H.
    apply legacy_store in H. destruct H as (cw & st & -> & _ & -> & Hn & _).
    destruct (NodesOk_filter _ _ Hn) as (c & Hf & Hid & Hd & Hs).
    exists c. auto.
  - intros side. destruct side; repeat split; reflexivity.
  - intros level H. lia.
Qed.

(** C10: in every returned graph the direction of a link is the one its
    type fixes: [backward] exactly for [references], [forward] exactly for
    [cited_by]. *)
Theorem link_direction_follows_type :
  (forall schedule input requestedDepth requestedLimit g log,
      run (engine schedule input requestedDepth requestedLimit) = (Returned g, log) ->
      forall link, In link (Engine.Graph.links g) ->
        (Link.direction link = backward <-> Link.type link = references)
        /\ (Link.direction link = forward <-> Link.type link = cited_by))
  /\ (forall input requestedDepth requestedLimit g log,
      run (legacy input requestedDepth requestedLimit) = (Returned g, log) ->
      forall link, In link (Legacy.Graph.links g) ->
        (Link.direction link = backward <-> Link.type link = references)
        /\ (Link.direction link = forward <-> Link.type link = cited_by)).
Proof.
  split.
  - intros schedule input rd rl g log H link Hin.
    apply engine_store in H. destruct H as (cw & st & -> & _ & Hl).
    cbn in Hin. apply filter_In in Hin. destruct Hin as [Hin _].
    rewrite Forall_forall in Hl. apply coupled_iff, Hl, Hin.
  - intros input rd rl g log H link Hin.
    apply legacy_store in H. destruct H as (cw & st & _ & E & _ & _ & Hl).
    rewrite E in Hin. rewrite Forall_forall in Hl. apply coupled_iff, Hl, Hin.
Qed.
End CentreAndLinks.

(* ===================================================================== *)
(** ** Temporal order of links, and pruning *)
(* ===================================================================== *)

(** The order [isTemporallyConsistent] enforces when both years are known. *)
Lemma isTemporallyConsistent_known parentYear childYear side :
  Engine.isTemporallyConsistent (Some parentYear) (Some childYear) side = true ->
  match side with
  | references => childYear <= parentYear
  | cited_by => childYear >= parentYear
  end.
Proof.
  unfold Engine.isTemporallyConsistent. cbn. destruct side; intros H.
  - apply Z.leb_le. exact H.
  - apply Z.geb_le in H. lia.
Qed.

(** [Number(null)] is 0, so a missing year is compared as the year 0 and
    the permissive branch is never taken for it. *)
Lemma isTemporallyConsistent_unknown_year :
  Engine.isTemporallyConsistent None (Some 1990) references = false
  /\ Engine.isTemporallyConsistent (Some 2000) None cited_by = false
  /\ forall parentYear childYear side,
       Engine.isTemporallyConsistent parentYear childYear side
       = match side with
         | references =>
             match childYear with Some c => c | None => 0 end
             <=? match parentYear with Some p => p | None => 0 end
         | cited_by =>
             match childYear with Some c => c | None => 0 end
             >=? match parentYear with Some p => p | None => 0 end
         end.
Proof.
  split; [reflexivity |]. split; [reflexivity |].
  intros [p |] [c |] []; reflexivity.
Qed.

Section Assembly.
Variable localeCompare : string -> string -> JsNumber.
Variable computeNodeSize : Z -> Z.
Variable upstream : Request -> Response.

Local Abbreviation engine := (Engine.buildGraph localeCompare computeNodeSize upstream).

(** A node that survives the pruning: the centre, or an end of a surviving
    link. *)
Lemma assemble_nodes centerWork depth limit st n :
  In n (Engine.Graph.nodes (Engine.assemble centerWork depth limit st)) <->
  In n (JsMap.values (Engine.nodeMap st))
  /\ (Node.id n = Work.id centerWork
      \/ exists link,
           In link (Engine.Graph.links (Engine.assemble centerWork depth limit st))
           /\ (Link.source link = Node.id n \/ Link.target link = Node.id n)).
Proof.
  cbn. rewrite filter_In, connectedNodeIds_spec. reflexivity.
Qed.

(** A link that survives the re-validation: both its ends are nodes of the
    store and the pair is consistent on their records. *)
Lemma assemble_links centerWork depth limit st link :
  In link (Engine.Graph.links (Engine.assemble centerWork depth limit st)) ->
  exists source target,
    In source (JsMap.values (Engine.nodeMap st))
    /\ In target (JsMap.values (Engine.nodeMap st))
    /\ Node.id source = Link.source link /\ Node.id target = Link.target link
    /\ Engine.isTemporallyConsistent (Node.year source) (Node.year target)
         (Link.type link) = true.
Proof.
  cbn. intros Hin. apply filter_In in Hin. destruct Hin as [Hin Hok].
  unfold Engine.isLinkTemporallyConsistent in Hok.
  destruct (JsMap.get _ (Link.source link)) as [source |] eqn:Es; [| discriminate].
  destruct (JsMap.get _ (Link.target link)) as [target |] eqn:Et; [| discriminate].
  apply stableNodeMap_get in Es. destruct Es as [Hs Hsid].
  apply stableNodeMap_get in Et. destruct Et as [Ht Htid].
  exists source, target. auto.
Qed.

Lemma assemble_link_ends centerWork depth limit st link :
  In link (Engine.Graph.links (Engine.assemble centerWork depth limit st)) ->
  exists source target,
    In source (Engine.Graph.nodes (Engine.assemble centerWork depth limit st))
    /\ In target (Engine.Graph.nodes (Engine.assemble centerWork depth limit st))
    /\ Node.id source = Link.source link /\ Node.id target = Link.target link
    /\ Engine.isTemporallyConsistent (Node.year source) (Node.year target)
         (Link.type link) = true.
Proof.
  intros Hin. destruct (assemble_links _ _ _ _ _ Hin)
    as (s & t & Hs & Ht & Hsid & Htid & Hok).
  exists s, t. rewrite !assemble_nodes. repeat split; auto; right; exists link; auto.
Qed.

(** C1 for the engine: both ends of a returned link are returned nodes, the
    pair passed [isTemporallyConsistent] on the final node records, and so,
    when both years are known, the target of a [references] link is not
    later than its source and the target of a [cited_by] link is not
    earlier. *)
Theorem links_temporally_ordered
    schedule input requestedDepth requestedLimit g log :
  run (engine schedule input requestedDepth requestedLimit) = (Returned g, log) ->
  forall link, In link (Engine.Graph.links g) ->
    exists source target,
      In source (Engine.Graph.nodes g) /\ In target (Engine.Graph.nodes g)
      /\ Node.id source = Link.source link /\ Node.id target = Link.target link
      /\ Engine.isTemporallyConsistent (Node.year source) (Node.year target)
           (Link.type link) = true
      /\ forall sourceYear targetYear,
           Node.year source = Some sourceYear ->
           Node.year target = Some targetYear ->
           match Link.type link with
           | references => targetYear <= sourceYear
           | cited_by => targetYear >= sourceYear
           end.
Proof.
  intros H link Hin. apply engine_returned in H.
  destruct H as (workId & cw & st & log1 & _ & _ & _ & ->).
  destruct (assemble_link_ends _ _ _ _ _ Hin) as (s & t & Hs & Ht & Hsid & Htid & Hok).
  exists s, t. repeat split; auto.
  intros ys yt Eys Eyt. rewrite Eys, Eyt in Hok.
  apply isTemporallyConsistent_known. exact Hok.
Qed.
End Assembly.

(* ===================================================================== *)
(** ** Order on strings, and sorting *)
(* ===================================================================== *)

Lemma ascii_compare_refl c : Ascii.compare c c = Eq.
Proof. unfold Ascii.compare. apply N.compare_refl. Qed.

Lemma string_compare_refl s : String.compare s s = Eq.
Proof.
  induction s as [| c s IH]; simpl; [reflexivity |].
  rewrite ascii_compare_refl. exact IH.
Qed.

Lemma string_compare_lt_trans a b c :
  String.compare a b = Lt -> String.compare b c = Lt -> String.compare a c = Lt.
Proof.
  revert b c. induction a as [| x a IH]; intros [| y b] [| z c]; simpl;
    try discriminate; try reflexivity.
  unfold Ascii.compare.
  destruct (N.compare_spec (N_of_ascii x) (N_of_ascii y)) as [Exy | Lxy | Gxy];
    try discriminate;
    destruct (N.compare_spec (N_of_ascii y) (N_of_ascii z)) as [Eyz | Lyz | Gyz];
    try discriminate; intros H1 H2.
  - rewrite Exy, Eyz, N.compare_refl. eapply IH; eassumption.
  - rewrite Exy. apply N.compare_lt_iff in Lyz. rewrite Lyz. reflexivity.
  - rewrite <- Eyz. apply N.compare_lt_iff in Lxy. rewrite Lxy. reflexivity.
  - assert (L : (N_of_ascii x < N_of_ascii z)%N) by lia.
    apply N.compare_lt_iff in L. rewrite L. reflexivity.
Qed.

Lemma strLt_irrefl s : strLt s s = false.
Proof. unfold strLt, String.ltb. rewrite string_compare_refl. reflexivity. Qed.

Lemma strLt_trans a b c : strLt a b = true -> strLt b c = true -> strLt a c = true.
Proof.
  unfold strLt, String.ltb. intros H1 H2.
  destruct (String.compare a b) eqn:E1; try discriminate.
  destruct (String.compare b c) eqn:E2; try discriminate.
  rewrite (string_compare_lt_trans _ _ _ E1 E2). reflexivity.
Qed.

Section SortFacts.
Variable A : Type.
Variable cmp : A -> A -> JsNumber.

(** [a] may stand before [b]: [b] does not sort strictly before [a]. *)
Definition mayPrecede (a b : A) : Prop := isNegative (cmp b a) = false.

Lemma insertSorted_perm x l : Permutation (insertSorted cmp x l) (x :: l).
Proof.
  induction l as [| y l IH]; simpl; [reflexivity |].
  destruct (isNegative (cmp y x)); [| reflexivity].
  rewrite IH. apply perm_swap.
Qed.

Lemma jsSort_perm l : Permutation (jsSort cmp l) l.
Proof.
  induction l as [| x l IH]; simpl; [reflexivity |].
  rewrite insertSorted_perm. apply perm_skip. exact IH.
Qed.

Hypothesis cmp_asym : forall a b, isNegative (cmp a b) = true -> isNegative (cmp b a) = false.
Hypothesis cmp_trans : forall a b c, mayPrecede a b -> mayPrecede b c -> mayPrecede a c.

Lemma insertSorted_sorted x l :
  StronglySorted mayPrecede l -> StronglySorted mayPrecede (insertSorted cmp x l).
Proof.
  induction l as [| y l IH]; intros Hs; simpl.
  - repeat constructor.
  - apply StronglySorted_inv in Hs. destruct Hs as [Hl Hy].
    destruct (isNegative (cmp y x)) eqn:E.
    + constructor; [apply IH; exact Hl |].
      rewrite Forall_forall in Hy |- *. intros z Hz.
      apply (Permutation_in _ (insertSorted_perm x l)) in Hz.
      destruct Hz as [<- | Hz]; [apply cmp_asym; exact E | apply Hy; exact Hz].
    + constructor; [constructor; assumption |].
      constructor; [exact E |].
      rewrite Forall_forall in Hy |- *. intros z Hz.
      apply (cmp_trans x y z); [exact E | apply Hy; exact Hz].
Qed.

Lemma jsSort_sorted l : StronglySorted mayPrecede (jsSort cmp l).
Proof.
  induction l as [| x l IH]; simpl; [constructor |].
  apply insertSorted_sorted. exact IH.
Qed.
End SortFacts.
Arguments mayPrecede {A} cmp a b.
Arguments jsSort_perm {A} cmp l.
Arguments jsSort_sorted {A} cmp _ _ l.

Lemma filter_firstn_prefix {A : Type} (P : A -> bool) n (l : list A) :
  exists rest, filter P l = filter P (firstn n l) ++ rest.
Proof.
  exists (filter P (skipn n l)). rewrite <- filter_app, firstn_skipn. reflexivity.
Qed.

Lemma Permutation_filter_pred {A : Type} (P : A -> bool) (l l' : list A) :
  Permutation l l' -> Permutation (filter P l) (filter P l').
Proof.
  induction 1 as [| x l l' _ IH | x y l | l l' l'' _ IH1 _ IH2]; simpl.
  - constructor.
  - destruct (P x); [apply perm_skip |]; exact IH.
  - destruct (P x), (P y); try reflexivity. apply perm_swap.
  - etransitivity; eassumption.
Qed.

(* ===================================================================== *)
(** ** One pair per child *)
(* ===================================================================== *)

Lemma strLt_total a b : strLt a b = false -> a <> b -> strLt b a = true.
Proof.
  unfold strLt, String.ltb. rewrite (String.compare_antisym b a).
  destruct (String.compare a b) eqn:E; simpl; try discriminate; try reflexivity.
  intros _ Hne. apply String.compare_eq_iff in E. contradiction.
Qed.

Definition childId (e : Engine.Entry) : string := Work.id (Engine.child e).
Definition parentId (e : Engine.Entry) : string := Work.id (Engine.parent e).
Definition childIs (c : string) (e : Engine.Entry) : bool := String.eqb (childId e) c.

(** The map built from the pairs [seen] so far: one pair per child met,
    filed under the child's id, and no pair met for that child has a
    parent id that sorts strictly lower. *)
Record Deduped (seen : list Engine.Entry) (m : JsMap.t Engine.Entry) : Prop := {
  deduped_nodup : NoDup (JsMap.keys m);
  deduped_kept : forall k e, JsMap.get m k = Some e ->
      childId e = k /\ In e seen
      /\ forall e', In e' seen -> childId e' = k ->
                    strLt (parentId e') (parentId e) = false;
  deduped_all : forall e, In e seen -> JsMap.get m (childId e) <> None
}.

Lemma Deduped_step seen m x :
  Deduped seen m -> Deduped (seen ++ [x]) (Engine.uniqueByChildStep m x).
Proof.
  intros [Hnd Hkept Hall]. unfold Engine.uniqueByChildStep.
  fold (childId x). fold (parentId x).
  destruct (JsMap.get m (childId x)) as [existing |] eqn:E.
  - destruct (Hkept _ _ E) as (Hc & Hin & Hmin). fold (parentId existing).
    destruct (strLt (parentId x) (parentId existing)) eqn:Elt.
    + constructor.
      * apply JsMapFacts.NoDup_keys_set. exact Hnd.
      * intros k e. rewrite JsMapFacts.get_set.
        destruct (String.eqb_spec (childId x) k) as [<- | Hne].
        -- intros H. injection H as <-. split; [reflexivity |].
           split; [apply in_or_app; right; left; reflexivity |].
           intros e' Hin' Hc'. apply in_app_or in Hin'.
           destruct Hin' as [Hin' | [<- | []]]; [| apply strLt_irrefl].
           destruct (strLt (parentId e') (parentId x)) eqn:E'; [| reflexivity].
           rewrite <- (Hmin e' Hin' Hc'). symmetry.
           apply (strLt_trans _ _ _ E' Elt).
        -- intros H. destruct (Hkept _ _ H) as (Hc' & Hin' & Hmin').
           split; [exact Hc' |]. split; [apply in_or_app; left; exact Hin' |].
           intros e' Hin'' Hc''. apply in_app_or in Hin''.
           destruct Hin'' as [Hin'' | [<- | []]]; [apply Hmin'; assumption |].
           contradiction.
      * intros e Hin'. rewrite JsMapFacts.get_set.
        destruct (String.eqb (childId x) (childId e)); [discriminate |].
        apply in_app_or in Hin'. destruct Hin' as [Hin' | [<- | []]].
        -- apply Hall. exact Hin'.
        -- rewrite E. discriminate.
    + constructor; [exact Hnd | |].
      * intros k e H. destruct (Hkept _ _ H) as (Hc' & Hin' & Hmin').
        split; [exact Hc' |]. split; [apply in_or_app; left; exact Hin' |].
        intros e' Hin'' Hc''. apply in_app_or in Hin''.
        destruct Hin'' as [Hin'' | [<- | []]]; [apply Hmin'; assumption |].
        rewrite <- Hc'' in H. rewrite E in H. injection H as <-. exact Elt.
      * intros e Hin'. apply in_app_or in Hin'. destruct Hin' as [Hin' | [<- | []]].
        -- apply Hall. exact Hin'.
        -- rewrite E. discriminate.
  - constructor.
    + apply JsMapFacts.NoDup_keys_set. exact Hnd.
    + intros k e. rewrite JsMapFacts.get_set.
      destruct (String.eqb_spec (childId x) k) as [<- | Hne].
      * intros H. injection H as <-. split; [reflexivity |].
        split; [apply in_or_app; right; left; reflexivity |].
        intros e' Hin' Hc'. apply in_app_or in Hin'.
        destruct Hin' as [Hin' | [<- | []]]; [| apply strLt_irrefl].
        exfalso. apply (Hall e' Hin'). rewrite Hc'. exact E.
      * intros H. destruct (Hkept _ _ H) as (Hc' & Hin' & Hmin').
        split; [exact Hc' |]. split; [apply in_or_app; left; exact Hin' |].
        intros e' Hin'' Hc''. apply in_app_or in Hin''.
        destruct Hin'' as [Hin'' | [<- | []]]; [apply Hmin'; assumption |].
        contradiction.
    + intros e Hin'. rewrite JsMapFacts.get_set.
      destruct (String.eqb_spec (childId x) (childId e)) as [_ | Hne]; [discriminate |].
      apply in_app_or in Hin'. destruct Hin' as [Hin' | [<- | []]].
      * apply Hall. exact Hin'.
      * contradiction.
Qed.

Lemma Deduped_fold seen m rest :
  Deduped seen m ->
  Deduped (seen ++ rest) (fold_left Engine.uniqueByChildStep rest m).
Proof.
  revert seen m. induction rest as [| x rest IH]; intros seen m H; simpl.
  - rewrite app_nil_r. exact H.
  - replace (seen ++ x :: rest) with ((seen ++ [x]) ++ rest)
      by (rewrite <- app_assoc; reflexivity).
    apply IH. apply Deduped_step. exact H.
Qed.

Lemma uniqueByChild_Deduped flattened :
  Deduped flattened (Engine.uniqueByChild flattened).
Proof.
  unfold Engine.uniqueByChild.
  apply (Deduped_fold [] JsMap.empty flattened).
  constructor; cbn; [constructor | discriminate | intros e []].
Qed.

(* ===================================================================== *)
(** ** Ranking of a parent's references *)
(* ===================================================================== *)

Lemma filterDefined_In {A : Type} (l : list (option A)) x :
  In x (filterDefined l) <-> In (Some x) l.
Proof.
  induction l as [| [y |] l IH]; simpl.
  - reflexivity.
  - rewrite IH. split; intros [H | H]; auto; [left; congruence | left; congruence].
  - rewrite IH. split; [auto | intros [H | H]; [discriminate | exact H]].
Qed.

Section Ranking.
Variable localeCompare : string -> string -> JsNumber.
Variable upstream : Request -> Response.

(** [a] does not collate after [b]. *)
Definition idMayPrecede (a b : string) : Prop := isNegative (localeCompare b a) = false.

(** The ranking: more citations first; among equal counts, ids in
    collation order. *)
Definition ranksBefore (a b : Work.t) : Prop :=
  Work.cited_by_count a > Work.cited_by_count b
  \/ (Work.cited_by_count a = Work.cited_by_count b
      /\ idMayPrecede (Work.id a) (Work.id b)).

Lemma mayPrecede_ranksBefore a b :
  mayPrecede (Engine.influenceOrder localeCompare) a b <-> ranksBefore a b.
Proof.
  unfold mayPrecede, ranksBefore, Engine.influenceOrder, idMayPrecede. cbn.
  destruct (Z.eqb_spec (Work.cited_by_count a) (Work.cited_by_count b)) as [E | Hne];
    cbn.
  - split; [intros H; right; auto | intros [H | [_ H]]; [lia | exact H]].
  - rewrite Z.ltb_ge. split; [intros H; left; lia | intros [H | [H _]]; lia].
Qed.

(** The comparator reads nothing of a work but its citation count and its
    id. *)
Lemma influenceOrder_reads_count_and_id a b a' b' :
  Work.cited_by_count a = Work.cited_by_count a' -> Work.id a = Work.id a' ->
  Work.cited_by_count b = Work.cited_by_count b' -> Work.id b = Work.id b' ->
  Engine.influenceOrder localeCompare a b = Engine.influenceOrder localeCompare a' b'.
Proof.
  unfold Engine.influenceOrder. intros -> -> -> ->. reflexivity.
Qed.

Hypothesis localeCompare_asym :
  forall a b, isNegative (localeCompare a b) = true -> isNegative (localeCompare b a) = false.
Hypothesis localeCompare_trans :
  forall a b c, idMayPrecede a b -> idMayPrecede b c -> idMayPrecede a c.

Lemma ranksBefore_asym a b :
  isNegative (Engine.influenceOrder localeCompare a b) = true ->
  isNegative (Engine.influenceOrder localeCompare b a) = false.
Proof.
  unfold Engine.influenceOrder. cbn.
  rewrite (Z.eqb_sym (Work.cited_by_count a) (Work.cited_by_count b)).
  destruct (Z.eqb_spec (Work.cited_by_count b) (Work.cited_by_count a)) as [E | Hne];
    cbn.
  - apply localeCompare_asym.
  - rewrite Z.ltb_lt, Z.ltb_ge. lia.
Qed.

Lemma ranksBefore_trans a b c :
  mayPrecede (Engine.influenceOrder localeCompare) a b ->
  mayPrecede (Engine.influenceOrder localeCompare) b c ->
  mayPrecede (Engine.influenceOrder localeCompare) a c.
Proof.
  rewrite !mayPrecede_ranksBefore. unfold ranksBefore.
  intros [H1 | [H1 I1]] [H2 | [H2 I2]]; try (left; lia).
  right. split; [lia |]. eapply localeCompare_trans; eassumption.
Qed.

Lemma sortByInfluence_ranked works :
  Permutation (Engine.sortByInfluence localeCompare works) works
  /\ StronglySorted ranksBefore (Engine.sortByInfluence localeCompare works).
Proof.
  split; [apply jsSort_perm |].
  assert (H : StronglySorted (mayPrecede (Engine.influenceOrder localeCompare))
                (Engine.sortByInfluence localeCompare works)).
  { apply jsSort_sorted; [exact ranksBefore_asym | exact ranksBefore_trans]. }
  induction H as [| x l _ IH Hx]; constructor; [exact IH |].
  rewrite Forall_forall in Hx |- *. intros y Hy.
  apply mayPrecede_ranksBefore, Hx, Hy.
Qed.

(** C4 for the engine: the candidates of a parent are its first 200
    referenced ids, fetched as one batch; the works that came back are
    ranked by citation count, highest first, then by id in collation
    order, and the first [sideLimit] of that ranking are the children.
    The comparator reads only the count and the id. *)
Theorem getTopReferences_ranked parentWork sideLimit log children log' :
  Engine.getTopReferences localeCompare upstream parentWork sideLimit log
    = (Returned children, log') ->
  (Work.referenced_works parentWork = [] -> children = [] /\ log' = log)
  /\ (Work.referenced_works parentWork <> [] ->
      exists works ranked,
        OpenAlex.getWorksByIds upstream
          (firstn 200 (Work.referenced_works parentWork)) log
          = (Returned works, log')
        /\ children = firstn sideLimit ranked
        /\ StronglySorted ranksBefore ranked
        /\ (forall w, In w ranked ->
              In w works /\ In (Work.id w) (Work.referenced_works parentWork))
        /\ (forall w, In w works -> In (Work.id w) (Work.referenced_works parentWork) ->
              exists w', In w' ranked /\ Work.id w' = Work.id w))
  /\ (forall a b a' b',
        Work.cited_by_count a = Work.cited_by_count a' -> Work.id a = Work.id a' ->
        Work.cited_by_count b = Work.cited_by_count b' -> Work.id b = Work.id b' ->
        Engine.influenceOrder localeCompare a b
        = Engine.influenceOrder localeCompare a' b').
Proof.
  unfold Engine.getTopReferences. cbv zeta. intros H.
  split; [| split; [| exact influenceOrder_reads_count_and_id]].
  - intros E. rewrite E in H. fetch_ret H as E'. auto.
  - intros Hne.
    destruct (Work.referenced_works parentWork) as [| r refs] eqn:Erefs;
      [contradiction |].
    fetch_bind H as works log1 Hfetch H. fetch_ret H as E.
    set (worksById := JsMap.ofPairs (map (fun work => (Work.id work, work)) works)).
    set (ordered := filterDefined (map (fun id => JsMap.get worksById id) (r :: refs))).
    exists works, (Engine.sortByInfluence localeCompare ordered).
    destruct (sortByInfluence_ranked ordered) as [Hperm Hsorted].
    split; [exact Hfetch |]. split; [reflexivity |]. split; [exact Hsorted |].
    assert (Hordered : forall w, In w ordered <->
                         exists id, In id (r :: refs) /\ JsMap.get worksById id = Some w).
    { intros w. unfold ordered. rewrite filterDefined_In, in_map_iff.
      split; intros (id & H1 & H2); exists id; auto. }
    split.
    + intros w Hw. apply (Permutation_in _ Hperm) in Hw.
      apply Hordered in Hw. destruct Hw as (id & Hid & Hget).
      apply ofPairs_get in Hget. apply in_map_iff in Hget.
      destruct Hget as (w' & Ew & Hin). injection Ew as <- <-. auto.
    + intros w Hw Hid.
      destruct (JsMap.get worksById (Work.id w)) as [w' |] eqn:Eget.
      * exists w'. split.
        -- apply (Permutation_in _ (Permutation_sym Hperm)).
           apply Hordered. exists (Work.id w). auto.
        -- apply ofPairs_get in Eget. apply in_map_iff in Eget.
           destruct Eget as (w'' & Ew & _). injection Ew as E1 E2. subst. exact E1.
      * exfalso. apply JsMapFacts.get_None_keys in Eget. apply Eget.
        unfold worksById. clear - Hw.
        assert (Hgen : forall (l : list Work.t) m,
                   In (Work.id w) (JsMap.keys m) \/ In w l ->
                   In (Work.id w)
                     (JsMap.keys
                        (fold_left (fun m kv => JsMap.set m (fst kv) (snd kv))
                           (map (fun work => (Work.id work, work)) l) m))).
        { induction l as [| x l IH]; intros m [H | H]; cbn; auto; try contradiction.
          - apply IH. left. rewrite JsMapFacts.keys_set.
            destruct (JsMap.has m (Work.id x)); [exact H |].
            apply in_or_app. left. exact H.
          - destruct H as [-> | H]; [| apply IH; right; exact H].
            apply IH. left. rewrite JsMapFacts.keys_set. unfold JsMap.has.
            destruct (JsMap.get m (Work.id w)) eqn:E.
            + apply JsMapFacts.get_In in E.
              change (In (fst (Work.id w, t)) (map fst m)). apply in_map. exact E.
            + apply in_or_app. right. left. reflexivity. }
        apply Hgen. right. exact Hw.
Qed.
End Ranking.

(* ===================================================================== *)
(** ** The code at work on the sample providers *)
(* ===================================================================== *)

Module Runs.
Import Sample.

Lemma engine_run :
  run (Engine.buildGraph localeCompare computeNodeSize upstream
         [cited_by; references] " w1000 " (JsString "2") (JsString "20"))
  = (Returned graph, snd outcome).
Proof. vm_compute. reflexivity. Qed.

Lemma legacy_run :
  run (Legacy.buildGraph localeCompare computeNodeSize upstream
         "W1000" (JsString "2") (JsString "30"))
  = (Returned legacyGraph, snd legacyOutcome).
Proof. vm_compute. reflexivity. Qed.

Lemma topReferences_run :
  Engine.getTopReferences localeCompare upstream seed 2 []
  = (Returned topReferences, [FilterOpenAlexId [A; B; F] 3]).
Proof. vm_compute. reflexivity. Qed.

Lemma localeCompare_asym a b :
  isNegative (localeCompare a b) = true -> isNegative (localeCompare b a) = false.
Proof.
  unfold localeCompare. rewrite (String.compare_antisym b a).
  destruct (String.compare a b); simpl; intros H; try discriminate H; reflexivity.
Qed.

Lemma localeCompare_trans a b c :
  idMayPrecede localeCompare a b -> idMayPrecede localeCompare b c ->
  idMayPrecede localeCompare a c.
Proof.
  unfold idMayPrecede, localeCompare. intros Hba Hcb.
  destruct (String.compare c a) eqn:Eca; try reflexivity. exfalso.
  destruct (String.compare c b) eqn:Ecb; try discriminate Hcb.
  - apply String.compare_eq_iff in Ecb. subst. rewrite Eca in Hba. discriminate.
  - assert (Ebc : String.compare b c = Lt)
      by (rewrite String.compare_antisym, Ecb; reflexivity).
    rewrite (string_compare_lt_trans _ _ _ Ebc Eca) in Hba. discriminate.
Qed.
End Runs.

(* ===================================================================== *)
(** ** What [graph.js] does differently, and where the engine's pruning
       and merging show *)
(* ===================================================================== *)

(** [graph.js] applies no temporal filter: a reference dated after the seed
    is linked all the same. *)
Lemma legacy_links_anachronism :
  exists g log link source target,
    run (Legacy.buildGraph Sample.localeCompare Sample.computeNodeSize
           Sample.anachronism "W1000" JsUndefined JsUndefined) = (Returned g, log)
    /\ In link (Legacy.Graph.links g) /\ Link.type link = references
    /\ In source (Legacy.Graph.nodes g) /\ Node.id source = Link.source link
    /\ In target (Legacy.Graph.nodes g) /\ Node.id target = Link.target link
    /\ Node.year source = Some 2000 /\ Node.year target = Some 2020.
Proof.
  eexists _, _, _, _, _. split; [vm_compute; reflexivity |].
  split; [left; reflexivity |]. split; [reflexivity |].
  split; [left; reflexivity |]. split; [reflexivity |].
  split; [right; left; reflexivity |]. repeat split.
Qed.

(** In [graph.js] the year breaks ties before the id does: of two
    references with 50 citations each, the one kept at limit 1 is the later
    one, although its id collates after the other's. *)
Lemma legacy_ranks_by_year :
  let a := Sample.workOf Sample.A 1990 50 in
  let b := Sample.workOf Sample.B 1995 50 in
  isNegative (Sample.localeCompare (Work.id a) (Work.id b)) = true
  /\ Legacy.sortByInfluence Sample.localeCompare [a; b] = [b; a]
  /\ Engine.sortByInfluence Sample.localeCompare [b; a] = [a; b]
  /\ exists g log,
       run (Legacy.buildGraph Sample.localeCompare Sample.computeNodeSize
              Sample.upstream "W1000" (JsString "2") (JsString "1")) = (Returned g, log)
       /\ map Node.id (Legacy.Graph.nodes g) = [Sample.C; Sample.B; Sample.E].
Proof.
  cbv zeta. split; [reflexivity |]. split; [reflexivity |]. split; [reflexivity |].
  eexists _, _. split; vm_compute; reflexivity.
Qed.

(** [graph.js] reports depth 1 and caps the limit at 20: asked for depth 2
    and limit 30, its [meta] carries neither. *)
Lemma legacy_meta_capped :
  exists g log,
    run (Legacy.buildGraph Sample.localeCompare Sample.computeNodeSize
           Sample.upstream "W1000" (JsString "2") (JsString "30")) = (Returned g, log)
    /\ parseGraphParams (JsString "2") (JsString "30")
       = {| GraphParams.depth := 2; GraphParams.limit := 30 |}
    /\ Legacy.Meta.depth (Legacy.Graph.meta g) = 1
    /\ Legacy.Meta.limit (Legacy.Graph.meta g) = 20.
Proof.
  exists Sample.legacyGraph, (snd Sample.legacyOutcome).
  split; [exact Runs.legacy_run |]. repeat split.
Qed.

Lemma disagreeing_run :
  run (Engine.buildGraph Sample.localeCompare Sample.computeNodeSize
         Sample.disagreeing [] "W1000" (JsString "2") (JsString "20"))
  = (Returned Sample.disagreeingGraph, snd Sample.disagreeingOutcome).
Proof. vm_compute. reflexivity. Qed.

(** When the provider's answers disagree about the seed's year, the
    re-validation drops both links that leave the seed; [A] and [D] keep
    the link between them and are returned, cut off from the seed. *)
Lemma pruning_keeps_cut_off_nodes :
  exists g log n,
    run (Engine.buildGraph Sample.localeCompare Sample.computeNodeSize
           Sample.disagreeing [] "W1000" (JsString "2") (JsString "20"))
      = (Returned g, log)
    /\ In n (Engine.Graph.nodes g)
    /\ ~ Connected (Engine.Graph.links g)
           (Engine.Meta.centerWorkId (Engine.Graph.meta g)) (Node.id n).
Proof.
  exists Sample.disagreeingGraph, (snd Sample.disagreeingOutcome).
  eexists. split; [exact disagreeing_run |].
  split; [right; left; reflexivity |].
  assert (Hclosed : forall x,
             Connected (Engine.Graph.links Sample.disagreeingGraph) Sample.C x ->
             x = Sample.C \/ x = Sample.B).
  { intros x Hx. induction Hx as [| b link _ IH Hin Hsrc | b link _ IH Hin Htgt].
    - left. reflexivity.
    - destruct Hin as [<- | [<- | []]]; cbn in Hsrc |- *; [left; reflexivity |].
      subst b. destruct IH as [IH | IH]; discriminate IH.
    - destruct Hin as [<- | [<- | []]]; cbn in Htgt |- *; [right; reflexivity |].
      subst b. destruct IH as [IH | IH]; discriminate IH. }
  intros Hc. apply Hclosed in Hc. destruct Hc as [Hc | Hc]; discriminate Hc.
Qed.

(** When the provider's answers disagree about a work, the record of the
    side that commits last stays in the node: the two orders of completion
    give node lists that are not permutations of one another. *)
Lemma completion_order_shows :
  exists g1 log1 g2 log2,
    run (Engine.buildGraph Sample.localeCompare Sample.computeNodeSize
           Sample.recounting [references; cited_by] "W1000" (JsString "1") (JsString "20"))
      = (Returned g1, log1)
    /\ run (Engine.buildGraph Sample.localeCompare Sample.computeNodeSize
              Sample.recounting [cited_by; references] "W1000" (JsString "1") (JsString "20"))
      = (Returned g2, log2)
    /\ ~ Permutation (Engine.Graph.nodes g1) (Engine.Graph.nodes g2).
Proof.
  eexists _, _, _, _. split; [vm_compute; reflexivity |].
  split; [vm_compute; reflexivity |].
  intros Hp. cbn [Engine.Graph.nodes] in Hp.
  match type of Hp with
  | Permutation (?c :: ?n :: nil) _ =>
      assert (Hin : In n (c :: n :: nil)) by (right; left; reflexivity);
      apply (Permutation_in _ Hp) in Hin
  end.
  destruct Hin as [Hin | [Hin | []]]; discriminate Hin.
Qed.

(* ===================================================================== *)
(** ** The theorems at the sample run *)
(* ===================================================================== *)

Lemma links_temporally_ordered_witness :
  exists source target,
    In source (Engine.Graph.nodes Sample.graph)
    /\ In target (Engine.Graph.nodes Sample.graph)
    /\ Node.id source = Sample.C /\ Node.id target = Sample.A
    /\ Engine.isTemporallyConsistent (Node.year source) (Node.year target) references
       = true
    /\ forall sourceYear targetYear,
         Node.year source = Some sourceYear -> Node.year target = Some targetYear ->
         targetYear <= sourceYear.
Proof.
  apply (links_temporally_ordered Sample.localeCompare Sample.computeNodeSize
           Sample.upstream _ _ _ _ _ _ Runs.engine_run
           {| Link.source := Sample.C; Link.target := Sample.A;
              Link.type := references; Link.direction := backward |}).
  cbn. right. right. left. reflexivity.
Defined.

Lemma buildGraph_one_center_witness :
  (exists g log,
      run (Engine.buildGraph Sample.localeCompare Sample.computeNodeSize
             Sample.upstream [references] "W1000" JsUndefined JsUndefined)
      = (Returned g, log))
  /\ (exists c,
      filter isCenterSide (Engine.Graph.nodes Sample.graph) = [c]
      /\ Node.id c = Engine.Meta.centerWorkId (Engine.Graph.meta Sample.graph)
      /\ Node.side c = center /\ Node.depth c = 0)
  /\ (exists c,
      filter isCenterSide (Legacy.Graph.nodes Sample.legacyGraph) = [c]
      /\ Node.id c = Legacy.Meta.centerWorkId (Legacy.Graph.meta Sample.legacyGraph)
      /\ Node.side c = center /\ Node.depth c = 0)
  /\ Z.min 0 2 = 0.
Proof.
  destruct (buildGraph_one_center Sample.localeCompare Sample.computeNodeSize
              Sample.upstream) as (Hr & He & Hl & _ & Hmin).
  split; [| split; [exact (He _ _ _ _ _ _ Runs.engine_run) |
                    split; [exact (Hl _ _ _ _ _ Runs.legacy_run) | apply Hmin; lia]]].
  apply (Hr [references] "W1000" JsUndefined JsUndefined Sample.C
           (Sample.record Sample.C (Some 2000) 100 [Sample.A; Sample.B; Sample.F]) []).
  - intros req. destruct req; eexists; reflexivity.
  - reflexivity.
  - reflexivity.
  - discriminate.
Defined.

Lemma getTopReferences_ranked_witness :
  exists works ranked,
    OpenAlex.getWorksByIds Sample.upstream
      (firstn 200 (Work.referenced_works Sample.seed)) []
      = (Returned works, [FilterOpenAlexId [Sample.A; Sample.B; Sample.F] 3])
    /\ Sample.topReferences = firstn 2 ranked
    /\ map Work.id Sample.topReferences = [Sample.A; Sample.B]
    /\ StronglySorted (ranksBefore Sample.localeCompare) ranked.
Proof.
  destruct (getTopReferences_ranked Sample.localeCompare Sample.upstream
              Runs.localeCompare_asym Runs.localeCompare_trans
              Sample.seed 2 [] Sample.topReferences
              [FilterOpenAlexId [Sample.A; Sample.B; Sample.F] 3]
              Runs.topReferences_run)
    as (_ & Hranked & _).
  destruct Hranked as (works & ranked & Hfetch & Hchildren & Hsorted & _);
    [discriminate |].
  exists works, ranked. repeat split; assumption || reflexivity.
Defined.

Lemma buildGraph_errors_witness :
  run (Engine.buildGraph Sample.localeCompare Sample.computeNodeSize Sample.upstream
         [] "10.1000/xyz" JsUndefined JsUndefined) = (Thrown invalidWorkId, [])
  /\ run (Engine.buildGraph Sample.localeCompare Sample.computeNodeSize Sample.upstream
            [] "W9999" JsUndefined JsUndefined)
     = (Thrown centerNotFound, [FilterOpenAlexId [Sample.idOf "W9999"] 1])
  /\ statusOfOutcome (@Thrown unit (OpenAlex.requestFailed 503 "busy")) = 502.
Proof.
  split; [| split].
  - apply (buildGraph_errors Sample.localeCompare Sample.computeNodeSize
             Sample.upstream [] "10.1000/xyz" JsUndefined JsUndefined).
    reflexivity.
  - apply (proj1 (proj2 (buildGraph_errors Sample.localeCompare Sample.computeNodeSize
                           Sample.upstream [] "W9999" JsUndefined JsUndefined))
             (Sample.idOf "W9999") []); [reflexivity | reflexivity | exact I].
  - apply (proj2 (proj2 (proj2 (proj2 (proj2 (proj2 (proj2
             (buildGraph_errors Sample.localeCompare Sample.computeNodeSize
                (fun _ => HttpError 503 "busy") [] "W1000" JsUndefined JsUndefined))))))))
      with (log := [FilterOpenAlexId [Sample.C] 1]).
    split; [reflexivity |].
    exists [], (FilterOpenAlexId [Sample.C] 1), 503, "busy". split; reflexivity.
Defined.

Lemma buildGraph_meta_witness :
  Engine.Graph.meta Sample.graph
    = {| Engine.Meta.centerWorkId := Sample.C; Engine.Meta.depth := 2;
         Engine.Meta.limit := 20 |}
  /\ Legacy.Meta.limit (Legacy.Graph.meta Sample.legacyGraph) = 20.
Proof.
  destruct (buildGraph_meta Sample.localeCompare Sample.computeNodeSize Sample.upstream)
    as [He Hl].
  destruct (He _ _ _ _ _ _ Runs.engine_run) as (Hd & Hlim & _ & _).
  destruct (Hl _ _ _ _ _ Runs.legacy_run) as (_ & _ & Hcap).
  split; [| rewrite Hcap; reflexivity].
  destruct (Engine.Graph.meta Sample.graph) as [cid d l] eqn:E.
  cbn in Hd, Hlim. rewrite Hd, Hlim. vm_compute in E. injection E as <- _ _.
  reflexivity.
Defined.

Lemma link_direction_follows_type_witness :
  let link := {| Link.source := Sample.C; Link.target := Sample.E;
                 Link.type := cited_by; Link.direction := forward |} in
  (Link.direction link = backward <-> Link.type link = references)
  /\ (Link.direction link = forward <-> Link.type link = cited_by).
Proof.
  intros link.
  apply (proj1 (link_direction_follows_type Sample.localeCompare
                  Sample.computeNodeSize Sample.upstream)
           _ _ _ _ _ _ Runs.engine_run link).
  left. reflexivity.
Defined.

(* ===================================================================== *)
(** ** Fetches do not read the log *)
(* ===================================================================== *)

(** A computation is uniform when its outcome, and the requests it adds to
    the log, do not depend on the log it starts from. *)
Definition Uniform {A : Type} (c : Fetch A) : Prop :=
  exists o extra, forall log, c log = (o, log ++ extra).

(** The outcome of a computation, started on an empty log. *)
Definition eval {A : Type} (c : Fetch A) : Outcome A := fst (c []).

Lemma Uniform_eval {A : Type} (c : Fetch A) log :
  Uniform c -> fst (c log) = eval c.
Proof. intros (o & extra & H). unfold eval. rewrite !H. reflexivity. Qed.

Lemma Uniform_ret {A : Type} (a : A) : Uniform (ret a).
Proof. exists (Returned a), []. intros log. rewrite app_nil_r. reflexivity. Qed.

Lemma Uniform_bind {A B : Type} (c : Fetch A) (k : A -> Fetch B) :
  Uniform c -> (forall a, Uniform (k a)) -> Uniform (bind c k).
Proof.
  intros (o & extra & Hc) Hk. destruct o as [a | e].
  - destruct (Hk a) as (o2 & extra2 & Hk2). exists o2, (extra ++ extra2).
    intros log. unfold bind. rewrite Hc, Hk2, app_assoc. reflexivity.
  - exists (Thrown e), extra. intros log. unfold bind. rewrite Hc. reflexivity.
Qed.

Lemma Uniform_promiseAll {A B : Type} (f : A -> Fetch B) items :
  (forall x, Uniform (f x)) -> Uniform (promiseAll f items).
Proof.
  intros Hf. induction items as [| x rest IH]; cbn [promiseAll].
  - apply Uniform_ret.
  - apply Uniform_bind; [apply Hf | intros y].
    apply Uniform_bind; [exact IH | intros ys]. apply Uniform_ret.
Qed.

(** Two uniform computations with the same outcome can be exchanged under a
    bind, as far as the outcome goes. *)
Lemma eval_bind {A B : Type} (c : Fetch A) (k : A -> Fetch B) :
  Uniform c -> (forall a, Uniform (k a)) ->
  eval (bind c k)
  = match eval c with
    | Returned a => eval (k a)
    | Thrown e => Thrown e
    end.
Proof.
  intros Hc Hk. unfold eval at 1. unfold bind.
  pose proof (Uniform_eval c [] Hc) as E.
  destruct (c []) as [[a | e] log1]; cbn in E; rewrite <- E; cbn.
  - apply (Uniform_eval (k a) log1 (Hk a)).
  - reflexivity.
Qed.

Section Provider.
Variable upstream : Request -> Response.

Lemma Uniform_request req : Uniform (OpenAlex.requestOpenAlex upstream req).
Proof.
  unfold OpenAlex.requestOpenAlex. destruct (upstream req) as [status body | rs].
  - exists (Thrown (OpenAlex.requestFailed status body)), [req]. reflexivity.
  - exists (Returned rs), [req]. reflexivity.
Qed.

Ltac uniform :=
  repeat first
    [ apply Uniform_ret
    | apply Uniform_request
    | apply Uniform_bind; [| intros ?]
    | apply Uniform_promiseAll; intros ?
    | match goal with
      | |- Uniform (match ?x with _ => _ end) => destruct x
      | |- Uniform (if ?x then _ else _) => destruct x
      end ].

Lemma Uniform_getWorkById id : Uniform (OpenAlex.getWorkById upstream id).
Proof. unfold OpenAlex.getWorkById. uniform. Qed.

Lemma Uniform_getWorksByIds ids : Uniform (OpenAlex.getWorksByIds upstream ids).
Proof. unfold OpenAlex.getWorksByIds. uniform. Qed.

Lemma Uniform_getCitingWorks id limit :
  Uniform (OpenAlex.getCitingWorks upstream id limit).
Proof. unfold OpenAlex.getCitingWorks. uniform. Qed.

(** A work the provider has served: the normal form of a record in one of
    its answers. *)
Definition Served (w : Work.t) : Prop :=
  exists req results raw,
    upstream req = Results results /\ In raw results
    /\ OpenAlex.normalizeWork raw = Some w.

Lemma Served_nonEmpty w : Served w -> nonEmpty (Work.id w) = true.
Proof.
  intros (req & rs & raw & _ & _ & H).
  apply NormalizeFacts.normalizeWork_id in H. tauto.
Qed.

Lemma requestOpenAlex_returned req log results log' :
  OpenAlex.requestOpenAlex upstream req log = (Returned results, log') ->
  upstream req = Results results.
Proof.
  unfold OpenAlex.requestOpenAlex. destruct (upstream req); intros H;
    [discriminate | injection H as <- _; reflexivity].
Qed.

Lemma served_of_results req results :
  upstream req = Results results ->
  Forall Served (filterDefined (map OpenAlex.normalizeWork results)).
Proof.
  intros Hup. apply Forall_forall. intros w Hw.
  apply filterDefined_In, in_map_iff in Hw. destruct Hw as (raw & Hn & Hin).
  exists req, results, raw. auto.
Qed.

Lemma getWorkById_served id log w log' :
  OpenAlex.getWorkById upstream id log = (Returned (Some w), log') -> Served w.
Proof.
  unfold OpenAlex.getWorkById. destruct (OpenAlex.normalizeId id) as [n |].
  - intros H. fetch_bind H as rs log1 Hreq H.
    apply requestOpenAlex_returned in Hreq.
    destruct rs as [| raw rest]; fetch_ret H as E; [discriminate |].
    exists (FilterOpenAlexId [n] 1), (raw :: rest), raw.
    split; [exact Hreq | split; [left; reflexivity | exact E]].
  - intros H. fetch_ret H as E. discriminate.
Qed.

Lemma promiseAll_Forall {A B : Type} (f : A -> Fetch B) (P : B -> Prop) items :
  (forall x log y log', f x log = (Returned y, log') -> P y) ->
  forall log ys log',
    promiseAll f items log = (Returned ys, log') -> Forall P ys.
Proof.
  intros Hf. induction items as [| x rest IH]; intros log ys log' H;
    cbn [promiseAll] in H.
  - fetch_ret H as E. constructor.
  - fetch_bind H as y log1 Hy H. fetch_bind H as ys' log2 Hys H. fetch_ret H as E.
    constructor; [eapply Hf; eassumption | eapply IH; eassumption].
Qed.

Lemma Forall_concat {A : Type} (P : A -> Prop) (ls : list (list A)) :
  Forall (Forall P) ls -> Forall P (concat ls).
Proof.
  induction 1 as [| l ls Hl _ IH]; cbn; [constructor |].
  apply Forall_app. split; assumption.
Qed.

Lemma getWorksByIds_served ids log works log' :
  OpenAlex.getWorksByIds upstream ids log = (Returned works, log') ->
  Forall Served works.
Proof.
  unfold OpenAlex.getWorksByIds.
  destruct (JsSet.ofList _) as [| n ns]; intros H.
  - fetch_ret H as E. constructor.
  - fetch_bind H as responses log1 Hall H. fetch_ret H as E.
    apply Forall_concat.
    apply (promiseAll_Forall _ (Forall Served) _) in Hall; [exact Hall |].
    intros chunk l y l' Hc. fetch_bind Hc as rs l1 Hreq Hc. fetch_ret Hc as E.
    apply requestOpenAlex_returned in Hreq.
    eapply served_of_results. exact Hreq.
Qed.

Lemma getCitingWorks_served id limit log works log' :
  OpenAlex.getCitingWorks upstream id limit log = (Returned works, log') ->
  Forall Served works.
Proof.
  unfold OpenAlex.getCitingWorks. destruct (OpenAlex.normalizeId id) as [n |];
    intros H.
  - fetch_bind H as rs log1 Hreq H. fetch_ret H as E.
    apply requestOpenAlex_returned in Hreq.
    eapply served_of_results. exact Hreq.
  - fetch_ret H as E. constructor.
Qed.
End Provider.

(* ===================================================================== *)
(** ** One level, as a fetch followed by writes *)
(* ===================================================================== *)

Ltac uniform :=
  repeat first
    [ apply Uniform_ret
    | apply Uniform_request
    | apply Uniform_getWorkById
    | apply Uniform_getWorksByIds
    | apply Uniform_getCitingWorks
    | apply Uniform_bind; [| intros ?]
    | apply Uniform_promiseAll; intros ?
    | match goal with
      | |- Uniform (match ?x with _ => _ end) => destruct x
      | |- Uniform (if ?x then _ else _) => destruct x
      end ].

(** One write of the loop over [limited]: the side and the level it
    belongs to, and the pair. *)
Definition Op : Type := LinkType * Z * Engine.Entry.

Definition opsOf (side : LinkType) (level : Z) (limited : list Engine.Entry) : list Op :=
  map (fun entry => (side, level, entry)) limited.

Definition opSide (op : Op) : LinkType := fst (fst op).
Definition opEntry (op : Op) : Engine.Entry := snd op.

Section Levels.
Variable localeCompare : string -> string -> JsNumber.
Variable computeNodeSize : Z -> Z.
Variable upstream : Request -> Response.

Local Abbreviation addNode := (Engine.addNode computeNodeSize).

(** The pairs a level accepts, given the parents it read. *)
Definition levelEntries (side : LinkType) (limit : Z)
    (parents : list (option Work.t)) : Fetch (list Engine.Entry) :=
  expansionSets <-
    promiseAll
      (Engine.expandParent localeCompare upstream side
         (Engine.perParentLimitOf limit (List.length parents)))
      parents ;;
  ret (Engine.limitedOf localeCompare limit (concat expansionSets)).

Definition applyOp (st : Engine.Store) (op : Op) : Engine.Store :=
  let '(side, level, entry) := op in
  Engine.addLinkTo
    (addNode st (Engine.child entry) (Engine.sideOf side) level)
    (parentId entry) (childId entry) side (Engine.sideOf side).

Definition foldOps (st : Engine.Store) (ops : list Op) : Engine.Store :=
  fold_left applyOp ops st.

(** Where a side stands after a level that accepted [limited]. *)
Definition nextRun (depth : Z) (r : Engine.SideRun) (limited : list Engine.Entry)
  : Engine.SideRun :=
  if (Engine.level r + 1 <=? depth) && negb (Nat.eqb (List.length limited) 0)
  then {| Engine.level := Engine.level r + 1;
          Engine.parents := map (fun entry => Some (Engine.child entry)) limited;
          Engine.active := true |}
  else {| Engine.level := Engine.level r + 1;
          Engine.parents := [];
          Engine.active := false |}.

Lemma Uniform_expandParent side perParentLimit p :
  Uniform (Engine.expandParent localeCompare upstream side perParentLimit p).
Proof.
  unfold Engine.expandParent, Engine.getTopReferences, Engine.getTopCitations.
  uniform.
Qed.

Lemma Uniform_levelEntries side limit ps : Uniform (levelEntries side limit ps).
Proof.
  unfold levelEntries. apply Uniform_bind; [| intros sets; apply Uniform_ret].
  apply Uniform_promiseAll. intros p. apply Uniform_expandParent.
Qed.

Lemma JsSet_fold_add_fresh (l nf : list string) :
  NoDup (nf ++ l) -> fold_left JsSet.add l nf = nf ++ l.
Proof.
  revert nf. induction l as [| k l IH]; intros nf Hnd; cbn.
  - rewrite app_nil_r. reflexivity.
  - assert (Hfresh : JsSet.has nf k = false).
    { unfold JsSet.has. apply not_true_is_false. intros Hex.
      apply existsb_exists in Hex. destruct Hex as (x & Hx & Ex).
      apply String.eqb_eq in Ex. subst x.
      apply NoDup_remove_2 in Hnd. apply Hnd. apply in_or_app. left. exact Hx. }
    unfold JsSet.add at 2. rewrite Hfresh.
    rewrite IH; rewrite <- app_assoc; [reflexivity | exact Hnd].
Qed.

Lemma commitLevel_fold limited st nextFrontier side level :
  Engine.commitLevel computeNodeSize st nextFrontier side level limited
  = (foldOps st (opsOf side level limited),
     fold_left JsSet.add (map childId limited) nextFrontier).
Proof.
  revert st nextFrontier. induction limited as [| entry rest IH];
    intros st nextFrontier; cbn [Engine.commitLevel]; [reflexivity |].
  rewrite IH. reflexivity.
Qed.

Lemma workCache_applyOp st side level entry :
  Engine.workCache (applyOp st (side, level, entry))
  = Engine.workCache (Engine.cacheWork st (Engine.child entry)).
Proof.
  unfold applyOp, Engine.addLinkTo, Engine.addNode. cbv zeta.
  destruct (JsMap.get _ _); reflexivity.
Qed.

Lemma getCachedWork_cacheWork st w k :
  nonEmpty (Work.id w) = true ->
  Engine.getCachedWork (Engine.cacheWork st w) k
  = if String.eqb (Work.id w) k then Some w else Engine.getCachedWork st k.
Proof.
  intros Hne. unfold Engine.getCachedWork, Engine.cacheWork. rewrite Hne.
  apply JsMapFacts.get_set.
Qed.

Lemma getCachedWork_foldOps limited side level :
  NoDup (map childId limited) ->
  (forall e, In e limited -> nonEmpty (childId e) = true) ->
  forall st,
    (forall e, In e limited ->
       Engine.getCachedWork (foldOps st (opsOf side level limited)) (childId e)
       = Some (Engine.child e))
    /\ (forall k, ~ In k (map childId limited) ->
          Engine.getCachedWork (foldOps st (opsOf side level limited)) k
          = Engine.getCachedWork st k).
Proof.
  induction limited as [| x rest IH]; intros Hnd Hne st.
  - split; [intros e [] | reflexivity].
  - cbn in Hnd. inversion Hnd as [| ? ? Hx Hrest]; subst.
    assert (Hne' : forall e, In e rest -> nonEmpty (childId e) = true)
      by (intros e He; apply Hne; right; exact He).
    destruct (IH Hrest Hne' (applyOp st (side, level, x))) as [IH1 IH2].
    assert (Hcache : forall k,
               Engine.getCachedWork (applyOp st (side, level, x)) k
               = if String.eqb (childId x) k then Some (Engine.child x)
                 else Engine.getCachedWork st k).
    { intros k. unfold Engine.getCachedWork at 1. rewrite workCache_applyOp.
      apply (getCachedWork_cacheWork st (Engine.child x) k).
      apply Hne. left. reflexivity. }
    cbn [opsOf map foldOps fold_left] in *. split.
    + intros e [<- | He]; [| apply IH1; exact He].
      fold (opsOf side level rest). fold (foldOps (applyOp st (side, level, x))
                                            (opsOf side level rest)).
      rewrite IH2 by exact Hx. rewrite Hcache, String.eqb_refl. reflexivity.
    + intros k Hk.
      fold (opsOf side level rest). fold (foldOps (applyOp st (side, level, x))
                                            (opsOf side level rest)).
      rewrite IH2 by (intros H; apply Hk; right; exact H).
      rewrite Hcache. destruct (String.eqb_spec (childId x) k) as [E | _];
        [| reflexivity]. exfalso. apply Hk. left. exact E.
Qed.

Lemma readFrontier_cached frontier st log :
  (forall id, In id frontier -> Engine.getCachedWork st id <> None) ->
  Engine.readFrontier upstream st frontier log
  = (Returned (st, map (Engine.getCachedWork st) frontier), log).
Proof.
  induction frontier as [| id rest IH]; intros Hc; cbn [Engine.readFrontier map].
  - reflexivity.
  - unfold bind, Engine.getWorkOrFetch.
    destruct (Engine.getCachedWork st id) as [w |] eqn:E.
    + unfold ret at 1. rewrite IH by (intros k Hk; apply Hc; right; exact Hk).
      reflexivity.
    + exfalso. apply (Hc id); [left; reflexivity | exact E].
Qed.
End Levels.

Lemma In_firstn {A : Type} n (l : list A) x : In x (firstn n l) -> In x l.
Proof.
  intros H. rewrite <- (firstn_skipn n l). apply in_or_app. left. exact H.
Qed.

Section LevelEntries.
Variable localeCompare : string -> string -> JsNumber.
Variable computeNodeSize : Z -> Z.
Variable upstream : Request -> Response.

Local Abbreviation Served := (Served upstream).
Local Abbreviation entriesOf := (levelEntries localeCompare upstream).
Local Abbreviation written := (foldOps computeNodeSize).

Lemma In_sortByInfluence w works :
  In w (Engine.sortByInfluence localeCompare works) -> In w works.
Proof.
  apply Permutation_in. apply jsSort_perm.
Qed.

Lemma expandParent_served side perParentLimit p log entries log' :
  Engine.expandParent localeCompare upstream side perParentLimit p log
    = (Returned entries, log') ->
  Forall (fun e => Served (Engine.child e)) entries.
Proof.
  unfold Engine.expandParent. destruct p as [parent |]; intros H.
  2:{ fetch_ret H as E. constructor. }
  fetch_bind H as children log1 Hc H. fetch_ret H as E.
  assert (Hserved : Forall Served children).
  { destruct side.
    - unfold Engine.getTopReferences in Hc. cbv zeta in Hc.
      destruct (Work.referenced_works parent) as [| r refs].
      + fetch_ret Hc as E. constructor.
      + fetch_bind Hc as works log2 Hw Hc. fetch_ret Hc as E.
        apply getWorksByIds_served in Hw. rewrite Forall_forall in Hw |- *.
        intros c Hin. apply In_firstn, In_sortByInfluence in Hin.
        apply filterDefined_In, in_map_iff in Hin. destruct Hin as (id & Hget & _).
        apply ofPairs_get, in_map_iff in Hget. destruct Hget as (w & Ew & Hin).
        injection Ew as _ <-. apply Hw. exact Hin.
    - unfold Engine.getTopCitations in Hc.
      fetch_bind Hc as rows log2 Hr Hc. fetch_ret Hc as E.
      apply getCitingWorks_served in Hr. rewrite Forall_forall in Hr |- *.
      intros c Hin. apply In_firstn, In_sortByInfluence in Hin. apply Hr. exact Hin. }
  rewrite Forall_forall in Hserved |- *. intros e He.
  apply in_map_iff in He. destruct He as (c & <- & Hin). cbn.
  apply filter_In in Hin. apply Hserved. tauto.
Qed.

Lemma uniqueByChild_values flattened :
  map childId (JsMap.values (Engine.uniqueByChild flattened))
  = JsMap.keys (Engine.uniqueByChild flattened)
  /\ forall e, In e (JsMap.values (Engine.uniqueByChild flattened)) -> In e flattened.
Proof.
  destruct (uniqueByChild_Deduped flattened) as [Hnd Hkept _].
  set (m := Engine.uniqueByChild flattened) in *.
  assert (Hin : forall k e, In (k, e) m -> childId e = k /\ In e flattened).
  { intros k e H. apply (JsMapFacts.In_get _ m k e Hnd) in H.
    destruct (Hkept _ _ H) as (Hc & Hf & _). auto. }
  split.
  - unfold JsMap.values, JsMap.keys. rewrite map_map. apply map_ext_in.
    intros [k e] Hke. cbn. apply (Hin k e Hke).
  - intros e He. apply JsMapFacts.In_values in He. destruct He as (k & Hke).
    apply (Hin k e Hke).
Qed.

Lemma limitedOf_props limit flattened :
  NoDup (map childId (Engine.limitedOf localeCompare limit flattened))
  /\ forall e, In e (Engine.limitedOf localeCompare limit flattened) -> In e flattened.
Proof.
  unfold Engine.limitedOf.
  destruct (uniqueByChild_values flattened) as [Hkeys Hin].
  destruct (uniqueByChild_Deduped flattened) as [Hnd _ _].
  set (sorted := jsSort (Engine.entryOrder localeCompare)
                   (JsMap.values (Engine.uniqueByChild flattened))).
  assert (Hperm : Permutation sorted (JsMap.values (Engine.uniqueByChild flattened)))
    by apply jsSort_perm.
  split.
  - assert (Hs : NoDup (map childId sorted)).
    { apply (Permutation_NoDup (Permutation_sym (Permutation_map childId Hperm))).
      rewrite Hkeys. exact Hnd. }
    rewrite <- (firstn_skipn (Z.to_nat limit) sorted), map_app in Hs.
    apply NoDup_app_remove_r in Hs. exact Hs.
  - intros e He. apply In_firstn in He. apply Hin.
    apply (Permutation_in _ Hperm). exact He.
Qed.

Lemma levelEntries_props side limit ps log limited log' :
  entriesOf side limit ps log = (Returned limited, log') ->
  NoDup (map childId limited)
  /\ forall e, In e limited -> Served (Engine.child e).
Proof.
  unfold levelEntries. intros H.
  fetch_bind H as sets log1 Hsets H. fetch_ret H as E.
  destruct (limitedOf_props limit (concat sets)) as [Hnd Hin].
  split; [exact Hnd |]. intros e He. apply Hin in He.
  apply (promiseAll_Forall _ (Forall (fun e => Served (Engine.child e))) _) in Hsets.
  - apply Forall_concat in Hsets. rewrite Forall_forall in Hsets. apply Hsets, He.
  - intros p l y l' Hp. eapply expandParent_served. exact Hp.
Qed.

Lemma levelEntries_unfold side limit ps log :
  entriesOf side limit ps log
  = match promiseAll
            (Engine.expandParent localeCompare upstream side
               (Engine.perParentLimitOf limit (List.length ps))) ps log with
    | (Returned sets, log1) =>
        (Returned (Engine.limitedOf localeCompare limit (concat sets)), log1)
    | (Thrown e, log1) => (Thrown e, log1)
    end.
Proof. reflexivity. Qed.

(** One level of one side is a fetch of the pairs it accepts followed by
    their writes: the parents of the next level are read back from the
    cache right after they were written, so they are the children just
    accepted. *)
Lemma expandLevel_normal depth limit side st r log :
  Engine.expandLevel localeCompare computeNodeSize upstream depth limit side st r log
  = (if negb (Engine.active r) then ret (st, r)
     else
       limited <- entriesOf side limit (Engine.parents r) ;;
       ret (written st (opsOf side (Engine.level r) limited),
            nextRun depth r limited)) log.
Proof.
  unfold Engine.expandLevel. destruct (negb (Engine.active r)); [reflexivity |].
  unfold bind at 2.
  pose proof (levelEntries_props side limit (Engine.parents r) log) as Hprops.
  rewrite levelEntries_unfold in Hprops |- *. unfold bind at 1.
  destruct (promiseAll _ (Engine.parents r) log) as [[sets | e] log1];
    [| reflexivity].
  destruct (Hprops _ _ eq_refl) as [Hnd Hserved]. clear Hprops.
  set (limited := Engine.limitedOf localeCompare limit (concat sets)) in *.
  rewrite commitLevel_fold.
  rewrite (JsSet_fold_add_fresh (map childId limited) JsSet.empty Hnd).
  cbn [app JsSet.empty]. unfold Engine.enterLevel, nextRun.
  rewrite length_map.
  destruct ((Engine.level r + 1 <=? depth)
            && negb (Nat.eqb (List.length limited) 0)); [| reflexivity].
  destruct (getCachedWork_foldOps computeNodeSize limited side (Engine.level r) Hnd
              (fun e He => Served_nonEmpty upstream _ (Hserved e He)) st)
    as [Hcached _].
  unfold bind. rewrite readFrontier_cached.
  - unfold ret. rewrite map_map.
    rewrite (map_ext_in _ (fun entry => Some (Engine.child entry)) limited Hcached).
    reflexivity.
  - intros id Hid. apply in_map_iff in Hid. destruct Hid as (e & <- & He).
    rewrite (Hcached e He). discriminate.
Qed.
End LevelEntries.

(* ===================================================================== *)
(** ** Writes of the two sides commute *)
(* ===================================================================== *)

Lemma append_last_differs (a b : string) (x y : ascii) :
  x <> y -> (a ++ String x EmptyString)%string <> (b ++ String y EmptyString)%string.
Proof.
  intros Hxy. revert b. induction a as [| c a IH]; intros [| d b]; cbn; intros H.
  - injection H as H. contradiction.
  - injection H as _ H. destruct b; discriminate H.
  - injection H as _ H. destruct a; discriminate H.
  - injection H as _ H. exact (IH _ H).
Qed.

Lemma string_append_assoc (a b c : string) :
  ((a ++ b) ++ c)%string = (a ++ (b ++ c))%string.
Proof. induction a as [| x a IH]; cbn; [reflexivity | rewrite IH; reflexivity]. Qed.

(** The keys of a [references] link and of a [cited_by] link differ in
    their last character. *)
Lemma linkKey_types_differ source target source' target' :
  linkKey source target references <> linkKey source' target' cited_by.
Proof.
  unfold linkKey. cbn [LinkType_name].
  replace (source ++ "->" ++ target ++ ":" ++ "references")%string
    with ((source ++ "->" ++ target ++ ":" ++ "reference") ++ "s")%string
    by (rewrite !string_append_assoc; reflexivity).
  replace (source' ++ "->" ++ target' ++ ":" ++ "cited_by")%string
    with ((source' ++ "->" ++ target' ++ ":" ++ "cited_b") ++ "y")%string
    by (rewrite !string_append_assoc; reflexivity).
  apply append_last_differs. discriminate.
Qed.

Lemma get_addLink m source target type direction k :
  JsMap.get (addLink m source target type direction) k
  = if String.eqb (linkKey source target type) k
    then match JsMap.get m k with
         | Some link => Some link
         | None => Some {| Link.source := source; Link.target := target;
                           Link.type := type; Link.direction := direction |}
         end
    else JsMap.get m k.
Proof.
  unfold addLink, JsMap.has.
  destruct (String.eqb_spec (linkKey source target type) k) as [<- | Hne].
  - destruct (JsMap.get m (linkKey source target type)) eqn:E; [exact E |].
    apply JsMapFacts.get_set_same.
  - destruct (JsMap.get m (linkKey source target type)); [reflexivity |].
    apply JsMapFacts.get_set_other. exact Hne.
Qed.

Section Commutation.
Variable computeNodeSize : Z -> Z.
Variable upstream : Request -> Response.

Local Abbreviation Served := (Served upstream).
Local Abbreviation write := (applyOp computeNodeSize).
Local Abbreviation written := (foldOps computeNodeSize).

(** The provider tells one story: two records it serves under one id are
    the same record. *)
Definition Consistent : Prop :=
  forall w1 w2, Served w1 -> Served w2 -> Work.id w1 = Work.id w2 -> w1 = w2.

(** Two stores with the same nodes and the same links, whatever the order
    they were inserted in. *)
Definition sameMaps (a b : Engine.Store) : Prop :=
  (forall k, JsMap.get (Engine.nodeMap a) k = JsMap.get (Engine.nodeMap b) k)
  /\ (forall k, JsMap.get (Engine.linkMap a) k = JsMap.get (Engine.linkMap b) k).

Lemma sameMaps_refl a : sameMaps a a.
Proof. split; reflexivity. Qed.

Lemma sameMaps_sym a b : sameMaps a b -> sameMaps b a.
Proof. intros [H1 H2]. split; intros k; symmetry; auto. Qed.

Lemma sameMaps_trans a b c : sameMaps a b -> sameMaps b c -> sameMaps a c.
Proof.
  intros [H1 H2] [H3 H4]. split; intros k; [rewrite H1 | rewrite H2]; auto.
Qed.

(** The node [addNode] writes for a work, given the node already there. *)
Definition nodeFor (existing : option Node.t) (work : Work.t) (side : Side)
    (nodeDepth : Z) : Node.t :=
  {| Node.id := Work.id work;
     Node.title := Work.title work;
     Node.year := Work.year work;
     Node.cited_by_count := Work.cited_by_count work;
     Node.authors := Work.authors work;
     Node.venue := Work.venue work;
     Node.openalex_url := Work.openalex_url work;
     Node.side := match existing with
                  | None => side
                  | Some e => Engine.mergeSide (Node.side e) side
                  end;
     Node.depth := match existing with
                   | None => nodeDepth
                   | Some e => Z.min (Node.depth e) nodeDepth
                   end;
     Node.size := computeNodeSize (Work.cited_by_count work) |}.

Lemma nodeMap_applyOp st side level entry :
  Engine.nodeMap (write st (side, level, entry))
  = JsMap.set (Engine.nodeMap st) (childId entry)
      (nodeFor (JsMap.get (Engine.nodeMap st) (childId entry))
         (Engine.child entry) (Engine.sideOf side) level).
Proof.
  unfold applyOp, Engine.addLinkTo, Engine.addNode. cbv zeta.
  cbn [Engine.nodeMap]. rewrite nodeMap_cacheWork. unfold childId.
  destruct (JsMap.get (Engine.nodeMap st) (Work.id (Engine.child entry)));
    reflexivity.
Qed.

Lemma linkMap_applyOp st side level entry :
  Engine.linkMap (write st (side, level, entry))
  = addLink (Engine.linkMap st) (parentId entry) (childId entry) side
      (Engine.sideOf side).
Proof.
  unfold applyOp, Engine.addLinkTo. cbn [Engine.linkMap].
  rewrite linkMap_addNode. reflexivity.
Qed.

Lemma applyOp_respects a b op : sameMaps a b -> sameMaps (write a op) (write b op).
Proof.
  intros [Hn Hl]. destruct op as [[side level] entry]. split; intros k.
  - rewrite !nodeMap_applyOp, !JsMapFacts.get_set, !Hn. reflexivity.
  - rewrite !linkMap_applyOp, !get_addLink, !Hl. reflexivity.
Qed.

Lemma foldOps_respects ops a b : sameMaps a b -> sameMaps (written a ops) (written b ops).
Proof.
  revert a b. induction ops as [| op ops IH]; intros a b H; cbn; [exact H |].
  apply IH, applyOp_respects, H.
Qed.

Lemma mergeSide_twice existing side1 side2 :
  Engine.mergeSide (Engine.mergeSide existing (Engine.sideOf side1)) (Engine.sideOf side2)
  = Engine.mergeSide (Engine.mergeSide existing (Engine.sideOf side2)) (Engine.sideOf side1).
Proof. destruct existing, side1, side2; reflexivity. Qed.

Lemma mergeSide_sideOf_comm side1 side2 :
  Engine.mergeSide (Engine.sideOf side1) (Engine.sideOf side2)
  = Engine.mergeSide (Engine.sideOf side2) (Engine.sideOf side1).
Proof. destruct side1, side2; reflexivity. Qed.

Hypothesis consistent : Consistent.

(** A write of one side and a write of the other can be exchanged. *)
Lemma applyOp_swap st op1 op2 :
  opSide op1 <> opSide op2 ->
  Served (Engine.child (opEntry op1)) -> Served (Engine.child (opEntry op2)) ->
  sameMaps (write (write st op1) op2) (write (write st op2) op1).
Proof.
  destruct op1 as [[side1 level1] e1], op2 as [[side2 level2] e2].
  cbn [opSide opEntry fst snd]. intros Hsides Hs1 Hs2. split; intros k.
  - rewrite !nodeMap_applyOp, !JsMapFacts.get_set.
    destruct (String.eqb_spec (childId e1) (childId e2)) as [E12 | N12].
    + assert (Ew : Engine.child e1 = Engine.child e2)
        by (apply consistent; assumption).
      rewrite <- E12, <- Ew.
      replace (String.eqb (childId e1) (childId e1)) with true
        by (symmetry; apply String.eqb_refl).
      destruct (String.eqb (childId e1) k); [| reflexivity].
      f_equal. unfold nodeFor. cbn.
      destruct (JsMap.get (Engine.nodeMap st) (childId e1)) as [ex |]; cbn.
      * rewrite mergeSide_twice. f_equal. lia.
      * rewrite mergeSide_sideOf_comm. f_equal. lia.
    + assert (N21 : childId e2 <> childId e1) by congruence.
      apply String.eqb_neq in N21. rewrite N21.
      destruct (String.eqb_spec (childId e2) k) as [E2 | _];
        destruct (String.eqb_spec (childId e1) k) as [E1 | _]; try reflexivity.
      congruence.
  - rewrite !linkMap_applyOp, !get_addLink.
    assert (Hkeys : linkKey (parentId e1) (childId e1) side1
                    <> linkKey (parentId e2) (childId e2) side2).
    { destruct side1, side2; try contradiction.
      - apply linkKey_types_differ.
      - intros H. symmetry in H. revert H. apply linkKey_types_differ. }
    destruct (String.eqb_spec (linkKey (parentId e2) (childId e2) side2) k) as [E2 | _];
      destruct (String.eqb_spec (linkKey (parentId e1) (childId e1) side1) k) as [E1 | _];
      try reflexivity.
    congruence.
Qed.

Definition opsOn (side : LinkType) (ops : list Op) : Prop :=
  Forall (fun op => opSide op = side /\ Served (Engine.child (opEntry op))) ops.

Lemma sides_differ side : side <> match side with references => cited_by
                                                | cited_by => references end.
Proof. destruct side; discriminate. Qed.

Lemma op_past_ops side other ops op st :
  side <> other -> opSide op = side -> Served (Engine.child (opEntry op)) ->
  opsOn other ops ->
  sameMaps (written (write st op) ops) (write (written st ops) op).
Proof.
  intros Hne Hside Hserved Hops. revert st.
  induction Hops as [| o rest [Ho Hso] _ IH]; intros st; cbn.
  - apply sameMaps_refl.
  - eapply sameMaps_trans; [| apply IH].
    apply foldOps_respects. apply applyOp_swap; congruence.
Qed.

(** A block of writes of one side and a block of the other can be
    exchanged. *)
Lemma ops_past_ops side other xs ys st :
  side <> other -> opsOn side xs -> opsOn other ys ->
  sameMaps (written st (xs ++ ys)) (written st (ys ++ xs)).
Proof.
  intros Hne Hxs Hys. revert st.
  induction Hxs as [| x xs' [Hx Hsx] _ IH]; intros st.
  - rewrite app_nil_r. apply sameMaps_refl.
  - cbn [app]. unfold foldOps at 1. cbn [fold_left].
    eapply sameMaps_trans; [apply IH |].
    unfold foldOps. rewrite !fold_left_app. cbn [fold_left].
    apply foldOps_respects.
    apply (op_past_ops side other ys x st Hne Hx Hsx Hys).
Qed.
End Commutation.

(* ===================================================================== *)
(** ** Each side on its own *)
(* ===================================================================== *)

Definition LinkType_eqb (a b : LinkType) : bool :=
  match a, b with
  | references, references | cited_by, cited_by => true
  | _, _ => false
  end.

(** How many levels of [side] a schedule resumes. *)
Definition turns (side : LinkType) (schedule : list LinkType) : nat :=
  List.length (filter (LinkType_eqb side) schedule).

Section Sides.
Variable localeCompare : string -> string -> JsNumber.
Variable computeNodeSize : Z -> Z.
Variable upstream : Request -> Response.

Local Abbreviation Served := (Served upstream).
Local Abbreviation entriesOf := (levelEntries localeCompare upstream).
Local Abbreviation written := (foldOps computeNodeSize).
Local Abbreviation opsOn := (opsOn upstream).

(** One level of a side, without the store: the writes it asks for and
    where the side stands afterwards. *)
Definition levelStep (depth limit : Z) (side : LinkType) (r : Engine.SideRun)
  : Fetch (list Op * Engine.SideRun) :=
  if negb (Engine.active r) then ret ([], r)
  else
    limited <- entriesOf side limit (Engine.parents r) ;;
    ret (opsOf side (Engine.level r) limited, nextRun depth r limited).

Fixpoint runSide (depth limit : Z) (side : LinkType) (n : nat) (r : Engine.SideRun)
  : Fetch (list Op * Engine.SideRun) :=
  match n with
  | O => ret ([], r)
  | S n' =>
      step <- levelStep depth limit side r ;;
      rest <- runSide depth limit side n' (snd step) ;;
      ret (fst step ++ fst rest, snd rest)
  end.

Lemma Uniform_levelStep depth limit side r : Uniform (levelStep depth limit side r).
Proof.
  unfold levelStep. destruct (negb (Engine.active r)); [apply Uniform_ret |].
  apply Uniform_bind; [apply Uniform_levelEntries | intros l; apply Uniform_ret].
Qed.

Lemma Uniform_runSide depth limit side n r : Uniform (runSide depth limit side n r).
Proof.
  revert r. induction n as [| n IH]; intros r; cbn [runSide].
  - apply Uniform_ret.
  - apply Uniform_bind; [apply Uniform_levelStep | intros step].
    apply Uniform_bind; [apply IH | intros rest; apply Uniform_ret].
Qed.

Lemma eval_runSide_S depth limit side n r :
  eval (runSide depth limit side (S n) r)
  = match eval (levelStep depth limit side r) with
    | Returned step =>
        match eval (runSide depth limit side n (snd step)) with
        | Returned rest => Returned (fst step ++ fst rest, snd rest)
        | Thrown e => Thrown e
        end
    | Thrown e => Thrown e
    end.
Proof.
  cbn [runSide]. rewrite eval_bind; [| apply Uniform_levelStep |].
  - destruct (eval (levelStep depth limit side r)) as [step | e]; [| reflexivity].
    rewrite eval_bind; [| apply Uniform_runSide | intros rest; apply Uniform_ret].
    destruct (eval (runSide depth limit side n (snd step))); reflexivity.
  - intros step. apply Uniform_bind; [apply Uniform_runSide |].
    intros rest. apply Uniform_ret.
Qed.

Lemma levelStep_ops depth limit side r log ops r' log' :
  levelStep depth limit side r log = (Returned (ops, r'), log') -> opsOn side ops.
Proof.
  unfold levelStep. destruct (negb (Engine.active r)); intros H.
  - fetch_ret H as E. injection E as <- <-. constructor.
  - fetch_bind H as limited log1 Hl H. fetch_ret H as E. injection E as <- <-.
    destruct (levelEntries_props _ _ _ _ _ _ _ _ Hl) as [_ Hserved].
    apply Forall_forall. intros op Hop. apply in_map_iff in Hop.
    destruct Hop as (e & <- & He). split; [reflexivity | apply Hserved, He].
Qed.

Definition sideRun (side : LinkType) (x : Engine.Expansion) : Engine.SideRun :=
  match side with
  | references => Engine.referencesRun x
  | cited_by => Engine.citedByRun x
  end.

Definition afterStep (side : LinkType) (x : Engine.Expansion)
    (step : list Op * Engine.SideRun) : Engine.Expansion :=
  match side with
  | references =>
      {| Engine.store := written (Engine.store x) (fst step);
         Engine.referencesRun := snd step;
         Engine.citedByRun := Engine.citedByRun x |}
  | cited_by =>
      {| Engine.store := written (Engine.store x) (fst step);
         Engine.referencesRun := Engine.referencesRun x;
         Engine.citedByRun := snd step |}
  end.

(** Resuming a side is its level step followed by the writes. *)
Lemma resume_normal depth limit side x log :
  Engine.resume localeCompare computeNodeSize upstream depth limit side x log
  = (step <- levelStep depth limit side (sideRun side x) ;;
     ret (afterStep side x step)) log.
Proof.
  unfold Engine.resume, levelStep.
  destruct side; cbn [sideRun]; unfold bind at 1; rewrite expandLevel_normal;
    unfold bind.
  - destruct (negb (Engine.active (Engine.referencesRun x))); [reflexivity |].
    destruct (entriesOf references limit _ log) as [[limited | e] log1];
      reflexivity.
  - destruct (negb (Engine.active (Engine.citedByRun x))); [reflexivity |].
    destruct (entriesOf cited_by limit _ log) as [[limited | e] log1];
      reflexivity.
Qed.
End Sides.

Section Schedules.
Variable localeCompare : string -> string -> JsNumber.
Variable computeNodeSize : Z -> Z.
Variable upstream : Request -> Response.
Variable depth limit : Z.

Local Abbreviation written := (foldOps computeNodeSize).
Local Abbreviation opsOn := (opsOn upstream).
Local Abbreviation sideTurns := (runSide localeCompare upstream depth limit).
Local Abbreviation sideStep := (levelStep localeCompare upstream depth limit).
Local Abbreviation resumeAll :=
  (Engine.resumeAll localeCompare computeNodeSize upstream depth limit).

Hypothesis consistent : Consistent upstream.

(** What a schedule amounts to: each side has taken its turns on its own,
    and the store holds the writes of both, as if the references side had
    written first. *)
Definition Amounts (schedule : list LinkType) (x : Engine.Expansion)
    (o : Outcome Engine.Expansion) : Prop :=
  match o with
  | Returned x' =>
      exists opsR opsC,
        eval (sideTurns references (turns references schedule) (Engine.referencesRun x))
          = Returned (opsR, Engine.referencesRun x')
        /\ eval (sideTurns cited_by (turns cited_by schedule) (Engine.citedByRun x))
          = Returned (opsC, Engine.citedByRun x')
        /\ opsOn references opsR /\ opsOn cited_by opsC
        /\ sameMaps (Engine.store x') (written (Engine.store x) (opsR ++ opsC))
  | Thrown _ =>
      (exists e,
          eval (sideTurns references (turns references schedule) (Engine.referencesRun x))
          = Thrown e)
      \/ (exists e,
          eval (sideTurns cited_by (turns cited_by schedule) (Engine.citedByRun x))
          = Thrown e)
  end.

Lemma foldOps_app st ops1 ops2 :
  written st (ops1 ++ ops2) = written (written st ops1) ops2.
Proof. unfold foldOps. apply fold_left_app. Qed.

Lemma opsOn_app side ops1 ops2 :
  opsOn side ops1 -> opsOn side ops2 -> opsOn side (ops1 ++ ops2).
Proof. intros H1 H2. apply Forall_app. split; assumption. Qed.

Lemma resumeAll_amounts schedule :
  forall x log, Amounts schedule x (fst (resumeAll schedule x log)).
Proof.
  induction schedule as [| side rest IH]; intros x log.
  - cbn. exists [], []. repeat split; try constructor; reflexivity.
  - cbn [Engine.resumeAll]. unfold bind at 1. rewrite resume_normal. unfold bind at 1.
    pose proof (Uniform_eval (sideStep side (sideRun side x)) log
                  (Uniform_levelStep _ _ _ _ _ _)) as Estep.
    pose proof (levelStep_ops localeCompare upstream depth limit side
                  (sideRun side x) log) as Hops.
    destruct (sideStep side (sideRun side x) log) as [[[ops1 r1] | e] log1].
    2:{ cbn in Estep |- *. destruct side; [left | right]; exists e.
        - cbn [turns filter LinkType_eqb List.length]. rewrite eval_runSide_S.
          cbn [sideRun] in Estep. rewrite <- Estep. reflexivity.
        - cbn [turns filter LinkType_eqb List.length]. rewrite eval_runSide_S.
          cbn [sideRun] in Estep. rewrite <- Estep. reflexivity. }
    specialize (Hops _ _ _ eq_refl). cbn in Estep. unfold ret at 1.
    specialize (IH (afterStep computeNodeSize side x (ops1, r1)) log1).
    destruct (fst (resumeAll rest (afterStep computeNodeSize side x (ops1, r1)) log1))
      as [x' | e'].
    + destruct IH as (opsR & opsC & HR & HC & HoR & HoC & Hsame).
      destruct side; cbn [afterStep Engine.store Engine.referencesRun
                            Engine.citedByRun fst snd sideRun] in *.
      * exists (ops1 ++ opsR), opsC.
        split; [| split; [exact HC | split; [| split; [exact HoC |]]]].
        -- cbn [turns filter LinkType_eqb List.length]. rewrite eval_runSide_S.
           rewrite <- Estep. cbn [fst snd]. fold (turns references rest).
           rewrite HR. reflexivity.
        -- apply opsOn_app; assumption.
        -- rewrite <- app_assoc, foldOps_app. exact Hsame.
      * exists opsR, (ops1 ++ opsC).
        split; [exact HR | split; [| split; [exact HoR | split]]].
        -- cbn [turns filter LinkType_eqb List.length]. rewrite eval_runSide_S.
           rewrite <- Estep. cbn [fst snd]. fold (turns cited_by rest).
           rewrite HC. reflexivity.
        -- apply opsOn_app; assumption.
        -- eapply sameMaps_trans; [exact Hsame |].
           rewrite <- foldOps_app.
           rewrite !(app_assoc _ _ opsC), !(foldOps_app _ _ opsC).
           apply foldOps_respects.
           apply (ops_past_ops computeNodeSize upstream consistent
                    cited_by references); [discriminate | assumption | assumption].
    + unfold Amounts in IH |- *.
      destruct side; cbn [afterStep Engine.store Engine.referencesRun
                            Engine.citedByRun fst snd sideRun] in *;
        cbn [turns filter LinkType_eqb List.length];
        destruct IH as [[e0 He0] | [e0 He0]].
      * left. exists e0. rewrite eval_runSide_S, <- Estep. cbn [fst snd].
        fold (turns references rest). rewrite He0. reflexivity.
      * right. exists e0. exact He0.
      * left. exists e0. exact He0.
      * right. exists e0. rewrite eval_runSide_S, <- Estep. cbn [fst snd].
        fold (turns cited_by rest). rewrite He0. reflexivity.
Qed.
End Schedules.

(* ===================================================================== *)
(** ** A side finishes within [depth] turns *)
(* ===================================================================== *)

Section Turns.
Variable localeCompare : string -> string -> JsNumber.
Variable computeNodeSize : Z -> Z.
Variable upstream : Request -> Response.
Variable depth limit : Z.

Local Abbreviation sideTurns := (runSide localeCompare upstream depth limit).
Local Abbreviation sideStep := (levelStep localeCompare upstream depth limit).
Local Abbreviation resumeAll :=
  (Engine.resumeAll localeCompare computeNodeSize upstream depth limit).

(** An active side is at a level within the depth. *)
Definition settled (r : Engine.SideRun) : Prop :=
  Engine.active r = true -> Engine.level r <= depth.

(** The levels an active side may still go through. *)
Definition remaining (r : Engine.SideRun) : nat :=
  if Engine.active r then Z.to_nat (depth + 1 - Engine.level r) else O.

Lemma eval_ret {A : Type} (a : A) : eval (ret a) = Returned a.
Proof. reflexivity. Qed.

Lemma eval_sideStep side r :
  eval (sideStep side r)
  = if negb (Engine.active r) then Returned ([], r)
    else match eval (levelEntries localeCompare upstream side limit (Engine.parents r)) with
         | Returned limited =>
             Returned (opsOf side (Engine.level r) limited, nextRun depth r limited)
         | Thrown e => Thrown e
         end.
Proof.
  unfold levelStep. destruct (negb (Engine.active r)); [reflexivity |].
  rewrite eval_bind; [| apply Uniform_levelEntries | intros l; apply Uniform_ret].
  destruct (eval _); reflexivity.
Qed.

Lemma sideStep_settles side r step :
  settled r -> eval (sideStep side r) = Returned step ->
  settled (snd step) /\ (remaining (snd step) <= pred (remaining r))%nat.
Proof.
  intros Hs. rewrite eval_sideStep. unfold settled, remaining in *.
  destruct (Engine.active r) eqn:Ea; cbn [negb].
  - destruct (eval _) as [limited |]; [| discriminate].
    intros H. injection H as <-. cbn [snd]. unfold nextRun.
    specialize (Hs eq_refl).
    destruct ((Engine.level r + 1 <=? depth)
              && negb (Nat.eqb (List.length limited) 0)) eqn:Ec;
      cbn [Engine.active Engine.level].
    + apply andb_true_iff in Ec. destruct Ec as [Ec _]. apply Z.leb_le in Ec.
      split; [intros _; exact Ec | lia].
    + split; [discriminate | lia].
  - intros H. injection H as <-. cbn [snd]. rewrite Ea.
    split; [discriminate | lia].
Qed.

Lemma sideTurns_inactive side n r :
  Engine.active r = false -> eval (sideTurns side n r) = Returned ([], r).
Proof.
  intros Hr. induction n as [| n IH]; [reflexivity |].
  rewrite eval_runSide_S, eval_sideStep, Hr. cbn [negb snd fst].
  rewrite IH. reflexivity.
Qed.

(** Turns beyond the levels that remain change nothing. *)
Lemma sideTurns_stable side n k r :
  settled r -> (remaining r <= n)%nat ->
  eval (sideTurns side (n + k) r) = eval (sideTurns side n r).
Proof.
  revert r. induction n as [| n IH]; intros r Hs Hrem.
  - assert (Hr : Engine.active r = false).
    { unfold settled, remaining in *. destruct (Engine.active r); [| reflexivity].
      specialize (Hs eq_refl). lia. }
    cbn [Nat.add]. rewrite !sideTurns_inactive by exact Hr. reflexivity.
  - cbn [Nat.add]. rewrite !eval_runSide_S.
    destruct (eval (sideStep side r)) as [step | e] eqn:Estep; [| reflexivity].
    destruct (sideStep_settles side r step Hs Estep) as [Hs' Hrem'].
    rewrite IH; [reflexivity | exact Hs' | lia].
Qed.

Lemma turns_app side s1 s2 : turns side (s1 ++ s2) = (turns side s1 + turns side s2)%nat.
Proof. unfold turns. rewrite filter_app, length_app. reflexivity. Qed.

Lemma turns_repeat side other n :
  turns side (repeat other n) = if LinkType_eqb side other then n else O.
Proof.
  unfold turns. induction n as [| n IH]; cbn.
  - destruct (LinkType_eqb side other); reflexivity.
  - destruct (LinkType_eqb side other); cbn; [rewrite IH; reflexivity | exact IH].
Qed.

Lemma resumeAll_app s1 s2 x log :
  resumeAll (s1 ++ s2) x log = (x1 <- resumeAll s1 x ;; resumeAll s2 x1) log.
Proof.
  revert x log. induction s1 as [| side s1 IH]; intros x log; cbn [app Engine.resumeAll].
  - reflexivity.
  - unfold bind at 1 2 3. destruct (Engine.resume _ _ _ _ _ _ x log) as [[x1 | e] log1].
    + rewrite IH. reflexivity.
    + reflexivity.
Qed.

(** Where a side starts from when the frontier it reads is cached. *)
Definition startRun (st : Engine.Store) (level : Z) (frontier : list string)
  : Engine.SideRun :=
  if (level <=? depth) && negb (Nat.eqb (List.length frontier) 0)
  then {| Engine.level := level;
          Engine.parents := map (Engine.getCachedWork st) frontier;
          Engine.active := true |}
  else {| Engine.level := level; Engine.parents := []; Engine.active := false |}.

Lemma enterLevel_cached st level frontier log :
  (forall id, In id frontier -> Engine.getCachedWork st id <> None) ->
  Engine.enterLevel upstream depth st level frontier log
  = (Returned (st, startRun st level frontier), log).
Proof.
  intros Hc. unfold Engine.enterLevel, startRun.
  destruct ((level <=? depth) && negb (Nat.eqb (List.length frontier) 0));
    [| reflexivity].
  unfold bind. rewrite readFrontier_cached by exact Hc. reflexivity.
Qed.

Lemma startRun_settled st level frontier :
  settled (startRun st level frontier)
  /\ (level = 1 ->
      (remaining (startRun st level frontier) <= Z.to_nat depth)%nat).
Proof.
  unfold settled, remaining, startRun.
  destruct ((level <=? depth) && negb (Nat.eqb (List.length frontier) 0)) eqn:E;
    cbn [Engine.active Engine.level].
  - apply andb_true_iff in E. destruct E as [E _]. apply Z.leb_le in E.
    split; [intros _; exact E | intros ->; lia].
  - split; [discriminate | lia].
Qed.

Lemma resumeAll_app3 {A : Type} s1 s2 s3 x (k : Engine.Expansion -> Fetch A) log :
  (x' <- resumeAll (s1 ++ s2 ++ s3) x ;; k x') log
  = (a <- resumeAll s1 x ;; b <- resumeAll s2 a ;; c <- resumeAll s3 b ;; k c) log.
Proof.
  unfold bind. rewrite resumeAll_app. unfold bind.
  destruct (Engine.resumeAll _ _ _ _ _ s1 x log) as [[a | e] log1]; [| reflexivity].
  rewrite resumeAll_app. unfold bind.
  destruct (Engine.resumeAll _ _ _ _ _ s2 a log1) as [[b | e] log2]; reflexivity.
Qed.

(** [expandBothSides] from a store that caches the centre: both sides start
    from the cached record, and the schedule, followed by the turns that
    finish each side, is resumed from there. *)
Lemma expandBothSides_normal schedule st centerId log :
  Engine.getCachedWork st centerId <> None ->
  Engine.expandBothSides localeCompare computeNodeSize upstream depth limit
    schedule st centerId log
  = (x <- resumeAll
            (schedule ++ repeat references (Z.to_nat depth)
               ++ repeat cited_by (Z.to_nat depth))
            {| Engine.store := st;
               Engine.referencesRun := startRun st 1 [centerId];
               Engine.citedByRun := startRun st 1 [centerId] |} ;;
     ret (Engine.store x)) log.
Proof.
  intros Hc. unfold Engine.expandBothSides.
  assert (Hall : forall id, In id [centerId] -> Engine.getCachedWork st id <> None)
    by (intros id [<- | []]; exact Hc).
  unfold bind at 1. rewrite (enterLevel_cached st 1 [centerId] log Hall).
  cbv beta iota.
  unfold bind at 1. rewrite (enterLevel_cached st 1 [centerId] log Hall).
  cbv beta iota.
  symmetry. apply resumeAll_app3.
Qed.
End Turns.

(* ===================================================================== *)
(** ** The graph does not depend on the order of insertion *)
(* ===================================================================== *)

Lemma sameGet_Permutation {V : Type} (m m' : JsMap.t V) :
  NoDup (JsMap.keys m) -> NoDup (JsMap.keys m') ->
  (forall k, JsMap.get m k = JsMap.get m' k) ->
  Permutation m m'.
Proof.
  intros Hm Hm' Hget. apply NoDup_Permutation.
  - apply (NoDup_map_inv fst). exact Hm.
  - apply (NoDup_map_inv fst). exact Hm'.
  - intros [k v]. split; intros Hin.
    + apply JsMapFacts.get_In. rewrite <- Hget. apply JsMapFacts.In_get; assumption.
    + apply JsMapFacts.get_In. rewrite Hget. apply JsMapFacts.In_get; assumption.
Qed.

Lemma ofPairs_from_nodup {V : Type} (l : list (string * V)) (m0 : JsMap.t V) :
  NoDup (JsMap.keys m0 ++ map fst l) ->
  fold_left (fun m kv => JsMap.set m (fst kv) (snd kv)) l m0 = m0 ++ l.
Proof.
  revert m0. induction l as [| [k v] l IH]; intros m0 Hnd; cbn.
  - rewrite app_nil_r. reflexivity.
  - assert (Hfresh : JsMap.get m0 k = None).
    { apply JsMapFacts.get_None_keys. intros Hin.
      apply NoDup_remove_2 in Hnd. apply Hnd. apply in_or_app. left. exact Hin. }
    rewrite (JsMap_set_fresh m0 k v Hfresh). rewrite IH.
    + rewrite <- app_assoc. reflexivity.
    + unfold JsMap.keys in *. rewrite map_app, <- app_assoc. exact Hnd.
Qed.

Lemma stableNodeMap_is_nodeMap cid (m : JsMap.t Node.t) :
  NodesOk cid m ->
  JsMap.ofPairs (map (fun node => (Node.id node, node)) (JsMap.values m)) = m.
Proof.
  intros [Hnd Hkey _ _].
  assert (E : map (fun node => (Node.id node, node)) (JsMap.values m) = m).
  { unfold JsMap.values. rewrite map_map. rewrite <- (map_id m) at 2.
    apply map_ext_in. intros [k n] Hin. cbn.
    rewrite (Hkey k n (JsMapFacts.In_get _ m k n Hnd Hin)). reflexivity. }
  rewrite E. unfold JsMap.ofPairs. rewrite ofPairs_from_nodup; [reflexivity |].
  exact Hnd.
Qed.

Lemma filter_ext_Permutation {A : Type} (f g : A -> bool) (l l' : list A) :
  (forall x, f x = g x) -> Permutation l l' ->
  Permutation (filter f l) (filter g l').
Proof.
  intros Hfg Hp. rewrite (filter_ext f g Hfg). apply Permutation_filter_pred, Hp.
Qed.

Section Determinism.
Variable localeCompare : string -> string -> JsNumber.
Variable computeNodeSize : Z -> Z.
Variable upstream : Request -> Response.

Local Abbreviation engine := (Engine.buildGraph localeCompare computeNodeSize upstream).

Lemma Evolves_links_nodup st st' :
  Evolves computeNodeSize st st' ->
  NoDup (JsMap.keys (Engine.linkMap st)) ->
  NoDup (JsMap.keys (Engine.linkMap st')).
Proof.
  intros Hev Hnd.
  induction Hev as [| st' work _ IH | st' side level entry _ IH Hlevel].
  - exact Hnd.
  - rewrite linkMap_cacheWork. exact IH.
  - cbn [Engine.addLinkTo Engine.linkMap]. rewrite linkMap_addNode.
    unfold addLink. destruct (JsMap.has _ _); [exact IH |].
    apply JsMapFacts.NoDup_keys_set. exact IH.
Qed.

Lemma isLinkTemporallyConsistent_ext link (m m' : JsMap.t Node.t) :
  (forall k, JsMap.get m k = JsMap.get m' k) ->
  Engine.isLinkTemporallyConsistent link m = Engine.isLinkTemporallyConsistent link m'.
Proof. intros H. unfold Engine.isLinkTemporallyConsistent. rewrite !H. reflexivity. Qed.

Lemma connectedNodeIds_Permutation cid links links' k :
  Permutation links links' ->
  JsSet.has (Engine.connectedNodeIdsOf cid links) k
  = JsSet.has (Engine.connectedNodeIdsOf cid links') k.
Proof.
  intros Hp.
  assert (Hiff : JsSet.has (Engine.connectedNodeIdsOf cid links) k = true
                 <-> JsSet.has (Engine.connectedNodeIdsOf cid links') k = true).
  { rewrite !connectedNodeIds_spec. split; intros [H | (l & Hin & Hl)]; auto; right;
      exists l; split; auto.
    - apply (Permutation_in _ Hp). exact Hin.
    - apply (Permutation_in _ (Permutation_sym Hp)). exact Hin. }
  destruct (JsSet.has (Engine.connectedNodeIdsOf cid links) k),
           (JsSet.has (Engine.connectedNodeIdsOf cid links') k);
    try reflexivity; destruct Hiff as [H1 H2].
  - symmetry. apply H1. reflexivity.
  - apply H2. reflexivity.
Qed.

(** Two stores with the same nodes and links assemble into graphs with the
    same nodes and links. *)
Lemma assemble_sameMaps centerWork depth limit a b :
  NodesOk (Work.id centerWork) (Engine.nodeMap a) ->
  NodesOk (Work.id centerWork) (Engine.nodeMap b) ->
  NoDup (JsMap.keys (Engine.linkMap a)) ->
  NoDup (JsMap.keys (Engine.linkMap b)) ->
  sameMaps a b ->
  Engine.Graph.meta (Engine.assemble centerWork depth limit a)
  = Engine.Graph.meta (Engine.assemble centerWork depth limit b)
  /\ Permutation (Engine.Graph.nodes (Engine.assemble centerWork depth limit a))
       (Engine.Graph.nodes (Engine.assemble centerWork depth limit b))
  /\ Permutation (Engine.Graph.links (Engine.assemble centerWork depth limit a))
       (Engine.Graph.links (Engine.assemble centerWork depth limit b)).
Proof.
  intros Hna Hnb Hla Hlb [Hn Hl]. unfold Engine.assemble. cbv zeta.
  cbn [Engine.Graph.meta Engine.Graph.nodes Engine.Graph.links].
  rewrite (stableNodeMap_is_nodeMap _ _ Hna), (stableNodeMap_is_nodeMap _ _ Hnb).
  assert (Hnodes : Permutation (JsMap.values (Engine.nodeMap a))
                     (JsMap.values (Engine.nodeMap b))).
  { apply Permutation_map.
    apply sameGet_Permutation; [apply Hna | apply Hnb | exact Hn]. }
  assert (Hlinks : Permutation
                     (filter (fun link =>
                                Engine.isLinkTemporallyConsistent link (Engine.nodeMap a))
                        (JsMap.values (Engine.linkMap a)))
                     (filter (fun link =>
                                Engine.isLinkTemporallyConsistent link (Engine.nodeMap b))
                        (JsMap.values (Engine.linkMap b)))).
  { apply filter_ext_Permutation.
    - intros link. apply isLinkTemporallyConsistent_ext. exact Hn.
    - apply Permutation_map. apply sameGet_Permutation; assumption. }
  split; [reflexivity |]. split; [| exact Hlinks].
  apply filter_ext_Permutation; [| exact Hnodes].
  intros n. apply connectedNodeIds_Permutation. exact Hlinks.
Qed.
End Determinism.

Section Order.
Variable localeCompare : string -> string -> JsNumber.
Variable computeNodeSize : Z -> Z.
Variable upstream : Request -> Response.

Local Abbreviation engine := (Engine.buildGraph localeCompare computeNodeSize upstream).

Hypothesis consistent : Consistent upstream.

Lemma initial_cached centerWork :
  Served upstream centerWork ->
  Engine.getCachedWork
    (Engine.addNode computeNodeSize Engine.emptyStore centerWork center 0)
    (Work.id centerWork)
  = Some centerWork.
Proof.
  intros Hs. apply Served_nonEmpty in Hs.
  unfold Engine.getCachedWork, Engine.addNode, Engine.cacheWork. cbv zeta.
  rewrite Hs. cbn. rewrite String.eqb_refl. reflexivity.
Qed.

Lemma turns_total side schedule d :
  turns side (schedule ++ repeat references d ++ repeat cited_by d)
  = (d + turns side schedule)%nat.
Proof.
  rewrite !turns_app, !turns_repeat. destruct side; cbn [LinkType_eqb]; lia.
Qed.

(** Whatever the schedule, [expandBothSides] returns when both sides, each
    on its own, get through their levels, and its store then holds the
    writes of both. *)
Lemma expandBothSides_amounts depth limit schedule st centerId log :
  Engine.getCachedWork st centerId <> None ->
  let start := startRun depth st 1 [centerId] in
  let sideOutcome side :=
    eval (runSide localeCompare upstream depth limit side (Z.to_nat depth) start) in
  match Engine.expandBothSides localeCompare computeNodeSize upstream depth limit
          schedule st centerId log with
  | (Returned st', _) =>
      exists opsR opsC endR endC,
        sideOutcome references = Returned (opsR, endR)
        /\ sideOutcome cited_by = Returned (opsC, endC)
        /\ sameMaps st' (foldOps computeNodeSize st (opsR ++ opsC))
  | (Thrown _, _) =>
      (exists e, sideOutcome references = Thrown e)
      \/ (exists e, sideOutcome cited_by = Thrown e)
  end.
Proof.
  intros Hc start sideOutcome. rewrite expandBothSides_normal by exact Hc.
  fold start. unfold bind.
  set (x0 := {| Engine.store := st; Engine.referencesRun := start;
                Engine.citedByRun := start |}).
  set (total := schedule ++ repeat references (Z.to_nat depth)
                  ++ repeat cited_by (Z.to_nat depth)).
  pose proof (resumeAll_amounts localeCompare computeNodeSize upstream depth limit
                consistent total x0 log) as Ham.
  destruct (startRun_settled depth st 1 [centerId]) as [Hsettled Hrem].
  specialize (Hrem eq_refl). fold start in Hsettled, Hrem.
  assert (Hstable : forall side,
             eval (runSide localeCompare upstream depth limit side
                     (turns side total) start)
             = sideOutcome side).
  { intros side. unfold total, sideOutcome. rewrite turns_total.
    apply sideTurns_stable; assumption. }
  unfold Amounts in Ham. cbn [Engine.referencesRun Engine.citedByRun Engine.store x0] in Ham.
  rewrite !Hstable in Ham.
  destruct (Engine.resumeAll _ _ _ _ _ total x0 log) as [[x' | e] log'];
    cbn [fst] in Ham.
  - destruct Ham as (opsR & opsC & HR & HC & _ & _ & Hsame).
    exists opsR, opsC, (Engine.referencesRun x'), (Engine.citedByRun x'). auto.
  - exact Ham.
Qed.

(** C8 for a provider that tells one story about each work: whatever
    order the levels of the two sides complete in, [buildGraph] returns in
    both runs or in neither, and the two graphs have the same [meta], the
    same nodes and the same links, up to the order of the two arrays. *)
Theorem buildGraph_order_independent
    schedule1 schedule2 input requestedDepth requestedLimit g1 log1 :
  run (engine schedule1 input requestedDepth requestedLimit) = (Returned g1, log1) ->
  exists g2 log2,
    run (engine schedule2 input requestedDepth requestedLimit) = (Returned g2, log2)
    /\ Engine.Graph.meta g1 = Engine.Graph.meta g2
    /\ Permutation (Engine.Graph.nodes g1) (Engine.Graph.nodes g2)
    /\ Permutation (Engine.Graph.links g1) (Engine.Graph.links g2).
Proof.
  intros H1. apply engine_returned in H1.
  destruct H1 as (workId & cw & st1 & logc & Hid & Hget & Hexp1 & ->).
  set (depth := GraphParams.depth (parseGraphParams requestedDepth requestedLimit)) in *.
  set (limit := GraphParams.limit (parseGraphParams requestedDepth requestedLimit)) in *.
  set (st0 := Engine.addNode computeNodeSize Engine.emptyStore cw center 0) in *.
  assert (Hserved : Served upstream cw) by (eapply getWorkById_served; exact Hget).
  assert (Hcached : Engine.getCachedWork st0 (Work.id cw) <> None)
    by (unfold st0; rewrite initial_cached by exact Hserved; discriminate).
  pose proof (expandBothSides_amounts depth limit schedule1 st0 (Work.id cw) logc
                Hcached) as A1.
  pose proof (expandBothSides_amounts depth limit schedule2 st0 (Work.id cw) logc
                Hcached) as A2.
  cbv zeta in A1, A2. rewrite Hexp1 in A1.
  destruct A1 as (opsR & opsC & endR & endC & HR & HC & Hsame1).
  destruct (Engine.expandBothSides localeCompare computeNodeSize upstream depth limit
              schedule2 st0 (Work.id cw) logc) as [[st2 | e] log2] eqn:Hexp2.
  2:{ exfalso. destruct A2 as [[e0 He0] | [e0 He0]]; congruence. }
  destruct A2 as (opsR2 & opsC2 & endR2 & endC2 & HR2 & HC2 & Hsame2).
  assert (ER : opsR2 = opsR) by congruence.
  assert (EC : opsC2 = opsC) by congruence. subst opsR2 opsC2.
  exists (Engine.assemble cw depth limit st2), log2. split.
  - unfold run, Engine.buildGraph. rewrite Hid. fold depth limit.
    unfold bind at 1. rewrite Hget. fold st0. unfold bind. rewrite Hexp2.
    reflexivity.
  - pose proof (expandBothSides_evolves _ _ _ _ _ _ _ _ _ _ _ Hexp1) as Hev1.
    pose proof (expandBothSides_evolves _ _ _ _ _ _ _ _ _ _ _ Hexp2) as Hev2.
    assert (Hlinks0 : NoDup (JsMap.keys (Engine.linkMap st0)))
      by (unfold st0; rewrite linkMap_addNode; constructor).
    assert (Hcoupled0 : Forall coupled (JsMap.values (Engine.linkMap st0)))
      by (unfold st0; rewrite linkMap_addNode; constructor).
    destruct (Evolves_invariant computeNodeSize (Work.id cw) _ _ Hev1
                (initial_NodesOk computeNodeSize cw) Hcoupled0) as [Hn1 _].
    destruct (Evolves_invariant computeNodeSize (Work.id cw) _ _ Hev2
                (initial_NodesOk computeNodeSize cw) Hcoupled0) as [Hn2 _].
    apply assemble_sameMaps; try assumption.
    + exact (Evolves_links_nodup computeNodeSize _ _ Hev1 Hlinks0).
    + exact (Evolves_links_nodup computeNodeSize _ _ Hev2 Hlinks0).
    + eapply sameMaps_trans; [exact Hsame1 | apply sameMaps_sym; exact Hsame2].
Qed.
End Order.

(* ===================================================================== *)
(** ** The sample provider tells one story *)
(* ===================================================================== *)

Lemma lookup_In records id r : Sample.lookup records id = Some r -> In r records.
Proof.
  induction records as [| x rest IH]; cbn [Sample.lookup]; [discriminate |].
  destruct (String.eqb (Raw.id x) id).
  - intros E. injection E as <-. left. reflexivity.
  - intros E. right. auto.
Qed.

Lemma lookups_In records ids r :
  In r (filterDefined (map (Sample.lookup records) ids)) -> In r records.
Proof.
  intros H. apply filterDefined_In in H. apply in_map_iff in H.
  destruct H as (id & H & _). eapply lookup_In. exact H.
Qed.

Lemma provider_serves records citers req results raw :
  Sample.provider records citers req = Results results ->
  In raw results -> In raw records.
Proof.
  destruct req as [ids perPage | id perPage page]; cbn [Sample.provider];
    intros E; injection E as <-; intros H; apply In_firstn in H;
    eapply lookups_In; exact H.
Qed.

Lemma sample_consistent : Consistent Sample.upstream.
Proof.
  assert (Hworks : forall raw w,
             In raw Sample.records -> OpenAlex.normalizeWork raw = Some w ->
             In (Some w) (map OpenAlex.normalizeWork Sample.records)).
  { intros raw w Hin <-. apply in_map. exact Hin. }
  intros w1 w2 (req1 & rs1 & raw1 & Hup1 & Hin1 & Hn1)
         (req2 & rs2 & raw2 & Hup2 & Hin2 & Hn2) Hid.
  apply (provider_serves _ _ _ _ _ Hup1) in Hin1.
  apply (provider_serves _ _ _ _ _ Hup2) in Hin2.
  pose proof (Hworks _ _ Hin1 Hn1) as H1.
  pose proof (Hworks _ _ Hin2 Hn2) as H2.
  clear - H1 H2 Hid. vm_compute in H1, H2.
  repeat (destruct H1 as [H1 | H1]; [injection H1 as <- |]); try contradiction;
    repeat (destruct H2 as [H2 | H2]; [injection H2 as <- |]); try contradiction;
    first [reflexivity | discriminate Hid].
Qed.

(** With the sample provider the two orders of completion return the same
    nodes in two different orders: the arrays agree as sets only. *)
Lemma completion_order_reorders :
  exists g1 log1 g2 log2,
    run (Engine.buildGraph Sample.localeCompare Sample.computeNodeSize
           Sample.upstream [references; cited_by] "W1000" (JsString "1") (JsString "20"))
      = (Returned g1, log1)
    /\ run (Engine.buildGraph Sample.localeCompare Sample.computeNodeSize
              Sample.upstream [cited_by; references] "W1000" (JsString "1") (JsString "20"))
         = (Returned g2, log2)
    /\ map Node.id (Engine.Graph.nodes g1) <> map Node.id (Engine.Graph.nodes g2).
Proof.
  eexists _, _, _, _. split; [vm_compute; reflexivity |].
  split; [vm_compute; reflexivity |].
  vm_compute. discriminate.
Qed.

Lemma buildGraph_order_independent_witness :
  exists g2 log2,
    run (Engine.buildGraph Sample.localeCompare Sample.computeNodeSize Sample.upstream
           [] " w1000 " (JsString "2") (JsString "20")) = (Returned g2, log2)
    /\ Engine.Graph.meta Sample.graph = Engine.Graph.meta g2
    /\ Permutation (Engine.Graph.nodes Sample.graph) (Engine.Graph.nodes g2)
    /\ Permutation (Engine.Graph.links Sample.graph) (Engine.Graph.links g2).
Proof.
  exact (buildGraph_order_independent Sample.localeCompare Sample.computeNodeSize
           Sample.upstream sample_consistent [cited_by; references] []
           " w1000 " (JsString "2") (JsString "20") _ _ Runs.engine_run).
Defined.

(* ===================================================================== *)
(** ** More on the adapter: which inputs [normalizeId] accepts *)
(* ===================================================================== *)

Module IdFacts.
Import OpenAlex NormalizeFacts.

Definition startsWithDigit (s : string) : bool :=
  match s with String c _ => isDigit c | EmptyString => false end.

Lemma isW_not_space c : isW c = true -> isWhiteSpace c = false.
Proof.
  destruct c as [[] [] [] [] [] [] [] []]; try discriminate; reflexivity.
Qed.

Lemma isW_not_digit c : isW c = true -> isDigit c = false.
Proof.
  destruct c as [[] [] [] [] [] [] [] []]; try discriminate; reflexivity.
Qed.

Lemma trimStart_app a c r :
  isWhiteSpace c = false ->
  trimStart (a ++ String c r) = (trimStart a ++ String c r)%string.
Proof.
  intros Hc. induction a as [| x a IH]; cbn [String.append trimStart].
  - rewrite Hc. reflexivity.
  - destruct (isWhiteSpace x); [exact IH | reflexivity].
Qed.

Lemma trimStart_suffix s : exists ws, s = (ws ++ trimStart s)%string.
Proof.
  induction s as [| c r [ws IH]]; cbn [trimStart].
  - exists EmptyString. reflexivity.
  - destruct (isWhiteSpace c).
    + exists (String c ws). cbn. rewrite <- IH. reflexivity.
    + exists EmptyString. reflexivity.
Qed.

Lemma trimEnd_prefix s : exists ws, s = (trimEnd s ++ ws)%string.
Proof.
  induction s as [| c r [ws IH]]; cbn [trimEnd].
  - exists EmptyString. reflexivity.
  - destruct (trimEnd r) as [| x r'] eqn:E.
    + destruct (isWhiteSpace c).
      * exists (String c r). reflexivity.
      * exists ws. cbn. rewrite IH at 1. reflexivity.
    + exists ws. cbn. rewrite IH at 1. reflexivity.
Qed.

Lemma trimEnd_String c r :
  isWhiteSpace c = false -> trimEnd (String c r) = String c (trimEnd r).
Proof.
  intros Hc. cbn [trimEnd]. destruct (trimEnd r); [rewrite Hc |]; reflexivity.
Qed.

Lemma trimEnd_digits_app ds post :
  allDigits ds = true -> trimEnd (ds ++ post) = (ds ++ trimEnd post)%string.
Proof.
  unfold allDigits. induction ds as [| c r IH]; cbn [String.append]; [reflexivity |].
  cbn [forallb list_ascii_of_string]. intros H.
  apply andb_true_iff in H. destruct H as [Hc Hr].
  rewrite trimEnd_String by (apply isDigit_not_space; exact Hc).
  rewrite IH by exact Hr. reflexivity.
Qed.

Lemma startsWithDigit_trimEnd post :
  startsWithDigit post = false -> startsWithDigit (trimEnd post) = false.
Proof.
  destruct post as [| c r]; [reflexivity |]. cbn [startsWithDigit trimEnd].
  intros Hc. destruct (trimEnd r); [destruct (isWhiteSpace c) |]; cbn; auto.
Qed.

Lemma takeDigits_app ds rest :
  allDigits ds = true -> takeDigits (ds ++ rest) = (ds ++ takeDigits rest)%string.
Proof.
  unfold allDigits. induction ds as [| c r IH]; cbn [String.append]; [reflexivity |].
  cbn [forallb list_ascii_of_string takeDigits]. intros H.
  apply andb_true_iff in H. destruct H as [Hc Hr].
  rewrite Hc, IH by exact Hr. reflexivity.
Qed.

Lemma takeDigits_nondigit rest :
  startsWithDigit rest = false -> takeDigits rest = EmptyString.
Proof.
  destruct rest as [| c r]; [reflexivity |]. cbn. intros ->. reflexivity.
Qed.

Lemma append_empty_r s : (s ++ EmptyString)%string = s.
Proof. induction s as [| c r IH]; cbn; [| rewrite IH]; reflexivity. Qed.

Lemma length_append a b :
  String.length (a ++ b) = (String.length a + String.length b)%nat.
Proof. induction a as [| c r IH]; cbn; [| rewrite IH]; reflexivity. Qed.

(** The digits after a position do not depend on what follows a text
    that ends the run of digits. *)
Lemma takeDigits_before a x :
  startsWithDigit x = false -> takeDigits (a ++ x) = takeDigits a.
Proof.
  intros Hx. induction a as [| c r IH]; cbn [String.append takeDigits].
  - apply takeDigits_nondigit. exact Hx.
  - destruct (isDigit c); [rewrite IH |]; reflexivity.
Qed.

Lemma matchWorkId_tail c r : matchWorkId (String c r) = None -> matchWorkId r = None.
Proof.
  rewrite matchWorkId_cons.
  destruct (isW c && (4 <=? String.length (takeDigits r))%nat); [discriminate | auto].
Qed.

Lemma matchWorkId_trimStart s : matchWorkId s = None -> matchWorkId (trimStart s) = None.
Proof.
  induction s as [| c r IH]; cbn [trimStart]; [auto |].
  destruct (isWhiteSpace c); [| auto]. intros H. apply IH. eapply matchWorkId_tail, H.
Qed.

(** A text without an identifier hides none of the identifier that
    follows it. *)
Lemma matchWorkId_skips a x :
  matchWorkId a = None -> startsWithDigit x = false ->
  matchWorkId (a ++ x) = matchWorkId x.
Proof.
  intros Ha Hx. induction a as [| c r IH]; [reflexivity |].
  cbn [String.append]. rewrite matchWorkId_cons in Ha |- *.
  rewrite (takeDigits_before r x Hx).
  destruct (isW c && (4 <=? String.length (takeDigits r))%nat); [discriminate |].
  apply IH. exact Ha.
Qed.

(** An identifier anywhere in a text is found, or one before it is. *)
Lemma matchWorkId_finds a w r :
  isW w = true -> (4 <= String.length (takeDigits r))%nat ->
  exists m, matchWorkId (a ++ String w r) = Some m.
Proof.
  intros Hw Hl. induction a as [| c a IH]; cbn [String.append];
    rewrite matchWorkId_cons.
  - rewrite Hw. apply Nat.leb_le in Hl. rewrite Hl. eexists. reflexivity.
  - destruct (isW c && _); [eexists; reflexivity | exact IH].
Qed.

(** Where a match sits in its text. *)
Lemma matchWorkId_position s m :
  matchWorkId s = Some m ->
  exists a rest, s = (a ++ m ++ rest)%string.
Proof.
  induction s as [| c r IH]; [discriminate |]. rewrite matchWorkId_cons.
  destruct (isW c && (4 <=? String.length (takeDigits r))%nat).
  - intros H. injection H as <-. exists EmptyString.
    assert (Hr : exists rest, r = (takeDigits r ++ rest)%string).
    { clear. induction r as [| x r [rest IH]]; cbn [takeDigits].
      - exists EmptyString. reflexivity.
      - destruct (isDigit x).
        + exists rest. cbn. rewrite <- IH. reflexivity.
        + exists (String x r). reflexivity. }
    destruct Hr as [rest Hr]. exists rest. cbn. rewrite <- Hr. reflexivity.
  - intros H. destruct (IH H) as (a & rest & ->). exists (String c a), rest. reflexivity.
Qed.

Lemma trim_around pre w r :
  isW w = true ->
  trim (pre ++ String w r) = (trimStart pre ++ String w (trimEnd r))%string.
Proof.
  intros Hw. unfold trim. rewrite trimStart_app by (apply isW_not_space; exact Hw).
  rewrite trimEnd_keeps_prefix; rewrite trimEnd_String by (apply isW_not_space; exact Hw);
    [reflexivity | discriminate].
Qed.

Lemma nonEmpty_app_String a c r : nonEmpty (a ++ String c r) = true.
Proof. destruct a; reflexivity. Qed.

End IdFacts.

(** X1: [toOpenAlexId] gives the canonical form of an identifier, the
    prefix [https://openalex.org/W] followed by four or more digits, and
    the canonical form is a fixed point: normalizing it again, as
    [getWorkById] does with the identifier [buildGraph] hands it, changes
    nothing and leads to the same request. *)
Theorem toOpenAlexId_canonical (upstream : Request -> Response) (id n : string) :
  OpenAlex.toOpenAlexId id = Some n ->
  (exists ds, n = ("https://openalex.org/W" ++ ds)%string
              /\ allDigits ds = true /\ (4 <= String.length ds)%nat)
  /\ OpenAlex.toOpenAlexId n = Some n
  /\ OpenAlex.getWorkById upstream n = OpenAlex.getWorkById upstream id.
Proof.
  intros H. unfold OpenAlex.toOpenAlexId in *.
  pose proof (NormalizeFacts.normalizeId_idempotent _ _ H) as Hn.
  split; [| split; [exact Hn |]].
  - destruct (NormalizeFacts.normalizeId_shape _ _ H) as (ds & -> & Hd & Hl).
    exists ds. auto.
  - unfold OpenAlex.getWorkById. rewrite H, Hn. reflexivity.
Qed.

Lemma toOpenAlexId_canonical_witness :
  (exists ds, "https://openalex.org/W2741809807" = ("https://openalex.org/W" ++ ds)%string
              /\ allDigits ds = true /\ (4 <= String.length ds)%nat)
  /\ OpenAlex.toOpenAlexId "https://openalex.org/W2741809807"
     = Some "https://openalex.org/W2741809807"
  /\ OpenAlex.getWorkById Sample.upstream "https://openalex.org/W2741809807"
     = OpenAlex.getWorkById Sample.upstream " w2741809807 ".
Proof.
  apply (toOpenAlexId_canonical Sample.upstream " w2741809807 ").
  reflexivity.
Defined.

(** X2: the identifier [normalizeId] returns is the first [W] or [w] of the
    text that four or more digits follow, with all of its digits, in upper
    case behind the prefix: whatever precedes it (a URL, white space, other
    words) and whatever follows its last digit is dropped. *)
Theorem normalizeId_finds_first (pre : string) (w : ascii) (ds post : string) :
  OpenAlex.matchWorkId pre = None ->
  OpenAlex.isW w = true ->
  allDigits ds = true -> (4 <= String.length ds)%nat ->
  IdFacts.startsWithDigit post = false ->
  OpenAlex.normalizeId (pre ++ String w ds ++ post)
  = Some ("https://openalex.org/W" ++ ds)%string.
Proof.
  intros Hpre Hw Hd Hl Hpost. unfold OpenAlex.normalizeId.
  change (pre ++ String w ds ++ post)%string with (pre ++ String w (ds ++ post))%string.
  rewrite IdFacts.nonEmpty_app_String. cbn [negb].
  rewrite IdFacts.trim_around by exact Hw.
  rewrite IdFacts.trimEnd_digits_app by exact Hd.
  rewrite IdFacts.matchWorkId_skips;
    [| apply IdFacts.matchWorkId_trimStart; exact Hpre
     | cbn; apply IdFacts.isW_not_digit; exact Hw].
  rewrite NormalizeFacts.matchWorkId_cons.
  rewrite IdFacts.takeDigits_app by exact Hd.
  rewrite IdFacts.takeDigits_nondigit
    by (apply IdFacts.startsWithDigit_trimEnd; exact Hpost).
  rewrite IdFacts.append_empty_r, Hw. apply Nat.leb_le in Hl. rewrite Hl.
  cbn [andb toUpperCase].
  rewrite (NormalizeFacts.toUpperChar_W _ Hw), (NormalizeFacts.toUpperCase_digits _ Hd).
  reflexivity.
Qed.

Lemma normalizeId_finds_first_witness :
  OpenAlex.normalizeId ("  https://api.openalex.org/works/" ++ String "w" "2741809807" ++ "?select=id ")
  = Some "https://openalex.org/W2741809807".
Proof.
  apply (normalizeId_finds_first "  https://api.openalex.org/works/" "w" "2741809807"
           "?select=id "); first [reflexivity | cbn; lia].
Defined.

(** X3: [normalizeId] refuses a text exactly when no [W] or [w] in it is
    followed by four digits: an identifier is found wherever it stands. *)
Theorem normalizeId_refuses_iff (id : string) :
  OpenAlex.normalizeId id = None <->
  ~ exists pre w ds post,
      id = (pre ++ String w ds ++ post)%string
      /\ OpenAlex.isW w = true /\ allDigits ds = true /\ (4 <= String.length ds)%nat.
Proof.
  split.
  - intros Hnone (pre & w & ds & post & -> & Hw & Hd & Hl).
    unfold OpenAlex.normalizeId in Hnone.
    change (pre ++ String w ds ++ post)%string
      with (pre ++ String w (ds ++ post))%string in Hnone.
    rewrite IdFacts.nonEmpty_app_String in Hnone. cbn [negb] in Hnone.
    rewrite IdFacts.trim_around in Hnone by exact Hw.
    rewrite IdFacts.trimEnd_digits_app in Hnone by exact Hd.
    destruct (IdFacts.matchWorkId_finds (trimStart pre) w (ds ++ trimEnd post) Hw)
      as [m Hm].
    + rewrite IdFacts.takeDigits_app by exact Hd.
      rewrite IdFacts.length_append. lia.
    + rewrite Hm in Hnone. discriminate Hnone.
  - intros Hno. destruct (OpenAlex.normalizeId id) as [n |] eqn:E; [| reflexivity].
    exfalso. apply Hno. unfold OpenAlex.normalizeId in E.
    destruct (negb (nonEmpty id)); [discriminate |].
    destruct (OpenAlex.matchWorkId (trim id)) as [m |] eqn:Em; [| discriminate].
    destruct (NormalizeFacts.matchWorkId_shape _ _ Em) as (c & ds & -> & Hc & Hd & Hl).
    destruct (IdFacts.matchWorkId_position _ _ Em) as (a & rest & Ht).
    destruct (IdFacts.trimStart_suffix id) as [ws1 H1].
    destruct (IdFacts.trimEnd_prefix (trimStart id)) as [ws2 H2].
    exists (ws1 ++ a)%string, c, ds, (rest ++ ws2)%string.
    split; [| auto].
    rewrite H1, H2. unfold trim in Ht. rewrite Ht.
    rewrite !string_append_assoc. reflexivity.
Qed.

(* ===================================================================== *)
(** ** More on the adapter: batches *)
(* ===================================================================== *)

Lemma chunkArray_cons {A : Type} fuel (x : A) items size :
  OpenAlex.chunkArray (S fuel) (x :: items) size
  = firstn size (x :: items)
      :: OpenAlex.chunkArray fuel (skipn size (x :: items)) size.
Proof. reflexivity. Qed.

Lemma chunkArray_nil {A : Type} fuel size :
  OpenAlex.chunkArray fuel (@nil A) size = [].
Proof. destruct fuel; reflexivity. Qed.

(** What [chunkArray] returns for a positive size, with the fuel the
    callers give it. *)
Lemma chunkArray_props {A : Type} (size : nat) :
  (0 < size)%nat ->
  forall fuel (items : list A),
    (List.length items <= fuel)%nat ->
    let chunks := OpenAlex.chunkArray fuel items size in
    concat chunks = items
    /\ Forall (fun chunk => (1 <= List.length chunk <= size)%nat) chunks
    /\ (forall i, (S i < List.length chunks)%nat ->
          List.length (nth i chunks []) = size)
    /\ List.length chunks = ((List.length items + size - 1) / size)%nat.
Proof.
  intros Hsize. induction fuel as [| fuel IH]; intros items Hfuel; cbv zeta.
  - destruct items; [| cbn in Hfuel; lia]. cbn.
    repeat split; [constructor | intros i Hi; lia |].
    symmetry. apply Nat.div_small. lia.
  - destruct items as [| x items].
    + cbn [OpenAlex.chunkArray]. cbn [concat List.length].
      repeat split; [constructor | intros i Hi; lia |].
      symmetry. apply Nat.div_small. lia.
    + rewrite chunkArray_cons.
      set (l := x :: items) in *.
      assert (Hlen : (1 <= List.length l)%nat) by (cbn; lia).
      assert (Hrest : (List.length (skipn size l) <= fuel)%nat).
      { rewrite length_skipn. cbn [List.length] in Hfuel |- *. unfold l in *.
        cbn [List.length] in *. lia. }
      destruct (IH (skipn size l) Hrest) as (Hcat & Hall & Hfull & Hcount).
      cbn [concat List.length]. split; [| split; [| split]].
      * rewrite Hcat. apply firstn_skipn.
      * constructor; [| exact Hall]. rewrite length_firstn. lia.
      * intros [| i] Hi; cbn [nth].
        -- rewrite length_firstn.
           destruct (Nat.le_gt_cases size (List.length l)) as [Hle | Hgt]; [lia |].
           exfalso. rewrite skipn_all2 in Hi by lia.
           rewrite chunkArray_nil in Hi. cbn in Hi. lia.
        -- apply Hfull. lia.
      * rewrite Hcount, length_skipn.
        destruct (Nat.le_gt_cases (List.length l) size) as [Hle | Hgt].
        -- replace (List.length l - size + size - 1)%nat with (size - 1)%nat by lia.
           rewrite (Nat.div_small (size - 1) size) by lia.
           apply Nat.div_unique with (r := (List.length l - 1)%nat); lia.
        -- replace (List.length l + size - 1)%nat
             with (List.length l - size + size - 1 + 1 * size)%nat by lia.
           rewrite Nat.div_add by lia. lia.
Qed.

(** X4: for a positive size [chunkArray] cuts a list into consecutive
    pieces: put together they give the list back, none is empty or longer
    than the size, all but the last have exactly the size, and there are
    as many as the length divided by the size, rounded up. *)
Theorem chunkArray_partition {A : Type} (items : list A) (size : nat) :
  (0 < size)%nat ->
  let chunks := OpenAlex.chunkArray (List.length items) items size in
  concat chunks = items
  /\ Forall (fun chunk => (1 <= List.length chunk <= size)%nat) chunks
  /\ (forall i, (S i < List.length chunks)%nat ->
        List.length (nth i chunks []) = size)
  /\ List.length chunks = ((List.length items + size - 1) / size)%nat.
Proof.
  intros Hsize. apply chunkArray_props; [exact Hsize | lia].
Qed.

Lemma chunkArray_partition_witness :
  let chunks := OpenAlex.chunkArray 5 [1; 2; 3; 4; 5] 2 in
  concat chunks = [1; 2; 3; 4; 5]
  /\ Forall (fun chunk => (1 <= List.length chunk <= 2)%nat) chunks
  /\ (forall i, (S i < List.length chunks)%nat ->
        List.length (nth i chunks []) = 2%nat)
  /\ List.length chunks = ((5 + 2 - 1) / 2)%nat.
Proof.
  apply (chunkArray_partition [1; 2; 3; 4; 5] 2). lia.
Defined.

(** *** Sets *)

Lemma JsSet_has_In s k : JsSet.has s k = true <-> In k s.
Proof.
  unfold JsSet.has. rewrite existsb_exists. split.
  - intros (x & Hin & E). apply String.eqb_eq in E. subst. exact Hin.
  - intros Hin. exists k. split; [exact Hin | apply String.eqb_refl].
Qed.

Lemma JsSet_add_props s k :
  NoDup s ->
  NoDup (JsSet.add s k)
  /\ (forall x, In x (JsSet.add s k) <-> In x s \/ x = k)
  /\ (List.length (JsSet.add s k) <= S (List.length s))%nat.
Proof.
  intros Hnd. unfold JsSet.add. destruct (JsSet.has s k) eqn:E.
  - apply JsSet_has_In in E. split; [exact Hnd |]. split; [| lia].
    intros x. split; [auto | intros [H | ->]; assumption].
  - assert (Hk : ~ In k s).
    { intros Hin. apply JsSet_has_In in Hin. congruence. }
    split; [| split].
    + apply NoDup_app; [exact Hnd | repeat constructor; intros [] |].
      intros x Hx [<- | []]. contradiction.
    + intros x. rewrite in_app_iff. cbn. intuition.
    + rewrite length_app. cbn. lia.
Qed.

Lemma JsSet_fold_props l s :
  NoDup s ->
  NoDup (fold_left JsSet.add l s)
  /\ (forall x, In x (fold_left JsSet.add l s) <-> In x s \/ In x l)
  /\ (List.length (fold_left JsSet.add l s) <= List.length s + List.length l)%nat.
Proof.
  revert s. induction l as [| k l IH]; intros s Hnd; cbn [fold_left].
  - split; [exact Hnd |]. split; [| cbn; lia]. intros x. cbn. tauto.
  - destruct (JsSet_add_props s k Hnd) as (Hnd1 & Hin1 & Hlen1).
    destruct (IH _ Hnd1) as (Hnd2 & Hin2 & Hlen2).
    split; [exact Hnd2 |]. split.
    + intros x. rewrite Hin2, Hin1. cbn. intuition.
    + cbn [List.length]. lia.
Qed.

(** [new Set(items)] keeps one copy of each item. *)
Lemma JsSet_ofList_props l :
  NoDup (JsSet.ofList l)
  /\ (forall x, In x (JsSet.ofList l) <-> In x l)
  /\ (List.length (JsSet.ofList l) <= List.length l)%nat.
Proof.
  unfold JsSet.ofList.
  destruct (JsSet_fold_props l JsSet.empty (NoDup_nil _)) as (Hnd & Hin & Hlen).
  split; [exact Hnd |]. split; [| exact Hlen].
  intros x. rewrite Hin. cbn. tauto.
Qed.

Lemma filterDefined_length {A : Type} (l : list (option A)) :
  (List.length (filterDefined l) <= List.length l)%nat.
Proof.
  induction l as [| [x |] l IH]; cbn; lia.
Qed.

Section Batches.
Variable upstream : Request -> Response.

(** The records of one batch, as [getWorksByIds] keeps them. *)
Definition worksOfBatch (chunk : list string) : list Work.t :=
  match upstream (FilterOpenAlexId chunk (List.length chunk)) with
  | Results results => filterDefined (map OpenAlex.normalizeWork results)
  | HttpError _ _ => []
  end.

Definition requestOfBatch (chunk : list string) : Request :=
  FilterOpenAlexId chunk (List.length chunk).

Lemma promiseAll_batches chunks log responses log' :
  promiseAll
    (fun chunk =>
       results <- OpenAlex.requestOpenAlex upstream
                    (FilterOpenAlexId chunk (List.length chunk)) ;;
       ret (filterDefined (map OpenAlex.normalizeWork results)))
    chunks log = (Returned responses, log') ->
  log' = log ++ map requestOfBatch chunks
  /\ responses = map worksOfBatch chunks.
Proof.
  revert log responses log'.
  induction chunks as [| chunk rest IH]; intros log responses log' H;
    cbn [promiseAll] in H.
  - fetch_ret H as E. cbn. rewrite app_nil_r. auto.
  - fetch_bind H as y log1 Hy H. fetch_bind H as ys log2 Hys H. fetch_ret H as E.
    fetch_bind Hy as rs log0 Hreq Hy. fetch_ret Hy as Ey.
    unfold OpenAlex.requestOpenAlex in Hreq.
    destruct (IH _ _ _ Hys) as [-> ->].
    destruct (upstream (FilterOpenAlexId chunk (List.length chunk)))
      as [st body | results] eqn:Eup; [discriminate |].
    injection Hreq as <- <-. rewrite <- app_assoc. split; [reflexivity |].
    cbn [map]. f_equal. unfold worksOfBatch. rewrite Eup. reflexivity.
Qed.

(** The identifiers [getWorksByIds] asks for: the normal forms of the
    ones it was given, each once. *)
Definition normalizedIdsOf (ids : list string) : list string :=
  JsSet.ofList (filterDefined (map OpenAlex.normalizeId ids)).

Lemma getWorksByIds_returned ids log works log' :
  OpenAlex.getWorksByIds upstream ids log = (Returned works, log') ->
  let chunks :=
    OpenAlex.chunkArray (List.length (normalizedIdsOf ids)) (normalizedIdsOf ids) 40 in
  log' = log ++ map requestOfBatch chunks
  /\ works = concat (map worksOfBatch chunks).
Proof.
  unfold OpenAlex.getWorksByIds. fold (normalizedIdsOf ids).
  destruct (normalizedIdsOf ids) as [| n ns] eqn:En; intros H; cbv zeta.
  - fetch_ret H as E. cbn. rewrite app_nil_r. auto.
  - fetch_bind H as responses log1 Hall H. fetch_ret H as E.
    apply promiseAll_batches in Hall. destruct Hall as [-> ->]. auto.
Qed.

Lemma normalizedIdsOf_props ids :
  NoDup (normalizedIdsOf ids)
  /\ (forall n, In n (normalizedIdsOf ids) <->
                exists id, In id ids /\ OpenAlex.normalizeId id = Some n)
  /\ (List.length (normalizedIdsOf ids) <= List.length ids)%nat.
Proof.
  unfold normalizedIdsOf.
  destruct (JsSet_ofList_props (filterDefined (map OpenAlex.normalizeId ids)))
    as (Hnd & Hin & Hlen).
  split; [exact Hnd |]. split.
  - intros n. rewrite Hin. split.
    + intros H. apply filterDefined_In, in_map_iff in H.
      destruct H as (id & E & Hid). exists id. auto.
    + intros (id & Hid & E). apply filterDefined_In. rewrite <- E.
      apply in_map. exact Hid.
  - pose proof (filterDefined_length (map OpenAlex.normalizeId ids)) as H.
    rewrite length_map in H. lia.
Qed.

(** X5: when [getWorksByIds] returns it has sent one request per batch,
    in order, and nothing else: the batches hold the normal forms of the
    identifiers it was given, each exactly once, at most 40 to a request
    with [per-page] set to the size of the batch, in as few requests as
    that allows; and it returns the normalized records of the answers, in
    batch order.  Without a usable identifier it sends nothing. *)
Theorem getWorksByIds_requests ids log works log' :
  OpenAlex.getWorksByIds upstream ids log = (Returned works, log') ->
  exists chunks,
    log' = log ++ map (fun chunk => FilterOpenAlexId chunk (List.length chunk)) chunks
    /\ Forall (fun chunk => (1 <= List.length chunk <= 40)%nat) chunks
    /\ NoDup (concat chunks)
    /\ (forall n, In n (concat chunks) <->
                  exists id, In id ids /\ OpenAlex.normalizeId id = Some n)
    /\ List.length chunks = ((List.length (concat chunks) + 39) / 40)%nat
    /\ works = concat (map worksOfBatch chunks).
Proof.
  intros H. apply getWorksByIds_returned in H. cbv zeta in H.
  destruct H as [Hlog Hworks].
  destruct (normalizedIdsOf_props ids) as (Hnd & Hin & _).
  destruct (chunkArray_props 40 ltac:(lia) (List.length (normalizedIdsOf ids))
              (normalizedIdsOf ids) (Nat.le_refl _))
    as (Hcat & Hall & _ & Hcount).
  exists (OpenAlex.chunkArray (List.length (normalizedIdsOf ids)) (normalizedIdsOf ids) 40).
  rewrite Hcat.
  split; [exact Hlog |]. split; [exact Hall |]. split; [exact Hnd |].
  split; [exact Hin |]. split; [| exact Hworks].
  rewrite Hcount. f_equal. lia.
Qed.
End Batches.

Lemma getWorksByIds_requests_witness :
  exists chunks,
    snd (run (OpenAlex.getWorksByIds Sample.upstream [" w1001"; "W1002"; "W1001"; "x"]))
    = [] ++ map (fun chunk => FilterOpenAlexId chunk (List.length chunk)) chunks
    /\ Forall (fun chunk => (1 <= List.length chunk <= 40)%nat) chunks
    /\ NoDup (concat chunks)
    /\ (forall n, In n (concat chunks) <->
                  exists id, In id [" w1001"; "W1002"; "W1001"; "x"]
                             /\ OpenAlex.normalizeId id = Some n)
    /\ List.length chunks = ((List.length (concat chunks) + 39) / 40)%nat
    /\ match fst (run (OpenAlex.getWorksByIds Sample.upstream
                         [" w1001"; "W1002"; "W1001"; "x"])) with
       | Returned works => works
       | Thrown _ => []
       end = concat (map (worksOfBatch Sample.upstream) chunks).
Proof.
  apply (getWorksByIds_requests Sample.upstream [" w1001"; "W1002"; "W1001"; "x"] []).
  reflexivity.
Defined.

(* ===================================================================== *)
(** ** The writes behind a returned graph *)
(* ===================================================================== *)

Definition opLevel (op : Op) : Z := snd (fst op).

Section Trace.
Variable localeCompare : string -> string -> JsNumber.
Variable computeNodeSize : Z -> Z.
Variable upstream : Request -> Response.
Variable depth limit : Z.

Local Abbreviation writtenTo := (foldOps computeNodeSize).

(** A write of a level within the depth, of a child the provider served. *)
Definition OpOk (op : Op) : Prop :=
  1 <= opLevel op <= depth /\ Served upstream (Engine.child (opEntry op)).

Definition RunOk (r : Engine.SideRun) : Prop :=
  1 <= Engine.level r <= depth + 1
  /\ (Engine.active r = true -> Engine.level r <= depth).

(** The levels a side has completed. *)
Definition levelsDone (r : Engine.SideRun) : nat := Z.to_nat (Engine.level r - 1).

Lemma levelEntries_length side ps log limited log' :
  levelEntries localeCompare upstream side limit ps log = (Returned limited, log') ->
  (List.length limited <= Z.to_nat limit)%nat.
Proof.
  unfold levelEntries. intros H. fetch_bind H as sets log1 Hsets H. fetch_ret H as E.
  unfold Engine.limitedOf. rewrite length_firstn. lia.
Qed.

Lemma levelStep_traced side r log ops r' log' :
  RunOk r ->
  levelStep localeCompare upstream depth limit side r log = (Returned (ops, r'), log') ->
  Forall OpOk ops /\ RunOk r'
  /\ (List.length ops + Z.to_nat limit * levelsDone r
      <= Z.to_nat limit * levelsDone r')%nat.
Proof.
  intros [Hlevel Hactive]. unfold levelStep.
  destruct (Engine.active r) eqn:Ea; cbn [negb]; intros H.
  - specialize (Hactive eq_refl).
    fetch_bind H as limited log1 Hl H. fetch_ret H as E. injection E as <- <-.
    pose proof (levelEntries_length _ _ _ _ _ Hl) as Hlen.
    destruct (levelEntries_props _ _ _ _ _ _ _ _ Hl) as [_ Hserved].
    split; [| split].
    + apply Forall_forall. intros op Hop. unfold opsOf in Hop.
      apply in_map_iff in Hop. destruct Hop as (e & <- & He).
      split; [cbn; lia | apply Hserved, He].
    + unfold RunOk, nextRun.
      destruct ((Engine.level r + 1 <=? depth)
                && negb (Nat.eqb (List.length limited) 0)) eqn:Ec;
        cbn [Engine.level Engine.active].
      * apply andb_true_iff in Ec. destruct Ec as [Ec _]. apply Z.leb_le in Ec.
        split; [lia | intros _; exact Ec].
      * split; [lia | discriminate].
    + assert (Hdone : levelsDone (nextRun depth r limited) = S (levelsDone r)).
      { unfold levelsDone, nextRun.
        destruct ((Engine.level r + 1 <=? depth)
                  && negb (Nat.eqb (List.length limited) 0));
          cbn [Engine.level]; lia. }
      rewrite Hdone, Nat.mul_succ_r. unfold opsOf. rewrite length_map. lia.
  - fetch_ret H as E. injection E as <- <-.
    split; [apply Forall_nil |]. split; [| cbn; lia].
    split; [exact Hlevel | intros Ht; congruence].
Qed.

(** Where an expansion stands: the store is the starting store with the
    writes of the levels completed so far, at most [limit] for each. *)
Definition Traced (st0 : Engine.Store) (x : Engine.Expansion) : Prop :=
  RunOk (Engine.referencesRun x) /\ RunOk (Engine.citedByRun x)
  /\ exists ops,
       Engine.store x = writtenTo st0 ops /\ Forall OpOk ops
       /\ (List.length ops
           <= Z.to_nat limit * levelsDone (Engine.referencesRun x)
              + Z.to_nat limit * levelsDone (Engine.citedByRun x))%nat.

Lemma resume_traced st0 side x log x' log' :
  Traced st0 x ->
  Engine.resume localeCompare computeNodeSize upstream depth limit side x log
    = (Returned x', log') ->
  Traced st0 x'.
Proof.
  intros (Hr & Hc & ops & Hst & Hok & Hlen). rewrite resume_normal. intros H.
  fetch_bind H as [ops' r'] log1 Hstep H. fetch_ret H as E.
  destruct side; cbn [sideRun] in Hstep; cbn [afterStep fst snd].
  - destruct (levelStep_traced _ _ _ _ _ _ Hr Hstep) as (Hok' & Hr' & Hlen').
    split; [exact Hr' |]. split; [exact Hc |].
    exists (ops ++ ops'). cbn [Engine.store Engine.referencesRun Engine.citedByRun].
    rewrite Hst. unfold foldOps. rewrite fold_left_app.
    split; [reflexivity |]. split; [apply Forall_app; auto |].
    rewrite length_app. lia.
  - destruct (levelStep_traced _ _ _ _ _ _ Hc Hstep) as (Hok' & Hc' & Hlen').
    split; [exact Hr |]. split; [exact Hc' |].
    exists (ops ++ ops'). cbn [Engine.store Engine.referencesRun Engine.citedByRun].
    rewrite Hst. unfold foldOps. rewrite fold_left_app.
    split; [reflexivity |]. split; [apply Forall_app; auto |].
    rewrite length_app. lia.
Qed.

Lemma resumeAll_traced st0 schedule x log x' log' :
  Traced st0 x ->
  Engine.resumeAll localeCompare computeNodeSize upstream depth limit schedule x log
    = (Returned x', log') ->
  Traced st0 x'.
Proof.
  revert x log. induction schedule as [| side rest IH]; intros x log Hx H;
    cbn [Engine.resumeAll] in H.
  - fetch_ret H as E. exact Hx.
  - fetch_bind H as x1 log1 Hstep H.
    eapply IH; [| exact H]. eapply resume_traced; eassumption.
Qed.

Lemma expandBothSides_traced schedule st0 centerId log st' log' :
  0 <= depth ->
  Engine.getCachedWork st0 centerId <> None ->
  Engine.expandBothSides localeCompare computeNodeSize upstream depth limit
    schedule st0 centerId log = (Returned st', log') ->
  exists ops,
    st' = writtenTo st0 ops /\ Forall OpOk ops
    /\ (List.length ops <= Z.to_nat limit * (2 * Z.to_nat depth))%nat.
Proof.
  intros Hdepth Hcached. rewrite expandBothSides_normal by exact Hcached. intros H.
  fetch_bind H as x log1 Hall H. fetch_ret H as E.
  assert (Hstart : RunOk (startRun depth st0 1 [centerId])).
  { unfold RunOk, startRun.
    destruct ((1 <=? depth) && negb (Nat.eqb (List.length [centerId]) 0)) eqn:Ec;
      cbn [Engine.level Engine.active].
    - apply andb_true_iff in Ec. destruct Ec as [Ec _]. apply Z.leb_le in Ec.
      split; [lia | intros _; exact Ec].
    - split; [lia | discriminate]. }
  apply (resumeAll_traced st0) in Hall.
  - destruct Hall as ([Hr _] & [Hc _] & ops & Hst & Hok & Hlen).
    exists ops. split; [exact Hst |]. split; [exact Hok |].
    assert (H1 : (levelsDone (Engine.referencesRun x) <= Z.to_nat depth)%nat)
      by (unfold levelsDone; lia).
    assert (H2 : (levelsDone (Engine.citedByRun x) <= Z.to_nat depth)%nat)
      by (unfold levelsDone; lia).
    rewrite <- Nat.mul_add_distr_l in Hlen.
    etransitivity; [exact Hlen |]. apply Nat.mul_le_mono_l. lia.
  - split; [exact Hstart |]. split; [exact Hstart |].
    exists []. cbn [Engine.store Engine.referencesRun Engine.citedByRun].
    split; [reflexivity |]. split; [constructor |]. cbn. lia.
Qed.

(** *** What the writes keep true of the store *)

(** A node that carries the fields of a work. *)
Definition nodeOf (w : Work.t) (n : Node.t) : Prop :=
  Node.id n = Work.id w /\ Node.title n = Work.title w
  /\ Node.year n = Work.year w
  /\ Node.cited_by_count n = Work.cited_by_count w
  /\ Node.authors n = Work.authors w /\ Node.venue n = Work.venue w
  /\ Node.openalex_url n = Work.openalex_url w
  /\ Node.size n = computeNodeSize (Work.cited_by_count w).

(** The triple a link is filed under. *)
Definition keyOfLink (link : Link.t) : string :=
  linkKey (Link.source link) (Link.target link) (Link.type link).

Record StoreOk (cid : string) (st : Engine.Store) : Prop := {
  store_nodes : NodesOk cid (Engine.nodeMap st);
  store_served : forall k n, JsMap.get (Engine.nodeMap st) k = Some n ->
                             exists w, Served upstream w /\ nodeOf w n;
  store_depths : forall k n, JsMap.get (Engine.nodeMap st) k = Some n -> k <> cid ->
                             1 <= Node.depth n <= depth;
  store_link_keys : NoDup (JsMap.keys (Engine.linkMap st));
  store_links : forall k link, JsMap.get (Engine.linkMap st) k = Some link ->
                               k = keyOfLink link
}.

Lemma nodeOf_nodeFor existing w side level :
  nodeOf w (nodeFor computeNodeSize existing w side level).
Proof. unfold nodeOf. cbn. repeat split. Qed.

Lemma applyOp_StoreOk cid st op :
  StoreOk cid st -> OpOk op -> StoreOk cid (applyOp computeNodeSize st op).
Proof.
  intros [Hnodes Hserved Hdepths Hnd Hlinks] [Hlevel Hchild].
  destruct op as [[side level] entry]. cbn [opLevel opEntry fst snd] in *.
  constructor.
  - unfold applyOp. cbn [Engine.addLinkTo Engine.nodeMap].
    apply addNode_NodesOk; [exact Hnodes | apply sideOf_not_center | lia].
  - intros k n. rewrite nodeMap_applyOp, JsMapFacts.get_set.
    destruct (String.eqb (childId entry) k); [| apply Hserved].
    intros H. injection H as <-. exists (Engine.child entry).
    split; [exact Hchild | apply nodeOf_nodeFor].
  - intros k n. rewrite nodeMap_applyOp, JsMapFacts.get_set.
    destruct (String.eqb_spec (childId entry) k) as [<- | Hne]; [| apply Hdepths].
    intros H Hk. injection H as <-. cbn [nodeFor Node.depth].
    destruct (JsMap.get (Engine.nodeMap st) (childId entry)) as [e |] eqn:Ee; [| lia].
    specialize (Hdepths _ _ Ee Hk). lia.
  - rewrite linkMap_applyOp. unfold addLink.
    destruct (JsMap.has _ _); [exact Hnd | apply JsMapFacts.NoDup_keys_set, Hnd].
  - intros k link. rewrite linkMap_applyOp, get_addLink.
    destruct (String.eqb_spec (linkKey (parentId entry) (childId entry) side) k)
      as [<- | Hne]; [| apply Hlinks].
    destruct (JsMap.get (Engine.linkMap st) _) as [old |] eqn:Eo.
    + intros H. injection H as <-. apply Hlinks in Eo. exact Eo.
    + intros H. injection H as <-. reflexivity.
Qed.

Lemma foldOps_StoreOk cid ops st :
  StoreOk cid st -> Forall OpOk ops -> StoreOk cid (writtenTo st ops).
Proof.
  revert st. induction ops as [| op ops IH]; intros st Hst Hops; cbn; [exact Hst |].
  inversion Hops as [| ? ? Hop Hrest]; subst.
  apply IH; [apply applyOp_StoreOk; assumption | exact Hrest].
Qed.

Lemma JsMap_set_length {V : Type} (m : JsMap.t V) k v :
  (List.length (JsMap.set m k v) <= S (List.length m))%nat.
Proof.
  induction m as [| [k' v'] m IH]; cbn; [lia |].
  destruct (String.eqb k' k); cbn; lia.
Qed.

Lemma foldOps_counts ops st :
  (List.length (Engine.nodeMap (writtenTo st ops))
   <= List.length (Engine.nodeMap st) + List.length ops)%nat
  /\ (List.length (Engine.linkMap (writtenTo st ops))
      <= List.length (Engine.linkMap st) + List.length ops)%nat.
Proof.
  revert st. induction ops as [| [[side level] entry] ops IH]; intros st; cbn [foldOps fold_left].
  - cbn. lia.
  - destruct (IH (applyOp computeNodeSize st (side, level, entry))) as [Hn Hl].
    unfold foldOps in *.
    rewrite nodeMap_applyOp in Hn. rewrite linkMap_applyOp in Hl.
    pose proof (JsMap_set_length (Engine.nodeMap st) (childId entry)
                  (nodeFor computeNodeSize
                     (JsMap.get (Engine.nodeMap st) (childId entry))
                     (Engine.child entry) (Engine.sideOf side) level)) as Hset.
    assert (Hadd : (List.length (addLink (Engine.linkMap st) (parentId entry)
                                   (childId entry) side (Engine.sideOf side))
                    <= S (List.length (Engine.linkMap st)))%nat).
    { unfold addLink. destruct (JsMap.has _ _); [lia | apply JsMap_set_length]. }
    cbn [List.length]. lia.
Qed.

Lemma initial_StoreOk centerWork :
  Served upstream centerWork ->
  StoreOk (Work.id centerWork)
    (Engine.addNode computeNodeSize Engine.emptyStore centerWork center 0).
Proof.
  intros Hs. constructor.
  - apply initial_NodesOk.
  - intros k n. unfold Engine.addNode. cbv zeta. rewrite nodeMap_cacheWork.
    cbn [Engine.nodeMap Engine.emptyStore JsMap.empty JsMap.get JsMap.set].
    destruct (String.eqb (Work.id centerWork) k); [| discriminate].
    intros H. injection H as <-. exists centerWork. split; [exact Hs |].
    unfold nodeOf. cbn. repeat split.
  - intros k n. unfold Engine.addNode. cbv zeta. rewrite nodeMap_cacheWork.
    cbn [Engine.nodeMap Engine.emptyStore JsMap.empty JsMap.get JsMap.set].
    destruct (String.eqb_spec (Work.id centerWork) k) as [<- | _]; [| discriminate].
    intros _ Hk. contradiction.
  - rewrite linkMap_addNode. constructor.
  - intros k link. rewrite linkMap_addNode. discriminate.
Qed.
End Trace.

Lemma NoDup_map_filter {A B : Type} (f : A -> B) (P : A -> bool) (l : list A) :
  NoDup (map f l) -> NoDup (map f (filter P l)).
Proof.
  induction l as [| x l IH]; cbn; [auto |]. intros H.
  inversion H as [| ? ? Hnotin Hnd]; subst.
  destruct (P x); cbn; [| auto]. constructor; [| auto].
  intros Hin. apply Hnotin. apply in_map_iff in Hin.
  destruct Hin as (y & E & Hy). apply filter_In in Hy.
  rewrite <- E. apply in_map. tauto.
Qed.

(** The values of a map whose entries are filed under a key computed from
    the value have distinct keys. *)
Lemma keyed_values_NoDup {V : Type} (key : V -> string) (m : JsMap.t V) :
  NoDup (JsMap.keys m) ->
  (forall k v, JsMap.get m k = Some v -> key v = k) ->
  NoDup (map key (JsMap.values m)).
Proof.
  intros Hnd Hkey.
  replace (map key (JsMap.values m)) with (JsMap.keys m); [exact Hnd |].
  unfold JsMap.values, JsMap.keys. rewrite map_map. apply map_ext_in.
  intros [k v] Hin. cbn. symmetry. apply Hkey.
  apply JsMapFacts.In_get; assumption.
Qed.

Lemma values_get {V : Type} (m : JsMap.t V) v :
  NoDup (JsMap.keys m) -> In v (JsMap.values m) -> exists k, JsMap.get m k = Some v.
Proof.
  intros Hnd Hin. apply JsMapFacts.In_values in Hin. destruct Hin as [k Hk].
  exists k. apply JsMapFacts.In_get; assumption.
Qed.

(** What [normalizeWork] guarantees of every record it lets through. *)
Definition wellFormedWork (w : Work.t) : Prop :=
  nonEmpty (Work.id w) = true
  /\ Work.openalex_url w = Work.id w
  /\ nonEmpty (Work.title w) = true
  /\ nonEmpty (Work.venue w) = true
  /\ (List.length (Work.authors w) <= 8)%nat
  /\ Forall (fun a => nonEmpty a = true) (Work.authors w)
  /\ Work.year w <> Some 0
  /\ Work.doi w <> Some EmptyString.

Lemma orElse_nonEmpty s fallback :
  nonEmpty fallback = true -> nonEmpty (orElse s fallback) = true.
Proof. unfold orElse. destruct (nonEmpty s) eqn:E; auto. Qed.

Lemma normalizeWork_wellFormed raw w :
  OpenAlex.normalizeWork raw = Some w -> wellFormedWork w.
Proof.
  unfold OpenAlex.normalizeWork. destruct (nonEmpty (Raw.id raw)) eqn:Eid; cbn [negb];
    [| discriminate].
  remember (firstn 8 (filter nonEmpty (Raw.authorships raw))) as authors eqn:Ea.
  intros H. injection H as <-. unfold wellFormedWork.
  cbn [Work.id Work.title Work.year Work.authors Work.venue Work.openalex_url Work.doi].
  split; [exact Eid |]. split; [reflexivity |].
  split; [apply orElse_nonEmpty; reflexivity |].
  split; [apply orElse_nonEmpty; reflexivity |].
  split; [rewrite Ea, length_firstn; lia |].
  split.
  - apply Forall_forall. intros a Ha. rewrite Ea in Ha.
    apply In_firstn, filter_In in Ha. tauto.
  - split.
    + destruct (Raw.publication_year raw) as [[| p | p] |]; discriminate.
    + destruct (nonEmpty (Raw.doi raw)) eqn:Ed; [| discriminate].
      intros E. injection E as E. rewrite E in Ed. discriminate.
Qed.

Lemma Served_wellFormed upstream w : Served upstream w -> wellFormedWork w.
Proof.
  intros (req & rs & raw & _ & _ & H). eapply normalizeWork_wellFormed, H.
Qed.

Section EngineShape.
Variable localeCompare : string -> string -> JsNumber.
Variable computeNodeSize : Z -> Z.
Variable upstream : Request -> Response.

Local Abbreviation engine := (Engine.buildGraph localeCompare computeNodeSize upstream).

(** A returned graph is assembled from the centre and the writes of at
    most [depth] levels on each side, at most [limit] to a level. *)
Lemma engine_trace schedule input requestedDepth requestedLimit g log :
  run (engine schedule input requestedDepth requestedLimit) = (Returned g, log) ->
  exists centerWork ops,
    g = Engine.assemble centerWork (Engine.Meta.depth (Engine.Graph.meta g))
          (Engine.Meta.limit (Engine.Graph.meta g))
          (foldOps computeNodeSize
             (Engine.addNode computeNodeSize Engine.emptyStore centerWork center 0) ops)
    /\ Served upstream centerWork
    /\ Forall (OpOk upstream (Engine.Meta.depth (Engine.Graph.meta g))) ops
    /\ (List.length ops
        <= Z.to_nat (Engine.Meta.limit (Engine.Graph.meta g))
           * (2 * Z.to_nat (Engine.Meta.depth (Engine.Graph.meta g))))%nat
    /\ 1 <= Engine.Meta.depth (Engine.Graph.meta g) <= 3
    /\ 1 <= Engine.Meta.limit (Engine.Graph.meta g) <= 30.
Proof.
  intros H. apply engine_returned in H.
  destruct H as (workId & cw & st & log1 & _ & Hget & Hexp & ->).
  cbn [Engine.assemble Engine.Graph.meta Engine.Meta.depth Engine.Meta.limit].
  assert (Hd : 1 <= GraphParams.depth (parseGraphParams requestedDepth requestedLimit) <= 3)
    by (apply clampInteger_range; lia).
  assert (Hl : 1 <= GraphParams.limit (parseGraphParams requestedDepth requestedLimit) <= 30)
    by (apply clampInteger_range; lia).
  assert (Hs : Served upstream cw) by (eapply getWorkById_served; exact Hget).
  apply expandBothSides_traced in Hexp;
    [| lia | rewrite (initial_cached computeNodeSize upstream cw Hs); discriminate].
  destruct Hexp as (ops & -> & Hok & Hlen).
  exists cw, ops. auto 10.
Qed.

(** The store a returned graph is assembled from. *)
Lemma engine_store_ok schedule input requestedDepth requestedLimit g log :
  run (engine schedule input requestedDepth requestedLimit) = (Returned g, log) ->
  exists centerWork st,
    g = Engine.assemble centerWork (Engine.Meta.depth (Engine.Graph.meta g))
          (Engine.Meta.limit (Engine.Graph.meta g)) st
    /\ StoreOk computeNodeSize upstream (Engine.Meta.depth (Engine.Graph.meta g))
         (Work.id centerWork) st
    /\ (List.length (Engine.nodeMap st)
        <= 1 + Z.to_nat (Engine.Meta.limit (Engine.Graph.meta g))
               * (2 * Z.to_nat (Engine.Meta.depth (Engine.Graph.meta g))))%nat
    /\ (List.length (Engine.linkMap st)
        <= Z.to_nat (Engine.Meta.limit (Engine.Graph.meta g))
           * (2 * Z.to_nat (Engine.Meta.depth (Engine.Graph.meta g))))%nat
    /\ 1 <= Engine.Meta.depth (Engine.Graph.meta g) <= 3
    /\ 1 <= Engine.Meta.limit (Engine.Graph.meta g) <= 30.
Proof.
  intros H. destruct (engine_trace _ _ _ _ _ _ H)
    as (cw & ops & Hg & Hs & Hok & Hlen & Hd & Hl).
  set (st0 := Engine.addNode computeNodeSize Engine.emptyStore cw center 0) in *.
  exists cw, (foldOps computeNodeSize st0 ops).
  split; [exact Hg |]. split.
  - apply foldOps_StoreOk; [apply initial_StoreOk; exact Hs | exact Hok].
  - destruct (foldOps_counts computeNodeSize ops st0) as [Hn Hk].
    assert (Hn0 : List.length (Engine.nodeMap st0) = 1%nat).
    { unfold st0, Engine.addNode. cbv zeta. rewrite nodeMap_cacheWork. reflexivity. }
    assert (Hk0 : List.length (Engine.linkMap st0) = 0%nat).
    { unfold st0. rewrite linkMap_addNode. reflexivity. }
    repeat split; try lia.
Qed.

(** X6: the graph the engine returns is bounded by its parameters: each
    of the [depth] levels of each side adds at most [limit] links and at
    most [limit] nodes, so there are at most [2 * depth * limit] links and
    one node more than that; with the clamps of [parseGraphParams], never
    more than 180 links and 181 nodes. *)
Theorem buildGraph_size_bounded schedule input requestedDepth requestedLimit g log :
  run (engine schedule input requestedDepth requestedLimit) = (Returned g, log) ->
  let depth := Engine.Meta.depth (Engine.Graph.meta g) in
  let limit := Engine.Meta.limit (Engine.Graph.meta g) in
  Z.of_nat (List.length (Engine.Graph.links g)) <= 2 * depth * limit
  /\ Z.of_nat (List.length (Engine.Graph.nodes g)) <= 1 + 2 * depth * limit
  /\ (List.length (Engine.Graph.links g) <= 180)%nat
  /\ (List.length (Engine.Graph.nodes g) <= 181)%nat.
Proof.
  intros H. cbv zeta.
  destruct (engine_store_ok _ _ _ _ _ _ H) as (cw & st & Hg & _ & Hn & Hk & Hd & Hl).
  set (depth := Engine.Meta.depth (Engine.Graph.meta g)) in *.
  set (limit := Engine.Meta.limit (Engine.Graph.meta g)) in *.
  assert (Hlinks : (List.length (Engine.Graph.links g)
                    <= List.length (Engine.linkMap st))%nat).
  { rewrite Hg. cbn [Engine.assemble Engine.Graph.links].
    etransitivity; [apply filter_length_le |].
    unfold JsMap.values. rewrite length_map. lia. }
  assert (Hnodes : (List.length (Engine.Graph.nodes g)
                    <= List.length (Engine.nodeMap st))%nat).
  { rewrite Hg. cbn [Engine.assemble Engine.Graph.nodes].
    etransitivity; [apply filter_length_le |].
    unfold JsMap.values. rewrite length_map. lia. }
  assert (Hprod : Z.of_nat (Z.to_nat limit * (2 * Z.to_nat depth)) = 2 * depth * limit)
    by lia.
  assert (Hmax : 2 * depth * limit <= 180) by nia.
  lia.
Qed.

(** X7: every node of a graph the engine returns carries the fields of a
    record the provider served, as [normalizeWork] shaped it, and the size
    computed from its citation count; no two nodes share an id; and a node
    other than the centre has a side other than [center] and a depth
    between 1 and the depth of the request. *)
Theorem buildGraph_nodes_from_records
    schedule input requestedDepth requestedLimit g log :
  run (engine schedule input requestedDepth requestedLimit) = (Returned g, log) ->
  NoDup (map Node.id (Engine.Graph.nodes g))
  /\ forall n, In n (Engine.Graph.nodes g) ->
       (exists raw w req results,
           upstream req = Results results /\ In raw results
           /\ OpenAlex.normalizeWork raw = Some w
           /\ wellFormedWork w
           /\ nodeOf computeNodeSize w n)
       /\ (Node.id n <> Engine.Meta.centerWorkId (Engine.Graph.meta g) ->
           Node.side n <> center
           /\ 1 <= Node.depth n <= Engine.Meta.depth (Engine.Graph.meta g)).
Proof.
  intros H.
  destruct (engine_store_ok _ _ _ _ _ _ H)
    as (cw & st & Hg & [Hnodes Hserved Hdepths _ _] & _).
  destruct Hnodes as [Hnd Hkeyed Hcenter Hothers].
  assert (Hmeta : Engine.Meta.centerWorkId (Engine.Graph.meta g) = Work.id cw)
    by (rewrite Hg; reflexivity).
  split.
  - rewrite Hg. cbn [Engine.assemble Engine.Graph.nodes].
    apply NoDup_map_filter. apply keyed_values_NoDup; assumption.
  - intros n Hn. rewrite Hg in Hn. apply assemble_nodes in Hn. destruct Hn as [Hn _].
    destruct (values_get _ _ Hnd Hn) as [k Hk].
    pose proof (Hkeyed _ _ Hk) as Hid. split.
    + destruct (Hserved _ _ Hk) as (w & Hw & Hof).
      pose proof (Served_wellFormed _ _ Hw) as Hwf.
      destruct Hw as (req & rs & raw & Hup & Hin & Hnorm).
      exists raw, w, req, rs. auto 10.
    + rewrite Hmeta, Hid. intros Hne. split; [eapply Hothers | eapply Hdepths]; eassumption.
Qed.

(** The triple that identifies a link. *)
Definition linkTriple (link : Link.t) : string * string * LinkType :=
  (Link.source link, Link.target link, Link.type link).

(** X8: a graph the engine returns holds no link twice: two of its links
    differ in source, in target or in type, however many parents and
    levels led to the same pair. *)
Theorem buildGraph_links_distinct
    schedule input requestedDepth requestedLimit g log :
  run (engine schedule input requestedDepth requestedLimit) = (Returned g, log) ->
  NoDup (map linkTriple (Engine.Graph.links g))
  /\ NoDup (Engine.Graph.links g).
Proof.
  intros H.
  destruct (engine_store_ok _ _ _ _ _ _ H)
    as (cw & st & Hg & [_ _ _ Hnd Hkeyed] & _).
  assert (Hkeys : NoDup (map keyOfLink (Engine.Graph.links g))).
  { rewrite Hg. cbn [Engine.assemble Engine.Graph.links].
    apply NoDup_map_filter. apply keyed_values_NoDup; [exact Hnd |].
    intros k link Hk. symmetry. apply Hkeyed. exact Hk. }
  split.
  - apply (NoDup_map_inv (fun t => linkKey (fst (fst t)) (snd (fst t)) (snd t))).
    rewrite map_map. exact Hkeys.
  - eapply NoDup_map_inv. exact Hkeys.
Qed.
End EngineShape.

Lemma buildGraph_size_bounded_witness :
  let depth := Engine.Meta.depth (Engine.Graph.meta Sample.graph) in
  let limit := Engine.Meta.limit (Engine.Graph.meta Sample.graph) in
  Z.of_nat (List.length (Engine.Graph.links Sample.graph)) <= 2 * depth * limit
  /\ Z.of_nat (List.length (Engine.Graph.nodes Sample.graph)) <= 1 + 2 * depth * limit
  /\ (List.length (Engine.Graph.links Sample.graph) <= 180)%nat
  /\ (List.length (Engine.Graph.nodes Sample.graph) <= 181)%nat.
Proof.
  exact (buildGraph_size_bounded _ _ _ _ _ _ _ _ _ Runs.engine_run).
Defined.

Lemma buildGraph_nodes_from_records_witness :
  NoDup (map Node.id (Engine.Graph.nodes Sample.graph))
  /\ forall n, In n (Engine.Graph.nodes Sample.graph) ->
       (exists raw w req results,
           Sample.upstream req = Results results /\ In raw results
           /\ OpenAlex.normalizeWork raw = Some w
           /\ wellFormedWork w
           /\ nodeOf Sample.computeNodeSize w n)
       /\ (Node.id n <> Engine.Meta.centerWorkId (Engine.Graph.meta Sample.graph) ->
           Node.side n <> center
           /\ 1 <= Node.depth n <= Engine.Meta.depth (Engine.Graph.meta Sample.graph)).
Proof.
  exact (buildGraph_nodes_from_records _ _ _ _ _ _ _ _ _ Runs.engine_run).
Defined.

Lemma buildGraph_links_distinct_witness :
  NoDup (map linkTriple (Engine.Graph.links Sample.graph))
  /\ NoDup (Engine.Graph.links Sample.graph).
Proof.
  exact (buildGraph_links_distinct _ _ _ _ _ _ _ _ _ Runs.engine_run).
Defined.

(* ===================================================================== *)
(** ** [graph.js]: the shape of the graph and the requests behind it *)
(* ===================================================================== *)

(** The two modules merge sides by the same rule. *)
Lemma mergeSide_agree existing side :
  Legacy.mergeSide existing side = Engine.mergeSide existing side.
Proof. destruct existing, side; reflexivity. Qed.

Lemma append_cancel_l (p a b : string) : (p ++ a)%string = (p ++ b)%string -> a = b.
Proof.
  induction p as [| c p IH]; cbn; [auto |]. intros H. injection H as H. auto.
Qed.

Lemma append_length_eq (a b s : string) :
  (a ++ s)%string = (b ++ s)%string -> String.length a = String.length b.
Proof.
  intros H. apply (f_equal String.length) in H.
  rewrite !IdFacts.length_append in H. lia.
Qed.

Lemma append_cancel_r (a b s : string) : (a ++ s)%string = (b ++ s)%string -> a = b.
Proof.
  intros H. pose proof (append_length_eq _ _ _ H) as Hlen.
  revert b H Hlen. induction a as [| x a IH]; intros [| y b] H Hlen;
    try discriminate Hlen; [reflexivity |].
  cbn in H. injection H as -> H. f_equal. apply IH; [exact H |].
  cbn in Hlen. lia.
Qed.

(** From one source, the key tells the target and the type. *)
Lemma linkKey_same_source source target type target' type' :
  linkKey source target type = linkKey source target' type' ->
  target = target' /\ type = type'.
Proof.
  intros H.
  assert (Ht : type = type').
  { destruct type, type'; try reflexivity; exfalso.
    - exact (linkKey_types_differ _ _ _ _ H).
    - symmetry in H. exact (linkKey_types_differ _ _ _ _ H). }
  subst type'. split; [| reflexivity].
  unfold linkKey in H. apply append_cancel_l in H.
  apply (append_cancel_l "->") in H.
  eapply append_cancel_r. exact H.
Qed.

Section LegacyShape.
Variable localeCompare : string -> string -> JsNumber.
Variable computeNodeSize : Z -> Z.
Variable upstream : Request -> Response.

Local Abbreviation legacy := (Legacy.buildGraph localeCompare computeNodeSize upstream).

Lemma legacy_nodeMap_addNode_nodeFor st w side nodeDepth :
  Legacy.nodeMap (Legacy.addNode computeNodeSize st w side nodeDepth)
  = JsMap.set (Legacy.nodeMap st) (Work.id w)
      (nodeFor computeNodeSize (JsMap.get (Legacy.nodeMap st) (Work.id w))
         w side nodeDepth).
Proof.
  unfold Legacy.addNode, nodeFor. cbv zeta.
  destruct (JsMap.get (Legacy.nodeMap st) (Work.id w)) as [existing |];
    cbn [Legacy.nodeMap Node.id Node.title Node.year Node.cited_by_count
         Node.authors Node.venue Node.openalex_url Node.size];
    rewrite ?mergeSide_agree; reflexivity.
Qed.

Lemma legacy_linkMap_addNode st w side nodeDepth :
  Legacy.linkMap (Legacy.addNode computeNodeSize st w side nodeDepth)
  = Legacy.linkMap st.
Proof. unfold Legacy.addNode. cbv zeta. destruct (JsMap.get _ _); reflexivity. Qed.

(** The store of [graph.js] around the centre [cid]: a star. *)
Record StarOk (cid : string) (st : Legacy.Store) : Prop := {
  star_nodes : NodesOk cid (Legacy.nodeMap st);
  star_served : forall k n, JsMap.get (Legacy.nodeMap st) k = Some n ->
                            exists w, Served upstream w /\ nodeOf computeNodeSize w n;
  star_depths : forall k n, JsMap.get (Legacy.nodeMap st) k = Some n -> k <> cid ->
                            Node.depth n = 1;
  star_linked : forall k n, JsMap.get (Legacy.nodeMap st) k = Some n -> k <> cid ->
                            exists key link,
                              JsMap.get (Legacy.linkMap st) key = Some link
                              /\ Link.target link = k;
  star_link_keys : NoDup (JsMap.keys (Legacy.linkMap st));
  star_links : forall k link, JsMap.get (Legacy.linkMap st) k = Some link ->
                              k = keyOfLink link /\ Link.source link = cid
                              /\ JsMap.get (Legacy.nodeMap st) (Link.target link) <> None
}.

(** One turn of the loops of [graph.js]: the node, then its link. *)
Definition starStep (cid : string) (type : LinkType) (st : Legacy.Store) (w : Work.t)
  : Legacy.Store :=
  Legacy.addLinkTo (Legacy.addNode computeNodeSize st w (Engine.sideOf type) 1)
    cid (Work.id w) type (Engine.sideOf type).

Lemma get_addLink_kept m source target type direction k link :
  JsMap.get m k = Some link ->
  JsMap.get (addLink m source target type direction) k = Some link.
Proof.
  intros H. rewrite get_addLink, H. destruct (String.eqb _ k); reflexivity.
Qed.

Lemma starStep_StarOk cid type st w :
  StarOk cid st -> Served upstream w -> StarOk cid (starStep cid type st w).
Proof.
  intros [Hnodes Hserved Hdepths Hlinked Hnd Hlinks] Hw. unfold starStep.
  constructor; cbn [Legacy.addLinkTo Legacy.nodeMap Legacy.linkMap];
    rewrite ?legacy_linkMap_addNode.
  - apply legacy_addNode_NodesOk; [exact Hnodes | apply sideOf_not_center | lia].
  - intros k n. rewrite legacy_nodeMap_addNode_nodeFor, JsMapFacts.get_set.
    destruct (String.eqb (Work.id w) k); [| apply Hserved].
    intros H. injection H as <-. exists w. split; [exact Hw | apply nodeOf_nodeFor].
  - intros k n. rewrite legacy_nodeMap_addNode_nodeFor, JsMapFacts.get_set.
    destruct (String.eqb_spec (Work.id w) k) as [<- | Hne]; [| apply Hdepths].
    intros H Hk. injection H as <-. cbn [nodeFor Node.depth].
    destruct (JsMap.get (Legacy.nodeMap st) (Work.id w)) as [e |] eqn:Ee;
      [| reflexivity].
    rewrite (Hdepths _ _ Ee Hk). reflexivity.
  - intros k n. rewrite legacy_nodeMap_addNode_nodeFor, JsMapFacts.get_set.
    destruct (String.eqb_spec (Work.id w) k) as [<- | Hne].
    + intros _ Hk. exists (linkKey cid (Work.id w) type).
      rewrite get_addLink, String.eqb_refl.
      destruct (JsMap.get (Legacy.linkMap st) (linkKey cid (Work.id w) type))
        as [old |] eqn:Eo.
      * exists old. split; [reflexivity |].
        destruct (Hlinks _ _ Eo) as (Hkey & Hsrc & _).
        unfold keyOfLink in Hkey. rewrite Hsrc in Hkey.
        apply linkKey_same_source in Hkey. symmetry. tauto.
      * eexists. split; reflexivity.
    + intros H Hk. destruct (Hlinked _ _ H Hk) as (key & link & Hget & Ht).
      exists key, link. split; [apply get_addLink_kept; exact Hget | exact Ht].
  - unfold addLink. destruct (JsMap.has _ _);
      [exact Hnd | apply JsMapFacts.NoDup_keys_set, Hnd].
  - intros k link. rewrite get_addLink.
    assert (Hkept : forall t, JsMap.get (Legacy.nodeMap st) t <> None ->
                              JsMap.get (Legacy.nodeMap
                                           (Legacy.addNode computeNodeSize st w
                                              (Engine.sideOf type) 1)) t <> None).
    { intros t Ht. rewrite legacy_nodeMap_addNode_nodeFor, JsMapFacts.get_set.
      destruct (String.eqb (Work.id w) t); [discriminate | exact Ht]. }
    destruct (String.eqb_spec (linkKey cid (Work.id w) type) k) as [<- | Hne].
    + destruct (JsMap.get (Legacy.linkMap st) _) as [old |] eqn:Eo.
      * intros H. injection H as <-. destruct (Hlinks _ _ Eo) as (Hk & Hs & Ht).
        auto.
      * intros H. injection H as <-. cbn. split; [reflexivity |].
        split; [reflexivity |].
        rewrite legacy_nodeMap_addNode_nodeFor, JsMapFacts.get_set_same. discriminate.
    + intros H. destruct (Hlinks _ _ H) as (Hk & Hs & Ht). auto.
Qed.

Lemma starStep_counts cid type st w :
  (List.length (Legacy.nodeMap (starStep cid type st w))
   <= S (List.length (Legacy.nodeMap st)))%nat
  /\ (List.length (Legacy.linkMap (starStep cid type st w))
      <= S (List.length (Legacy.linkMap st)))%nat.
Proof.
  unfold starStep. cbn [Legacy.addLinkTo Legacy.nodeMap Legacy.linkMap].
  rewrite legacy_linkMap_addNode, legacy_nodeMap_addNode_nodeFor. split.
  - apply JsMap_set_length.
  - unfold addLink. destruct (JsMap.has _ _); [lia | apply JsMap_set_length].
Qed.

Lemma addSide_is_fold cid type st works :
  Legacy.addSide computeNodeSize cid type (Engine.sideOf type) st works
  = fold_left (starStep cid type) works st.
Proof. reflexivity. Qed.

Lemma addSide_StarOk cid type works st :
  StarOk cid st -> Forall (Served upstream) works ->
  StarOk cid (fold_left (starStep cid type) works st)
  /\ (List.length (Legacy.nodeMap (fold_left (starStep cid type) works st))
      <= List.length (Legacy.nodeMap st) + List.length works)%nat
  /\ (List.length (Legacy.linkMap (fold_left (starStep cid type) works st))
      <= List.length (Legacy.linkMap st) + List.length works)%nat.
Proof.
  revert st. induction works as [| w works IH]; intros st Hst Hws; cbn [fold_left].
  - split; [exact Hst | cbn; lia].
  - inversion Hws as [| ? ? Hw Hrest]; subst.
    destruct (IH (starStep cid type st w) (starStep_StarOk _ _ _ _ Hst Hw) Hrest)
      as (Hok & Hn & Hl).
    destruct (starStep_counts cid type st w) as [Hn1 Hl1].
    split; [exact Hok |]. cbn [List.length]. lia.
Qed.

Lemma legacy_initial_StarOk centerWork :
  Served upstream centerWork ->
  StarOk (Work.id centerWork)
    (Legacy.addNode computeNodeSize
       {| Legacy.nodeMap := JsMap.empty; Legacy.linkMap := JsMap.empty |}
       centerWork center 0).
Proof.
  intros Hs.
  destruct (legacy_initial computeNodeSize centerWork) as [Hnodes _].
  constructor; rewrite ?legacy_linkMap_addNode, ?legacy_nodeMap_addNode_nodeFor;
    cbn [Legacy.nodeMap Legacy.linkMap JsMap.empty JsMap.get JsMap.set].
  - exact Hnodes.
  - intros k n. destruct (String.eqb (Work.id centerWork) k); [| discriminate].
    intros H. injection H as <-. exists centerWork.
    split; [exact Hs | apply nodeOf_nodeFor].
  - intros k n. destruct (String.eqb_spec (Work.id centerWork) k) as [<- | _];
      [| discriminate]. intros _ Hk. contradiction.
  - intros k n. destruct (String.eqb_spec (Work.id centerWork) k) as [<- | _];
      [| discriminate]. intros _ Hk. contradiction.
  - constructor.
  - intros k link. discriminate.
Qed.

Lemma In_legacy_sortByInfluence w works :
  In w (Legacy.sortByInfluence localeCompare works) -> In w works.
Proof. apply Permutation_in. apply jsSort_perm. Qed.

(** The store a returning run of [graph.js] lists its graph from. *)
Lemma legacy_star input requestedDepth requestedLimit g log :
  run (legacy input requestedDepth requestedLimit) = (Returned g, log) ->
  exists centerWork st,
    Legacy.Graph.nodes g = JsMap.values (Legacy.nodeMap st)
    /\ Legacy.Graph.links g = JsMap.values (Legacy.linkMap st)
    /\ Legacy.Meta.centerWorkId (Legacy.Graph.meta g) = Work.id centerWork
    /\ StarOk (Work.id centerWork) st
    /\ (List.length (Legacy.nodeMap st)
        <= 1 + 2 * Z.to_nat (Legacy.Meta.limit (Legacy.Graph.meta g)))%nat
    /\ (List.length (Legacy.linkMap st)
        <= 2 * Z.to_nat (Legacy.Meta.limit (Legacy.Graph.meta g)))%nat
    /\ 1 <= Legacy.Meta.limit (Legacy.Graph.meta g) <= 20.
Proof.
  unfold run, Legacy.buildGraph.
  destruct (OpenAlex.toOpenAlexId input) as [workId |]; [| discriminate].
  intros H. fetch_bind H as [cw |] log1 Hget H; [| discriminate].
  fetch_bind H as refs log2 Hrefs H. fetch_bind H as cites log3 Hcites H.
  fetch_ret H as E.
  set (limit := GraphParams.limit (parseGraphParams requestedDepth requestedLimit)) in *.
  set (sideLimit := Z.min Legacy.SIDE_LIMIT_CAP limit) in *.
  assert (Hl : 1 <= limit <= 30) by (apply clampInteger_range; lia).
  assert (Hsl : 1 <= sideLimit <= 20) by (unfold sideLimit, Legacy.SIDE_LIMIT_CAP; lia).
  assert (Hs : Served upstream cw) by (eapply getWorkById_served; exact Hget).
  apply getWorksByIds_served in Hrefs. apply getCitingWorks_served in Hcites.
  set (topReferences := firstn (Z.to_nat sideLimit)
                          (Legacy.sortByInfluence localeCompare refs)) in *.
  set (topCitations := firstn (Z.to_nat sideLimit)
                         (Legacy.sortByInfluence localeCompare cites)) in *.
  assert (Htr : Forall (Served upstream) topReferences).
  { rewrite Forall_forall in Hrefs |- *. intros w Hw.
    apply In_firstn, In_legacy_sortByInfluence in Hw. auto. }
  assert (Htc : Forall (Served upstream) topCitations).
  { rewrite Forall_forall in Hcites |- *. intros w Hw.
    apply In_firstn, In_legacy_sortByInfluence in Hw. auto. }
  assert (Hlr : (List.length topReferences <= Z.to_nat sideLimit)%nat)
    by (unfold topReferences; rewrite length_firstn; lia).
  assert (Hlc : (List.length topCitations <= Z.to_nat sideLimit)%nat)
    by (unfold topCitations; rewrite length_firstn; lia).
  set (st0 := Legacy.addNode computeNodeSize
                {| Legacy.nodeMap := JsMap.empty; Legacy.linkMap := JsMap.empty |}
                cw center 0) in *.
  change backward with (Engine.sideOf references).
  change forward with (Engine.sideOf cited_by).
  rewrite !addSide_is_fold.
  destruct (addSide_StarOk (Work.id cw) references topReferences st0
              (legacy_initial_StarOk cw Hs) Htr) as (Hok1 & Hn1 & Hk1).
  destruct (addSide_StarOk (Work.id cw) cited_by topCitations _ Hok1 Htc)
    as (Hok2 & Hn2 & Hk2).
  assert (Hn0 : List.length (Legacy.nodeMap st0) = 1%nat).
  { unfold st0. rewrite legacy_nodeMap_addNode_nodeFor. reflexivity. }
  assert (Hk0 : List.length (Legacy.linkMap st0) = 0%nat).
  { unfold st0. rewrite legacy_linkMap_addNode. reflexivity. }
  eexists cw, _. cbn [Legacy.Graph.nodes Legacy.Graph.links Legacy.Graph.meta
                       Legacy.Meta.centerWorkId Legacy.Meta.limit].
  split; [reflexivity |]. split; [reflexivity |]. split; [reflexivity |].
  split; [exact Hok2 |]. repeat split; lia.
Qed.

(** X9: the graph of [graph.js] is a star around the seed: every link
    starts at the centre and ends at a returned node, and every other node
    has depth 1, a side other than [center], and a link from the centre
    that ends at it. *)
Theorem legacy_graph_is_star input requestedDepth requestedLimit g log :
  run (legacy input requestedDepth requestedLimit) = (Returned g, log) ->
  (forall link, In link (Legacy.Graph.links g) ->
     Link.source link = Legacy.Meta.centerWorkId (Legacy.Graph.meta g)
     /\ exists n, In n (Legacy.Graph.nodes g) /\ Node.id n = Link.target link)
  /\ (forall n, In n (Legacy.Graph.nodes g) ->
        Node.id n <> Legacy.Meta.centerWorkId (Legacy.Graph.meta g) ->
        Node.depth n = 1 /\ Node.side n <> center
        /\ exists link, In link (Legacy.Graph.links g)
                        /\ Link.source link
                           = Legacy.Meta.centerWorkId (Legacy.Graph.meta g)
                        /\ Link.target link = Node.id n).
Proof.
  intros H. destruct (legacy_star _ _ _ _ _ H)
    as (cw & st & -> & -> & -> & [Hnodes _ Hdepths Hlinked Hnd Hlinks] & _).
  destruct Hnodes as [Hnnd Hkeyed Hcenter Hothers]. split.
  - intros link Hin. destruct (values_get _ _ Hnd Hin) as [k Hk].
    destruct (Hlinks _ _ Hk) as (_ & Hsrc & Ht). split; [exact Hsrc |].
    destruct (JsMap.get (Legacy.nodeMap st) (Link.target link)) as [n |] eqn:En;
      [| contradiction].
    exists n. split; [| eapply Hkeyed; exact En].
    apply JsMapFacts.In_values. exists (Link.target link).
    apply JsMapFacts.get_In. exact En.
  - intros n Hin Hne. destruct (values_get _ _ Hnnd Hin) as [k Hk].
    pose proof (Hkeyed _ _ Hk) as Hid. rewrite Hid in Hne.
    split; [eapply Hdepths; eassumption |].
    split; [eapply Hothers; eassumption |].
    destruct (Hlinked _ _ Hk Hne) as (key & link & Hget & Ht).
    exists link. split.
    + apply JsMapFacts.In_values. exists key. apply JsMapFacts.get_In. exact Hget.
    + destruct (Hlinks _ _ Hget) as (_ & Hsrc & _). rewrite Hid. auto.
Qed.

(** X10: the graph of [graph.js] holds at most [meta.limit] works on each
    side, and [meta.limit] is at most 20: no more than 40 links and 41
    nodes.  No two nodes share an id, no two links share source, target
    and type, and every node carries the fields of a record the provider
    served, as [normalizeWork] shaped it. *)
Theorem legacy_graph_bounded input requestedDepth requestedLimit g log :
  run (legacy input requestedDepth requestedLimit) = (Returned g, log) ->
  let limit := Legacy.Meta.limit (Legacy.Graph.meta g) in
  1 <= limit <= 20
  /\ Z.of_nat (List.length (Legacy.Graph.links g)) <= 2 * limit
  /\ Z.of_nat (List.length (Legacy.Graph.nodes g)) <= 1 + 2 * limit
  /\ NoDup (map Node.id (Legacy.Graph.nodes g))
  /\ NoDup (map linkTriple (Legacy.Graph.links g))
  /\ forall n, In n (Legacy.Graph.nodes g) ->
       exists raw w req results,
         upstream req = Results results /\ In raw results
         /\ OpenAlex.normalizeWork raw = Some w
         /\ wellFormedWork w
         /\ nodeOf computeNodeSize w n.
Proof.
  intros H. cbv zeta. destruct (legacy_star _ _ _ _ _ H)
    as (cw & st & Hn & Hk & _ & [Hnodes Hserved _ _ Hnd Hlinks] & Hcn & Hck & Hl).
  destruct Hnodes as [Hnnd Hkeyed _ _].
  rewrite Hn, Hk. unfold JsMap.values at 1 2. rewrite !length_map.
  split; [exact Hl |]. split; [lia |]. split; [lia |]. split; [| split].
  - apply keyed_values_NoDup; assumption.
  - apply (NoDup_map_inv (fun t => linkKey (fst (fst t)) (snd (fst t)) (snd t))).
    rewrite map_map. apply (keyed_values_NoDup keyOfLink); [exact Hnd |].
    intros k link Hget. symmetry. apply (Hlinks _ _ Hget).
  - intros n Hin. destruct (values_get _ _ Hnnd Hin) as [k Hget].
    destruct (Hserved _ _ Hget) as (w & Hw & Hof).
    pose proof (Served_wellFormed _ _ Hw) as Hwf.
    destruct Hw as (req & rs & raw & Hup & Hraw & Hnorm).
    exists raw, w, req, rs. auto 10.
Qed.
End LegacyShape.

Lemma legacy_graph_is_star_witness :
  (forall link, In link (Legacy.Graph.links Sample.legacyGraph) ->
     Link.source link = Legacy.Meta.centerWorkId (Legacy.Graph.meta Sample.legacyGraph)
     /\ exists n, In n (Legacy.Graph.nodes Sample.legacyGraph)
                  /\ Node.id n = Link.target link)
  /\ (forall n, In n (Legacy.Graph.nodes Sample.legacyGraph) ->
        Node.id n <> Legacy.Meta.centerWorkId (Legacy.Graph.meta Sample.legacyGraph) ->
        Node.depth n = 1 /\ Node.side n <> center
        /\ exists link, In link (Legacy.Graph.links Sample.legacyGraph)
                        /\ Link.source link
                           = Legacy.Meta.centerWorkId (Legacy.Graph.meta Sample.legacyGraph)
                        /\ Link.target link = Node.id n).
Proof.
  exact (legacy_graph_is_star _ _ _ _ _ _ _ _ Runs.legacy_run).
Defined.

Lemma legacy_graph_bounded_witness :
  let limit := Legacy.Meta.limit (Legacy.Graph.meta Sample.legacyGraph) in
  1 <= limit <= 20
  /\ Z.of_nat (List.length (Legacy.Graph.links Sample.legacyGraph)) <= 2 * limit
  /\ Z.of_nat (List.length (Legacy.Graph.nodes Sample.legacyGraph)) <= 1 + 2 * limit
  /\ NoDup (map Node.id (Legacy.Graph.nodes Sample.legacyGraph))
  /\ NoDup (map linkTriple (Legacy.Graph.links Sample.legacyGraph))
  /\ forall n, In n (Legacy.Graph.nodes Sample.legacyGraph) ->
       exists raw w req results,
         Sample.upstream req = Results results /\ In raw results
         /\ OpenAlex.normalizeWork raw = Some w
         /\ wellFormedWork w
         /\ nodeOf Sample.computeNodeSize w n.
Proof.
  exact (legacy_graph_bounded _ _ _ _ _ _ _ _ Runs.legacy_run).
Defined.

(* ===================================================================== *)
(** ** The requests behind a graph *)
(* ===================================================================== *)

Section Traffic.
Variable localeCompare : string -> string -> JsNumber.
Variable computeNodeSize : Z -> Z.
Variable upstream : Request -> Response.

Local Abbreviation legacy := (Legacy.buildGraph localeCompare computeNodeSize upstream).

(** X11: a returning run of [graph.js] has sent, in this order, the lookup
    of the seed, the batches of the seed's references (each reference
    once, at most 40 to a request), and one request for the works that
    cite it, with [per-page] set to the limit it reports; the last one is
    left out when the id of the seed's record is not an identifier. *)
Theorem legacy_requests input requestedDepth requestedLimit g log :
  run (legacy input requestedDepth requestedLimit) = (Returned g, log) ->
  exists workId centerWork chunks,
    OpenAlex.toOpenAlexId input = Some workId
    /\ Legacy.Meta.centerWorkId (Legacy.Graph.meta g) = Work.id centerWork
    /\ log = FilterOpenAlexId [workId] 1
             :: map (fun chunk => FilterOpenAlexId chunk (List.length chunk)) chunks
             ++ match OpenAlex.normalizeId (Work.id centerWork) with
                | Some n => [FilterCites n (Legacy.Meta.limit (Legacy.Graph.meta g)) 1]
                | None => []
                end
    /\ Forall (fun chunk => (1 <= List.length chunk <= 40)%nat) chunks
    /\ NoDup (concat chunks)
    /\ (forall n, In n (concat chunks) <->
                  exists id, In id (Work.referenced_works centerWork)
                             /\ OpenAlex.normalizeId id = Some n).
Proof.
  unfold run, Legacy.buildGraph.
  destruct (OpenAlex.toOpenAlexId input) as [workId |] eqn:Hid; [| discriminate].
  rewrite (getWorkById_normalized upstream _ _ Hid). intros H.
  fetch_bind H as found log1 Hget H.
  fetch_bind Hget as results log0 Hreq Hget.
  assert (Hlog0 : log0 = [FilterOpenAlexId [workId] 1]).
  { unfold OpenAlex.requestOpenAlex in Hreq.
    destruct (upstream _); injection Hreq as _ <-; reflexivity. }
  assert (Hlog1 : log1 = log0).
  { destruct results; fetch_ret Hget as E; reflexivity. }
  destruct found as [cw |]; [| discriminate].
  fetch_bind H as refs log2 Hrefs H. fetch_bind H as cites log3 Hcites H.
  fetch_ret H as E.
  apply getWorksByIds_returned in Hrefs. cbv zeta in Hrefs.
  destruct Hrefs as [Hlog2 _].
  destruct (normalizedIdsOf_props (Work.referenced_works cw)) as (Hnd & Hin & _).
  destruct (chunkArray_props 40 ltac:(lia) _ (normalizedIdsOf (Work.referenced_works cw))
              (Nat.le_refl _)) as (Hcat & Hall & _ & _).
  exists workId, cw,
    (OpenAlex.chunkArray (List.length (normalizedIdsOf (Work.referenced_works cw)))
       (normalizedIdsOf (Work.referenced_works cw)) 40).
  rewrite Hcat. cbn [Legacy.Graph.meta Legacy.Meta.centerWorkId Legacy.Meta.limit].
  split; [reflexivity |]. split; [reflexivity |].
  split; [| split; [exact Hall | split; [exact Hnd | exact Hin]]].
  unfold OpenAlex.getCitingWorks in Hcites.
  destruct (OpenAlex.normalizeId (Work.id cw)) as [n |].
  - fetch_bind Hcites as rs log4 Hreq2 Hcites. fetch_ret Hcites as E2.
    unfold OpenAlex.requestOpenAlex in Hreq2.
    destruct (upstream _); [discriminate |]. injection Hreq2 as _ <-.
    subst. reflexivity.
  - fetch_ret Hcites as E2. subst. rewrite ?app_nil_r. reflexivity.
Qed.

(** X12: looking up the references of one parent costs the engine at most
    five requests: only the first 200 referenced ids are candidates, each
    is asked for once, 40 to a request.  No more children come back than
    the limit, and a parent without references costs nothing. *)
Theorem getTopReferences_requests parentWork sideLimit log children log' :
  Engine.getTopReferences localeCompare upstream parentWork sideLimit log
    = (Returned children, log') ->
  exists chunks,
    log' = log ++ map (fun chunk => FilterOpenAlexId chunk (List.length chunk)) chunks
    /\ (List.length chunks <= 5)%nat
    /\ Forall (fun chunk => (1 <= List.length chunk <= 40)%nat) chunks
    /\ NoDup (concat chunks)
    /\ (forall n, In n (concat chunks) <->
                  exists id, In id (firstn 200 (Work.referenced_works parentWork))
                             /\ OpenAlex.normalizeId id = Some n)
    /\ (List.length children <= sideLimit)%nat
    /\ (Work.referenced_works parentWork = [] -> chunks = [] /\ children = []).
Proof.
  unfold Engine.getTopReferences. cbv zeta.
  destruct (Work.referenced_works parentWork) as [| r refs] eqn:Erefs; intros H.
  - fetch_ret H as E. exists []. cbn [map concat List.length]. rewrite app_nil_r.
    split; [reflexivity |]. split; [lia |]. split; [constructor |].
    split; [constructor |]. split; [| split; [cbn; lia | auto]].
    intros n. cbn. split; [intros [] | intros (id & [] & _)].
  - fetch_bind H as works log1 Hfetch H. fetch_ret H as E.
    apply getWorksByIds_returned in Hfetch. cbv zeta in Hfetch.
    destruct Hfetch as [Hlog _].
    set (candidates := firstn Engine.REFERENCE_CANDIDATE_CAP (r :: refs)) in *.
    destruct (normalizedIdsOf_props candidates) as (Hnd & Hin & Hlen).
    destruct (chunkArray_props 40 ltac:(lia) _ (normalizedIdsOf candidates)
                (Nat.le_refl _)) as (Hcat & Hall & _ & Hcount).
    exists (OpenAlex.chunkArray (List.length (normalizedIdsOf candidates))
              (normalizedIdsOf candidates) 40).
    rewrite Hcat. split; [exact Hlog |]. split.
    + rewrite Hcount.
      assert (Hc : (List.length candidates <= 200)%nat).
      { unfold candidates, Engine.REFERENCE_CANDIDATE_CAP. rewrite length_firstn. lia. }
      transitivity ((200 + 40 - 1) / 40)%nat; [| reflexivity].
      apply Nat.Div0.div_le_mono. lia.
    + split; [exact Hall |]. split; [exact Hnd |]. split; [exact Hin |].
      split; [rewrite length_firstn; lia | discriminate].
Qed.
End Traffic.

Lemma legacy_requests_witness :
  exists workId centerWork chunks,
    OpenAlex.toOpenAlexId "W1000" = Some workId
    /\ Legacy.Meta.centerWorkId (Legacy.Graph.meta Sample.legacyGraph) = Work.id centerWork
    /\ snd Sample.legacyOutcome
       = FilterOpenAlexId [workId] 1
         :: map (fun chunk => FilterOpenAlexId chunk (List.length chunk)) chunks
         ++ match OpenAlex.normalizeId (Work.id centerWork) with
            | Some n =>
                [FilterCites n (Legacy.Meta.limit (Legacy.Graph.meta Sample.legacyGraph)) 1]
            | None => []
            end
    /\ Forall (fun chunk => (1 <= List.length chunk <= 40)%nat) chunks
    /\ NoDup (concat chunks)
    /\ (forall n, In n (concat chunks) <->
                  exists id, In id (Work.referenced_works centerWork)
                             /\ OpenAlex.normalizeId id = Some n).
Proof.
  exact (legacy_requests _ _ _ _ _ _ _ _ Runs.legacy_run).
Defined.

Lemma getTopReferences_requests_witness :
  exists chunks,
    snd (run (Engine.getTopReferences Sample.localeCompare Sample.upstream Sample.seed 2))
    = [] ++ map (fun chunk => FilterOpenAlexId chunk (List.length chunk)) chunks
    /\ (List.length chunks <= 5)%nat
    /\ Forall (fun chunk => (1 <= List.length chunk <= 40)%nat) chunks
    /\ NoDup (concat chunks)
    /\ (forall n, In n (concat chunks) <->
                  exists id, In id (firstn 200 (Work.referenced_works Sample.seed))
                             /\ OpenAlex.normalizeId id = Some n)
    /\ (List.length Sample.topReferences <= 2)%nat
    /\ (Work.referenced_works Sample.seed = [] -> chunks = [] /\ Sample.topReferences = []).
Proof.
  apply (getTopReferences_requests Sample.localeCompare Sample.upstream Sample.seed 2 []).
  reflexivity.
Defined.

(* ===================================================================== *)
(** ** Rankings: the citing side, and the order of [graph.js] *)
(* ===================================================================== *)

(** A year, with [null] below every year ([-Infinity] in the code). *)
Definition yearBelow (a b : option Z) : Prop :=
  match a, b with
  | None, Some _ => True
  | Some x, Some y => x < y
  | _, None => False
  end.

Section CitingSide.
Variable localeCompare : string -> string -> JsNumber.
Variable upstream : Request -> Response.

(** The ranking of [graph.js]: more citations first; among equal counts
    the later year first, a work without a year last; among those, ids in
    collation order. *)
Definition legacyRanksBefore (a b : Work.t) : Prop :=
  Work.cited_by_count a > Work.cited_by_count b
  \/ (Work.cited_by_count a = Work.cited_by_count b
      /\ (yearBelow (Work.year b) (Work.year a)
          \/ (Work.year a = Work.year b
              /\ idMayPrecede localeCompare (Work.id a) (Work.id b)))).

Lemma mayPrecede_legacyRanksBefore a b :
  mayPrecede (Legacy.influenceOrder localeCompare) a b <-> legacyRanksBefore a b.
Proof.
  unfold mayPrecede, legacyRanksBefore, Legacy.influenceOrder, idMayPrecede.
  cbv zeta. cbn [jsNumNeq jsSub isNegative].
  destruct (Z.eqb_spec (Work.cited_by_count a) (Work.cited_by_count b)) as [E | Hne];
    cbn [negb jsNumNeq jsSub isNegative yearOrNegInfinity yearBelow].
  - destruct (Work.year a) as [ya |], (Work.year b) as [yb |];
      cbn [negb jsNumNeq jsSub isNegative yearOrNegInfinity yearBelow].
    + destruct (Z.eqb_spec ya yb) as [-> | Hy]; cbn [negb jsNumNeq jsSub isNegative yearOrNegInfinity yearBelow].
      * split; [intros H; right; split; [exact E | right; auto] |].
        intros [H | [_ [H | [_ H]]]]; [lia | lia | exact H].
      * rewrite Z.ltb_ge.
        split; [intros H; right; split; [exact E | left; lia] |].
        intros [H | [_ [H | [H _]]]]; [lia | lia | congruence].
    + split; [intros _; right; split; [exact E | left; exact I] | reflexivity].
    + split; [discriminate |].
      intros [H | [_ [[] | [H _]]]]; [lia | discriminate H].
    + split; [intros H; right; split; [exact E | right; auto] |].
      intros [H | [_ [[] | [_ H]]]]; [lia | exact H].
  - rewrite Z.ltb_ge. split; [intros H; left; lia | intros [H | [H _]]; lia].
Qed.

Hypothesis localeCompare_asym :
  forall a b, isNegative (localeCompare a b) = true -> isNegative (localeCompare b a) = false.
Hypothesis localeCompare_trans :
  forall a b c, idMayPrecede localeCompare a b -> idMayPrecede localeCompare b c ->
               idMayPrecede localeCompare a c.

Lemma legacy_influenceOrder_asym a b :
  isNegative (Legacy.influenceOrder localeCompare a b) = true ->
  isNegative (Legacy.influenceOrder localeCompare b a) = false.
Proof.
  intros H. apply mayPrecede_legacyRanksBefore.
  destruct (isNegative (Legacy.influenceOrder localeCompare b a)) eqn:E;
    [| apply mayPrecede_legacyRanksBefore; exact E].
  exfalso. revert H E.
  unfold Legacy.influenceOrder. cbv zeta. cbn [jsNumNeq jsSub isNegative].
  rewrite (Z.eqb_sym (Work.cited_by_count a) (Work.cited_by_count b)).
  destruct (Z.eqb_spec (Work.cited_by_count b) (Work.cited_by_count a)) as [Ec | Hne];
    cbn [negb jsNumNeq jsSub isNegative yearOrNegInfinity yearBelow].
  - destruct (Work.year a) as [ya |], (Work.year b) as [yb |];
      cbn [negb jsNumNeq jsSub isNegative yearOrNegInfinity yearBelow]; try discriminate.
    + rewrite (Z.eqb_sym ya yb).
      destruct (Z.eqb_spec yb ya) as [-> | Hy]; cbn [negb jsNumNeq jsSub isNegative yearOrNegInfinity yearBelow].
      * intros H1 H2. apply localeCompare_asym in H1. congruence.
      * rewrite !Z.ltb_lt. lia.
    + intros H1 H2. apply localeCompare_asym in H1. congruence.
  - rewrite !Z.ltb_lt. lia.
Qed.

Lemma yearBelow_trans a b c : yearBelow a b -> yearBelow b c -> yearBelow a c.
Proof. destruct a, b, c; cbn; try tauto; lia. Qed.

Lemma legacy_influenceOrder_trans a b c :
  mayPrecede (Legacy.influenceOrder localeCompare) a b ->
  mayPrecede (Legacy.influenceOrder localeCompare) b c ->
  mayPrecede (Legacy.influenceOrder localeCompare) a c.
Proof.
  rewrite !mayPrecede_legacyRanksBefore. unfold legacyRanksBefore.
  intros [H1 | [H1 Y1]] [H2 | [H2 Y2]]; try (left; lia).
  right. split; [lia |].
  destruct Y1 as [Y1 | [Y1 I1]], Y2 as [Y2 | [Y2 I2]].
  - left. eapply yearBelow_trans; eassumption.
  - left. rewrite <- Y2. exact Y1.
  - left. rewrite Y1. exact Y2.
  - right. split; [congruence |]. eapply localeCompare_trans; eassumption.
Qed.

(** X14: [sortByInfluence] of [graph.js] rearranges its input and leaves
    it ranked: citation count first, highest first; among equal counts the
    later year first and a work without a year last; among equal years,
    ids in collation order. *)
Theorem legacy_sortByInfluence_ranked works :
  Permutation (Legacy.sortByInfluence localeCompare works) works
  /\ StronglySorted legacyRanksBefore (Legacy.sortByInfluence localeCompare works).
Proof.
  split; [apply jsSort_perm |].
  assert (H : StronglySorted (mayPrecede (Legacy.influenceOrder localeCompare))
                (Legacy.sortByInfluence localeCompare works)).
  { apply jsSort_sorted;
      [exact legacy_influenceOrder_asym | exact legacy_influenceOrder_trans]. }
  induction H as [| x l _ IH Hx]; constructor; [exact IH |].
  rewrite Forall_forall in Hx |- *. intros y Hy.
  apply mayPrecede_legacyRanksBefore, Hx, Hy.
Qed.

(** X13: on the citing side the engine sends one request for a parent,
    asking for three times the limit and at most 100 works, and keeps the
    first [sideLimit] of the normalized answers ranked by citation count,
    highest first, then by id in collation order.  A parent whose id is
    not an identifier costs nothing and has no children. *)
Theorem getTopCitations_ranked parentId sideLimit log children log' :
  Engine.getTopCitations localeCompare upstream parentId sideLimit log
    = (Returned children, log') ->
  match OpenAlex.normalizeId parentId with
  | None => children = [] /\ log' = log
  | Some n =>
      exists results ranked,
        log' = log ++ [FilterCites n (Z.min 100 (Z.of_nat sideLimit * 3)) 1]
        /\ upstream (FilterCites n (Z.min 100 (Z.of_nat sideLimit * 3)) 1)
           = Results results
        /\ children = firstn sideLimit ranked
        /\ Permutation ranked (filterDefined (map OpenAlex.normalizeWork results))
        /\ StronglySorted (ranksBefore localeCompare) ranked
  end.
Proof.
  unfold Engine.getTopCitations, OpenAlex.getCitingWorks. intros H.
  fetch_bind H as rows log1 Hrows H. fetch_ret H as E.
  destruct (OpenAlex.normalizeId parentId) as [n |].
  - fetch_bind Hrows as results log2 Hreq Hrows. fetch_ret Hrows as E2.
    unfold OpenAlex.requestOpenAlex in Hreq.
    destruct (upstream _) as [st body | rs] eqn:Eup; [discriminate |].
    injection Hreq as <- <-.
    destruct (sortByInfluence_ranked localeCompare localeCompare_asym
                localeCompare_trans (filterDefined (map OpenAlex.normalizeWork rs)))
      as [Hperm Hsorted].
    exists rs, (Engine.sortByInfluence localeCompare
                  (filterDefined (map OpenAlex.normalizeWork rs))).
    split; [reflexivity |]. split; [reflexivity |]. split; [reflexivity |].
    split; [exact Hperm | exact Hsorted].
  - fetch_ret Hrows as E2. split; [| reflexivity].
    cbn [Engine.sortByInfluence jsSort]. apply firstn_nil.
Qed.
End CitingSide.

Lemma legacy_sortByInfluence_ranked_witness :
  Permutation
    (Legacy.sortByInfluence Sample.localeCompare
       [Sample.workOf Sample.A 1990 50; Sample.workOf Sample.B 1995 50])
    [Sample.workOf Sample.A 1990 50; Sample.workOf Sample.B 1995 50]
  /\ StronglySorted (legacyRanksBefore Sample.localeCompare)
       (Legacy.sortByInfluence Sample.localeCompare
          [Sample.workOf Sample.A 1990 50; Sample.workOf Sample.B 1995 50]).
Proof.
  exact (legacy_sortByInfluence_ranked Sample.localeCompare
           Runs.localeCompare_asym Runs.localeCompare_trans
           [Sample.workOf Sample.A 1990 50; Sample.workOf Sample.B 1995 50]).
Defined.

Lemma getTopCitations_ranked_witness :
  exists results ranked,
    snd (run (Engine.getTopCitations Sample.localeCompare Sample.upstream Sample.C 1))
    = [] ++ [FilterCites Sample.C (Z.min 100 (Z.of_nat 1 * 3)) 1]
    /\ Sample.upstream (FilterCites Sample.C (Z.min 100 (Z.of_nat 1 * 3)) 1)
       = Results results
    /\ match fst (run (Engine.getTopCitations Sample.localeCompare Sample.upstream
                         Sample.C 1)) with
       | Returned children => children
       | Thrown _ => []
       end = firstn 1 ranked
    /\ Permutation ranked (filterDefined (map OpenAlex.normalizeWork results))
    /\ StronglySorted (ranksBefore Sample.localeCompare) ranked.
Proof.
  exact (getTopCitations_ranked Sample.localeCompare Sample.upstream
           Runs.localeCompare_asym Runs.localeCompare_trans Sample.C 1 [] _ _ eq_refl).
Defined.

(* ===================================================================== *)
(** ** The route handler: what is answered, and at what cost *)
(* ===================================================================== *)

Section RouteFacts.
Variable localeCompare : string -> string -> JsNumber.
Variable computeNodeSize : Z -> Z.
Variable upstream : Request -> Response.

Local Abbreviation engine := (Engine.buildGraph localeCompare computeNodeSize upstream).
Local Abbreviation legacy := (Legacy.buildGraph localeCompare computeNodeSize upstream).

(** What a [buildGraph] owes the handler. *)
Record Classified {G : Type} (build : string -> JsValue -> JsValue -> Fetch G) : Prop := {
  reparsed : forall input requestedDepth requestedLimit,
    let params := parseGraphParams requestedDepth requestedLimit in
    build input (JsNum (GraphParams.depth params)) (JsNum (GraphParams.limit params))
    = build input requestedDepth requestedLimit;
  refused : forall input requestedDepth requestedLimit,
    OpenAlex.toOpenAlexId input = None ->
    run (build input requestedDepth requestedLimit) = (Thrown invalidWorkId, []);
  thrown : forall input requestedDepth requestedLimit e log,
    run (build input requestedDepth requestedLimit) = (Thrown e, log) ->
    (e = invalidWorkId /\ log = [] /\ OpenAlex.toOpenAlexId input = None)
    \/ (e = centerNotFound
        /\ exists workId, OpenAlex.toOpenAlexId input = Some workId
                          /\ log = [FilterOpenAlexId [workId] 1])
    \/ upstreamFailure upstream e log;
  returned : forall input requestedDepth requestedLimit g log,
    run (build input requestedDepth requestedLimit) = (Returned g, log) ->
    exists workId, OpenAlex.toOpenAlexId input = Some workId
}.

Lemma seed_thrown {A : Type} workId (k : Work.t -> Fetch A) e log :
  OpenAlex.normalizeId workId = Some workId ->
  (forall w, OnlyUpstream upstream (k w)) ->
  (found <- OpenAlex.getWorkById upstream workId ;;
   match found with
   | None => throw centerNotFound
   | Some centerWork => k centerWork
   end) [] = (Thrown e, log) ->
  (e = centerNotFound /\ log = [FilterOpenAlexId [workId] 1])
  \/ upstreamFailure upstream e log.
Proof.
  intros Hid Hk Hrun. apply bind_thrown in Hrun.
  destruct Hrun as [Hrun | (found & log1 & Hget & Hrun)].
  - right. exact (OnlyUpstream_getWorkById upstream workId _ _ _ Hrun).
  - destruct found as [cw |]; [right; exact (Hk _ _ _ _ Hrun) |].
    left. unfold throw in Hrun. inversion Hrun; subst. split; [reflexivity |].
    unfold OpenAlex.getWorkById in Hget. rewrite Hid in Hget.
    unfold bind, OpenAlex.requestOpenAlex in Hget.
    destruct (upstream (FilterOpenAlexId [workId] 1)); [discriminate |].
    destruct results; unfold ret in Hget; inversion Hget; reflexivity.
Qed.

Lemma engine_classified schedule : Classified (engine schedule).
Proof.
  constructor.
  - intros input rd rl. cbv zeta. unfold Engine.buildGraph.
    pose proof (parseGraphParams_idempotent rd rl) as Hp. cbv zeta in Hp.
    rewrite Hp. reflexivity.
  - intros input rd rl H. unfold run, Engine.buildGraph. rewrite H. reflexivity.
  - intros input rd rl e log H. unfold run, Engine.buildGraph in H.
    destruct (OpenAlex.toOpenAlexId input) as [workId |] eqn:Hid.
    + right. apply seed_thrown in H.
      * destruct H as [[-> ->] | H]; [left; eauto | right; exact H].
      * eapply NormalizeFacts.normalizeId_idempotent. exact Hid.
      * intros w. apply OnlyUpstream_bind;
          [apply OnlyUpstream_expandBothSides | intros st; apply OnlyUpstream_ret].
    + left. unfold throw in H. inversion H; subst. auto.
  - intros input rd rl g log H. apply engine_returned in H.
    destruct H as (workId & _ & _ & _ & Hid & _). eauto.
Qed.

Lemma legacy_classified : Classified legacy.
Proof.
  constructor.
  - intros input rd rl. cbv zeta. unfold Legacy.buildGraph.
    pose proof (parseGraphParams_idempotent rd rl) as Hp. cbv zeta in Hp.
    rewrite Hp. reflexivity.
  - intros input rd rl H. unfold run, Legacy.buildGraph. rewrite H. reflexivity.
  - intros input rd rl e log H. unfold run, Legacy.buildGraph in H.
    destruct (OpenAlex.toOpenAlexId input) as [workId |] eqn:Hid.
    + right. apply seed_thrown in H.
      * destruct H as [[-> ->] | H]; [left; eauto | right; exact H].
      * eapply NormalizeFacts.normalizeId_idempotent. exact Hid.
      * intros w.
        apply OnlyUpstream_bind; [apply OnlyUpstream_getWorksByIds | intros refs].
        apply OnlyUpstream_bind; [apply OnlyUpstream_getCitingWorks | intros cites].
        apply OnlyUpstream_ret.
    + left. unfold throw in H. inversion H; subst. auto.
  - intros input rd rl g log H. unfold run, Legacy.buildGraph in H.
    destruct (OpenAlex.toOpenAlexId input) as [workId |]; [eauto | discriminate].
Qed.

(** What the handler answers to a request for [/graph]. *)
Definition Answered {G : Type} (build : string -> JsValue -> JsValue -> Fetch G)
    (workIdParam depthParam limitParam : option string) : Prop :=
  let workId := Route.queryText workIdParam in
  let reply := fst (Route.graphHandler build workIdParam depthParam limitParam []) in
  let log := snd (Route.graphHandler build workIdParam depthParam limitParam []) in
  (Route.status reply = 200 \/ Route.status reply = 400
   \/ Route.status reply = 404 \/ Route.status reply = 502)
  /\ (Route.status reply = 400 <-> OpenAlex.toOpenAlexId workId = None)
  /\ (Route.status reply = 400 -> log = [])
  /\ (Route.status reply = 404 ->
      Route.body reply = Route.ErrorBody (Error.message centerNotFound)
      /\ exists id, OpenAlex.toOpenAlexId workId = Some id
                    /\ log = [FilterOpenAlexId [id] 1])
  /\ (Route.status reply = 502 ->
      exists e, upstreamFailure upstream e log
                /\ Route.body reply
                   = Route.ErrorBody (orElse (Error.message e) "Graph request failed"))
  /\ (Route.status reply = 200 ->
      exists g, Route.body reply = Route.GraphBody g
                /\ run (build workId (Route.queryValue depthParam)
                          (Route.queryValue limitParam)) = (Returned g, log)).

Lemma normalizeId_empty : OpenAlex.toOpenAlexId EmptyString = None.
Proof. reflexivity. Qed.

Lemma Classified_Answered {G : Type} (build : string -> JsValue -> JsValue -> Fetch G)
    workIdParam depthParam limitParam :
  Classified build -> Answered build workIdParam depthParam limitParam.
Proof.
  intros [Hre Href Hth Hret]. unfold Answered, Route.graphHandler. cbv zeta.
  set (workId := Route.queryText workIdParam).
  destruct (nonEmpty workId) eqn:Ene; cbn [negb].
  2:{ assert (Hw : workId = EmptyString) by (destruct workId; [reflexivity | discriminate]).
      rewrite Hw. cbn [fst snd Route.status Route.body].
      split; [auto |]. split; [split; [intros _; reflexivity | reflexivity] |].
      split; [reflexivity |]. repeat split; intros; lia. }
  specialize (Hre workId (Route.queryValue depthParam) (Route.queryValue limitParam)).
  cbv zeta in Hre. rewrite Hre.
  specialize (Href workId (Route.queryValue depthParam) (Route.queryValue limitParam)).
  specialize (Hth workId (Route.queryValue depthParam) (Route.queryValue limitParam)).
  specialize (Hret workId (Route.queryValue depthParam) (Route.queryValue limitParam)).
  unfold run in *.
  destruct (build workId (Route.queryValue depthParam) (Route.queryValue limitParam) [])
    as [[g | e] log] eqn:Erun.
  - destruct (Hret g log eq_refl) as [id Hid].
    cbn [fst snd Route.status Route.body].
    split; [auto |]. split; [split; [discriminate | congruence] |].
    split; [discriminate |]. split; [discriminate |]. split; [discriminate |].
    intros _. exists g. auto.
  - destruct (Hth e log eq_refl) as [(-> & -> & Hid) | [(-> & id & Hid & ->) | Hup]].
    + change (Error.cause invalidWorkId) with (Some "BAD_WORK_ID"). cbv iota.
      rewrite String.eqb_refl. cbn [fst snd Route.status Route.body].
      split; [auto |]. split; [split; [intros _; exact Hid | reflexivity] |].
      split; [reflexivity |]. repeat split; intros; lia.
    + change (Error.cause centerNotFound) with (Some "NOT_FOUND"). cbv iota.
      change (String.eqb "NOT_FOUND" "BAD_WORK_ID") with false.
      rewrite String.eqb_refl. cbn [fst snd Route.status Route.body].
      split; [auto |]. split; [split; [discriminate | congruence] |].
      split; [discriminate |]. split; [| split; discriminate].
      intros _. split; [reflexivity |]. exists id. auto.
    + destruct (Hup) as [Hcause _]. rewrite Hcause.
      cbn [fst snd Route.status Route.body].
      assert (Hsome : OpenAlex.toOpenAlexId workId <> None).
      { intros Hnone. pose proof (Href Hnone) as E0. injection E0 as E0 _.
        rewrite E0 in Hcause. discriminate Hcause. }
      split; [auto |]. split; [split; [discriminate | intros H; contradiction] |].
      split; [discriminate |]. split; [discriminate |].
      split; [| discriminate]. intros _. exists e. auto.
Qed.

(** X15: the handler of [/graph] answers every request with 200, 400, 404
    or 502, whichever [buildGraph] the loader picked.  It answers 400
    exactly when the trimmed [workId] parameter holds no identifier (an
    absent or blank one included), and then nothing was sent to the
    provider; 404 after the one lookup of the seed; 502 only after a
    request the provider refused; and with 200 it sends the graph
    [buildGraph] gives for the raw [depth] and [limit] parameters: parsing
    them in the handler and again in [buildGraph] changes nothing. *)
Theorem graphHandler_answers schedule workIdParam depthParam limitParam :
  Answered (engine schedule) workIdParam depthParam limitParam
  /\ Answered legacy workIdParam depthParam limitParam.
Proof.
  split; apply Classified_Answered; [apply engine_classified | apply legacy_classified].
Qed.
End RouteFacts.

(* ===================================================================== *)
(** ** [normalizeDoi] *)
(* ===================================================================== *)

(** A property of every code unit of a string. *)
Definition allChars (P : ascii -> bool) (s : string) : bool :=
  forallb P (list_ascii_of_string s).

Module DoiFacts.
Import Resolve.

Definition notDoiStop (c : ascii) : bool := negb (isDoiStop c).
Definition notWhiteSpace (c : ascii) : bool := negb (isWhiteSpace c).
Definition isLowered (c : ascii) : bool := Ascii.eqb (toLowerChar c) c.

Definition startsWithStop (s : string) : bool :=
  match s with String c _ => isDoiStop c | EmptyString => true end.

Lemma allChars_cons P c r : allChars P (String c r) = P c && allChars P r.
Proof. reflexivity. Qed.

Lemma toLowerChar_props c :
  isDoiStop (toLowerChar c) = isDoiStop c
  /\ toLowerChar (toLowerChar c) = toLowerChar c.
Proof.
  destruct c as [[] [] [] [] [] [] [] []]; split; reflexivity.
Qed.

Lemma notDoiStop_notWhiteSpace c : notDoiStop c = true -> isWhiteSpace c = false.
Proof.
  unfold notDoiStop, isDoiStop. destruct (isWhiteSpace c); [discriminate | reflexivity].
Qed.

Lemma takeDoiChars_solid s : allChars notDoiStop (takeDoiChars s) = true.
Proof.
  induction s as [| c r IH]; cbn [takeDoiChars]; [reflexivity |].
  destruct (isDoiStop c) eqn:E; [reflexivity |].
  rewrite allChars_cons, IH. unfold notDoiStop. rewrite E. reflexivity.
Qed.

Lemma takeDoiChars_app s post :
  allChars notDoiStop s = true -> startsWithStop post = true ->
  takeDoiChars (s ++ post) = s.
Proof.
  intros Hs Hpost. induction s as [| c r IH]; cbn [String.append takeDoiChars].
  - destruct post as [| x post]; [reflexivity |]. cbn in Hpost |- *.
    rewrite Hpost. reflexivity.
  - rewrite allChars_cons in Hs. apply andb_true_iff in Hs. destruct Hs as [Hc Hr].
    unfold notDoiStop in Hc. apply negb_true_iff in Hc. rewrite Hc, IH by exact Hr.
    reflexivity.
Qed.

Lemma takeDoiChars_all s : allChars notDoiStop s = true -> takeDoiChars s = s.
Proof.
  intros Hs. rewrite <- (IdFacts.append_empty_r s) at 1.
  apply takeDoiChars_app; [exact Hs | reflexivity].
Qed.

Lemma toLowerCase_solid s :
  allChars notDoiStop s = true -> allChars notDoiStop (toLowerCase s) = true.
Proof.
  induction s as [| c r IH]; cbn [toLowerCase]; [reflexivity |].
  rewrite !allChars_cons. intros H. apply andb_true_iff in H. destruct H as [Hc Hr].
  rewrite IH by exact Hr. unfold notDoiStop in *.
  rewrite (proj1 (toLowerChar_props c)), Hc. reflexivity.
Qed.

Lemma toLowerCase_lowered s : allChars isLowered (toLowerCase s) = true.
Proof.
  induction s as [| c r IH]; cbn [toLowerCase]; [reflexivity |].
  rewrite allChars_cons, IH. unfold isLowered.
  rewrite (proj2 (toLowerChar_props c)), Ascii.eqb_refl. reflexivity.
Qed.

Lemma toLowerCase_fixed s : allChars isLowered s = true -> toLowerCase s = s.
Proof.
  induction s as [| c r IH]; cbn [toLowerCase]; [reflexivity |].
  rewrite allChars_cons. intros H. apply andb_true_iff in H. destruct H as [Hc Hr].
  unfold isLowered in Hc. apply Ascii.eqb_eq in Hc. rewrite Hc, IH by exact Hr.
  reflexivity.
Qed.

Lemma toLowerCase_nonEmpty s : nonEmpty (toLowerCase s) = nonEmpty s.
Proof. destruct s; reflexivity. Qed.

(** What the pattern of a DOI matches: [10.] and a run without white
    space, [?] or [#]. *)
Lemma matchDoiBody_shape s m :
  matchDoiBody s = Some m ->
  exists suffix, m = ("10." ++ suffix)%string /\ nonEmpty suffix = true
                 /\ allChars notDoiStop suffix = true.
Proof.
  unfold matchDoiBody.
  destruct s as [| c1 [| c2 [| c3 r]]]; try discriminate;
    try (destruct c1 as [[] [] [] [] [] [] [] []]; discriminate).
  - destruct c1 as [[] [] [] [] [] [] [] []]; try discriminate.
    destruct c2 as [[] [] [] [] [] [] [] []]; discriminate.
  - destruct c1 as [[] [] [] [] [] [] [] []]; try discriminate.
    destruct c2 as [[] [] [] [] [] [] [] []]; try discriminate.
    destruct c3 as [[] [] [] [] [] [] [] []]; try discriminate.
    pose proof (takeDoiChars_solid r) as Hsolid.
    destruct (takeDoiChars r) as [| x suffix]; [discriminate |].
    intros H. injection H as <-. exists (String x suffix). auto.
Qed.

Lemma matchDoiBody_at suffix post :
  nonEmpty suffix = true -> allChars notDoiStop suffix = true ->
  startsWithStop post = true ->
  matchDoiBody ("10." ++ suffix ++ post) = Some ("10." ++ suffix)%string.
Proof.
  intros Hne Hs Hpost. cbn [String.append matchDoiBody].
  rewrite (takeDoiChars_app _ _ Hs Hpost).
  destruct suffix; [discriminate | reflexivity].
Qed.

Lemma matchDoiUrl_shape s m :
  matchDoiUrl s = Some m ->
  exists suffix, m = ("10." ++ suffix)%string /\ nonEmpty suffix = true
                 /\ allChars notDoiStop suffix = true.
Proof.
  induction s as [| c r IH]; cbn [matchDoiUrl]; [discriminate |].
  destruct (afterPrefix "doi.org/" (String c r)) as [rest |].
  - destruct (matchDoiBody rest) as [m' |] eqn:E; [| exact IH].
    intros H. injection H as <-. eapply matchDoiBody_shape. exact E.
  - exact IH.
Qed.

Lemma matchRawDoi_shape s m :
  matchRawDoi s = Some m ->
  exists suffix, m = ("10." ++ suffix)%string /\ nonEmpty suffix = true
                 /\ allChars notDoiStop suffix = true.
Proof.
  unfold matchRawDoi. destruct (matchDoiBody s) as [m' |] eqn:E; [| discriminate].
  destruct (String.eqb m' s); [| discriminate].
  intros H. injection H as <-. eapply matchDoiBody_shape. exact E.
Qed.

Lemma trimEnd_solid_app x post :
  allChars notWhiteSpace x = true -> trimEnd (x ++ post) = (x ++ trimEnd post)%string.
Proof.
  induction x as [| c r IH]; cbn [String.append]; [reflexivity |].
  rewrite allChars_cons. intros H. apply andb_true_iff in H. destruct H as [Hc Hr].
  unfold notWhiteSpace in Hc. apply negb_true_iff in Hc.
  rewrite IdFacts.trimEnd_String by exact Hc. rewrite IH by exact Hr. reflexivity.
Qed.

Lemma solid_notWhiteSpace s :
  allChars notDoiStop s = true -> allChars notWhiteSpace s = true.
Proof.
  induction s as [| c r IH]; [reflexivity |]. rewrite !allChars_cons.
  intros H. apply andb_true_iff in H. destruct H as [Hc Hr].
  rewrite IH by exact Hr. unfold notWhiteSpace.
  rewrite (notDoiStop_notWhiteSpace _ Hc). reflexivity.
Qed.

Lemma allChars_app P a b : allChars P (a ++ b) = allChars P a && allChars P b.
Proof.
  induction a as [| c r IH]; [reflexivity |].
  cbn [String.append]. rewrite !allChars_cons, IH, andb_assoc. reflexivity.
Qed.

Lemma startsWithStop_trimEnd post :
  startsWithStop post = true -> startsWithStop (trimEnd post) = true.
Proof.
  destruct post as [| c r]; [reflexivity |]. cbn [startsWithStop trimEnd].
  intros Hc. destruct (trimEnd r); [destruct (isWhiteSpace c) |]; cbn; auto.
Qed.

Definition doiPrefix : string := "https://doi.org/".

(** The URL form, trimmed and matched. *)
Lemma normalizeDoi_url suffix post :
  nonEmpty suffix = true -> allChars notDoiStop suffix = true ->
  startsWithStop post = true ->
  normalizeDoi (doiPrefix ++ "10." ++ suffix ++ post)
  = Some (doiPrefix ++ "10." ++ toLowerCase suffix)%string.
Proof.
  intros Hne Hs Hpost. unfold normalizeDoi.
  replace (negb (nonEmpty (doiPrefix ++ "10." ++ suffix ++ post))) with false
    by reflexivity.
  assert (Htrim : trim (doiPrefix ++ "10." ++ suffix ++ post)
                  = (doiPrefix ++ "10." ++ suffix ++ trimEnd post)%string).
  { unfold trim.
    replace (trimStart (doiPrefix ++ "10." ++ suffix ++ post))
      with ((doiPrefix ++ "10.") ++ suffix ++ post)%string by reflexivity.
    rewrite (trimEnd_solid_app (doiPrefix ++ "10.")) by reflexivity.
    rewrite (trimEnd_solid_app suffix) by (apply solid_notWhiteSpace; exact Hs).
    reflexivity. }
  rewrite Htrim.
  replace (matchDoiUrl (doiPrefix ++ "10." ++ suffix ++ trimEnd post))
    with (match matchDoiBody ("10." ++ suffix ++ trimEnd post) with
          | Some m => Some m
          | None => matchDoiUrl ("oi.org/10." ++ suffix ++ trimEnd post)
          end) by reflexivity.
  rewrite (matchDoiBody_at _ _ Hne Hs (startsWithStop_trimEnd _ Hpost)).
  reflexivity.
Qed.
End DoiFacts.

(** X16: a DOI that [normalizeDoi] returns is in canonical form, the
    prefix [https://doi.org/10.] followed by at least one code unit, none
    of them white space, [?], [#] or an upper-case letter; and the
    canonical form is a fixed point of [normalizeDoi]. *)
Theorem normalizeDoi_canonical (input doi : string) :
  Resolve.normalizeDoi input = Some doi ->
  (exists suffix,
      doi = ("https://doi.org/10." ++ suffix)%string
      /\ nonEmpty suffix = true
      /\ allChars DoiFacts.notDoiStop suffix = true
      /\ allChars DoiFacts.isLowered suffix = true)
  /\ Resolve.normalizeDoi doi = Some doi.
Proof.
  intros H.
  assert (Hshape : exists suffix,
             doi = ("https://doi.org/10." ++ Resolve.toLowerCase suffix)%string
             /\ nonEmpty suffix = true
             /\ allChars DoiFacts.notDoiStop suffix = true).
  { unfold Resolve.normalizeDoi in H.
    destruct (negb (nonEmpty input)); [discriminate |].
    destruct (Resolve.matchDoiUrl (trim input)) as [m |] eqn:Eu.
    - injection H as <-.
      destruct (DoiFacts.matchDoiUrl_shape _ _ Eu) as (suffix & -> & Hne & Hs).
      exists suffix. auto.
    - destruct (Resolve.matchRawDoi (trim input)) as [m |] eqn:Er; [| discriminate].
      injection H as <-.
      destruct (DoiFacts.matchRawDoi_shape _ _ Er) as (suffix & -> & Hne & Hs).
      exists suffix. auto. }
  destruct Hshape as (suffix & -> & Hne & Hs).
  pose proof (DoiFacts.toLowerCase_solid _ Hs) as Hsolid.
  pose proof (DoiFacts.toLowerCase_lowered suffix) as Hlow.
  split.
  - exists (Resolve.toLowerCase suffix).
    rewrite DoiFacts.toLowerCase_nonEmpty. auto.
  - pose proof (DoiFacts.normalizeDoi_url (Resolve.toLowerCase suffix) EmptyString)
      as Hurl.
    rewrite DoiFacts.toLowerCase_nonEmpty in Hurl.
    specialize (Hurl Hne Hsolid eq_refl).
    rewrite IdFacts.append_empty_r in Hurl.
    rewrite (DoiFacts.toLowerCase_fixed _ Hlow) in Hurl. exact Hurl.
Qed.

Lemma normalizeDoi_canonical_witness :
  (exists suffix,
      "https://doi.org/10.1000/xyz123" = ("https://doi.org/10." ++ suffix)%string
      /\ nonEmpty suffix = true
      /\ allChars DoiFacts.notDoiStop suffix = true
      /\ allChars DoiFacts.isLowered suffix = true)
  /\ Resolve.normalizeDoi "https://doi.org/10.1000/xyz123"
     = Some "https://doi.org/10.1000/xyz123".
Proof.
  apply (normalizeDoi_canonical "  http://dx.DOI.org/10.1000/XYZ123?x=1 ").
  reflexivity.
Defined.

(** X17: the two spellings [normalizeDoi] accepts lead to the same
    result.  A DOI behind [https://doi.org/] is read up to the first white
    space, [?] or [#], so a query string or a fragment is dropped; a bare
    DOI that holds no [doi.org] URL of its own is read whole; both come
    back in lower case behind the prefix. *)
Theorem normalizeDoi_spellings (suffix post : string) :
  nonEmpty suffix = true ->
  allChars DoiFacts.notDoiStop suffix = true ->
  DoiFacts.startsWithStop post = true ->
  Resolve.normalizeDoi ("https://doi.org/10." ++ suffix ++ post)
  = Some ("https://doi.org/10." ++ Resolve.toLowerCase suffix)%string
  /\ (Resolve.matchDoiUrl ("10." ++ suffix) = None ->
      Resolve.normalizeDoi ("10." ++ suffix)
      = Some ("https://doi.org/10." ++ Resolve.toLowerCase suffix)%string).
Proof.
  intros Hne Hs Hpost. split.
  - exact (DoiFacts.normalizeDoi_url suffix post Hne Hs Hpost).
  - intros Hnone. unfold Resolve.normalizeDoi.
    replace (negb (nonEmpty ("10." ++ suffix))) with false by reflexivity.
    assert (Htrim : trim ("10." ++ suffix) = ("10." ++ suffix)%string).
    { unfold trim.
      replace (trimStart ("10." ++ suffix)) with ("10." ++ suffix)%string by reflexivity.
      rewrite <- (IdFacts.append_empty_r ("10." ++ suffix)) at 1.
      rewrite DoiFacts.trimEnd_solid_app.
      - apply IdFacts.append_empty_r.
      - rewrite DoiFacts.allChars_app. apply andb_true_iff.
        split; [reflexivity | apply DoiFacts.solid_notWhiteSpace; exact Hs]. }
    rewrite Htrim, Hnone. unfold Resolve.matchRawDoi.
    pose proof (DoiFacts.matchDoiBody_at suffix EmptyString Hne Hs eq_refl) as Hbody.
    rewrite IdFacts.append_empty_r in Hbody. rewrite Hbody, String.eqb_refl.
    reflexivity.
Qed.

Lemma normalizeDoi_spellings_witness :
  Resolve.normalizeDoi ("https://doi.org/10." ++ "1000/XYZ" ++ "?utm=1")
  = Some ("https://doi.org/10." ++ Resolve.toLowerCase "1000/XYZ")%string
  /\ (Resolve.matchDoiUrl ("10." ++ "1000/XYZ") = None ->
      Resolve.normalizeDoi ("10." ++ "1000/XYZ")
      = Some ("https://doi.org/10." ++ Resolve.toLowerCase "1000/XYZ")%string).
Proof.
  apply (normalizeDoi_spellings "1000/XYZ" "?utm=1"); reflexivity.
Defined.

(* ===================================================================== *)
(** ** [tokenize] *)
(* ===================================================================== *)

Module TokenFacts.
Import Resolve.

Definition tokensFrom (inGap : bool) (s : CodeUnits) : list CodeUnits :=
  filter nonEmptyUnits (splitSpaces inGap s).

(** Whether a gap is open makes no difference to the tokens. *)
Lemma tokensFrom_gap s : tokensFrom true s = tokensFrom false s.
Proof.
  unfold tokensFrom. destruct s as [| u r]; [reflexivity |]. cbn [splitSpaces].
  destruct (isSpaceUnit u); reflexivity.
Qed.

Lemma isTokenUnit_not_space u : isTokenUnit u = true -> isSpaceUnit u = false.
Proof.
  unfold isTokenUnit, isSpaceUnit. intros H.
  rewrite orb_true_iff, !andb_true_iff, !N.leb_le in H.
  rewrite !orb_false_iff, !andb_false_iff, !N.leb_gt, !N.eqb_neq. lia.
Qed.

Lemma splitSpaces_append ws x y :
  isSpaceUnit ws = true ->
  exists piece rest rest',
    splitSpaces false x = piece :: rest
    /\ splitSpaces false (x ++ ws :: y) = piece :: rest'
    /\ filter nonEmptyUnits rest' = filter nonEmptyUnits rest ++ tokensFrom true y.
Proof.
  intros Hws. induction x as [| u r (piece & rest & rest' & Hx & Hxy & Hrest)];
    cbn [app splitSpaces].
  - rewrite Hws. exists [], [], (splitSpaces true y). auto.
  - destruct (isSpaceUnit u).
    + exists [], (splitSpaces true r), (splitSpaces true (r ++ ws :: y)).
      split; [reflexivity |]. split; [reflexivity |].
      change (tokensFrom true (r ++ ws :: y) = tokensFrom true r ++ tokensFrom true y).
      rewrite !(tokensFrom_gap r), !(tokensFrom_gap (r ++ ws :: y)).
      unfold tokensFrom at 1 2. rewrite Hx, Hxy. cbn [filter].
      destruct (nonEmptyUnits piece); cbn [app]; rewrite Hrest; reflexivity.
    + rewrite Hx, Hxy. cbn [extendFirst].
      exists (u :: piece), rest, rest'. auto.
Qed.

Lemma tokensFrom_append ws x y :
  isSpaceUnit ws = true ->
  tokensFrom false (x ++ ws :: y) = tokensFrom false x ++ tokensFrom false y.
Proof.
  intros Hws.
  destruct (splitSpaces_append ws x y Hws) as (piece & rest & rest' & Hx & Hxy & Hrest).
  unfold tokensFrom at 1 2. rewrite Hx, Hxy. cbn [filter].
  rewrite <- (tokensFrom_gap y).
  destruct (nonEmptyUnits piece); cbn [app]; rewrite Hrest; reflexivity.
Qed.

(** What [replace] leaves of a code unit that is not of [[a-z0-9]] is
    white space. *)
Lemma replaced_space u :
  isTokenUnit u = false ->
  isSpaceUnit (if isTokenUnit u || isSpaceUnit u then u else 32%N) = true.
Proof.
  intros Hu. rewrite Hu. cbn [orb].
  destruct (isSpaceUnit u) eqn:E; [exact E | reflexivity].
Qed.

Lemma replaceOthers_tokens s :
  forallb isTokenUnit s = true -> replaceOthers s = s.
Proof.
  unfold replaceOthers. induction s as [| u r IH]; cbn [forallb map]; [reflexivity |].
  intros H. apply andb_true_iff in H. destruct H as [Hu Hr].
  rewrite Hu, IH by exact Hr. reflexivity.
Qed.

(** A text made of [[a-z0-9]] only is one piece. *)
Lemma splitSpaces_tokens s :
  forallb isTokenUnit s = true -> splitSpaces false s = [s].
Proof.
  induction s as [| u r IH]; cbn [forallb splitSpaces]; [reflexivity |].
  intros H. apply andb_true_iff in H. destruct H as [Hu Hr].
  rewrite (isTokenUnit_not_space u Hu), IH by exact Hr. reflexivity.
Qed.

Lemma extendFirst_pieces u pieces :
  isTokenUnit u = true ->
  Forall (fun p => forallb isTokenUnit p = true) pieces ->
  Forall (fun p => forallb isTokenUnit p = true) (extendFirst u pieces).
Proof.
  intros Hu Hp. destruct pieces as [| p rest]; cbn [extendFirst].
  - constructor; [| constructor]. cbn. rewrite Hu. reflexivity.
  - inversion Hp as [| ? ? Hp1 Hrest]; subst. constructor; [| exact Hrest].
    cbn [forallb]. rewrite Hu, Hp1. reflexivity.
Qed.

(** After [replace], every piece of the split is made of [[a-z0-9]]. *)
Lemma splitSpaces_pieces s :
  forall inGap,
    Forall (fun p => forallb isTokenUnit p = true)
      (splitSpaces inGap (replaceOthers s)).
Proof.
  unfold replaceOthers.
  induction s as [| u r IH]; intros inGap; cbn [map splitSpaces].
  - repeat constructor.
  - destruct (isTokenUnit u) eqn:Hu; cbn [orb].
    + rewrite (isTokenUnit_not_space u Hu).
      apply extendFirst_pieces; [exact Hu | apply IH].
    + pose proof (replaced_space u Hu) as Hws. rewrite Hu in Hws. cbn [orb] in Hws.
      rewrite Hws. destruct inGap; [apply IH |].
      constructor; [reflexivity | apply IH].
Qed.
End TokenFacts.

(** X18: the tokens of a text are the maximal runs of letters [a-z] and
    digits of the text that the host's [toLowerCase] makes of it, in their
    order.  Three equations say so: an empty text has no token; a text of
    such letters and digits only is its own single token; and any other
    code unit (a blank, a punctuation mark, an accent, a letter that
    [toLowerCase] does not bring into [a-z]) only separates, so the tokens
    of two texts joined by one are the tokens of the first followed by
    those of the second.  Hence no token is empty or holds anything
    else. *)
Theorem tokenize_tokens (toLowerCase : Resolve.CodeUnits -> Resolve.CodeUnits) :
  (forall text,
      Resolve.tokenize toLowerCase text = Resolve.tokensOfLowered (toLowerCase text))
  /\ Resolve.tokensOfLowered [] = []
  /\ (forall s,
        s <> [] -> forallb Resolve.isTokenUnit s = true ->
        Resolve.tokensOfLowered s = [s])
  /\ (forall a separator b,
        Resolve.isTokenUnit separator = false ->
        Resolve.tokensOfLowered (a ++ separator :: b)
        = Resolve.tokensOfLowered a ++ Resolve.tokensOfLowered b)
  /\ (forall text token,
        In token (Resolve.tokenize toLowerCase text) ->
        token <> [] /\ forallb Resolve.isTokenUnit token = true).
Proof.
  split; [reflexivity |]. split; [reflexivity |]. split; [| split].
  - intros s Hne Hs. unfold Resolve.tokensOfLowered.
    rewrite TokenFacts.replaceOthers_tokens, TokenFacts.splitSpaces_tokens by exact Hs.
    destruct s; [contradiction | reflexivity].
  - intros a separator b Hsep. unfold Resolve.tokensOfLowered, Resolve.replaceOthers.
    rewrite map_app. cbn [map].
    apply TokenFacts.tokensFrom_append. apply TokenFacts.replaced_space. exact Hsep.
  - intros text token Hin. unfold Resolve.tokenize, Resolve.tokensOfLowered in Hin.
    apply filter_In in Hin. destruct Hin as [Hin Hne].
    split; [destruct token; [discriminate Hne | discriminate] |].
    pose proof (TokenFacts.splitSpaces_pieces (toLowerCase text) false) as Hall.
    rewrite Forall_forall in Hall. apply Hall. exact Hin.
Qed.

(** The equations at work on a host that lowers the letters [A-Z] and
    nothing else: the text [Ab, c] has the tokens [ab] and [c]. *)
Lemma tokenize_tokens_witness :
  let toLowerCase :=
    map (fun u => if (65 <=? u) && (u <=? 90) then u + 32 else u)%N in
  Resolve.tokenize toLowerCase [65; 98; 44; 32; 99]%N = [[97; 98]%N; [99]%N]
  /\ (forall token,
        In token (Resolve.tokenize toLowerCase [65; 98; 44; 32; 99]%N) ->
        token <> [] /\ forallb Resolve.isTokenUnit token = true).
Proof.
  intros toLowerCase.
  destruct (tokenize_tokens toLowerCase) as (Hdef & Hempty & Hone & Hsep & Hin).
  split; [| apply Hin].
  rewrite Hdef.
  change (toLowerCase [65; 98; 44; 32; 99]%N)
    with ([97; 98] ++ 44 :: ([] ++ 32 :: [99]))%N.
  rewrite Hsep by reflexivity. rewrite Hsep by reflexivity.
  rewrite Hempty. rewrite !Hone by (discriminate || reflexivity). reflexivity.
Defined.

(** The tokens follow the host's case mapping: on a host that turns the
    Kelvin sign into [k], the text [a], Kelvin sign, [b] is the one token
    [akb]; on a host that turns [U+0130] into [i] and a combining dot, the
    dot separates. *)
Lemma tokenize_follows_host (toLowerCase : Resolve.CodeUnits -> Resolve.CodeUnits) :
  (toLowerCase [97; 8490; 98]%N = [97; 107; 98]%N ->
   Resolve.tokenize toLowerCase [97; 8490; 98]%N = [[97; 107; 98]%N])
  /\ (toLowerCase [97; 304; 98]%N = [97; 105; 775; 98]%N ->
      Resolve.tokenize toLowerCase [97; 304; 98]%N = [[97; 105]%N; [98]%N]).
Proof.
  unfold Resolve.tokenize. split; intros ->; reflexivity.
Qed.

(* ===================================================================== *)
(** ** Merging nodes *)
(* ===================================================================== *)

(** X19: the rule that merges the sides of a node is a join, and the same
    one in both modules: the order in which a work is reached does not
    matter to its side, [center] absorbs every side, and [both] absorbs
    [backward] and [forward]. *)
Theorem mergeSide_join :
  (forall a b, Legacy.mergeSide a b = Engine.mergeSide a b)
  /\ (forall a, Engine.mergeSide a a = a)
  /\ (forall a b, Engine.mergeSide a b = Engine.mergeSide b a)
  /\ (forall a b c, Engine.mergeSide (Engine.mergeSide a b) c
                    = Engine.mergeSide a (Engine.mergeSide b c))
  /\ (forall a, Engine.mergeSide center a = center)
  /\ (forall a, a <> center -> Engine.mergeSide both a = both)
  /\ Engine.mergeSide backward forward = both.
Proof.
  repeat split; intros; repeat match goal with s : Side |- _ => destruct s end;
    try reflexivity; congruence.
Qed.

Section Accumulation.
Variable computeNodeSize : Z -> Z.

(** One call of [addNode]: the work, the side and the depth. *)
Definition Call : Type := Work.t * Side * Z.

Definition callId (c : Call) : string := Work.id (fst (fst c)).

Definition addNodes (st : Engine.Store) (calls : list Call) : Engine.Store :=
  fold_left (fun st c => Engine.addNode computeNodeSize st (fst (fst c)) (snd (fst c)) (snd c))
    calls st.

(** [b] absorbs [a]. *)
Definition sideWithin (a b : Side) : Prop := Engine.mergeSide b a = b.

Lemma nodeMap_addNode_nodeFor st w side nodeDepth :
  Engine.nodeMap (Engine.addNode computeNodeSize st w side nodeDepth)
  = JsMap.set (Engine.nodeMap st) (Work.id w)
      (nodeFor computeNodeSize (JsMap.get (Engine.nodeMap st) (Work.id w))
         w side nodeDepth).
Proof.
  unfold Engine.addNode, nodeFor. cbv zeta. rewrite nodeMap_cacheWork.
  destruct (JsMap.get (Engine.nodeMap st) (Work.id w)) as [existing |];
    cbn [Engine.nodeMap]; reflexivity.
Qed.

Lemma sideWithin_refl a : sideWithin a a.
Proof. destruct a; reflexivity. Qed.

Lemma sideWithin_merge_l a b : sideWithin a (Engine.mergeSide a b).
Proof. destruct a, b; reflexivity. Qed.

Lemma sideWithin_merge_r a b : sideWithin b (Engine.mergeSide a b).
Proof. destruct a, b; reflexivity. Qed.

Lemma sideWithin_trans a b c : sideWithin a b -> sideWithin b c -> sideWithin a c.
Proof. unfold sideWithin. destruct a, b, c; cbn; congruence. Qed.

(** A node once written stays, its depth only sinks and its side only
    widens. *)
Lemma addNodes_monotone calls st k n0 :
  JsMap.get (Engine.nodeMap st) k = Some n0 ->
  exists n, JsMap.get (Engine.nodeMap (addNodes st calls)) k = Some n
            /\ Node.depth n <= Node.depth n0
            /\ sideWithin (Node.side n0) (Node.side n).
Proof.
  revert st n0. induction calls as [| [[w s] d] calls IH]; intros st n0 H; cbn [addNodes fold_left].
  - exists n0. split; [exact H |]. split; [lia | apply sideWithin_refl].
  - cbn [fst snd]. fold (addNodes (Engine.addNode computeNodeSize st w s d) calls).
    destruct (String.eqb_spec (Work.id w) k) as [E | Hne].
    + destruct (IH (Engine.addNode computeNodeSize st w s d)
                  (nodeFor computeNodeSize (Some n0) w s d)) as (n & Hn & Hd & Hs).
      { rewrite nodeMap_addNode_nodeFor, E, H. apply JsMapFacts.get_set_same. }
      exists n. split; [exact Hn |]. cbn [nodeFor Node.depth Node.side] in Hd, Hs.
      split; [lia |]. eapply sideWithin_trans; [apply sideWithin_merge_l | exact Hs].
    + apply IH. rewrite nodeMap_addNode_nodeFor, JsMapFacts.get_set_other by exact Hne.
      exact H.
Qed.

Lemma addNodes_app st calls1 calls2 :
  addNodes st (calls1 ++ calls2) = addNodes (addNodes st calls1) calls2.
Proof. unfold addNodes. apply fold_left_app. Qed.

Lemma addNodes_others calls st k :
  (forall c, In c calls -> callId c <> k) ->
  JsMap.get (Engine.nodeMap (addNodes st calls)) k = JsMap.get (Engine.nodeMap st) k.
Proof.
  revert st. induction calls as [| [[w s] d] calls IH]; intros st H; cbn [addNodes fold_left].
  - reflexivity.
  - cbn [fst snd]. fold (addNodes (Engine.addNode computeNodeSize st w s d) calls).
    rewrite IH by (intros c Hc; apply H; right; exact Hc).
    rewrite nodeMap_addNode_nodeFor. apply JsMapFacts.get_set_other.
    apply (H (w, s, d)). left. reflexivity.
Qed.

(** X22: what a series of [addNode] calls leaves under an id.  Without a
    call for it the node is untouched.  With calls, the node carries the
    fields of the work of the last call (the last writer wins), its depth
    is no larger than the depth of any call and than the depth it had,
    and is one of them, and its side absorbs the side of every call and
    the side it had. *)
Theorem addNode_accumulates (st : Engine.Store) (calls : list Call) (k : string) :
  ((forall c, In c calls -> callId c <> k) ->
   JsMap.get (Engine.nodeMap (addNodes st calls)) k = JsMap.get (Engine.nodeMap st) k)
  /\ (forall before w s d after,
        calls = before ++ (w, s, d) :: after -> Work.id w = k ->
        (forall c, In c after -> callId c <> k) ->
        exists n, JsMap.get (Engine.nodeMap (addNodes st calls)) k = Some n
                  /\ nodeOf computeNodeSize w n)
  /\ (forall w s d,
        In (w, s, d) calls -> Work.id w = k ->
        exists n, JsMap.get (Engine.nodeMap (addNodes st calls)) k = Some n
                  /\ Node.depth n <= d /\ sideWithin s (Node.side n))
  /\ (forall n0,
        JsMap.get (Engine.nodeMap st) k = Some n0 ->
        exists n, JsMap.get (Engine.nodeMap (addNodes st calls)) k = Some n
                  /\ Node.depth n <= Node.depth n0
                  /\ sideWithin (Node.side n0) (Node.side n))
  /\ (forall n,
        JsMap.get (Engine.nodeMap (addNodes st calls)) k = Some n ->
        (exists n0, JsMap.get (Engine.nodeMap st) k = Some n0
                    /\ Node.depth n = Node.depth n0)
        \/ exists w s, In (w, s, Node.depth n) calls /\ Work.id w = k).
Proof.
  split; [apply addNodes_others |]. split; [| split; [| split]].
  - intros before w s d after -> Hid Hafter. subst k.
    rewrite addNodes_app. cbn [addNodes fold_left fst snd].
    fold (addNodes (Engine.addNode computeNodeSize (addNodes st before) w s d) after).
    rewrite addNodes_others by exact Hafter.
    rewrite nodeMap_addNode_nodeFor, JsMapFacts.get_set_same.
    eexists. split; [reflexivity |]. apply nodeOf_nodeFor.
  - intros w s d Hin Hid. apply in_split in Hin. destruct Hin as (before & after & ->).
    rewrite addNodes_app. cbn [addNodes fold_left fst snd].
    fold (addNodes (Engine.addNode computeNodeSize (addNodes st before) w s d) after).
    set (st1 := addNodes st before).
    destruct (addNodes_monotone after (Engine.addNode computeNodeSize st1 w s d) k
                (nodeFor computeNodeSize (JsMap.get (Engine.nodeMap st1) (Work.id w))
                   w s d)) as (n & Hn & Hd & Hs).
    { rewrite nodeMap_addNode_nodeFor, <- Hid. apply JsMapFacts.get_set_same. }
    exists n. split; [exact Hn |]. cbn [nodeFor Node.depth Node.side] in Hd, Hs.
    destruct (JsMap.get (Engine.nodeMap st1) (Work.id w)) as [e |].
    + split; [lia |]. eapply sideWithin_trans; [apply sideWithin_merge_r | exact Hs].
    + split; [lia | exact Hs].
  - intros n0 H. apply addNodes_monotone. exact H.
  - revert st. induction calls as [| [[w s] d] calls IH]; intros st n Hn;
      cbn [addNodes fold_left fst snd] in Hn.
    + left. exists n. auto.
    + fold (addNodes (Engine.addNode computeNodeSize st w s d) calls) in Hn.
      destruct (IH _ _ Hn) as [(n1 & Hn1 & Hd) | (w' & s' & Hin & Hid)].
      * rewrite nodeMap_addNode_nodeFor, JsMapFacts.get_set in Hn1.
        destruct (String.eqb_spec (Work.id w) k) as [E | Hne].
        -- injection Hn1 as <-. cbn [nodeFor Node.depth] in Hd.
           destruct (JsMap.get (Engine.nodeMap st) (Work.id w)) as [e |] eqn:Ee.
           ++ destruct (Z.min_spec (Node.depth e) d) as [[_ Hm] | [_ Hm]];
                rewrite Hm in Hd.
              ** left. exists e. rewrite <- E. auto.
              ** right. exists w, s. rewrite Hd. split; [left; reflexivity | exact E].
           ++ right. exists w, s. rewrite Hd. split; [left; reflexivity | exact E].
        -- left. exists n1. auto.
      * right. exists w', s'. split; [right; exact Hin | exact Hid].
Qed.
End Accumulation.

(* ===================================================================== *)
(** ** The cache of works *)
(* ===================================================================== *)

Section Cache.
Variable upstream : Request -> Response.

(** X21: [getWorkOrFetch] answers from the cache without a request and
    without touching the store; on a miss it sends the one lookup of
    [getWorkById], and a record that comes back is cached under the id it
    carries, so that asking for that id again costs nothing.  A work
    without an id is never cached. *)
Theorem getWorkOrFetch_caches (st : Engine.Store) (id : string) (log : list Request) :
  (forall cached,
      Engine.getCachedWork st id = Some cached ->
      Engine.getWorkOrFetch upstream st id log = (Returned (st, Some cached), log))
  /\ (Engine.getCachedWork st id = None ->
      forall st' found log',
        Engine.getWorkOrFetch upstream st id log = (Returned (st', found), log') ->
        OpenAlex.getWorkById upstream id log = (Returned found, log')
        /\ Engine.nodeMap st' = Engine.nodeMap st
        /\ Engine.linkMap st' = Engine.linkMap st
        /\ match found with
           | Some work =>
               st' = Engine.cacheWork st work
               /\ Engine.getWorkOrFetch upstream st' (Work.id work) log'
                  = (Returned (st', Some work), log')
           | None => st' = st
           end)
  /\ (forall work, nonEmpty (Work.id work) = false -> Engine.cacheWork st work = st).
Proof.
  split; [| split].
  - intros cached H. unfold Engine.getWorkOrFetch. rewrite H. reflexivity.
  - intros Hmiss st' found log' H. unfold Engine.getWorkOrFetch in H.
    rewrite Hmiss in H. fetch_bind H as fetched log1 Hget H.
    destruct fetched as [work |]; fetch_ret H as E; injection E as <- <-.
    + split; [exact Hget |].
      rewrite nodeMap_cacheWork, linkMap_cacheWork.
      split; [reflexivity |]. split; [reflexivity |]. split; [reflexivity |].
      apply getWorkById_served in Hget. apply Served_nonEmpty in Hget.
      unfold Engine.getWorkOrFetch.
      rewrite (getCachedWork_cacheWork st work (Work.id work) Hget), String.eqb_refl.
      reflexivity.
    + auto.
  - intros work H. unfold Engine.cacheWork. rewrite H. reflexivity.
Qed.
End Cache.

(* ===================================================================== *)
(** ** The temporal check on records without a year *)
(* ===================================================================== *)

(** The year the check compares: a missing one counts as 0. *)
Definition yearCompared (year : option Z) : Z :=
  match year with Some y => y | None => 0 end.

(** X23: [isTemporallyConsistent] compares the two years as numbers with a
    missing year read as 0 ([Number(null)]): its check for non-finite
    years never applies to a record [normalizeWork] produced.  So between
    two records at least one direction is always accepted, both are
    accepted exactly when the compared years are equal, a reference
    without a year is accepted under every parent from year 0 on, and a
    citing work without a year is refused by every parent with a positive
    year. *)
Theorem isTemporallyConsistent_compares (parentYear childYear : option Z) :
  Engine.isTemporallyConsistent parentYear childYear references
    = (yearCompared childYear <=? yearCompared parentYear)
  /\ Engine.isTemporallyConsistent parentYear childYear cited_by
     = (yearCompared childYear >=? yearCompared parentYear)
  /\ (Engine.isTemporallyConsistent parentYear childYear references = true
      \/ Engine.isTemporallyConsistent parentYear childYear cited_by = true)
  /\ (Engine.isTemporallyConsistent parentYear childYear references = true
      /\ Engine.isTemporallyConsistent parentYear childYear cited_by = true
      <-> yearCompared childYear = yearCompared parentYear)
  /\ (forall p, 0 <= p ->
        Engine.isTemporallyConsistent (Some p) None references = true)
  /\ (forall p, 0 < p ->
        Engine.isTemporallyConsistent (Some p) None cited_by = false).
Proof.
  assert (Hr : Engine.isTemporallyConsistent parentYear childYear references
               = (yearCompared childYear <=? yearCompared parentYear))
    by (destruct parentYear, childYear; reflexivity).
  assert (Hc : Engine.isTemporallyConsistent parentYear childYear cited_by
               = (yearCompared childYear >=? yearCompared parentYear))
    by (destruct parentYear, childYear; reflexivity).
  split; [exact Hr |]. split; [exact Hc |]. rewrite Hr, Hc.
  split; [| split; [| split]].
  - destruct (Z.leb_spec (yearCompared childYear) (yearCompared parentYear));
      [left; reflexivity | right; apply Z.geb_le; lia].
  - rewrite Z.leb_le, Z.geb_le. lia.
  - intros p Hp. cbn. apply Z.leb_le. exact Hp.
  - intros p Hp. cbn. rewrite Z.geb_leb. apply Z.leb_gt. exact Hp.
Qed.

(* ===================================================================== *)
(** ** The pairs a level accepts *)
(* ===================================================================== *)

Lemma StronglySorted_app_inv {A : Type} (R : A -> A -> Prop) (l1 l2 : list A) :
  StronglySorted R (l1 ++ l2) ->
  StronglySorted R l1 /\ StronglySorted R l2
  /\ forall x y, In x l1 -> In y l2 -> R x y.
Proof.
  induction l1 as [| a l1 IH]; cbn [app]; intros H.
  - split; [constructor | split; [exact H | intros x y []]].
  - inversion H as [| ? ? Hs Hall]; subst.
    destruct (IH Hs) as (H1 & H2 & H12). rewrite Forall_forall in Hall.
    split; [| split; [exact H2 |]].
    + constructor; [exact H1 |]. apply Forall_forall. intros x Hx.
      apply Hall. apply in_or_app. left. exact Hx.
    + intros x y [<- | Hx] Hy; [| apply H12; assumption].
      apply Hall. apply in_or_app. right. exact Hy.
Qed.

Section Accepted.
Variable localeCompare : string -> string -> JsNumber.

(** The ranking of the pairs of a level: that of their children. *)
Definition entryRanksBefore (a b : Engine.Entry) : Prop :=
  ranksBefore localeCompare (Engine.child a) (Engine.child b).

Hypothesis localeCompare_asym :
  forall a b, isNegative (localeCompare a b) = true -> isNegative (localeCompare b a) = false.
Hypothesis localeCompare_trans :
  forall a b c, idMayPrecede localeCompare a b -> idMayPrecede localeCompare b c ->
                idMayPrecede localeCompare a c.

Lemma entries_sorted entries :
  StronglySorted entryRanksBefore (jsSort (Engine.entryOrder localeCompare) entries).
Proof.
  assert (H : StronglySorted (mayPrecede (Engine.entryOrder localeCompare))
                (jsSort (Engine.entryOrder localeCompare) entries)).
  { apply jsSort_sorted.
    - intros a b. apply (ranksBefore_asym localeCompare localeCompare_asym).
    - intros a b c. apply (ranksBefore_trans localeCompare localeCompare_trans). }
  induction H as [| x l _ IH Hx]; constructor; [exact IH |].
  rewrite Forall_forall in Hx |- *. intros y Hy.
  apply (mayPrecede_ranksBefore localeCompare). exact (Hx y Hy).
Qed.

(** X20: what a level accepts from the pairs its parents propose: at most
    [limit] pairs, all of them proposed, no child twice, in ranking order
    (citation count of the child, highest first, then id); every pair left
    out for the cut ranks after every pair kept; and as long as fewer than
    [limit] are kept no child is left out. *)
Theorem limitedOf_accepts (limit : Z) (flattened : list Engine.Entry) :
  let limited := Engine.limitedOf localeCompare limit flattened in
  (List.length limited <= Z.to_nat limit)%nat
  /\ NoDup (map childId limited)
  /\ (forall e, In e limited -> In e flattened)
  /\ StronglySorted entryRanksBefore limited
  /\ (forall kept dropped,
        In kept limited ->
        In dropped (JsMap.values (Engine.uniqueByChild flattened)) ->
        ~ In dropped limited ->
        entryRanksBefore kept dropped)
  /\ ((List.length limited < Z.to_nat limit)%nat ->
      forall e, In e flattened ->
                exists kept, In kept limited /\ childId kept = childId e).
Proof.
  cbv zeta. destruct (limitedOf_props localeCompare limit flattened) as [Hnd Hin].
  unfold Engine.limitedOf in *.
  set (sorted := jsSort (Engine.entryOrder localeCompare)
                   (JsMap.values (Engine.uniqueByChild flattened))) in *.
  assert (Hperm : Permutation sorted (JsMap.values (Engine.uniqueByChild flattened)))
    by apply jsSort_perm.
  pose proof (entries_sorted (JsMap.values (Engine.uniqueByChild flattened))) as Hsorted.
  fold sorted in Hsorted.
  rewrite <- (firstn_skipn (Z.to_nat limit) sorted) in Hsorted.
  apply StronglySorted_app_inv in Hsorted. destruct Hsorted as (Hs1 & _ & Hcut).
  split; [rewrite length_firstn; lia |]. split; [exact Hnd |]. split; [exact Hin |].
  split; [exact Hs1 |]. split.
  - intros kept dropped Hk Hd Hnot. apply Hcut; [exact Hk |].
    apply (Permutation_in _ (Permutation_sym Hperm)) in Hd.
    rewrite <- (firstn_skipn (Z.to_nat limit) sorted) in Hd.
    apply in_app_or in Hd. destruct Hd as [Hd | Hd]; [contradiction | exact Hd].
  - intros Hlen e He. rewrite length_firstn in Hlen.
    assert (Hall : firstn (Z.to_nat limit) sorted = sorted)
      by (apply firstn_all2; lia).
    rewrite Hall.
    destruct (uniqueByChild_Deduped flattened) as [Hnd' Hkept Hpresent].
    specialize (Hpresent e He).
    destruct (JsMap.get (Engine.uniqueByChild flattened) (childId e)) as [kept |] eqn:Eg;
      [| contradiction].
    exists kept. split.
    + apply (Permutation_in _ (Permutation_sym Hperm)).
      apply JsMapFacts.In_values. exists (childId e). apply JsMapFacts.get_In. exact Eg.
    + apply (Hkept _ _ Eg).
Qed.
End Accepted.

Lemma limitedOf_accepts_witness :
  let flattened :=
    [ {| Engine.parent := Sample.workOf Sample.B 1995 50;
         Engine.child := Sample.workOf Sample.D 1980 10 |};
      {| Engine.parent := Sample.workOf Sample.A 1990 50;
         Engine.child := Sample.workOf Sample.D 1980 10 |};
      {| Engine.parent := Sample.workOf Sample.A 1990 50;
         Engine.child := Sample.workOf Sample.E 1985 70 |} ] in
  let limited := Engine.limitedOf Sample.localeCompare 1 flattened in
  (List.length limited <= Z.to_nat 1)%nat
  /\ NoDup (map childId limited)
  /\ (forall e, In e limited -> In e flattened)
  /\ StronglySorted (entryRanksBefore Sample.localeCompare) limited
  /\ (forall kept dropped,
        In kept limited ->
        In dropped (JsMap.values (Engine.uniqueByChild flattened)) ->
        ~ In dropped limited ->
        entryRanksBefore Sample.localeCompare kept dropped)
  /\ ((List.length limited < Z.to_nat 1)%nat ->
      forall e, In e flattened ->
                exists kept, In kept limited /\ childId kept = childId e).
Proof.
  exact (limitedOf_accepts Sample.localeCompare Runs.localeCompare_asym
           Runs.localeCompare_trans 1 _).
Defined.

(* ===================================================================== *)
(** ** Origins: what [normalizeOrigin] drops and whom [isAllowedOrigin] lets in *)
(* ===================================================================== *)

Module OriginFacts.
Import Cors.

Lemma dropFinalSlash_app_slash x : dropFinalSlash (x ++ "/")%string = x.
Proof.
  induction x as [| c r IH]; [reflexivity |].
  cbn [String.append dropFinalSlash]. rewrite IH.
  destruct (r ++ "/")%string eqn:E; [| reflexivity].
  destruct r; discriminate E.
Qed.

Lemma trimStart_blank ws s :
  allChars isWhiteSpace ws = true -> trimStart (ws ++ s)%string = trimStart s.
Proof.
  induction ws as [| c r IH]; [reflexivity |].
  rewrite DoiFacts.allChars_cons. intros H. apply andb_true_iff in H.
  destruct H as [Hc Hr]. cbn [String.append trimStart]. rewrite Hc. apply IH, Hr.
Qed.

Lemma trimEnd_blank ws : allChars isWhiteSpace ws = true -> trimEnd ws = EmptyString.
Proof.
  induction ws as [| c r IH]; [reflexivity |].
  rewrite DoiFacts.allChars_cons. intros H. apply andb_true_iff in H.
  destruct H as [Hc Hr]. cbn [trimEnd]. rewrite (IH Hr), Hc. reflexivity.
Qed.

Lemma trim_padded_slash ws1 o ws2 :
  allChars isWhiteSpace ws1 = true -> allChars isWhiteSpace ws2 = true ->
  trim (ws1 ++ o ++ "/" ++ ws2)%string = (trimStart o ++ "/")%string.
Proof.
  intros H1 H2. unfold trim. rewrite trimStart_blank by exact H1.
  change (o ++ "/" ++ ws2)%string with (o ++ String "/" ws2)%string.
  rewrite IdFacts.trimStart_app by reflexivity.
  assert (Hslash : trimEnd (String "/" ws2) = "/").
  { rewrite IdFacts.trimEnd_String by reflexivity. rewrite (trimEnd_blank _ H2).
    reflexivity. }
  rewrite NormalizeFacts.trimEnd_keeps_prefix; rewrite Hslash;
    [reflexivity | discriminate].
Qed.

Lemma includesStar_trimStart s : includesStar (trimStart s) = true -> includesStar s = true.
Proof.
  induction s as [| c r IH]; cbn [trimStart includesStar]; [auto |].
  destruct (isWhiteSpace c); [| auto]. intros H. rewrite (IH H). apply orb_true_r.
Qed.

Lemma includesStar_trimEnd s : includesStar (trimEnd s) = true -> includesStar s = true.
Proof.
  induction s as [| c r IH]; cbn [trimEnd includesStar]; [auto |].
  destruct (trimEnd r) as [| x r'] eqn:E.
  - destruct (isWhiteSpace c); cbn [includesStar]; [discriminate |].
    rewrite orb_false_r. intros ->. reflexivity.
  - cbn [includesStar] in *. intros H. apply orb_true_iff in H.
    destruct H as [-> | H]; [reflexivity |]. rewrite (IH H). apply orb_true_r.
Qed.

Lemma includesStar_dropFinalSlash s :
  includesStar (dropFinalSlash s) = true -> includesStar s = true.
Proof.
  induction s as [| c r IH]; cbn [dropFinalSlash includesStar]; [auto |].
  destruct r as [| x r'].
  - destruct (Ascii.eqb c "/"); [discriminate | auto].
  - cbn [includesStar] in *. intros H. apply orb_true_iff in H.
    destruct H as [-> | H]; [reflexivity |]. rewrite (IH H). apply orb_true_r.
Qed.

Lemma includesStar_normalizeOrigin s :
  includesStar (normalizeOrigin (Some s)) = true -> includesStar s = true.
Proof.
  unfold normalizeOrigin, trim. intros H.
  apply includesStar_trimStart, includesStar_trimEnd, includesStar_dropFinalSlash, H.
Qed.
End OriginFacts.

(** X24: [normalizeOrigin] reads an origin the same with or without a
    final slash and whatever white space surrounds it; an absent origin, a
    blank one and a lone slash all become the empty string. *)
Theorem normalizeOrigin_spellings (origin ws1 ws2 : string) :
  trim origin = origin ->
  Cors.dropFinalSlash origin = origin ->
  allChars isWhiteSpace ws1 = true ->
  allChars isWhiteSpace ws2 = true ->
  Cors.normalizeOrigin (Some origin) = origin
  /\ Cors.normalizeOrigin (Some (origin ++ "/")%string) = origin
  /\ Cors.normalizeOrigin (Some (ws1 ++ origin ++ "/" ++ ws2)%string) = origin
  /\ Cors.normalizeOrigin None = EmptyString
  /\ Cors.normalizeOrigin (Some ws1) = EmptyString
  /\ Cors.normalizeOrigin (Some (ws1 ++ "/" ++ ws2)%string) = EmptyString.
Proof.
  intros Htrim Hslash H1 H2.
  assert (Hstart : trimStart origin = origin).
  { unfold trim in Htrim. destruct (IdFacts.trimEnd_prefix (trimStart origin)) as [w Hw].
    rewrite Htrim in Hw. destruct (IdFacts.trimStart_suffix origin) as [v Hv].
    rewrite Hw in Hv. apply (f_equal String.length) in Hv.
    rewrite !IdFacts.length_append in Hv.
    assert (Hv0 : v = EmptyString) by (destruct v; [reflexivity | cbn in Hv; lia]).
    assert (Hw0 : w = EmptyString) by (destruct w; [reflexivity | cbn in Hv; lia]).
    rewrite Hw0, IdFacts.append_empty_r in Hw. exact Hw. }
  assert (Hpad : forall o, Cors.normalizeOrigin (Some (ws1 ++ o ++ "/" ++ ws2)%string)
                           = trimStart o).
  { intros o. unfold Cors.normalizeOrigin.
    rewrite (OriginFacts.trim_padded_slash ws1 o ws2 H1 H2).
    apply OriginFacts.dropFinalSlash_app_slash. }
  split; [unfold Cors.normalizeOrigin; rewrite Htrim; exact Hslash |].
  split.
  - pose proof (OriginFacts.trim_padded_slash EmptyString origin EmptyString eq_refl eq_refl)
      as Hp. cbn [String.append] in Hp.
    unfold Cors.normalizeOrigin. rewrite Hp, Hstart.
    apply OriginFacts.dropFinalSlash_app_slash.
  - split; [rewrite Hpad; exact Hstart |]. split; [reflexivity |]. split.
    + unfold Cors.normalizeOrigin, trim.
      rewrite <- (IdFacts.append_empty_r ws1) at 1.
      rewrite OriginFacts.trimStart_blank by exact H1. reflexivity.
    + exact (Hpad EmptyString).
Qed.

Lemma normalizeOrigin_spellings_witness :
  Cors.normalizeOrigin (Some "http://localhost:5173") = "http://localhost:5173"
  /\ Cors.normalizeOrigin (Some ("http://localhost:5173" ++ "/")%string)
     = "http://localhost:5173"
  /\ Cors.normalizeOrigin (Some ("  " ++ "http://localhost:5173" ++ "/" ++ " ")%string)
     = "http://localhost:5173"
  /\ Cors.normalizeOrigin None = EmptyString
  /\ Cors.normalizeOrigin (Some "  ") = EmptyString
  /\ Cors.normalizeOrigin (Some ("  " ++ "/" ++ " ")%string) = EmptyString.
Proof.
  apply (normalizeOrigin_spellings "http://localhost:5173" "  " " "); reflexivity.
Defined.

Section Allowed.
Variable regexTest : string -> string -> bool.
Variable corsOrigins : list string.

Local Abbreviation isAllowedOrigin := (Cors.isAllowedOrigin regexTest corsOrigins).

(** X25: whom [isAllowedOrigin] lets in.  An origin is allowed exactly
    when its normal form is not empty and either is the normal form of a
    configured origin without [*], or passes the pattern built from a
    configured origin with [*].  So when no configured origin holds a [*],
    only configured origins are allowed, compared after normalization;
    and an absent or empty [Origin] header is let through by the callback
    without being checked. *)
Theorem isAllowedOrigin_iff (origin : option string) :
  (isAllowedOrigin origin = true <->
   nonEmpty (Cors.normalizeOrigin origin) = true
   /\ exists configured,
        In configured corsOrigins
        /\ ((Cors.includesStar (Cors.normalizeOrigin (Some configured)) = false
             /\ Cors.normalizeOrigin (Some configured) = Cors.normalizeOrigin origin)
            \/ (Cors.includesStar (Cors.normalizeOrigin (Some configured)) = true
                /\ regexTest
                     (Cors.wildcardSource (Cors.normalizeOrigin (Some configured)))
                     (Cors.normalizeOrigin origin) = true)))
  /\ ((forall configured, In configured corsOrigins ->
                          Cors.includesStar configured = false) ->
      (isAllowedOrigin origin = true <->
       nonEmpty (Cors.normalizeOrigin origin) = true
       /\ exists configured,
            In configured corsOrigins
            /\ Cors.normalizeOrigin (Some configured) = Cors.normalizeOrigin origin))
  /\ Cors.originDecision regexTest corsOrigins None = true
  /\ Cors.originDecision regexTest corsOrigins (Some EmptyString) = true
  /\ (forall s, nonEmpty s = true ->
                Cors.originDecision regexTest corsOrigins (Some s)
                = isAllowedOrigin (Some s)).
Proof.
  assert (Hmain :
    isAllowedOrigin origin = true <->
    nonEmpty (Cors.normalizeOrigin origin) = true
    /\ exists configured,
         In configured corsOrigins
         /\ ((Cors.includesStar (Cors.normalizeOrigin (Some configured)) = false
              /\ Cors.normalizeOrigin (Some configured) = Cors.normalizeOrigin origin)
             \/ (Cors.includesStar (Cors.normalizeOrigin (Some configured)) = true
                 /\ regexTest
                      (Cors.wildcardSource (Cors.normalizeOrigin (Some configured)))
                      (Cors.normalizeOrigin origin) = true))).
  { unfold Cors.isAllowedOrigin. cbv zeta.
    set (normalized := Cors.normalizeOrigin origin).
    destruct (nonEmpty normalized) eqn:Ene; cbn [negb].
    2:{ split; [discriminate | intros [H _]; discriminate H]. }
    assert (Hconf : forall o, In o (Cors.configuredOrigins corsOrigins) <->
                              nonEmpty o = true
                              /\ exists c, In c corsOrigins
                                           /\ Cors.normalizeOrigin (Some c) = o).
    { intros o. unfold Cors.configuredOrigins. rewrite filter_In, in_map_iff.
      split; [intros [(c & E & Hc) Hn] | intros [Hn (c & Hc & E)]]; eauto. }
    destruct (JsSet.has (Cors.exactOrigins corsOrigins) normalized) eqn:Ehas.
    - split; [intros _ | reflexivity]. split; [reflexivity |].
      apply JsSet_has_In in Ehas. unfold Cors.exactOrigins in Ehas.
      apply (proj1 (proj1 (proj2 (JsSet_ofList_props _)) _)) in Ehas.
      apply filter_In in Ehas. destruct Ehas as [Hin Hstar].
      apply negb_true_iff in Hstar. apply Hconf in Hin.
      destruct Hin as [_ (c & Hc & E)]. exists c. split; [exact Hc |].
      left. rewrite E. auto.
    - rewrite existsb_exists. unfold Cors.wildcardOriginRegexes. split.
      + intros (regex & Hin & Htest). split; [reflexivity |].
        apply in_map_iff in Hin. destruct Hin as (o & <- & Ho).
        apply filter_In in Ho. destruct Ho as [Ho Hstar]. apply Hconf in Ho.
        destruct Ho as [_ (c & Hc & <-)]. exists c. split; [exact Hc |]. right. auto.
      + intros [_ (c & Hc & [[Hstar E] | [Hstar Htest]])].
        * exfalso. assert (Hin : In normalized (Cors.exactOrigins corsOrigins)).
          { unfold Cors.exactOrigins. apply (proj2 (proj1 (proj2 (JsSet_ofList_props _)) _)).
            apply filter_In. split.
            - apply Hconf. split; [exact Ene | exists c; auto].
            - fold normalized in E. rewrite <- E, Hstar. reflexivity. }
          apply JsSet_has_In in Hin. congruence.
        * exists (Cors.wildcardSource (Cors.normalizeOrigin (Some c))).
          split; [| exact Htest]. apply in_map. apply filter_In.
          split; [| exact Hstar]. apply Hconf. split; [| exists c; auto].
          destruct (Cors.normalizeOrigin (Some c)); [discriminate Hstar | reflexivity]. }
  split; [exact Hmain |]. split; [| split; [reflexivity | split; [reflexivity |]]].
  - intros Hnone. rewrite Hmain. split.
    + intros [Hne (c & Hc & [[_ E] | [Hstar _]])]; [eauto |].
      apply OriginFacts.includesStar_normalizeOrigin in Hstar.
      rewrite (Hnone c Hc) in Hstar. discriminate.
    + intros [Hne (c & Hc & E)]. split; [exact Hne |]. exists c. split; [exact Hc |].
      left. split; [| exact E].
      destruct (Cors.includesStar (Cors.normalizeOrigin (Some c))) eqn:Es; [| reflexivity].
      apply OriginFacts.includesStar_normalizeOrigin in Es.
      rewrite (Hnone c Hc) in Es. discriminate.
  - intros s Hs. unfold Cors.originDecision. rewrite Hs. reflexivity.
Qed.
End Allowed.

(* ===================================================================== *)
(** ** The pairs a level proposes *)
(* ===================================================================== *)

(** Each task of a [Promise.all] returned the result listed for it. *)
Lemma promiseAll_each {A B : Type} (f : A -> Fetch B) items :
  forall log ys log',
    promiseAll f items log = (Returned ys, log') ->
    Forall2 (fun x y => exists l l', f x l = (Returned y, l')) items ys.
Proof.
  induction items as [| x rest IH]; intros log ys log' H; cbn [promiseAll] in H.
  - fetch_ret H as E. constructor.
  - fetch_bind H as y log1 Hy H. fetch_bind H as ys' log2 Hys H. fetch_ret H as E.
    constructor; [exists log, log1; exact Hy | eapply IH; exact Hys].
Qed.

Lemma concat_length_le {A : Type} (ls : list (list A)) n :
  Forall (fun l => (List.length l <= n)%nat) ls ->
  (List.length (concat ls) <= List.length ls * n)%nat.
Proof.
  induction 1 as [| l ls Hl _ IH]; cbn [concat List.length]; [lia |].
  rewrite length_app. lia.
Qed.

Section Proposals.
Variable localeCompare : string -> string -> JsNumber.
Variable computeNodeSize : Z -> Z.
Variable upstream : Request -> Response.

(** What one parent proposes: at most [perParentLimit] pairs, each made of
    that parent and of a child that passed the temporal filter against
    it. *)
Lemma expandParent_entries side perParentLimit p log entries log' :
  Engine.expandParent localeCompare upstream side perParentLimit p log
    = (Returned entries, log') ->
  (List.length entries <= perParentLimit)%nat
  /\ forall e, In e entries ->
       p = Some (Engine.parent e)
       /\ Engine.isTemporallyConsistent (Work.year (Engine.parent e))
            (Work.year (Engine.child e)) side = true.
Proof.
  unfold Engine.expandParent. destruct p as [parent |]; intros H.
  2:{ fetch_ret H as E. split; [cbn; lia | intros e []]. }
  fetch_bind H as children log1 Hc H. fetch_ret H as E.
  assert (Hlen : (List.length children <= perParentLimit)%nat).
  { destruct side.
    - unfold Engine.getTopReferences in Hc. cbv zeta in Hc.
      destruct (Work.referenced_works parent) as [| r refs].
      + fetch_ret Hc as E. cbn. lia.
      + fetch_bind Hc as works log2 Hw Hc. fetch_ret Hc as E.
        rewrite length_firstn. lia.
    - unfold Engine.getTopCitations in Hc.
      fetch_bind Hc as rows log2 Hr Hc. fetch_ret Hc as E.
      rewrite length_firstn. lia. }
  split.
  - rewrite length_map. etransitivity; [apply filter_length_le | exact Hlen].
  - intros e He. apply in_map_iff in He. destruct He as (c & <- & Hin).
    apply filter_In in Hin. cbn [Engine.parent Engine.child]. tauto.
Qed.

(** The parents of a level between them propose no more than [limit]
    pairs, as long as there are no more than [limit] of them. *)
Lemma level_proposals side limit ps log sets log' :
  (1 <= List.length ps <= Z.to_nat limit)%nat ->
  promiseAll
    (Engine.expandParent localeCompare upstream side
       (Engine.perParentLimitOf limit (List.length ps))) ps log
    = (Returned sets, log') ->
  (List.length (concat sets) <= Z.to_nat limit)%nat.
Proof.
  intros Hps H. apply promiseAll_each in H.
  set (per := Engine.perParentLimitOf limit (List.length ps)) in *.
  assert (Hsets : Forall (fun l => (List.length l <= per)%nat) sets).
  { clear Hps. generalize dependent per. intros per H.
    induction H as [| p l ps' sets' (l1 & l2 & Hp) _ IH]; constructor.
    - apply expandParent_entries in Hp. tauto.
    - exact IH. }
  apply concat_length_le in Hsets.
  rewrite <- (Forall2_length H) in Hsets.
  etransitivity; [exact Hsets |].
  unfold per, Engine.perParentLimitOf.
  assert (Hn : 1 <= Z.of_nat (List.length ps) <= limit) by lia.
  assert (Hq : 1 <= limit / Z.of_nat (List.length ps))
    by (apply Z.div_le_lower_bound; lia).
  rewrite Z.max_r by lia.
  pose proof (Z.mul_div_le limit (Z.of_nat (List.length ps))) as Hmul.
  nia.
Qed.

(** A level that proposes no more than [limit] pairs loses none of its
    children to the cut. *)
Lemma limitedOf_uncut limit flattened :
  (List.length flattened <= Z.to_nat limit)%nat ->
  Engine.limitedOf localeCompare limit flattened
  = jsSort (Engine.entryOrder localeCompare)
      (JsMap.values (Engine.uniqueByChild flattened)).
Proof.
  intros Hlen. unfold Engine.limitedOf. apply firstn_all2.
  rewrite (Permutation_length (jsSort_perm _ _)).
  destruct (uniqueByChild_values flattened) as [Hkeys Hin].
  destruct (uniqueByChild_Deduped flattened) as [Hnd _ _].
  etransitivity; [| exact Hlen].
  apply NoDup_incl_length; [| exact Hin].
  apply (NoDup_map_inv childId). rewrite Hkeys. exact Hnd.
Qed.

Lemma readFrontier_length frontier :
  forall st log st' ps log',
    Engine.readFrontier upstream st frontier log = (Returned (st', ps), log') ->
    List.length ps = List.length frontier.
Proof.
  induction frontier as [| id rest IH]; intros st log st' ps log' H;
    cbn [Engine.readFrontier] in H.
  - fetch_ret H as E. injection E as <- <-. reflexivity.
  - fetch_bind H as [st1 p] log1 Hp H. fetch_bind H as [st2 ps'] log2 Hps H.
    fetch_ret H as E. injection E as <- <-. cbn [List.length].
    f_equal. eapply IH. exact Hps.
Qed.

Section Levels.
Variable depth limit : Z.

(** The levels of one call of [expandSide]: the one it enters with the
    centre as its frontier, and the one each completed level leads to. *)
Inductive LevelOf (side : LinkType) : Engine.SideRun -> Prop :=
| LevelOf_first st centerId log st' r log' :
    Engine.enterLevel upstream depth st 1 [centerId] log = (Returned (st', r), log') ->
    LevelOf side r
| LevelOf_next st r log st' r' log' :
    LevelOf side r ->
    Engine.expandLevel localeCompare computeNodeSize upstream depth limit side
      st r log = (Returned (st', r'), log') ->
    LevelOf side r'.

(** A level that is expanded has a parent, and no more than [limit]. *)
Lemma LevelOf_parents side r :
  1 <= limit -> LevelOf side r -> Engine.active r = true ->
  (1 <= List.length (Engine.parents r) <= Z.to_nat limit)%nat.
Proof.
  intros Hlimit Hr. induction Hr as [st cid log st' r log' H | st r log st' r' log' _ IH H].
  - unfold Engine.enterLevel in H.
    destruct ((1 <=? depth) && negb (Nat.eqb (List.length [cid]) 0)).
    + fetch_bind H as [st1 ps] log1 Hps H. fetch_ret H as E. injection E as <- <-.
      intros _. cbn [Engine.parents].
      rewrite (readFrontier_length _ _ _ _ _ _ Hps). cbn. lia.
    + fetch_ret H as E. injection E as <- <-. discriminate.
  - rewrite expandLevel_normal in H.
    destruct (Engine.active r) eqn:Ea; cbn [negb] in H.
    + fetch_bind H as limited log1 Hl H. fetch_ret H as E. injection E as <- <-.
      pose proof (levelEntries_length _ _ _ _ _ _ _ _ Hl) as Hlen.
      unfold nextRun.
      destruct ((Engine.level r + 1 <=? depth)
                && negb (Nat.eqb (List.length limited) 0)) eqn:Ec;
        cbn [Engine.active Engine.parents]; [| discriminate].
      intros _. rewrite length_map.
      apply andb_true_iff in Ec. destruct Ec as [_ Ec].
      apply negb_true_iff, Nat.eqb_neq in Ec. lia.
    + fetch_ret H as E. injection E as <- <-. intros Hr'. congruence.
Qed.

(** Both calls of [expandSide] only go through such levels, whatever the
    order they are resumed in. *)
Lemma resumeAll_levels schedule :
  forall x log x' log',
    LevelOf references (Engine.referencesRun x) ->
    LevelOf cited_by (Engine.citedByRun x) ->
    Engine.resumeAll localeCompare computeNodeSize upstream depth limit schedule x log
      = (Returned x', log') ->
    LevelOf references (Engine.referencesRun x')
    /\ LevelOf cited_by (Engine.citedByRun x').
Proof.
  induction schedule as [| side rest IH]; intros x log x' log' Hr Hc H;
    cbn [Engine.resumeAll] in H.
  - fetch_ret H as E. auto.
  - fetch_bind H as x1 log1 Hstep H. apply (IH _ _ _ _) in H; [exact H | |];
      unfold Engine.resume in Hstep; destruct side;
      fetch_bind Hstep as [st r] log2 Hlevel Hstep; fetch_ret Hstep as E;
      cbn [Engine.referencesRun Engine.citedByRun]; try assumption;
      eapply LevelOf_next; eassumption.
Qed.
End Levels.
End Proposals.

(** C5: when a child is reached from several parents of one level, the
    level accepts exactly one pair for it, and that pair's parent id sorts
    lowest: below the parent id of every other pair proposed for the child.
    First for any list of proposed pairs: the map [uniqueByChild] holds
    that one pair for the child, and the cut to [limit] keeps it whenever
    no more than [limit] pairs were proposed.  Then for a level of
    [expandSide]: its parents propose no more than [limit] pairs between
    them, so the list the level commits holds that pair.  Last, the two
    calls of [expandSide] go through such levels only. *)
Theorem uniqueByChild_keeps_lowest_parent
    (localeCompare : string -> string -> JsNumber)
    (computeNodeSize : Z -> Z) (upstream : Request -> Response) :
  (forall flattened c,
     (exists e, In e flattened /\ childId e = c) ->
     exists kept,
       In kept flattened /\ childId kept = c
       /\ filter (childIs c) (JsMap.values (Engine.uniqueByChild flattened)) = [kept]
       /\ (forall e, In e flattened -> childId e = c ->
             strLt (parentId e) (parentId kept) = false
             /\ (parentId e <> parentId kept ->
                   strLt (parentId kept) (parentId e) = true))
       /\ (forall limit,
             let limited := Engine.limitedOf localeCompare limit flattened in
             (filter (childIs c) limited = [kept] \/ filter (childIs c) limited = [])
             /\ ((List.length flattened <= Z.to_nat limit)%nat ->
                 filter (childIs c) limited = [kept])))
  /\ (forall depth limit side r log sets log',
        1 <= limit ->
        LevelOf localeCompare computeNodeSize upstream depth limit side r ->
        Engine.active r = true ->
        promiseAll
          (Engine.expandParent localeCompare upstream side
             (Engine.perParentLimitOf limit (List.length (Engine.parents r))))
          (Engine.parents r) log
          = (Returned sets, log') ->
        let flattened := concat sets in
        let accepted := Engine.limitedOf localeCompare limit flattened in
        (forall st,
            Engine.expandLevel localeCompare computeNodeSize upstream depth limit
              side st r log
            = (let '(st1, nextFrontier) :=
                 Engine.commitLevel computeNodeSize st JsSet.empty side
                   (Engine.level r) accepted in
               Engine.enterLevel upstream depth st1 (Engine.level r + 1) nextFrontier)
                log')
        /\ (List.length flattened <= Z.to_nat limit)%nat
        /\ forall c,
             (exists e, In e flattened /\ childId e = c) ->
             exists kept,
               In kept flattened /\ childId kept = c
               /\ filter (childIs c) accepted = [kept]
               /\ forall e, In e flattened -> childId e = c ->
                    strLt (parentId e) (parentId kept) = false
                    /\ (parentId e <> parentId kept ->
                          strLt (parentId kept) (parentId e) = true))
  /\ (forall depth limit schedule st centerId log st1 r log1 st2 c log2 x log3,
        Engine.enterLevel upstream depth st 1 [centerId] log
          = (Returned (st1, r), log1) ->
        Engine.enterLevel upstream depth st1 1 [centerId] log1
          = (Returned (st2, c), log2) ->
        Engine.resumeAll localeCompare computeNodeSize upstream depth limit schedule
          {| Engine.store := st2; Engine.referencesRun := r; Engine.citedByRun := c |}
          log2 = (Returned x, log3) ->
        LevelOf localeCompare computeNodeSize upstream depth limit references
          (Engine.referencesRun x)
        /\ LevelOf localeCompare computeNodeSize upstream depth limit cited_by
             (Engine.citedByRun x)).
Proof.
  assert (Hmap : forall flattened c,
             (exists e, In e flattened /\ childId e = c) ->
             exists kept,
               In kept flattened /\ childId kept = c
               /\ filter (childIs c) (JsMap.values (Engine.uniqueByChild flattened))
                  = [kept]
               /\ (forall e, In e flattened -> childId e = c ->
                     strLt (parentId e) (parentId kept) = false
                     /\ (parentId e <> parentId kept ->
                           strLt (parentId kept) (parentId e) = true))
               /\ filter (childIs c)
                    (jsSort (Engine.entryOrder localeCompare)
                       (JsMap.values (Engine.uniqueByChild flattened)))
                  = [kept]).
  { intros flattened c (e0 & Hin0 & Hc0).
    destruct (uniqueByChild_Deduped flattened) as [Hnd Hkept Hall].
    destruct (JsMap.get (Engine.uniqueByChild flattened) c) as [kept |] eqn:E.
    2:{ exfalso. apply (Hall e0 Hin0). rewrite Hc0. exact E. }
    destruct (Hkept _ _ E) as (Hc & Hin & Hmin).
    assert (Hone : filter (childIs c) (JsMap.values (Engine.uniqueByChild flattened))
                   = [kept]).
    { apply (filter_values_unique (childIs c) _ c kept Hnd E).
      - unfold childIs. rewrite Hc. apply String.eqb_refl.
      - intros k' v Hg Hk'. destruct (Hkept _ _ Hg) as (Hv & _).
        unfold childIs. rewrite Hv. apply String.eqb_neq. exact Hk'. }
    exists kept. split; [exact Hin |]. split; [exact Hc |]. split; [exact Hone |].
    split.
    - intros e He Hce. split; [apply Hmin; assumption |].
      intros Hne. apply strLt_total; [apply Hmin; assumption | exact Hne].
    - apply Permutation_length_1_inv. rewrite <- Hone.
      apply Permutation_filter_pred, Permutation_sym, jsSort_perm. }
  split; [| split].
  - intros flattened c Hc.
    destruct (Hmap flattened c Hc) as (kept & Hin & Hk & Hone & Hlow & Hsorted).
    exists kept. split; [exact Hin |]. split; [exact Hk |]. split; [exact Hone |].
    split; [exact Hlow |]. intros limit limited. subst limited. split.
    + unfold Engine.limitedOf.
      destruct (filter_firstn_prefix (childIs c) (Z.to_nat limit)
                  (jsSort (Engine.entryOrder localeCompare)
                     (JsMap.values (Engine.uniqueByChild flattened))))
        as (rest & Hsplit).
      rewrite Hsorted in Hsplit.
      destruct (filter (childIs c) (firstn _ _)) as [| x xs]; [right; reflexivity |].
      left. injection Hsplit as <- Hrest.
      destruct xs; [reflexivity | discriminate Hrest].
    + intros Hlen. rewrite limitedOf_uncut by exact Hlen. exact Hsorted.
  - intros depth limit side r log sets log' Hlimit Hr Ha Hsets flattened accepted.
    pose proof (LevelOf_parents _ _ _ _ _ _ _ Hlimit Hr Ha) as Hps.
    assert (Hlen : (List.length (concat sets) <= Z.to_nat limit)%nat)
      by (eapply level_proposals; eassumption).
    fold flattened in Hlen.
    split; [| split; [exact Hlen |]].
    + intros st. unfold Engine.expandLevel. rewrite Ha. cbn [negb].
      unfold bind. rewrite Hsets. reflexivity.
    + intros c Hc.
      destruct (Hmap flattened c Hc) as (kept & Hin & Hk & _ & Hlow & Hsorted).
      exists kept. split; [exact Hin |]. split; [exact Hk |]. split; [| exact Hlow].
      unfold accepted. rewrite limitedOf_uncut by exact Hlen. exact Hsorted.
  - intros depth limit schedule st cid log st1 r log1 st2 c log2 x log3 Hr Hc Hall.
    apply (resumeAll_levels _ _ _ _ _ _ _ _ _ _) in Hall; [exact Hall | |];
      cbn [Engine.referencesRun Engine.citedByRun].
    + eapply LevelOf_first. exact Hr.
    + eapply LevelOf_first. exact Hc.
Qed.

Definition sampleStart : Engine.Store :=
  Engine.addNode Sample.computeNodeSize Engine.emptyStore Sample.seed center 0.

Definition idleRun : Engine.SideRun :=
  {| Engine.level := 0; Engine.parents := []; Engine.active := false |}.

(** The references side of the sample run when it enters its first level,
    and when it enters its second. *)
Definition levelOne : Engine.SideRun :=
  Eval vm_compute in
    match fst (Engine.enterLevel Sample.upstream 2 sampleStart 1 [Sample.C] []) with
    | Returned (_, r) => r
    | Thrown _ => idleRun
    end.

Definition levelTwo : Engine.SideRun :=
  Eval vm_compute in
    match fst (Engine.expandLevel Sample.localeCompare Sample.computeNodeSize
                 Sample.upstream 2 20 references sampleStart levelOne []) with
    | Returned (_, r) => r
    | Thrown _ => idleRun
    end.

(** What the three parents of the second level propose: [A] and [B] both
    propose [D]. *)
Definition levelTwoSets : list (list Engine.Entry) :=
  Eval vm_compute in
    match fst (promiseAll
                 (Engine.expandParent Sample.localeCompare Sample.upstream references
                    (Engine.perParentLimitOf 20 (List.length (Engine.parents levelTwo))))
                 (Engine.parents levelTwo) []) with
    | Returned sets => sets
    | Thrown _ => []
    end.

Lemma levelTwo_reached :
  LevelOf Sample.localeCompare Sample.computeNodeSize Sample.upstream 2 20
    references levelTwo.
Proof.
  eapply LevelOf_next with (st := sampleStart) (r := levelOne) (log := []).
  - eapply LevelOf_first with (st := sampleStart) (centerId := Sample.C) (log := []).
    vm_compute. reflexivity.
  - vm_compute. reflexivity.
Qed.

Lemma levelTwoSets_run :
  promiseAll
    (Engine.expandParent Sample.localeCompare Sample.upstream references
       (Engine.perParentLimitOf 20 (List.length (Engine.parents levelTwo))))
    (Engine.parents levelTwo) []
  = (Returned levelTwoSets,
     [FilterOpenAlexId [Sample.D] 1; FilterOpenAlexId [Sample.D; Sample.C] 2]).
Proof. vm_compute. reflexivity. Qed.

Lemma levelOne_entered :
  Engine.enterLevel Sample.upstream 2 sampleStart 1 [Sample.C] []
  = (Returned (sampleStart, levelOne), []).
Proof. vm_compute. reflexivity. Qed.

(** The two sides of the sample run once the first level of the
    references side has completed. *)
Definition levelOneDone : Outcome Engine.Expansion * list Request :=
  Eval vm_compute in
    Engine.resumeAll Sample.localeCompare Sample.computeNodeSize Sample.upstream 2 20
      [references]
      {| Engine.store := sampleStart; Engine.referencesRun := levelOne;
         Engine.citedByRun := levelOne |} [].

Definition afterLevelOne : Engine.Expansion :=
  match fst levelOneDone with
  | Returned x => x
  | Thrown _ => {| Engine.store := sampleStart; Engine.referencesRun := idleRun;
                   Engine.citedByRun := idleRun |}
  end.

Lemma afterLevelOne_run :
  Engine.resumeAll Sample.localeCompare Sample.computeNodeSize Sample.upstream 2 20
    [references]
    {| Engine.store := sampleStart; Engine.referencesRun := levelOne;
       Engine.citedByRun := levelOne |} []
  = (Returned afterLevelOne, snd levelOneDone).
Proof. vm_compute. reflexivity. Qed.

Lemma uniqueByChild_keeps_lowest_parent_witness :
  let viaA := {| Engine.parent := Sample.workOf Sample.A 1990 50;
                 Engine.child := Sample.workOf Sample.D 1980 10 |} in
  let viaB := {| Engine.parent := Sample.workOf Sample.B 1995 50;
                 Engine.child := Sample.workOf Sample.D 1980 10 |} in
  let accepted := Engine.limitedOf Sample.localeCompare 20 (concat levelTwoSets) in
  (exists kept,
      In kept [viaB; viaA] /\ childId kept = Sample.D
      /\ filter (childIs Sample.D) (JsMap.values (Engine.uniqueByChild [viaB; viaA]))
         = [kept]
      /\ strLt (parentId viaB) (parentId kept) = false
      /\ strLt (parentId viaA) (parentId kept) = false
      /\ filter (childIs Sample.D) (Engine.limitedOf Sample.localeCompare 2 [viaB; viaA])
         = [kept])
  /\ (forall st,
        Engine.expandLevel Sample.localeCompare Sample.computeNodeSize Sample.upstream
          2 20 references st levelTwo []
        = (let '(st1, nextFrontier) :=
             Engine.commitLevel Sample.computeNodeSize st JsSet.empty references
               (Engine.level levelTwo) accepted in
           Engine.enterLevel Sample.upstream 2 st1 (Engine.level levelTwo + 1)
             nextFrontier)
            [FilterOpenAlexId [Sample.D] 1; FilterOpenAlexId [Sample.D; Sample.C] 2])
  /\ (List.length (concat levelTwoSets) <= 20)%nat
  /\ (exists kept,
        In kept (concat levelTwoSets) /\ childId kept = Sample.D
        /\ filter (childIs Sample.D) accepted = [kept]
        /\ parentId kept = Sample.A
        /\ map parentId (filter (childIs Sample.D) (concat levelTwoSets))
           = [Sample.A; Sample.B])
  /\ Engine.referencesRun afterLevelOne = levelTwo
  /\ LevelOf Sample.localeCompare Sample.computeNodeSize Sample.upstream 2 20
       references (Engine.referencesRun afterLevelOne)
  /\ LevelOf Sample.localeCompare Sample.computeNodeSize Sample.upstream 2 20
       cited_by (Engine.citedByRun afterLevelOne).
Proof.
  intros viaA viaB accepted.
  destruct (uniqueByChild_keeps_lowest_parent Sample.localeCompare
              Sample.computeNodeSize Sample.upstream) as (Hmap & Hlevel & Hall).
  split.
  - destruct (Hmap [viaB; viaA] Sample.D) as (kept & Hin & Hc & Hone & Hlow & Hcut).
    + exists viaB. split; [left; reflexivity | reflexivity].
    + exists kept. split; [exact Hin |]. split; [exact Hc |]. split; [exact Hone |].
      split; [| split].
      * apply (Hlow viaB); [left; reflexivity | reflexivity].
      * apply (Hlow viaA); [right; left; reflexivity | reflexivity].
      * apply (Hcut 2). cbn. lia.
  - destruct (Hlevel 2 20 references levelTwo [] levelTwoSets _
                ltac:(lia) levelTwo_reached eq_refl levelTwoSets_run)
      as (Hcommit & Hlen & Hkept).
    split; [exact Hcommit |]. split; [exact Hlen |]. split.
    + destruct (Hkept Sample.D) as (kept & Hin & Hc & Hone & Hlow).
      * eexists. split; [left; reflexivity | reflexivity].
      * exists kept. split; [exact Hin |]. split; [exact Hc |]. split; [exact Hone |].
        split; [| reflexivity].
        vm_compute in Hone. injection Hone as <-. reflexivity.
    + split; [reflexivity |].
      exact (Hall 2 20 [references] sampleStart Sample.C [] sampleStart levelOne []
               sampleStart levelOne [] afterLevelOne (snd levelOneDone)
               levelOne_entered levelOne_entered afterLevelOne_run).
Defined.

(* ===================================================================== *)
(** ** Reachability from the centre *)
(* ===================================================================== *)

(** An id is reachable from [a] when a chain of links, each followed from
    its source to its target, leads from [a] to it. *)
Inductive Reachable (links : list Link.t) (a : string) : string -> Prop :=
| Reachable_here : Reachable links a a
| Reachable_step b link :
    Reachable links a b -> In link links -> Link.source link = b ->
    Reachable links a (Link.target link).

Lemma Reachable_Connected links a b : Reachable links a b -> Connected links a b.
Proof.
  induction 1 as [| b link _ IH Hin Hsrc]; [apply Connected_here |].
  eapply Connected_forth; eassumption.
Qed.

Lemma Reachable_incl links links' a b :
  (forall link, In link links -> In link links') ->
  Reachable links a b -> Reachable links' a b.
Proof.
  intros Hincl. induction 1 as [| b link _ IH Hin Hsrc]; [apply Reachable_here |].
  eapply Reachable_step; [exact IH | apply Hincl; exact Hin | exact Hsrc].
Qed.

(** [s.includes(c)] for one character. *)
Fixpoint includesChar (c : ascii) (s : string) : bool :=
  match s with
  | EmptyString => false
  | String x r => Ascii.eqb x c || includesChar c r
  end.

(** The key [`${source}->${target}:${type}`] tells the links between the
    provider's records apart: two pairs of served ids with one key are the
    same pair. *)
Definition DistinctKeys (upstream : Request -> Response) : Prop :=
  forall p c p' c' type type',
    Served upstream p -> Served upstream c ->
    Served upstream p' -> Served upstream c' ->
    linkKey (Work.id p) (Work.id c) type = linkKey (Work.id p') (Work.id c') type' ->
    Work.id p = Work.id p' /\ Work.id c = Work.id c'.

(** The provider's ids hold no [>], as the ids of OpenAlex
    ([https://openalex.org/W...]) do not. *)
Definition PlainIds (upstream : Request -> Response) : Prop :=
  forall w, Served upstream w -> includesChar ">" (Work.id w) = false.

Lemma arrow_split (s s' r r' : string) :
  includesChar ">" s = false -> includesChar ">" s' = false ->
  (s ++ "->" ++ r)%string = (s' ++ "->" ++ r')%string ->
  s = s'.
Proof.
  revert s'. induction s as [| x s IH]; intros [| y s'] Hs Hs' H; cbn in H.
  - reflexivity.
  - exfalso. injection H as <- H. destruct s' as [| z s'']; cbn in H.
    + discriminate H.
    + injection H as <- _. cbn in Hs'. discriminate Hs'.
  - exfalso. injection H as -> H. destruct s as [| z s'']; cbn in H.
    + discriminate H.
    + injection H as -> _. cbn in Hs. discriminate Hs.
  - injection H as <- H. f_equal. cbn in Hs, Hs'.
    apply orb_false_iff in Hs. apply orb_false_iff in Hs'.
    apply IH; tauto.
Qed.

(** Between ids without [>], a key belongs to one link only. *)
Lemma linkKey_plain source target type source' target' type' :
  includesChar ">" source = false -> includesChar ">" source' = false ->
  linkKey source target type = linkKey source' target' type' ->
  source = source' /\ target = target' /\ type = type'.
Proof.
  intros Hs Hs' H.
  assert (E : source = source') by (eapply arrow_split; eassumption).
  subst source'. split; [reflexivity |]. eapply linkKey_same_source. exact H.
Qed.

Lemma plain_ids_distinct_keys upstream : PlainIds upstream -> DistinctKeys upstream.
Proof.
  intros Hplain p c p' c' type type' Hp Hc Hp' Hc' Hkey.
  apply linkKey_plain in Hkey; [tauto | apply Hplain; exact Hp | apply Hplain; exact Hp'].
Qed.

Lemma addLink_values m source target type direction link :
  In link (JsMap.values m) ->
  In link (JsMap.values (addLink m source target type direction)).
Proof.
  unfold addLink, JsMap.has.
  destruct (JsMap.get m (linkKey source target type)) eqn:E; [auto |].
  rewrite (JsMap_set_fresh _ _ _ E). unfold JsMap.values. rewrite map_app.
  intros H. apply in_or_app. left. exact H.
Qed.

Lemma get_values {V : Type} (m : JsMap.t V) k v :
  JsMap.get m k = Some v -> In v (JsMap.values m).
Proof.
  intros H. apply JsMapFacts.In_values. exists k. apply JsMapFacts.get_In. exact H.
Qed.

Section Roots.
Variable localeCompare : string -> string -> JsNumber.
Variable computeNodeSize : Z -> Z.
Variable upstream : Request -> Response.

Local Abbreviation Served := (Served upstream).
Local Abbreviation written := (foldOps computeNodeSize).
Local Abbreviation write := (applyOp computeNodeSize).

Definition isNode (st : Engine.Store) (k : string) : Prop :=
  JsMap.get (Engine.nodeMap st) k <> None.

(** A pair the loop over [limited] may commit on top of [st]: two served
    records that passed the temporal filter, the parent already a node. *)
Definition PairOk (st : Engine.Store) (op : Op) : Prop :=
  Served (Engine.parent (opEntry op)) /\ Served (Engine.child (opEntry op))
  /\ Engine.isTemporallyConsistent (Work.year (Engine.parent (opEntry op)))
       (Work.year (Engine.child (opEntry op))) (opSide op) = true
  /\ isNode st (parentId (opEntry op)).

(** What the writes keep true of a store grown from the centre [cid]:
    every node carries the year of a served record with its id; every link
    is filed under its own key and joins two nodes, standing for two served
    records that passed the temporal filter; and, when no two links share
    a key, every node is reachable from the centre. *)
Record Rooted (cid : string) (st : Engine.Store) : Prop := {
  rooted_keys : NoDup (JsMap.keys (Engine.linkMap st));
  rooted_years : forall k n, JsMap.get (Engine.nodeMap st) k = Some n ->
      exists w, Served w /\ Work.id w = k /\ Node.year n = Work.year w;
  rooted_links : forall key link, JsMap.get (Engine.linkMap st) key = Some link ->
      key = keyOfLink link
      /\ isNode st (Link.source link) /\ isNode st (Link.target link)
      /\ exists p c,
           Served p /\ Served c
           /\ Work.id p = Link.source link /\ Work.id c = Link.target link
           /\ Engine.isTemporallyConsistent (Work.year p) (Work.year c)
                (Link.type link) = true;
  rooted_nodes : DistinctKeys upstream ->
      forall k, isNode st k -> Reachable (JsMap.values (Engine.linkMap st)) cid k
}.

Lemma isNode_applyOp st side level entry k :
  isNode (write st (side, level, entry)) k <-> childId entry = k \/ isNode st k.
Proof.
  unfold isNode. rewrite nodeMap_applyOp, JsMapFacts.get_set.
  destruct (String.eqb_spec (childId entry) k) as [E | Hne].
  - split; [auto | discriminate].
  - split; [auto | intros [E | H]; [contradiction | exact H]].
Qed.

Lemma PairOk_kept st op op' : PairOk st op' -> PairOk (write st op) op'.
Proof.
  intros (Hp & Hc & Hok & Hn). destruct op as [[side level] entry].
  repeat split; try assumption. apply isNode_applyOp. right. exact Hn.
Qed.

Lemma applyOp_Rooted cid st op :
  Rooted cid st -> PairOk st op -> Rooted cid (write st op).
Proof.
  intros [Hkeys Hyears Hlinks Hnodes] (Hp & Hc & Hok & Hn).
  destruct op as [[side level] entry]. cbn [opEntry opSide fst snd] in *.
  assert (Hget : forall key link,
             JsMap.get (Engine.linkMap (write st (side, level, entry))) key = Some link ->
             JsMap.get (Engine.linkMap st) key = Some link
             \/ (JsMap.get (Engine.linkMap st) key = None
                 /\ key = linkKey (parentId entry) (childId entry) side
                 /\ link = {| Link.source := parentId entry;
                              Link.target := childId entry;
                              Link.type := side;
                              Link.direction := Engine.sideOf side |})).
  { intros key link. rewrite linkMap_applyOp, get_addLink.
    destruct (String.eqb_spec (linkKey (parentId entry) (childId entry) side) key)
      as [<- | Hne]; [| auto].
    destruct (JsMap.get (Engine.linkMap st) _) as [old |] eqn:Eo; [auto |].
    intros H. injection H as <-. right. auto. }
  constructor.
  - rewrite linkMap_applyOp. unfold addLink.
    destruct (JsMap.has _ _); [exact Hkeys | apply JsMapFacts.NoDup_keys_set, Hkeys].
  - intros k n. rewrite nodeMap_applyOp, JsMapFacts.get_set.
    destruct (String.eqb_spec (childId entry) k) as [<- | Hne]; [| apply Hyears].
    intros H. injection H as <-. exists (Engine.child entry).
    split; [exact Hc |]. split; reflexivity.
  - intros key link Hlink. apply Hget in Hlink.
    destruct Hlink as [Hold | (_ & -> & ->)].
    + destruct (Hlinks _ _ Hold) as (Hkey & Hs & Ht & Hrec).
      split; [exact Hkey |].
      split; [apply isNode_applyOp; right; exact Hs |].
      split; [apply isNode_applyOp; right; exact Ht | exact Hrec].
    + cbn [Link.source Link.target Link.type]. split; [reflexivity |].
      split; [apply isNode_applyOp; right; exact Hn |].
      split; [apply isNode_applyOp; left; reflexivity |].
      exists (Engine.parent entry), (Engine.child entry). auto 10.
  - intros Hdistinct k Hk.
    assert (Hincl : forall link,
               In link (JsMap.values (Engine.linkMap st)) ->
               In link (JsMap.values (Engine.linkMap (write st (side, level, entry))))).
    { intros link. rewrite linkMap_applyOp. apply addLink_values. }
    apply isNode_applyOp in Hk. destruct Hk as [<- | Hk].
    2:{ eapply Reachable_incl; [exact Hincl | apply Hnodes; assumption]. }
    assert (Hparent : Reachable
                        (JsMap.values (Engine.linkMap (write st (side, level, entry))))
                        cid (parentId entry))
      by (eapply Reachable_incl; [exact Hincl | apply Hnodes; assumption]).
    assert (Hlink : exists link,
               JsMap.get (Engine.linkMap (write st (side, level, entry)))
                 (linkKey (parentId entry) (childId entry) side) = Some link).
    { rewrite linkMap_applyOp, get_addLink, String.eqb_refl.
      destruct (JsMap.get (Engine.linkMap st) _); eauto. }
    destruct Hlink as (link & Hlink).
    assert (Hends : Link.source link = parentId entry
                    /\ Link.target link = childId entry).
    { destruct (Hget _ _ Hlink) as [Hold | (_ & _ & ->)]; [| split; reflexivity].
      destruct (Hlinks _ _ Hold) as (Hkey & _ & _ & p & c & Hsp & Hsc & Ep & Ec & _).
      unfold keyOfLink in Hkey. rewrite <- Ep, <- Ec in Hkey |- *.
      unfold parentId, childId in Hkey |- *.
      apply (Hdistinct _ _ _ _ _ _ Hp Hc Hsp Hsc) in Hkey. split; symmetry; tauto. }
    destruct Hends as [Hsrc Htgt]. rewrite <- Htgt.
    eapply Reachable_step; [exact Hparent | eapply get_values; exact Hlink | exact Hsrc].
Qed.

Lemma foldOps_Rooted cid ops :
  forall st,
    Rooted cid st -> Forall (PairOk st) ops ->
    Rooted cid (written st ops)
    /\ (forall k, isNode st k -> isNode (written st ops) k)
    /\ (forall op, In op ops -> isNode (written st ops) (childId (opEntry op))).
Proof.
  induction ops as [| op ops IH]; intros st Hst Hops; cbn [foldOps fold_left].
  - split; [exact Hst |]. split; [auto | intros op []].
  - inversion Hops as [| ? ? Hop Hrest]; subst.
    assert (Hrest' : Forall (PairOk (write st op)) ops).
    { rewrite Forall_forall in Hrest |- *. intros op' Hin.
      apply PairOk_kept, Hrest, Hin. }
    destruct (IH _ (applyOp_Rooted _ _ _ Hst Hop) Hrest') as (Hr & Hkeep & Hnew).
    fold (foldOps computeNodeSize (write st op) ops).
    split; [exact Hr |]. split.
    + intros k Hk. apply Hkeep. destruct op as [[side level] entry].
      apply isNode_applyOp. right. exact Hk.
    + intros op' [<- | Hin]; [| apply Hnew; exact Hin].
      apply Hkeep. destruct op as [[side level] entry].
      apply isNode_applyOp. left. reflexivity.
Qed.

(** The parents a side holds are served records that are nodes. *)
Definition ParentsIn (st : Engine.Store) (r : Engine.SideRun) : Prop :=
  forall p, In (Some p) (Engine.parents r) -> Served p /\ isNode st (Work.id p).

Lemma In_concat_sets {A B : Type} (R : A -> list B -> Prop) xs sets y :
  Forall2 R xs sets -> In y (concat sets) ->
  exists x set, In x xs /\ R x set /\ In y set.
Proof.
  induction 1 as [| x set xs sets Hx _ IH]; cbn [concat]; [intros [] |].
  intros Hin. apply in_app_or in Hin. destruct Hin as [Hin | Hin].
  - exists x, set. split; [left; reflexivity | auto].
  - destruct (IH Hin) as (x' & set' & Hx' & HR & Hy).
    exists x', set'. split; [right; exact Hx' | auto].
Qed.

(** The pairs a level accepts: each joins one of the level's parents to a
    served child that passed the temporal filter against it. *)
Lemma levelEntries_pairs side limit ps log limited log' :
  levelEntries localeCompare upstream side limit ps log = (Returned limited, log') ->
  forall e, In e limited ->
    In (Some (Engine.parent e)) ps /\ Served (Engine.child e)
    /\ Engine.isTemporallyConsistent (Work.year (Engine.parent e))
         (Work.year (Engine.child e)) side = true.
Proof.
  intros H e He.
  destruct (levelEntries_props _ _ _ _ _ _ _ _ H) as [_ Hserved].
  unfold levelEntries in H. fetch_bind H as sets log1 Hsets H. fetch_ret H as E.
  pose proof (proj2 (limitedOf_props localeCompare limit (concat sets)) e He) as Hfl.
  apply promiseAll_each in Hsets.
  destruct (In_concat_sets _ _ _ _ Hsets Hfl) as (p & set & Hp & (l1 & l2 & Hrun) & Hin).
  apply expandParent_entries in Hrun. destruct Hrun as [_ Hrun].
  destruct (Hrun e Hin) as [-> Hok].
  split; [exact Hp |]. split; [| exact Hok].
  apply Hserved. exact He.
Qed.
Section Growth.
Variable depth limit : Z.

(** One level of a side, on a store both sides write to. *)
Lemma levelStep_rooted cid side r st log ops r' log' :
  Rooted cid st -> ParentsIn st r ->
  levelStep localeCompare upstream depth limit side r log = (Returned (ops, r'), log') ->
  Rooted cid (written st ops) /\ ParentsIn (written st ops) r'
  /\ (forall k, isNode st k -> isNode (written st ops) k).
Proof.
  intros Hst Hps. unfold levelStep.
  destruct (Engine.active r) eqn:Ea; cbn [negb]; intros H.
  2:{ fetch_ret H as E. injection E as <- <-. cbn. auto. }
  fetch_bind H as limited log1 Hl H. fetch_ret H as E. injection E as <- <-.
  pose proof (levelEntries_pairs _ _ _ _ _ _ Hl) as Hpairs.
  assert (Hops : Forall (PairOk st) (opsOf side (Engine.level r) limited)).
  { apply Forall_forall. intros op Hop. unfold opsOf in Hop.
    apply in_map_iff in Hop. destruct Hop as (e & <- & He).
    destruct (Hpairs e He) as (Hp & Hc & Hok).
    destruct (Hps _ Hp) as [Hsp Hnp].
    split; [exact Hsp |]. split; [exact Hc |]. split; [exact Hok | exact Hnp]. }
  destruct (foldOps_Rooted cid _ st Hst Hops) as (Hr & Hkeep & Hnew).
  split; [exact Hr |]. split; [| exact Hkeep].
  unfold ParentsIn, nextRun.
  destruct ((Engine.level r + 1 <=? depth)
            && negb (Nat.eqb (List.length limited) 0));
    cbn [Engine.parents]; [| intros p []].
  intros p Hp. apply in_map_iff in Hp. destruct Hp as (e & E & He).
  injection E as <-. split; [apply (Hpairs e He) |].
  apply (Hnew (side, Engine.level r, e)). unfold opsOf.
  apply in_map. exact He.
Qed.

(** Where the two calls of [expandSide] stand. *)
Definition Grown (cid : string) (x : Engine.Expansion) : Prop :=
  Rooted cid (Engine.store x)
  /\ ParentsIn (Engine.store x) (Engine.referencesRun x)
  /\ ParentsIn (Engine.store x) (Engine.citedByRun x).

Lemma ParentsIn_kept st st' r :
  (forall k, isNode st k -> isNode st' k) -> ParentsIn st r -> ParentsIn st' r.
Proof.
  intros Hkeep Hr p Hp. destruct (Hr p Hp) as [Hs Hn]. split; [exact Hs | auto].
Qed.

Lemma resume_grown cid side x log x' log' :
  Grown cid x ->
  Engine.resume localeCompare computeNodeSize upstream depth limit side x log
    = (Returned x', log') ->
  Grown cid x'.
Proof.
  intros (Hst & Hr & Hc). rewrite resume_normal. intros H.
  fetch_bind H as [ops r'] log1 Hstep H. fetch_ret H as E.
  destruct side; cbn [sideRun] in Hstep;
    cbn [afterStep fst snd];
    unfold Grown; cbn [Engine.store Engine.referencesRun Engine.citedByRun].
  - destruct (levelStep_rooted cid _ _ _ _ _ _ _ Hst Hr Hstep) as (Hst' & Hr' & Hkeep).
    split; [exact Hst' |]. split; [exact Hr' |].
    eapply ParentsIn_kept; eassumption.
  - destruct (levelStep_rooted cid _ _ _ _ _ _ _ Hst Hc Hstep) as (Hst' & Hc' & Hkeep).
    split; [exact Hst' |]. split; [| exact Hc'].
    eapply ParentsIn_kept; eassumption.
Qed.

Lemma resumeAll_grown cid schedule :
  forall x log x' log',
    Grown cid x ->
    Engine.resumeAll localeCompare computeNodeSize upstream depth limit schedule x log
      = (Returned x', log') ->
    Grown cid x'.
Proof.
  induction schedule as [| side rest IH]; intros x log x' log' Hx H;
    cbn [Engine.resumeAll] in H.
  - fetch_ret H as E. exact Hx.
  - fetch_bind H as x1 log1 Hstep H.
    eapply IH; [| exact H]. eapply resume_grown; eassumption.
Qed.

Lemma initial_Rooted centerWork :
  Served centerWork ->
  Rooted (Work.id centerWork)
    (Engine.addNode computeNodeSize Engine.emptyStore centerWork center 0).
Proof.
  intros Hs.
  assert (Hnodes : forall k,
             JsMap.get (Engine.nodeMap
                          (Engine.addNode computeNodeSize Engine.emptyStore
                             centerWork center 0)) k
             = if String.eqb (Work.id centerWork) k
               then Some (nodeFor computeNodeSize None centerWork center 0)
               else None).
  { intros k. unfold Engine.addNode. cbv zeta. rewrite nodeMap_cacheWork.
    reflexivity. }
  constructor.
  - rewrite linkMap_addNode. constructor.
  - intros k n. rewrite Hnodes.
    destruct (String.eqb_spec (Work.id centerWork) k) as [<- | _]; [| discriminate].
    intros H. injection H as <-. exists centerWork. auto.
  - intros key link. rewrite linkMap_addNode. discriminate.
  - intros _ k. unfold isNode. rewrite Hnodes.
    destruct (String.eqb_spec (Work.id centerWork) k) as [<- | _];
      [intros _; apply Reachable_here | intros H; contradiction].
Qed.

(** The store [expandBothSides] leaves behind. *)
Lemma expandBothSides_rooted schedule centerWork log st' log' :
  Served centerWork ->
  Engine.expandBothSides localeCompare computeNodeSize upstream depth limit
    schedule (Engine.addNode computeNodeSize Engine.emptyStore centerWork center 0)
    (Work.id centerWork) log = (Returned st', log') ->
  Rooted (Work.id centerWork) st'.
Proof.
  intros Hs.
  set (st0 := Engine.addNode computeNodeSize Engine.emptyStore centerWork center 0).
  pose proof (initial_cached computeNodeSize upstream centerWork Hs) as Hcached.
  fold st0 in Hcached.
  rewrite expandBothSides_normal by (rewrite Hcached; discriminate).
  intros H. fetch_bind H as x log1 Hall H. fetch_ret H as E.
  apply (resumeAll_grown (Work.id centerWork)) in Hall; [apply Hall |].
  assert (Hstart : ParentsIn st0 (startRun depth st0 1 [Work.id centerWork])).
  { unfold ParentsIn, startRun.
    destruct ((1 <=? depth) && negb (Nat.eqb (List.length [Work.id centerWork]) 0));
      cbn [Engine.parents map]; [| intros p []].
    rewrite Hcached. intros p [E | []]. injection E as <-.
    split; [exact Hs |]. unfold isNode, st0, Engine.addNode. cbv zeta.
    rewrite nodeMap_cacheWork. cbn. rewrite String.eqb_refl. discriminate. }
  split; [apply initial_Rooted; exact Hs |]. split; exact Hstart.
Qed.
End Growth.

(** When the provider tells one story about each work, the second look at
    a link sees the years the first look saw: the re-validation drops
    nothing. *)
Lemma revalidation_keeps cid st link :
  Consistent upstream -> Rooted cid st ->
  In link (JsMap.values (Engine.linkMap st)) ->
  Engine.isLinkTemporallyConsistent link (Engine.nodeMap st) = true.
Proof.
  intros Hcons [Hkeys Hyears Hlinks _] Hin.
  destruct (values_get _ _ Hkeys Hin) as (key & Hget).
  destruct (Hlinks _ _ Hget) as (_ & Hs & Ht & p & c & Hsp & Hsc & Ep & Ec & Hok).
  unfold Engine.isLinkTemporallyConsistent. unfold isNode in Hs, Ht.
  destruct (JsMap.get (Engine.nodeMap st) (Link.source link)) as [source |] eqn:Es;
    [| contradiction].
  destruct (JsMap.get (Engine.nodeMap st) (Link.target link)) as [target |] eqn:Et;
    [| contradiction].
  destruct (Hyears _ _ Es) as (ws & Hws & Ews & ->).
  destruct (Hyears _ _ Et) as (wt & Hwt & Ewt & ->).
  rewrite (Hcons ws p Hws Hsp) by congruence.
  rewrite (Hcons wt c Hwt Hsc) by congruence.
  exact Hok.
Qed.
End Roots.

Lemma filter_all {A : Type} (P : A -> bool) (l : list A) :
  (forall x, In x l -> P x = true) -> filter P l = l.
Proof.
  induction l as [| x l IH]; cbn [filter]; intros H; [reflexivity |].
  rewrite (H x) by (left; reflexivity). f_equal. apply IH.
  intros y Hy. apply H. right. exact Hy.
Qed.

(** A node other than [a] that is reachable from [a] is the target of a
    link. *)
Lemma Reachable_target links a b :
  Reachable links a b ->
  b = a \/ exists link, In link links /\ Link.target link = b.
Proof.
  intros H. destruct H as [| b link _ Hin _]; [left; reflexivity |].
  right. exists link. auto.
Qed.

Section Pruning.
Variable localeCompare : string -> string -> JsNumber.
Variable computeNodeSize : Z -> Z.
Variable upstream : Request -> Response.

Local Abbreviation engine := (Engine.buildGraph localeCompare computeNodeSize upstream).

(** C2 as the code has it.  The pruning keeps the centre and the ends of
    the links that survive the re-validation; it follows no chain of links.
    So, for every provider: a returned node is the centre or an end of a
    returned link, the ends of every returned link are returned, and the
    centre is returned.  When the provider serves one record for each id,
    the re-validation drops no link: the returned links are the links the
    expansion stored.  When moreover no two links between the provider's
    records share a key, as is the case when no id holds a [>], the
    pruning removes no node either, and every returned node is reachable
    from the centre along returned links, each followed from its source to
    its target. *)
Theorem nodes_reachable_from_center
    schedule input requestedDepth requestedLimit g log :
  run (engine schedule input requestedDepth requestedLimit) = (Returned g, log) ->
  (forall n, In n (Engine.Graph.nodes g) ->
     Node.id n = Engine.Meta.centerWorkId (Engine.Graph.meta g)
     \/ exists link, In link (Engine.Graph.links g)
                     /\ (Link.source link = Node.id n \/ Link.target link = Node.id n))
  /\ (forall link, In link (Engine.Graph.links g) ->
        (exists n, In n (Engine.Graph.nodes g) /\ Node.id n = Link.source link)
        /\ (exists n, In n (Engine.Graph.nodes g) /\ Node.id n = Link.target link))
  /\ (exists c, In c (Engine.Graph.nodes g)
                /\ Node.id c = Engine.Meta.centerWorkId (Engine.Graph.meta g))
  /\ (Consistent upstream ->
      exists centerWork st log1,
        Engine.expandBothSides localeCompare computeNodeSize upstream
          (GraphParams.depth (parseGraphParams requestedDepth requestedLimit))
          (GraphParams.limit (parseGraphParams requestedDepth requestedLimit))
          schedule
          (Engine.addNode computeNodeSize Engine.emptyStore centerWork center 0)
          (Work.id centerWork) log1
        = (Returned st, log)
        /\ Engine.Graph.links g = JsMap.values (Engine.linkMap st)
        /\ (DistinctKeys upstream ->
            Engine.Graph.nodes g = JsMap.values (Engine.nodeMap st)))
  /\ (Consistent upstream -> DistinctKeys upstream ->
      forall n, In n (Engine.Graph.nodes g) ->
        Reachable (Engine.Graph.links g)
          (Engine.Meta.centerWorkId (Engine.Graph.meta g)) (Node.id n)
        /\ Connected (Engine.Graph.links g)
             (Engine.Meta.centerWorkId (Engine.Graph.meta g)) (Node.id n))
  /\ (PlainIds upstream -> DistinctKeys upstream).
Proof.
  intros H.
  assert (Hkept : Consistent upstream ->
            exists centerWork st log1,
              Engine.expandBothSides localeCompare computeNodeSize upstream
                (GraphParams.depth (parseGraphParams requestedDepth requestedLimit))
                (GraphParams.limit (parseGraphParams requestedDepth requestedLimit))
                schedule
                (Engine.addNode computeNodeSize Engine.emptyStore centerWork center 0)
                (Work.id centerWork) log1
              = (Returned st, log)
              /\ Engine.Meta.centerWorkId (Engine.Graph.meta g) = Work.id centerWork
              /\ Engine.Graph.links g = JsMap.values (Engine.linkMap st)
              /\ (DistinctKeys upstream ->
                  Engine.Graph.nodes g = JsMap.values (Engine.nodeMap st)
                  /\ forall n, In n (Engine.Graph.nodes g) ->
                       Reachable (Engine.Graph.links g) (Work.id centerWork)
                         (Node.id n))).
  { intros Hcons. apply engine_returned in H.
    destruct H as (workId & cw & st & log1 & _ & Hget & Hexp & ->).
    assert (Hserved : Served upstream cw) by (eapply getWorkById_served; exact Hget).
    pose proof (expandBothSides_rooted _ _ _ _ _ _ _ _ _ _ Hserved Hexp) as Hrooted.
    assert (Hnodes : NodesOk (Work.id cw) (Engine.nodeMap st)).
    { apply expandBothSides_evolves in Hexp.
      apply (Evolves_invariant computeNodeSize (Work.id cw) _ _ Hexp).
      - apply initial_NodesOk.
      - rewrite linkMap_addNode. constructor. }
    exists cw, st, log1. split; [exact Hexp |]. split; [reflexivity |].
    assert (Hlinks : Engine.Graph.links
                       (Engine.assemble cw
                          (GraphParams.depth
                             (parseGraphParams requestedDepth requestedLimit))
                          (GraphParams.limit
                             (parseGraphParams requestedDepth requestedLimit)) st)
                     = JsMap.values (Engine.linkMap st)).
    { cbn [Engine.assemble Engine.Graph.links]. apply filter_all.
      intros link Hin. rewrite (stableNodeMap_is_nodeMap _ _ Hnodes).
      eapply revalidation_keeps; eassumption. }
    split; [exact Hlinks |]. intros Hdistinct.
    assert (Hreach : forall n,
               In n (JsMap.values (Engine.nodeMap st)) ->
               Reachable (JsMap.values (Engine.linkMap st)) (Work.id cw) (Node.id n)).
    { intros n Hn.
      destruct (values_get _ _ (nodes_nodup _ _ Hnodes) Hn) as (k & Hk).
      rewrite (nodes_keyed _ _ Hnodes _ _ Hk).
      apply (rooted_nodes _ _ _ Hrooted Hdistinct). unfold isNode. rewrite Hk.
      discriminate. }
    assert (Hall : Engine.Graph.nodes
                     (Engine.assemble cw
                        (GraphParams.depth
                           (parseGraphParams requestedDepth requestedLimit))
                        (GraphParams.limit
                           (parseGraphParams requestedDepth requestedLimit)) st)
                   = JsMap.values (Engine.nodeMap st)).
    { cbn [Engine.assemble Engine.Graph.nodes]. apply filter_all.
      intros n Hn. apply connectedNodeIds_spec.
      destruct (Reachable_target _ _ _ (Hreach n Hn)) as [E | (link & Hin & Ht)];
        [left; exact E | right].
      exists link. split; [| right; exact Ht].
      change (In link (Engine.Graph.links
                         (Engine.assemble cw
                            (GraphParams.depth
                               (parseGraphParams requestedDepth requestedLimit))
                            (GraphParams.limit
                               (parseGraphParams requestedDepth requestedLimit)) st))).
      rewrite Hlinks. exact Hin. }
    split; [exact Hall |]. intros n Hn. rewrite Hall in Hn. rewrite Hlinks.
    apply Hreach. exact Hn. }
  split; [| split; [| split; [| split; [| split; [| apply plain_ids_distinct_keys]]]]].
  - apply engine_returned in H.
    destruct H as (workId & cw & st & log1 & _ & _ & _ & ->).
    intros n Hin. apply assemble_nodes in Hin. destruct Hin as [_ Hin]. exact Hin.
  - apply engine_returned in H.
    destruct H as (workId & cw & st & log1 & _ & _ & _ & ->).
    intros link Hin.
    destruct (assemble_link_ends _ _ _ _ _ Hin) as (s & t & Hs & Ht & Hsid & Htid & _).
    split; [exists s | exists t]; auto.
  - destruct (engine_center_node localeCompare computeNodeSize upstream
                _ _ _ _ _ _ H) as (c & Hf & Hid & _).
    exists c. split; [| exact Hid].
    assert (Hin : In c (filter isCenterSide (Engine.Graph.nodes g)))
      by (rewrite Hf; left; reflexivity).
    apply filter_In in Hin. tauto.
  - intros Hcons.
    destruct (Hkept Hcons) as (cw & st & log1 & Hexp & _ & Hlinks & Hnodes).
    exists cw, st, log1. split; [exact Hexp |]. split; [exact Hlinks |].
    intros Hdistinct. apply Hnodes. exact Hdistinct.
  - intros Hcons Hdistinct n Hn.
    destruct (Hkept Hcons) as (cw & st & log1 & _ & -> & _ & Hnodes).
    destruct (Hnodes Hdistinct) as [_ Hreach].
    split; [apply Hreach; exact Hn | apply Reachable_Connected, Hreach; exact Hn].
Qed.
End Pruning.

(* ===================================================================== *)
(** ** Ids that make two links share a key *)
(* ===================================================================== *)

(** A provider that serves one record for each id, two of them under ids
    that hold [->].  The key of the link from [P] to [Y] is the key of the
    link from the seed to [Q]. *)
Module Collision.
Definition P : string := (Sample.C ++ "->W2000")%string.
Definition Q : string := "W2000->W3000".
Definition Y : string := "W3000".
Definition Z : string := "W4000".

Definition records : list Raw.t :=
  [ Sample.record Sample.C (Some 2000) 100 [P; Q];
    Sample.record P (Some 2000) 10 [Y];
    Sample.record Q (Some 2000) 5 [];
    Sample.record Y (Some 2000) 3 [Z];
    Sample.record Z (Some 2000) 1 [] ].

Definition upstream (req : Request) : Response :=
  match req with
  | FilterOpenAlexId ids _ =>
      if list_eq_dec string_dec ids [Sample.C] then
        Results [Sample.record Sample.C (Some 2000) 100 [P; Q]]
      else if list_eq_dec string_dec ids [Sample.C; Sample.idOf "W2000"] then
        Results [Sample.record P (Some 2000) 10 [Y]; Sample.record Q (Some 2000) 5 []]
      else if list_eq_dec string_dec ids [Sample.idOf "W3000"] then
        Results [Sample.record Y (Some 2000) 3 [Z]]
      else if list_eq_dec string_dec ids [Sample.idOf "W4000"] then
        Results [Sample.record Z (Some 2000) 1 []]
      else Results []
  | FilterCites _ _ _ => Results []
  end.

Definition outcome :=
  Eval vm_compute in
    run (Engine.buildGraph Sample.localeCompare Sample.computeNodeSize upstream
           [] "W1000" (JsString "3") (JsString "20")).

Definition graph : Engine.Graph.t :=
  match fst outcome with Returned g => g | Thrown _ => Sample.emptyGraph end.
End Collision.

Lemma collision_serves req results raw :
  Collision.upstream req = Results results -> In raw results ->
  In raw Collision.records.
Proof.
  destruct req as [ids perPage | id perPage page]; cbn [Collision.upstream].
  - repeat (destruct (list_eq_dec string_dec ids _) as [_ | _]);
      intros E; injection E as <-; cbn [In Collision.records]; tauto.
  - intros E. injection E as <-. intros [].
Qed.

Lemma collision_consistent : Consistent Collision.upstream.
Proof.
  assert (Hworks : forall raw w,
             In raw Collision.records -> OpenAlex.normalizeWork raw = Some w ->
             In (Some w) (map OpenAlex.normalizeWork Collision.records)).
  { intros raw w Hin <-. apply in_map. exact Hin. }
  intros w1 w2 (req1 & rs1 & raw1 & Hup1 & Hin1 & Hn1)
         (req2 & rs2 & raw2 & Hup2 & Hin2 & Hn2) Hid.
  apply (collision_serves _ _ _ Hup1) in Hin1.
  apply (collision_serves _ _ _ Hup2) in Hin2.
  pose proof (Hworks _ _ Hin1 Hn1) as H1.
  pose proof (Hworks _ _ Hin2 Hn2) as H2.
  clear - H1 H2 Hid. vm_compute in H1, H2.
  repeat (destruct H1 as [H1 | H1]; [injection H1 as <- |]); try contradiction;
    repeat (destruct H2 as [H2 | H2]; [injection H2 as <- |]); try contradiction;
    first [reflexivity | discriminate Hid].
Qed.

(** One record for each id is not enough when ids hold [->]: the link from
    [P] to [Y] finds its key taken and is not stored, the link from [Y] to
    [Z] is, and [Y] and [Z] are returned with no chain of links to the
    seed, in either direction. *)
Lemma key_collision_cuts_off_nodes :
  Consistent Collision.upstream
  /\ linkKey Collision.P Collision.Y references
     = linkKey Sample.C Collision.Q references
  /\ Collision.P <> Sample.C
  /\ exists g log n,
       run (Engine.buildGraph Sample.localeCompare Sample.computeNodeSize
              Collision.upstream [] "W1000" (JsString "3") (JsString "20"))
         = (Returned g, log)
       /\ In n (Engine.Graph.nodes g)
       /\ ~ Connected (Engine.Graph.links g)
              (Engine.Meta.centerWorkId (Engine.Graph.meta g)) (Node.id n).
Proof.
  split; [exact collision_consistent |]. split; [reflexivity |].
  split; [discriminate |].
  exists Collision.graph, (snd Collision.outcome).
  eexists. split; [vm_compute; reflexivity |].
  split; [right; right; right; left; reflexivity |].
  assert (Hclosed : forall x,
             Connected (Engine.Graph.links Collision.graph) Sample.C x ->
             x = Sample.C \/ x = Collision.P \/ x = Collision.Q).
  { intros x Hx. induction Hx as [| b link _ IH Hin Hsrc | b link _ IH Hin Htgt].
    - left. reflexivity.
    - destruct Hin as [<- | [<- | [<- | []]]]; cbn in Hsrc |- *;
        [right; left; reflexivity | right; right; reflexivity |].
      subst b. destruct IH as [IH | [IH | IH]]; discriminate IH.
    - destruct Hin as [<- | [<- | [<- | []]]]; cbn in Htgt |- *;
        [left; reflexivity | left; reflexivity |].
      subst b. destruct IH as [IH | [IH | IH]]; discriminate IH. }
  intros Hc. apply Hclosed in Hc. destruct Hc as [Hc | [Hc | Hc]]; discriminate Hc.
Qed.

(** The ids of the sample provider are plain. *)
Lemma sample_plain : PlainIds Sample.upstream.
Proof.
  intros w (req & rs & raw & Hup & Hin & Hn).
  apply (provider_serves _ _ _ _ _ Hup) in Hin.
  assert (H : In (Some w) (map OpenAlex.normalizeWork Sample.records))
    by (rewrite <- Hn; apply in_map; exact Hin).
  clear - H. vm_compute in H.
  repeat (destruct H as [H | H]; [injection H as <-; reflexivity |]).
  contradiction.
Qed.

Lemma nodes_reachable_from_center_witness :
  (forall n, In n (Engine.Graph.nodes Sample.graph) ->
     Node.id n = Engine.Meta.centerWorkId (Engine.Graph.meta Sample.graph)
     \/ exists link, In link (Engine.Graph.links Sample.graph)
                     /\ (Link.source link = Node.id n \/ Link.target link = Node.id n))
  /\ (forall link, In link (Engine.Graph.links Sample.graph) ->
        (exists n, In n (Engine.Graph.nodes Sample.graph) /\ Node.id n = Link.source link)
        /\ (exists n, In n (Engine.Graph.nodes Sample.graph)
                      /\ Node.id n = Link.target link))
  /\ (exists c, In c (Engine.Graph.nodes Sample.graph)
                /\ Node.id c = Engine.Meta.centerWorkId (Engine.Graph.meta Sample.graph))
  /\ (exists st,
        Engine.Graph.links Sample.graph = JsMap.values (Engine.linkMap st)
        /\ Engine.Graph.nodes Sample.graph = JsMap.values (Engine.nodeMap st))
  /\ (forall n, In n (Engine.Graph.nodes Sample.graph) ->
        Reachable (Engine.Graph.links Sample.graph) Sample.C (Node.id n)
        /\ Connected (Engine.Graph.links Sample.graph) Sample.C (Node.id n)).
Proof.
  destruct (nodes_reachable_from_center Sample.localeCompare Sample.computeNodeSize
              Sample.upstream _ _ _ _ _ _ Runs.engine_run)
    as (Hends & Hlinks & Hcenter & Hkept & Hreach & Hplain).
  split; [exact Hends |]. split; [exact Hlinks |]. split; [exact Hcenter |].
  split; [| exact (Hreach sample_consistent (Hplain sample_plain))].
  destruct (Hkept sample_consistent) as (cw & st & log1 & _ & Hl & Hn).
  exists st. split; [exact Hl | exact (Hn (Hplain sample_plain))].
Defined.
